(** * UFOMap [OctreeBase]: a shallow embedding and its verified properties

    The development follows [ufomap/octree_base.h] (class [OctreeBase]) and
    [ufomap/math/vector3.h] (class [Vector3]).  Member functions become Rocq
    functions over an explicit tree state; the recursive member functions
    recurse on the depth argument they carry in the source.

    Numbers.  Log-odds values ([float] in the source) are fixed-point
    integers: a logit [l] is stored as [l * LOGIT_SCALE], and the
    representable logits are the 32-bit integers.  Coordinates, sizes and
    probabilities are rationals.  Rounding is outside the model, and so
    is the narrowing of a [double] to a [float].  The infinities and NaN
    of IEEE arithmetic are outside it too, except in the section on
    log-odds as IEEE values, which repeats the update path with them. *)

From Stdlib Require Import ZArith QArith Qround Qabs Bool List Ascii String.
From Stdlib Require Import Lia Lqa Qfield.
From stdpp Require Import gmap.
Import ListNotations.

Local Open Scope Z_scope.

(** ** Numeric substrate *)

Definition LOGIT_SCALE : Z := 10000.

(** [std::numeric_limits<float>::lowest()] and [max()] for logits. *)
Definition FLT_LOWEST : Z := - 2 ^ 31.
Definition FLT_HIGHEST : Z := 2 ^ 31 - 1.

(** [std::numeric_limits<float>::max()] for ray parameters. *)
Definition FLT_MAX : Q := inject_Z (2 ^ 127).

Definition wrap32 (x : Z) : Z := x mod 2 ^ 32.
Definition wrap64 (x : Z) : Z := x mod 2 ^ 64.

(** [std::clamp(v, lo, hi)]. *)
Definition clamp (v lo hi : Z) : Z :=
  if v <? lo then lo else if hi <? v then hi else v.

Definition Qltb (a b : Q) : bool := negb (Qle_bool b a).

(** [std::sqrt], rounded down to a multiple of [2^-32] (exact on squares of
    such multiples). *)
Definition fsqrt (q : Q) : Q :=
  if Qle_bool q 0 then 0%Q
  else Qred (Z.sqrt (Qnum q * Z.pos (Qden q) * 2 ^ 64) # (Qden q * 2 ^ 32)).

(** Rounding to a multiple of [2^-64], the precision the two series
    below are evaluated with. *)
Definition rnd (q : Q) : Q := Qred (Qfloor (q * inject_Z (2 ^ 64)) # 2 ^ 64).

(** [std::log] by the truncated series
    [log x = 2 * sum_k ((x-1)/(x+1))^(2k+1) / (2k+1)]. *)
Fixpoint log_series (n : nat) (k : Z) (pow y2 : Q) : Q :=
  match n with
  | O => 0%Q
  | S n' => rnd (pow / inject_Z (2 * k + 1)
                 + log_series n' (k + 1) (rnd (pow * y2)) y2)
  end.

(** For an argument that is not positive, where [std::log] answers NaN
    or minus infinity, the value is 0; the section on log-odds as IEEE
    values has the two. *)
Definition flog (x : Q) : Q :=
  if Qle_bool x 0 then 0%Q
  else let y := rnd ((x - 1) / (x + 1)) in
       rnd (2 * log_series 200 0 y (rnd (y * y))).

(** [std::exp] by its truncated Taylor series. *)
Fixpoint exp_series (n : nat) (k : Z) (term x : Q) : Q :=
  match n with
  | O => 0%Q
  | S n' => rnd (term + exp_series n' (k + 1)
                          (rnd (term * x / inject_Z (k + 1))) x)
  end.

Definition fexp (x : Q) : Q := exp_series 60 0 1 x.

(** A stored logit read as a real number, and back. *)
Definition logit_to_real (l : Z) : Q := Qred (inject_Z l / inject_Z LOGIT_SCALE).
Definition real_to_logit (q : Q) : Z := Qfloor (q * inject_Z LOGIT_SCALE).

(** ** [Vector3] (also [Point3]) *)

Record Vector3 := mkVector3 { data0 : Q; data1 : Q; data2 : Q }.
Abbreviation Point3 := Vector3.

Module Vec.
Definition get (v : Vector3) (i : nat) : Q :=
    match i with O => data0 v | 1%nat => data1 v | _ => data2 v end.
Definition set (v : Vector3) (i : nat) (q : Q) : Vector3 :=
    match i with
    | O => mkVector3 q (data1 v) (data2 v)
    | 1%nat => mkVector3 (data0 v) q (data2 v)
    | _ => mkVector3 (data0 v) (data1 v) q
    end.
Definition sub (a b : Vector3) : Vector3 :=
    mkVector3 (Qred (data0 a - data0 b)) (Qred (data1 a - data1 b))
              (Qred (data2 a - data2 b)).
Definition add (a b : Vector3) : Vector3 :=
    mkVector3 (Qred (data0 a + data0 b)) (Qred (data1 a + data1 b))
              (Qred (data2 a + data2 b)).
Definition scale (a : Vector3) (k : Q) : Vector3 :=
    mkVector3 (Qred (data0 a * k)) (Qred (data1 a * k)) (Qred (data2 a * k)).
Definition div (a : Vector3) (k : Q) : Vector3 :=
    mkVector3 (Qred (data0 a / k)) (Qred (data1 a / k)) (Qred (data2 a / k)).
Definition eqb (a b : Vector3) : bool :=
    Qeq_bool (data0 a) (data0 b) && Qeq_bool (data1 a) (data1 b)
    && Qeq_bool (data2 a) (data2 b).
Definition squaredNorm (a : Vector3) : Q :=
    (data0 a * data0 a + data1 a * data1 a + data2 a * data2 a)%Q.
Definition norm (a : Vector3) : Q := fsqrt (squaredNorm a).
Definition normalize (a : Vector3) : Vector3 := div a (norm a).
Definition distance (a b : Vector3) : Q :=
    let x := (data0 a - data0 b)%Q in
    let y := (data1 a - data1 b)%Q in
    let z := (data2 a - data2 b)%Q in
    fsqrt (x * x + y * y + z * z).
Definition qmin (a b : Q) : Q := if Qltb b a then b else a.
Definition min (a : Vector3) : Q := qmin (qmin (data0 a) (data1 a)) (data2 a).
Definition minElementIndex (a : Vector3) : nat :=
    if Qle_bool (data0 a) (data1 a)
    then (if Qle_bool (data0 a) (data2 a) then 0 else 2)%nat
    else (if Qle_bool (data1 a) (data2 a) then 1 else 2)%nat.
End Vec.

(** ** Blocks of eight children *)

Record Oct (A : Type) := mkOct
  { c0 : A; c1 : A; c2 : A; c3 : A; c4 : A; c5 : A; c6 : A; c7 : A }.
Arguments mkOct {A}.
Arguments c0 {A}.
Arguments c1 {A}.
Arguments c2 {A}.
Arguments c3 {A}.
Arguments c4 {A}.
Arguments c5 {A}.
Arguments c6 {A}.
Arguments c7 {A}.

Module oct.
Section Ops.
Context {A B S : Type}.
Definition get (i : nat) (o : Oct A) : A :=
      match i with
      | 0 => c0 o | 1 => c1 o | 2 => c2 o | 3 => c3 o
      | 4 => c4 o | 5 => c5 o | 6 => c6 o | _ => c7 o
      end%nat.
Definition set (i : nat) (a : A) (o : Oct A) : Oct A :=
      match i with
      | 0 => mkOct a (c1 o) (c2 o) (c3 o) (c4 o) (c5 o) (c6 o) (c7 o)
      | 1 => mkOct (c0 o) a (c2 o) (c3 o) (c4 o) (c5 o) (c6 o) (c7 o)
      | 2 => mkOct (c0 o) (c1 o) a (c3 o) (c4 o) (c5 o) (c6 o) (c7 o)
      | 3 => mkOct (c0 o) (c1 o) (c2 o) a (c4 o) (c5 o) (c6 o) (c7 o)
      | 4 => mkOct (c0 o) (c1 o) (c2 o) (c3 o) a (c5 o) (c6 o) (c7 o)
      | 5 => mkOct (c0 o) (c1 o) (c2 o) (c3 o) (c4 o) a (c6 o) (c7 o)
      | 6 => mkOct (c0 o) (c1 o) (c2 o) (c3 o) (c4 o) (c5 o) a (c7 o)
      | _ => mkOct (c0 o) (c1 o) (c2 o) (c3 o) (c4 o) (c5 o) (c6 o) a
      end%nat.
Definition to_list (o : Oct A) : list A :=
      [c0 o; c1 o; c2 o; c3 o; c4 o; c5 o; c6 o; c7 o].
Definition replicate (a : A) : Oct A := mkOct a a a a a a a a.
Definition map (f : A -> B) (o : Oct A) : Oct B :=
      mkOct (f (c0 o)) (f (c1 o)) (f (c2 o)) (f (c3 o))
            (f (c4 o)) (f (c5 o)) (f (c6 o)) (f (c7 o)).
    (** A [for] loop over the eight children, in index order, threading
        a state. *)
Definition mapS (f : nat -> A -> S -> B * S) (o : Oct A) (s : S)
      : Oct B * S :=
      let '(b0, s) := f 0%nat (c0 o) s in
      let '(b1, s) := f 1%nat (c1 o) s in
      let '(b2, s) := f 2%nat (c2 o) s in
      let '(b3, s) := f 3%nat (c3 o) s in
      let '(b4, s) := f 4%nat (c4 o) s in
      let '(b5, s) := f 5%nat (c5 o) s in
      let '(b6, s) := f 6%nat (c6 o) s in
      let '(b7, s) := f 7%nat (c7 o) s in
      (mkOct b0 b1 b2 b3 b4 b5 b6 b7, s).
Definition All (P : A -> Prop) (o : Oct A) : Prop :=
      P (c0 o) /\ P (c1 o) /\ P (c2 o) /\ P (c3 o) /\
      P (c4 o) /\ P (c5 o) /\ P (c6 o) /\ P (c7 o).
End Ops.
End oct.

(** ** Locational codes and keys *)

(** Modelled from the spec: [Code] ([ufomap/code.h] is not part of the
    sources).  A code is a Morton-interleaved integer together with a depth;
    [getChildIdx d] is the three bits at level [d], [toDepth d] masks off the
    bits below level [d], [getChild i] appends three bits. *)
Record Code := mkCode { code_ : Z; code_depth_ : nat }.

(** Modelled from the spec: [Key] ([ufomap/key.h] is not part of the
    sources): three per-axis unsigned integers and a depth. *)
Record Key := mkKey { key0 : Z; key1 : Z; key2 : Z; key_depth_ : nat }.

Module key.
Definition get (k : Key) (i : nat) : Z :=
  match i with O => key0 k | 1%nat => key1 k | _ => key2 k end.
Definition set (k : Key) (i : nat) (v : Z) : Key :=
  match i with
  | O => mkKey v (key1 k) (key2 k) (key_depth_ k)
  | 1%nat => mkKey (key0 k) v (key2 k) (key_depth_ k)
  | _ => mkKey (key0 k) (key1 k) v (key_depth_ k)
  end.
Definition getDepth (k : Key) : nat := key_depth_ k.
Definition eqb (a b : Key) : bool :=
  (key0 a =? key0 b) && (key1 a =? key1 b) && (key2 a =? key2 b)
  && Nat.eqb (key_depth_ a) (key_depth_ b).
End key.

Module code.
Definition getDepth (c : Code) : nat := code_depth_ c.
Definition getChildIdx (c : Code) (depth : nat) : nat :=
  Z.to_nat (Z.land (Z.shiftr (code_ c) (3 * Z.of_nat depth)) 7).
Definition toDepth (c : Code) (depth : nat) : Code :=
  let temp := 3 * Z.of_nat depth in
  mkCode (Z.shiftl (Z.shiftr (code_ c) temp) temp) depth.
Definition getChild (c : Code) (index : nat) : Code :=
  match code_depth_ c with
  | O => c
  | S child_depth =>
      mkCode (code_ c + Z.shiftl (Z.of_nat index) (3 * Z.of_nat child_depth))
             child_depth
  end.
(** Bit [i] of the x, y and z key go to bits [3i], [3i+1] and [3i+2]. *)
Fixpoint interleave (n : nat) (x y z : Z) : Z :=
  match n with
  | O => 0
  | S n' =>
      Z.lor (Z.lor (Z.land x 1) (Z.shiftl (Z.land y 1) 1))
            (Z.lor (Z.shiftl (Z.land z 1) 2)
                   (Z.shiftl (interleave n' (Z.shiftr x 1) (Z.shiftr y 1)
                                         (Z.shiftr z 1)) 3))
  end.
Definition of_key (k : Key) : Code :=
  mkCode (interleave 21 (key0 k) (key1 k) (key2 k)) (key_depth_ k).
End code.

#[global] Instance Code_eq_dec : EqDecision Code.
Proof. solve_decision. Defined.

#[global] Instance Code_countable : Countable Code.
Proof.
  refine (inj_countable' (fun c => (code_ c, code_depth_ c))
                         (fun p => mkCode (fst p) (snd p)) _).
  intros [c d]; reflexivity.
Defined.

(** ** Nodes *)

(** Modelled from the spec: the leaf payload [OccupancyNode]
    ([ufomap/node.h] is not part of the sources) holds a single log-odds
    value, zero in a fresh node. *)
Record OccupancyNode := mkLeaf { logit_ : Z }.

(** Modelled from the spec: [InnerNode<LEAF_NODE>] embeds a leaf and adds
    the summary flags and the owned child block; a fresh inner node is
    collapsed and owns no block. *)
Record InnerNode (C : Type) := mkInner
  { base : OccupancyNode;
    contains_free : bool;
    contains_unknown : bool;
    all_children_same : bool;
    children : option (Oct C) }.
Arguments mkInner {C}.
Arguments base {C}.
Arguments contains_free {C}.
Arguments contains_unknown {C}.
Arguments all_children_same {C}.
Arguments children {C}.

(** The node type at a depth: leaves at depth 0, inner nodes above; the
    child block of a depth-1 node is an array of leaves, as in
    [getLeafChildren] / [getInnerChildren]. *)
Fixpoint NodeT (d : nat) : Type :=
  match d with
  | O => OccupancyNode
  | S d' => InnerNode (NodeT d')
  end.

Definition default_leaf : OccupancyNode := mkLeaf 0.
Definition default_inner {C : Type} : InnerNode C :=
  mkInner default_leaf false false true None.
Definition default_node (d : nat) : NodeT d :=
  match d with O => default_leaf | S _ => default_inner end.

(** The embedded leaf of a node of any depth (the upcast to [LEAF_NODE&]). *)
Definition as_leaf {d : nat} : NodeT d -> OccupancyNode :=
  match d with O => fun n => n | S _ => fun n => base n end.
Definition logit_of {d : nat} (n : NodeT d) : Z := logit_ (as_leaf n).

Definition set_base {C} (n : InnerNode C) (l : OccupancyNode) : InnerNode C :=
  mkInner l (contains_free n) (contains_unknown n) (all_children_same n)
          (children n).
Definition set_logit {C} (n : InnerNode C) (v : Z) : InnerNode C :=
  set_base n (mkLeaf v).
Definition set_flags {C} (n : InnerNode C) (cf cu : bool) : InnerNode C :=
  mkInner (base n) cf cu (all_children_same n) (children n).
Definition set_all_children_same {C} (n : InnerNode C) (b : bool)
  : InnerNode C :=
  mkInner (base n) (contains_free n) (contains_unknown n) b (children n).
Definition set_children {C} (n : InnerNode C) (ch : option (Oct C))
  : InnerNode C :=
  mkInner (base n) (contains_free n) (contains_unknown n)
          (all_children_same n) ch.

(** Writing a leaf back into a node of any depth. *)
Definition with_leaf {d : nat} : NodeT d -> OccupancyNode -> NodeT d :=
  match d with O => fun _ l => l | S _ => fun n l => set_base n l end.

(** Modelled from the spec: the handle [Node<LEAF_NODE>]: a pointer to a
    node of the tree (here the node it points to, with the depth it really
    has; [None] is the null pointer) and the code the handle carries. *)
Record Node := mkNode
  { node : option { d : nat & NodeT d };
    code : Code }.

Definition node_ptr {d : nat} (n : NodeT d) : option { d : nat & NodeT d } :=
  Some (existT d n).
Definition node_getDepth (n : Node) : nat := code.getDepth (code n).
(** [node.node->logit]. *)
Definition node_logit (n : Node) : Z :=
  match node n with Some (existT _ p) => logit_of p | None => 0 end.

(** ** The tree object *)

(** Every data member of [OctreeBase] except the root and the number of
    depth levels. *)
Record Members := mkMembers
  { resolution_ : Q;
    resolution_factor_ : Q;
    max_value_ : Z;
    occupancy_thres_log_ : Z;
    free_thres_log_ : Z;
    prob_hit_log_ : Z;
    prob_miss_log_ : Z;
    clamping_thres_min_log_ : Z;
    clamping_thres_max_log_ : Z;
    bbx_limit_enabled_ : bool;
    bbx_min_ : Point3;
    bbx_max_ : Point3;
    change_detection_enabled_ : bool;
    changed_codes_ : gset Code;
    nodes_sizes_ : list Q;
    nodes_half_sizes_ : list Q;
    automatic_pruning_enabled_ : bool;
    num_inner_nodes_ : Z;
    num_inner_leaf_nodes_ : Z;
    num_leaf_nodes_ : Z;
    indices_ : gmap Code Z;
    (** the two virtual hooks of the concrete tree class *)
    getTreeType : list ascii;
    binarySupport : bool }.

(** The tree: its members, [depth_levels_], and the root, an inner node
    whose children live at depth [depth_levels_ - 1]. *)
Record OctreeBase := mkOctree
  { members :> Members;
    depth_levels_ : nat;
    root_ : InnerNode (NodeT (pred depth_levels_)) }.

(** The root passed as [LEAF_NODE&] with [current_depth = depth_levels_]. *)
Definition root_view (L : nat) : InnerNode (NodeT (pred L)) -> NodeT L :=
  match L with O => fun r => base r | S _ => fun r => r end.
Definition root_store (L : nat)
  : InnerNode (NodeT (pred L)) -> NodeT L -> InnerNode (NodeT (pred L)) :=
  match L with O => fun r l => set_base r l | S _ => fun _ n => n end.
Definition with_members (t : OctreeBase) (m : Members) : OctreeBase :=
  mkOctree m (depth_levels_ t) (root_ t).
Definition with_root (t : OctreeBase) (m : Members)
  (r : NodeT (depth_levels_ t)) : OctreeBase :=
  mkOctree m (depth_levels_ t) (root_store _ (root_ t) r).

(** Assignments to single data members. *)
Definition set_counters (m : Members) (inner inner_leaf leaf : Z) : Members :=
  let 'mkMembers a1 a2 a3 a4 a5 a6 a7 a8 a9 a10 a11 a12 a13 a14 a15 a16 a17
                 _ _ _ a21 a22 a23 := m in
  mkMembers a1 a2 a3 a4 a5 a6 a7 a8 a9 a10 a11 a12 a13 a14 a15 a16 a17
            inner inner_leaf leaf a21 a22 a23.
Definition set_changed_codes_ (m : Members) (s : gset Code) : Members :=
  let 'mkMembers a1 a2 a3 a4 a5 a6 a7 a8 a9 a10 a11 a12 a13 _ a15 a16 a17
                 a18 a19 a20 a21 a22 a23 := m in
  mkMembers a1 a2 a3 a4 a5 a6 a7 a8 a9 a10 a11 a12 a13 s a15 a16 a17
            a18 a19 a20 a21 a22 a23.
Definition set_indices_ (m : Members) (i : gmap Code Z) : Members :=
  let 'mkMembers a1 a2 a3 a4 a5 a6 a7 a8 a9 a10 a11 a12 a13 a14 a15 a16 a17
                 a18 a19 a20 _ a22 a23 := m in
  mkMembers a1 a2 a3 a4 a5 a6 a7 a8 a9 a10 a11 a12 a13 a14 a15 a16 a17
            a18 a19 a20 i a22 a23.
Definition set_prob_hit_log_ (m : Members) (v : Z) : Members :=
  let 'mkMembers a1 a2 a3 a4 a5 _ a7 a8 a9 a10 a11 a12 a13 a14 a15 a16 a17
                 a18 a19 a20 a21 a22 a23 := m in
  mkMembers a1 a2 a3 a4 a5 v a7 a8 a9 a10 a11 a12 a13 a14 a15 a16 a17
            a18 a19 a20 a21 a22 a23.
Definition set_prob_miss_log_ (m : Members) (v : Z) : Members :=
  let 'mkMembers a1 a2 a3 a4 a5 a6 _ a8 a9 a10 a11 a12 a13 a14 a15 a16 a17
                 a18 a19 a20 a21 a22 a23 := m in
  mkMembers a1 a2 a3 a4 a5 a6 v a8 a9 a10 a11 a12 a13 a14 a15 a16 a17
            a18 a19 a20 a21 a22 a23.
Definition set_automatic_pruning_enabled_ (m : Members) (b : bool) : Members :=
  let 'mkMembers a1 a2 a3 a4 a5 a6 a7 a8 a9 a10 a11 a12 a13 a14 a15 a16 _
                 a18 a19 a20 a21 a22 a23 := m in
  mkMembers a1 a2 a3 a4 a5 a6 a7 a8 a9 a10 a11 a12 a13 a14 a15 a16 b
            a18 a19 a20 a21 a22 a23.
Definition set_max_value_ (m : Members) (v : Z) : Members :=
  let 'mkMembers a1 a2 _ a4 a5 a6 a7 a8 a9 a10 a11 a12 a13 a14 a15 a16 a17
                 a18 a19 a20 a21 a22 a23 := m in
  mkMembers a1 a2 v a4 a5 a6 a7 a8 a9 a10 a11 a12 a13 a14 a15 a16 a17
            a18 a19 a20 a21 a22 a23.
Definition set_resolution_ (m : Members) (r rf : Q) (sizes halves : list Q)
  : Members :=
  let 'mkMembers _ _ a3 a4 a5 a6 a7 a8 a9 a10 a11 a12 a13 a14 _ _ a17
                 a18 a19 a20 a21 a22 a23 := m in
  mkMembers r rf a3 a4 a5 a6 a7 a8 a9 a10 a11 a12 a13 a14 sizes halves a17
            a18 a19 a20 a21 a22 a23.

(** ** Sensor model functions *)

(** [float logit(float probability)]:
    [std::log(probability / (1.0 - probability))]. *)
Definition logit (probability : Q) : Z :=
  real_to_logit (flog (probability / (1 - probability))).

(** [float probability(float logit)]:
    [1.0 - (1.0 / (1.0 + std::exp(logit)))]. *)
Definition probability (l : Z) : Q :=
  Qred (1 - 1 / (1 + fexp (logit_to_real l))).

Definition getOccupancyThres (this : Members) : Q :=
  probability (occupancy_thres_log_ this).
Definition getFreeThres (this : Members) : Q :=
  probability (free_thres_log_ this).
Definition getProbHitLog (this : Members) : Z := prob_hit_log_ this.
Definition getProbMissLog (this : Members) : Z := prob_miss_log_ this.

Definition setProbHitLog (this : OctreeBase) (l : Z) : OctreeBase :=
  with_members this (set_prob_hit_log_ this l).
Definition setProbHit (this : OctreeBase) (p : Q) : OctreeBase :=
  setProbHitLog this (logit p).
Definition setProbMissLog (this : OctreeBase) (l : Z) : OctreeBase :=
  with_members this (set_prob_miss_log_ this l).
(** The argument of [logit] is the member [prob_hit_log_], a float, as the
    source has it. *)
Definition setProbMiss (this : OctreeBase) (p : Q) : OctreeBase :=
  setProbMissLog this (logit (logit_to_real (prob_hit_log_ this))).
Definition setAutomaticPruning (this : OctreeBase) (b : bool) : OctreeBase :=
  with_members this (set_automatic_pruning_enabled_ this b).

(** ** Checking the state of a node *)

Definition isOccupiedLog (this : Members) (l : Z) : bool :=
  occupancy_thres_log_ this <? l.
Definition isFreeLog (this : Members) (l : Z) : bool :=
  l <? free_thres_log_ this.
Definition isUnknownLog (this : Members) (l : Z) : bool :=
  (free_thres_log_ this <=? l) && (l <=? occupancy_thres_log_ this).

(** The overloads on [const LEAF_NODE&]. *)
Definition isOccupied (this : Members) (n : OccupancyNode) : bool :=
  isOccupiedLog this (logit_ n).
Definition isFree (this : Members) (n : OccupancyNode) : bool :=
  isFreeLog this (logit_ n).
Definition isUnknown (this : Members) (n : OccupancyNode) : bool :=
  isUnknownLog this (logit_ n).

(** The overloads on [const InnerNode<LEAF_NODE>&]. *)
Definition containsFree {C} (n : InnerNode C) : bool := contains_free n.
Definition containsUnknown {C} (n : InnerNode C) : bool := contains_unknown n.
Definition isLeaf {C} (n : InnerNode C) : bool := all_children_same n.
Definition hasChildren {C} (n : InnerNode C) : bool :=
  negb (all_children_same n).

(** ** Lookup *)

(** [getNode]: the loop [for (depth = depth_levels_; depth >
    code.getDepth(); --depth)] as a recursion on [depth]; [current_node] is
    the node reached so far.  A live node without a child block would be a
    null dereference; the model answers with the null handle there. *)
Fixpoint getNode_from (c : Code) (return_nullptr : bool) (depth : nat)
  {struct depth} : NodeT depth -> Node :=
  match depth with
  | O => fun current_node => mkNode (node_ptr (d:=O) current_node) c
  | S d' => fun current_node =>
      if (code.getDepth c <? S d')%nat then
        if negb (hasChildren current_node) then
          if return_nullptr then mkNode None (mkCode 0 0)
          else mkNode (node_ptr (d:=S d') current_node)
                      (code.toDepth c (S d' + 1))
        else
          let child_idx := code.getChildIdx c d' in
          match children current_node with
          | Some ch => getNode_from c return_nullptr d' (oct.get child_idx ch)
          | None => mkNode None c
          end
      else mkNode (node_ptr (d:=S d') current_node) c
  end.

Definition getNode (this : OctreeBase) (c : Code) (return_nullptr : bool)
  : Node :=
  getNode_from c return_nullptr (depth_levels_ this)
               (root_view _ (root_ this)).

Definition getRoot (this : OctreeBase) : Node :=
  mkNode (node_ptr (d:=depth_levels_ this) (root_view _ (root_ this)))
         (mkCode 0 (depth_levels_ this)).

(** The overloads on handles and codes. *)
Definition isOccupied_Node (this : Members) (n : Node) : bool :=
  isOccupiedLog this (node_logit n).
Definition isUnknown_Node (this : Members) (n : Node) : bool :=
  isUnknownLog this (node_logit n).
Definition isOccupied_Code (this : OctreeBase) (c : Code) : bool :=
  isOccupied_Node this (getNode this c false).
Definition isUnknown_Code (this : OctreeBase) (c : Code) : bool :=
  isUnknown_Node this (getNode this c false).
Definition isOccupied_Key (this : OctreeBase) (k : Key) : bool :=
  isOccupied_Code this (code.of_key k).
Definition isUnknown_Key (this : OctreeBase) (k : Key) : bool :=
  isUnknown_Code this (code.of_key k).

(** [isLeaf(const Node&)]: depth 0 is a leaf, otherwise the pointer is
    cast to an inner node. *)
Definition isLeaf_Node (n : Node) : bool :=
  if Nat.eqb (node_getDepth n) 0 then true
  else match node n with
       | Some (existT (S _) p) => isLeaf p
       | _ => true
       end.
Definition hasChildren_Node (n : Node) : bool :=
  if Nat.eqb (node_getDepth n) 0 then false
  else match node n with
       | Some (existT (S _) p) => hasChildren p
       | _ => false
       end.

(** The two outcomes of a call that may throw. *)
Inductive outcome (A : Type) : Type :=
| Returns (a : A)
| Throws.
Arguments Returns {A}.
Arguments Throws {A}.

(** [getChild(node, child_idx)]. *)
Definition getChild (this : OctreeBase) (n : Node) (child_idx : nat)
  : outcome Node :=
  if negb (isLeaf_Node n) then Throws
  else if (7 <? child_idx)%nat then Throws
  else Returns (getNode this (code.getChild (code n) child_idx) false).

(** ** Creating and deleting children

    In the functions on inner nodes the parameter [d] is the depth of the
    children; the source's [depth] argument is [S d], and its test
    [1 == depth] is [d = 0]. *)

(** The freshly allocated block of [createChildren]: default leaves at
    [1 == depth], otherwise default inner nodes whose two flags are set
    from their own (default) logit. *)
Definition new_children (this : Members) (d : nat) : Oct (NodeT d) :=
  match d with
  | O => oct.replicate default_leaf
  | S _ =>
      oct.replicate
        (set_flags default_inner (isFree this default_leaf)
                   (isUnknown this default_leaf))
  end.

Definition createChildren (this : Members) (d : nat)
  (inner_node : InnerNode (NodeT d)) : bool * InnerNode (NodeT d) * Members :=
  match children inner_node with
  | Some _ => (false, inner_node, this)
  | None =>
      let this' :=
        match d with
        | O => set_counters this
                 (wrap64 (num_inner_nodes_ this + 1))
                 (wrap64 (num_inner_leaf_nodes_ this - 1))
                 (wrap64 (num_leaf_nodes_ this + 8))
        | S _ => set_counters this
                 (wrap64 (num_inner_nodes_ this + 1))
                 (wrap64 (num_inner_leaf_nodes_ this + 7))
                 (num_leaf_nodes_ this)
        end in
      (true,
       set_all_children_same
         (set_children inner_node (Some (new_children this d))) false,
       this')
  end.

(** What [expand] writes into each child. *)
Definition seed_child (d : nat) (inner_node : InnerNode (NodeT d))
  : NodeT d -> NodeT d :=
  match d return InnerNode (NodeT d) -> NodeT d -> NodeT d with
  | O => fun inner_node _ => mkLeaf (logit_ (base inner_node))
  | S _ => fun inner_node child =>
      mkInner (mkLeaf (logit_ (base inner_node)))
              (contains_free inner_node) (contains_unknown inner_node)
              true (children child)
  end inner_node.

Definition expand (this : Members) (d : nat)
  (inner_node : InnerNode (NodeT d)) : bool * InnerNode (NodeT d) * Members :=
  if negb (all_children_same inner_node) then (false, inner_node, this)
  else
    let '(_, inner_node, this) := createChildren this d inner_node in
    (true,
     set_children inner_node
       (option_map (oct.map (seed_child d inner_node)) (children inner_node)),
     this).

Fixpoint deleteChildren (d : nat) {struct d}
  : InnerNode (NodeT d) -> bool -> Members -> InnerNode (NodeT d) * Members :=
  match d with
  | O => fun inner_node manual_pruning this =>
      let inner_node := set_all_children_same inner_node true in
      match children inner_node with
      | None => (inner_node, this)
      | Some _ =>
          if negb manual_pruning && negb (automatic_pruning_enabled_ this)
          then (inner_node, this)
          else (set_children inner_node None,
                set_counters this
                  (wrap64 (num_inner_nodes_ this - 1))
                  (wrap64 (num_inner_leaf_nodes_ this + 1))
                  (wrap64 (num_leaf_nodes_ this - 8)))
      end
  | S child_depth => fun inner_node manual_pruning this =>
      let inner_node := set_all_children_same inner_node true in
      match children inner_node with
      | None => (inner_node, this)
      | Some ch =>
          if negb manual_pruning && negb (automatic_pruning_enabled_ this)
          then (inner_node, this)
          else
            let '(_, this) :=
              oct.mapS (fun _ child this =>
                          deleteChildren child_depth child manual_pruning this)
                       ch this in
            (set_children inner_node None,
             set_counters this
               (wrap64 (num_inner_nodes_ this - 1))
               (wrap64 (num_inner_leaf_nodes_ this - 7))
               (num_leaf_nodes_ this))
      end
  end.

Definition prune (this : Members) (d : nat) (inner_node : InnerNode (NodeT d))
  (manual_pruning : bool) : InnerNode (NodeT d) * Members :=
  let '(inner_node, this) := deleteChildren d inner_node manual_pruning this in
  (set_flags inner_node (isFree this (base inner_node))
             (isUnknown this (base inner_node)),
   this).

(** ** Summaries *)

(** [isNodeCollapsible] on a block of leaves and on a block of inner
    nodes. *)
Definition isNodeCollapsible (d : nat) : Oct (NodeT d) -> bool :=
  match d with
  | O => fun ch =>
      forallb (fun c => logit_ (c0 ch) =? logit_ c) (tl (oct.to_list ch))
  | S _ => fun ch =>
      if isLeaf (c0 ch)
      then forallb (fun c => (logit_ (base (c0 ch)) =? logit_ (base c))
                             && isLeaf c)
                   (tl (oct.to_list ch))
      else false
  end.

(** [getMaxChildLogit], starting from the first child on leaves and from
    [lowest()] on inner nodes. *)
Definition getMaxChildLogit (d : nat) : Oct (NodeT d) -> Z :=
  match d with
  | O => fun ch =>
      fold_left (fun max c => if max <? logit_ c then logit_ c else max)
                (oct.to_list ch) (logit_ (c0 ch))
  | S _ => fun ch =>
      fold_left (fun max c => if max <? logit_ (base c) then logit_ (base c)
                              else max)
                (oct.to_list ch) FLT_LOWEST
  end.

(** The two flags computed by the loops of [updateNode]. *)
Definition childFlags (this : Members) (d : nat) : Oct (NodeT d) -> bool * bool :=
  match d with
  | O => fun ch =>
      fold_left (fun '(cf, cu) c =>
                   if isFree this c then (true, cu)
                   else if isUnknown this c then (cf, true)
                   else (cf, cu))
                (oct.to_list ch) (false, false)
  | S _ => fun ch =>
      fold_left (fun '(cf, cu) c =>
                   ((if containsFree c then true else cf),
                    (if containsUnknown c then true else cu)))
                (oct.to_list ch) (false, false)
  end.

(** [updateNode(node, depth)] with [depth = S d]. *)
Definition updateNode (this : Members) (d : nat) (n : InnerNode (NodeT d))
  : bool * InnerNode (NodeT d) * Members :=
  match children n with
  | None => (false, n, this)
  | Some ch =>
      if isNodeCollapsible d ch then
        let n := set_logit n (logit_of (c0 ch)) in
        let '(n, this) := prune this d n false in
        (true, n, this)
      else
        let new_logit := getMaxChildLogit d ch in
        let '(new_contains_free, new_contains_unknown) :=
          childFlags this d ch in
        if negb (logit_ (base n) =? new_logit)
           || negb (Bool.eqb (contains_free n) new_contains_free)
           || negb (Bool.eqb (contains_unknown n) new_contains_unknown)
        then (true,
              set_flags (set_logit n new_logit) new_contains_free
                        new_contains_unknown,
              this)
        else (false, n, this)
  end.

(** ** Updating node values *)

Definition note_change (this : Members) (c : Code) : Members :=
  if change_detection_enabled_ this
  then set_changed_codes_ this ({[ c ]} ∪ changed_codes_ this)
  else this.

(** [updateNodeValueRecurs(code, logit_value, node, current_depth,
    set_value)].  The result is the returned pair, the node after the call
    and the members after the call.  At [current_depth = 0] the test
    [current_depth > code.getDepth()] is false. *)
Fixpoint updateNodeValueRecurs (logit_value : Z) (set_value : bool)
  (current_depth : nat) {struct current_depth}
  : Code -> NodeT current_depth -> Members ->
    (Node * bool) * NodeT current_depth * Members :=
  match current_depth with
  | O => fun c n this =>
      let n' :=
        if set_value
        then mkLeaf (clamp logit_value (clamping_thres_min_log_ this)
                           (clamping_thres_max_log_ this))
        else mkLeaf (clamp (logit_ n + logit_value)
                           (clamping_thres_min_log_ this)
                           (clamping_thres_max_log_ this)) in
      let this := note_change this c in
      ((mkNode (node_ptr (d:=O) n') c, true), n', this)
  | S child_depth => fun c n this =>
      if (code.getDepth c <? S child_depth)%nat then
        (* Create children if they do not exist *)
        let '(_, inner_node, this) := expand this child_depth n in
        let child_idx := code.getChildIdx c child_depth in
        match children inner_node with
        | None => ((mkNode None c, false), inner_node, this)
        | Some ch =>
            let '((child, changed), child_node, this) :=
              updateNodeValueRecurs logit_value set_value child_depth c
                                    (oct.get child_idx ch) this in
            let inner_node :=
              set_children inner_node (Some (oct.set child_idx child_node ch)) in
            if changed then
              let '(changed, inner_node, this) :=
                updateNode this child_depth inner_node in
              let this :=
                if changed
                then note_change this (code.toDepth c (S child_depth))
                else this in
              ((child, changed), inner_node, this)
            else ((child, changed), inner_node, this)
        end
      else
        let '(n, this) :=
          if set_value then
            let n := set_logit n (clamp logit_value
                                        (clamping_thres_min_log_ this)
                                        (clamping_thres_max_log_ this)) in
            prune this child_depth n false
          else
            let n := set_logit n (clamp (logit_ (base n) + logit_value)
                                        (clamping_thres_min_log_ this)
                                        (clamping_thres_max_log_ this)) in
            if negb (isOccupied this (base n)) then
              prune this child_depth n false
            else if hasChildren n then
              match children n with
              | None => (n, this)
              | Some ch =>
                  let '(ch, this) :=
                    oct.mapS
                      (fun child_idx child_node this =>
                         let '(_, child_node, this) :=
                           updateNodeValueRecurs logit_value set_value
                             child_depth (code.getChild c child_idx)
                             child_node this in
                         (child_node, this))
                      ch this in
                  let '(_, n, this) :=
                    updateNode this child_depth (set_children n (Some ch)) in
                  (n, this)
              end
            else (n, this) in
        let this := note_change this c in
        ((mkNode (node_ptr (d:=S child_depth) n) c, true), n, this)
  end.

(** [updateNodeValue(code, logit_update)]: the returned handle and the tree
    after the call. *)
Definition updateNodeValue (this : OctreeBase) (c : Code) (logit_update : Z)
  : Node * OctreeBase :=
  let n := getNode this c false in
  if ((0 <=? logit_update) && (clamping_thres_max_log_ this <=? node_logit n))
     || ((logit_update <=? 0) && (node_logit n <=? clamping_thres_min_log_ this))
  then (n, this)
  else
    let '((r, _), root, m) :=
      updateNodeValueRecurs logit_update false (depth_levels_ this) c
                            (root_view _ (root_ this)) this in
    (r, with_root this m root).

(** [setNodeValue(code, logit_value)]. *)
Definition setNodeValue (this : OctreeBase) (c : Code) (logit_value : Z)
  : Node * OctreeBase :=
  let logit_value := clamp logit_value (clamping_thres_min_log_ this)
                           (clamping_thres_max_log_ this) in
  let n := getNode this c false in
  if negb (logit_value =? node_logit n) then
    let '((r, _), root, m) :=
      updateNodeValueRecurs logit_value true (depth_levels_ this) c
                            (root_view _ (root_ this)) this in
    (r, with_root this m root)
  else (n, this).

Definition integrateHit (this : OctreeBase) (c : Code) : Node * OctreeBase :=
  updateNodeValue this c (prob_hit_log_ this).
Definition integrateMiss (this : OctreeBase) (c : Code) : Node * OctreeBase :=
  updateNodeValue this c (prob_miss_log_ this).

(** ** Construction and clearing *)

Fixpoint doubling (n : nat) (size : Q) : list Q :=
  match n with
  | O => []
  | S n' => size :: doubling n' (Qred (size * 2)%Q)
  end.

(** The vectors [nodes_sizes_] and [nodes_half_sizes_] for a resolution and
    a number of depth levels. *)
Definition node_sizes (resolution : Q) (depth_levels : nat) : list Q :=
  doubling (S depth_levels) resolution.
Definition node_half_sizes (resolution : Q) (depth_levels : nat) : list Q :=
  Qred (resolution / 2)%Q :: doubling depth_levels resolution.

(** [std::pow(2, depth_levels - 1)] stored in an [unsigned int]. *)
Definition max_value_of (depth_levels : nat) : Z :=
  wrap32 (2 ^ (Z.of_nat depth_levels - 1)).

Definition origin3 : Point3 := mkVector3 0 0 0.

(** The protected constructor; [tree_type] and [binary_support] stand for
    the virtual functions of the concrete class. *)
Definition OctreeBase_new (tree_type : list ascii) (binary_support : bool)
  (resolution : Q) (depth_levels : nat) (automatic_pruning : bool)
  (occupancy_thres free_thres prob_hit prob_miss
   clamping_thres_min clamping_thres_max : Q) : outcome OctreeBase :=
  if (depth_levels <? 2)%nat || (21 <? depth_levels)%nat then Throws
  else
    Returns
      (mkOctree
         {| resolution_ := resolution;
            resolution_factor_ := Qred (1 / resolution)%Q;
            max_value_ := max_value_of depth_levels;
            occupancy_thres_log_ := logit occupancy_thres;
            free_thres_log_ := logit free_thres;
            prob_hit_log_ := logit prob_hit;
            prob_miss_log_ := logit prob_miss;
            clamping_thres_min_log_ := logit clamping_thres_min;
            clamping_thres_max_log_ := logit clamping_thres_max;
            bbx_limit_enabled_ := false;
            bbx_min_ := origin3;
            bbx_max_ := origin3;
            change_detection_enabled_ := false;
            changed_codes_ := ∅;
            nodes_sizes_ := node_sizes resolution depth_levels;
            nodes_half_sizes_ := node_half_sizes resolution depth_levels;
            automatic_pruning_enabled_ := automatic_pruning;
            num_inner_nodes_ := 0;
            num_inner_leaf_nodes_ := 1;
            num_leaf_nodes_ := 0;
            indices_ := ∅;
            getTreeType := tree_type;
            binarySupport := binary_support |}
         depth_levels default_inner).

Fixpoint clearRecurs (d : nat) {struct d}
  : InnerNode (NodeT d) -> Members -> InnerNode (NodeT d) * Members :=
  match d with
  | O => fun inner_node this =>
      match children inner_node with
      | None => (inner_node, this)
      | Some _ => deleteChildren O inner_node true this
      end
  | S child_depth => fun inner_node this =>
      match children inner_node with
      | None => (inner_node, this)
      | Some ch =>
          let '(ch, this) :=
            oct.mapS (fun _ child this => clearRecurs child_depth child this)
                     ch this in
          deleteChildren (S child_depth) (set_children inner_node (Some ch))
                         true this
      end
  end.

(** [clear(resolution, depth_levels)]. *)
Definition clear (this : OctreeBase) (resolution : Q) (depth_levels : nat)
  : outcome OctreeBase :=
  if (21 <? depth_levels)%nat then Throws
  else
    let '(_, m) := clearRecurs (pred (depth_levels_ this)) (root_ this) this in
    let m := set_max_value_ m (max_value_of depth_levels) in
    let m :=
      if negb (Qeq_bool resolution (resolution_ this))
      then set_resolution_ m resolution (Qred (1 / resolution)%Q)
                           (node_sizes resolution depth_levels)
                           (node_half_sizes resolution depth_levels)
      else m in
    Returns (mkOctree m depth_levels default_inner).

(** ** Coordinates and keys *)

Definition getNodeSize (this : Members) (depth : nat) : Q :=
  nth depth (nodes_sizes_ this) 0%Q.
Definition getNodeHalfSize (this : Members) (depth : nat) : Q :=
  nth depth (nodes_half_sizes_ this) 0%Q.

(** [coordToKey(float coord, unsigned depth)]. *)
Definition coordToKey1 (this : Members) (coord : Q) (depth : nat) : Z :=
  let key_value := Qfloor (resolution_factor_ this * coord)%Q in
  match depth with
  | O => wrap32 (key_value + max_value_ this)
  | S _ =>
      wrap32 (Z.shiftl (Z.shiftr key_value (Z.of_nat depth)) (Z.of_nat depth)
              + Z.shiftl 1 (Z.of_nat depth - 1) + max_value_ this)
  end.

Definition coordToKey (this : Members) (coord : Point3) (depth : nat) : Key :=
  mkKey (coordToKey1 this (data0 coord) depth)
        (coordToKey1 this (data1 coord) depth)
        (coordToKey1 this (data2 coord) depth) depth.

(** [keyToCoord(KeyType key, unsigned depth)]. *)
Definition keyToCoord1 (this : OctreeBase) (k : Z) (depth : nat) : Q :=
  if Nat.eqb (depth_levels_ this) depth then 0%Q
  else
    let divider := inject_Z (2 ^ Z.of_nat depth) in
    Qred ((inject_Z (Qfloor ((inject_Z k - inject_Z (max_value_ this))
                             / divider)) + (1 # 2))
          * getNodeSize this depth)%Q.

Definition keyToCoord (this : OctreeBase) (k : Key) : Point3 :=
  mkVector3 (keyToCoord1 this (key0 k) (key.getDepth k))
            (keyToCoord1 this (key1 k) (key.getDepth k))
            (keyToCoord1 this (key2 k) (key.getDepth k)).

Definition getMin (this : OctreeBase) : Point3 :=
  let half_size := Qred (- getNodeHalfSize this (depth_levels_ this))%Q in
  mkVector3 half_size half_size half_size.
Definition getMax (this : OctreeBase) : Point3 :=
  let half_size := getNodeHalfSize this (depth_levels_ this) in
  mkVector3 half_size half_size half_size.

(** ** Bounding box *)

Definition isBBXLimitEnabled (this : Members) : bool := bbx_limit_enabled_ this.

(** [inBBX(const Point3& coord)]. *)
Definition inBBX (this : OctreeBase) (coord : Point3) : bool :=
  let min := if isBBXLimitEnabled this then bbx_min_ this else getMin this in
  let max := if isBBXLimitEnabled this then bbx_max_ this else getMax this in
  Qle_bool (data0 min) (data0 coord) && Qle_bool (data0 coord) (data0 max)
  && Qle_bool (data1 min) (data1 coord) && Qle_bool (data1 coord) (data1 max)
  && Qle_bool (data2 min) (data2 coord) && Qle_bool (data2 coord) (data2 max).

Definition getIntersection (d_1 d_2 : Q) (p_1 p_2 : Point3) : option Point3 :=
  if Qle_bool 0 (d_1 * d_2)%Q then None
  else Some (Vec.add p_1 (Vec.scale (Vec.sub p_2 p_1) (- d_1 / (d_2 - d_1))%Q)).

(** [inBBX(point, axis, bbx_min, bbx_max)]: strictly inside on the two
    other axes. *)
Definition inBBX_axis (point : Point3) (axis : nat) (bbx_min bbx_max : Point3)
  : bool :=
  let inside i := Qltb (Vec.get bbx_min i) (Vec.get point i)
                  && Qltb (Vec.get point i) (Vec.get bbx_max i) in
  match axis with
  | 0%nat => inside 2%nat && inside 1%nat
  | 1%nat => inside 2%nat && inside 0%nat
  | 2%nat => inside 0%nat && inside 1%nat
  | _ => false
  end.

(** One round of either hit-collecting loop of [moveLineIntoBBX]. *)
Definition collect_hit (bbx_min bbx_max plane origin end_ : Point3)
  (hit : list Point3) (i : nat) : list Point3 :=
  if (length hit <? 2)%nat then
    match getIntersection (Vec.get origin i - Vec.get plane i)%Q
                          (Vec.get end_ i - Vec.get plane i)%Q origin end_ with
    | Some h => if inBBX_axis h i bbx_min bbx_max then hit ++ [h] else hit
    | None => hit
    end
  else hit.

(** [moveLineIntoBBX(bbx_min, bbx_max, origin, end)]: [None] is the result
    [false]; otherwise the moved origin and end. *)
Definition moveLineIntoBBX_in (this : OctreeBase) (bbx_min bbx_max : Point3)
  (origin end_ : Point3) : option (Point3 * Point3) :=
  let below i := Qltb (Vec.get origin i) (Vec.get bbx_min i)
                 && Qltb (Vec.get end_ i) (Vec.get bbx_min i) in
  let above i := Qltb (Vec.get bbx_max i) (Vec.get origin i)
                 && Qltb (Vec.get bbx_max i) (Vec.get end_ i) in
  if below 0%nat || above 0%nat || below 1%nat || above 1%nat
     || below 2%nat || above 2%nat
  then None
  else
    let hit := fold_left (collect_hit bbx_min bbx_max bbx_min origin end_)
                         [0; 1; 2]%nat [] in
    let hit := fold_left (collect_hit bbx_min bbx_max bbx_max origin end_)
                         [0; 1; 2]%nat hit in
    match hit with
    | [h0] => if inBBX this origin then Some (origin, h0) else Some (h0, end_)
    | [h0; h1] =>
        if Qle_bool (Vec.squaredNorm (Vec.sub origin h0)
                     + Vec.squaredNorm (Vec.sub end_ h1))%Q
                    (Vec.squaredNorm (Vec.sub origin h1)
                     + Vec.squaredNorm (Vec.sub end_ h0))%Q
        then Some (h0, h1) else Some (h1, h0)
    | _ => Some (origin, end_)
    end.

Definition moveLineIntoBBX (this : OctreeBase) (origin end_ : Point3)
  : option (Point3 * Point3) :=
  let bbx_min := if isBBXLimitEnabled this then bbx_min_ this else getMin this in
  let bbx_max := if isBBXLimitEnabled this then bbx_max_ this else getMax this in
  moveLineIntoBBX_in this bbx_min bbx_max origin end_.

(** ** Ray traversal *)

(** A [while] loop with a bound on the number of iterations. *)
Fixpoint while_loop {S : Type} (cond : S -> bool) (body : S -> S)
  (fuel : nat) (s : S) : S :=
  match fuel with
  | O => s
  | Datatypes.S fuel' =>
      if cond s then while_loop cond body fuel' (body s) else s
  end.

(** The variables of a traversal: [step], [t_delta] stay fixed once
    initialised, [current] and [t_max] advance. *)
Record Ray := mkRay
  { current : Key;
    ending : Key;
    step : nat -> Z;
    t_delta : Point3;
    t_max : Point3 }.

Definition step3 (s0 s1 s2 : Z) : nat -> Z :=
  fun i => match i with O => s0 | 1%nat => s1 | _ => s2 end.

(** One round of the axis loop of [computeRayInit]: the step, [t_delta]
    and [t_max] of axis [i]. *)
Definition init_axis (this : OctreeBase) (origin direction_normalized
  voxel_border : Point3) (depth i : nat) : Z * Q * Q :=
  let d := Vec.get direction_normalized i in
  let s := if Qltb 0 d then 1 else if Qltb d 0 then -1 else 0 in
  if negb (s =? 0) then
    let border :=
      (Vec.get voxel_border i + inject_Z s * getNodeHalfSize this depth)%Q in
    (s, Qred (getNodeSize this depth / Qabs d),
     Qred ((border - Vec.get origin i) / d))
  else (s, FLT_MAX, FLT_MAX).

(** [computeRayInit].  When [current == ending] the source returns before
    it writes [step], [t_delta] and [t_max]; they keep the values they
    were declared with (zero vectors). *)
Definition computeRayInit (this : OctreeBase) (origin end_
  direction_normalized : Point3) (depth : nat) : Ray :=
  let current := coordToKey this origin depth in
  let ending := coordToKey this end_ depth in
  if key.eqb current ending
  then mkRay current ending (step3 0 0 0) origin3 origin3
  else
    let voxel_border := keyToCoord this current in
    let '(s0, d0, m0) :=
      init_axis this origin direction_normalized voxel_border depth 0 in
    let '(s1, d1, m1) :=
      init_axis this origin direction_normalized voxel_border depth 1 in
    let '(s2, d2, m2) :=
      init_axis this origin direction_normalized voxel_border depth 2 in
    mkRay current ending (step3 s0 s1 s2) (mkVector3 d0 d1 d2)
          (mkVector3 m0 m1 m2).

(** [computeRayTakeStep]. *)
Definition computeRayTakeStep (r : Ray) (depth : nat) : Ray :=
  let advance_dim := Vec.minElementIndex (t_max r) in
  mkRay
    (key.set (current r) advance_dim
       (wrap32 (key.get (current r) advance_dim
                + Z.shiftl (step r advance_dim) (Z.of_nat depth))))
    (ending r) (step r) (t_delta r)
    (Vec.set (t_max r) advance_dim
       (Qred (Vec.get (t_max r) advance_dim
              + Vec.get (t_delta r) advance_dim))).

(** The number of steps after which [t_max.min()] exceeds [range] when
    every [t_delta] is positive: on each axis the steps that keep its
    [t_max] within [range], and one more. *)
Definition axis_steps (range t_delta t_max : Q) : nat :=
  if Qle_bool t_max range
  then S (Z.to_nat (Qfloor ((range - t_max) / t_delta)))
  else O.

Definition ray_fuel (range : Q) (r : Ray) : nat :=
  (axis_steps range (data0 (t_delta r)) (data0 (t_max r))
   + axis_steps range (data1 (t_delta r)) (data1 (t_max r))
   + axis_steps range (data2 (t_delta r)) (data2 (t_max r)))%nat.

(** [computeRay(origin, end, KeyRay& ray, max_range, depth)]: the keys
    pushed onto [ray]. *)
Definition computeRay (this : OctreeBase) (origin end_ : Point3)
  (max_range : Q) (depth : nat) : list Key :=
  let direction := Vec.normalize (Vec.sub end_ origin) in
  let end_ :=
    if Qle_bool 0 max_range && Qltb max_range (Vec.distance origin end_)
    then Vec.add origin (Vec.scale direction max_range)
    else end_ in
  match moveLineIntoBBX this origin end_ with
  | None => []
  | Some (origin, end_) =>
      let r := computeRayInit this origin end_ direction depth in
      snd (while_loop
             (fun '(r, ray) =>
                negb (key.eqb (current r) (ending r))
                && Qle_bool (Vec.min (t_max r)) max_range)
             (fun '(r, ray) =>
                (computeRayTakeStep r depth, ray ++ [current r]))
             (ray_fuel max_range r) (r, []))
  end.

(** The traversal as the specification describes it: stepping stops when
    [min(tMax)] exceeds the distance from the origin to the (clipped)
    end. *)
Definition computeRay_spec (this : OctreeBase) (origin end_ : Point3)
  (max_range : Q) (depth : nat) : list Key :=
  let direction := Vec.normalize (Vec.sub end_ origin) in
  let end_ :=
    if Qle_bool 0 max_range && Qltb max_range (Vec.distance origin end_)
    then Vec.add origin (Vec.scale direction max_range)
    else end_ in
  match moveLineIntoBBX this origin end_ with
  | None => []
  | Some (origin, end_) =>
      let distance := Vec.distance origin end_ in
      let r := computeRayInit this origin end_ direction depth in
      snd (while_loop
             (fun '(r, ray) =>
                negb (key.eqb (current r) (ending r))
                && Qle_bool (Vec.min (t_max r)) distance)
             (fun '(r, ray) =>
                (computeRayTakeStep r depth, ray ++ [current r]))
             (ray_fuel distance r) (r, []))
  end.

(** The loop of [castRay]. *)
Definition castRay_cond (this : OctreeBase) (ignore_unknown : bool)
  (max_range : Q) (r : Ray) : bool :=
  negb (key.eqb (current r) (ending r))
  && Qle_bool (Vec.min (t_max r)) max_range
  && negb (isOccupied_Key this (current r))
  && (ignore_unknown || negb (isUnknown_Key this (current r))).

(** The range [castRay] works with. *)
Definition castRay_range (this : OctreeBase) (max_range : Q) : Q :=
  if Qltb max_range 0 then Vec.distance (getMin this) (getMax this)
  else max_range.

(** [castRay(origin, direction, end, ignore_unknown, max_range, depth)]:
    the returned flag and the value of the reference parameter [end] after
    the call. *)
Definition castRay (this : OctreeBase) (origin direction end_ : Point3)
  (ignore_unknown : bool) (max_range : Q) (depth : nat) : bool * Point3 :=
  let max_range :=
    if Qltb max_range 0 then Vec.distance (getMin this) (getMax this)
    else max_range in
  let direction := Vec.normalize direction in
  let the_end := Vec.add origin (Vec.scale direction max_range) in
  match moveLineIntoBBX this origin the_end with
  | None => (false, end_)
  | Some (origin, the_end) =>
      let r := computeRayInit this origin the_end direction depth in
      let r := while_loop (castRay_cond this ignore_unknown max_range)
                          (fun r => computeRayTakeStep r depth)
                          (ray_fuel max_range r) r in
      (isOccupied_Key this (current r), keyToCoord this (current r))
  end.

(** ** Point-cloud insertion *)

(** [indices_.try_emplace(k, v)]. *)
Definition try_emplace (k : Code) (v : Z) (m : gmap Code Z) : gmap Code Z :=
  match m !! k with
  | Some _ => m
  | None => <[ k := v ]> m
  end.

(** The body of the [for] loop of [computeUpdate] for one point of the
    cloud, on the accumulator [indices_]. *)
Definition computeUpdate_point (this : OctreeBase) (sensor_origin : Point3)
  (max_range : Q) (indices : gmap Code Z) (point : Point3) : gmap Code Z :=
  let origin := sensor_origin in
  let end_ := Vec.sub point origin in
  let distance := Vec.norm end_ in
  let dir := Vec.div end_ distance in
  let end_ :=
    if Qle_bool 0 max_range && Qltb max_range distance
    then Vec.add origin (Vec.scale dir max_range)
    else point in
  match moveLineIntoBBX this origin end_ with
  | None => indices
  | Some (origin, end_) =>
      let indices :=
        if Vec.eqb point end_
        then <[ code.of_key (coordToKey this end_ 0) := prob_hit_log_ this ]>
               indices
        else indices in
      let r := computeRayInit this origin end_ dir 0 in
      snd (while_loop
             (fun '(r, indices) =>
                negb (key.eqb (current r) (ending r))
                && Qle_bool (Vec.min (t_max r)) distance)
             (fun '(r, indices) =>
                (computeRayTakeStep r 0,
                 try_emplace (code.of_key (current r)) (prob_miss_log_ this)
                             indices))
             (ray_fuel distance r) (r, indices))
  end.

(** [computeUpdate(sensor_origin, cloud, max_range)]. *)
Definition computeUpdate (this : OctreeBase) (sensor_origin : Point3)
  (cloud : list Point3) (max_range : Q) : OctreeBase :=
  with_members this
    (set_indices_ this
       (fold_left (computeUpdate_point this sensor_origin max_range)
                  cloud (indices_ this))).

(** [insertPointCloud(sensor_origin, cloud, max_range)]; the accumulator
    is visited in the order of [map_to_list]. *)
Definition insertPointCloud (this : OctreeBase) (sensor_origin : Point3)
  (cloud : list Point3) (max_range : Q) : OctreeBase :=
  let this := computeUpdate this sensor_origin cloud max_range in
  let this :=
    fold_left (fun this '(c, value) => snd (updateNodeValue this c value))
              (map_to_list (indices_ this)) this in
  with_members this (set_indices_ this ∅).

(** ** Streams

    A stream is its sequence of characters.  An input stream carries the
    two state bits the source looks at through [good()]; once a bit is set
    every extraction fails and stores nothing.  Output streams never
    fail. *)

Record istream := mkIs { rest : list ascii; eofbit : bool; failbit : bool }.
Abbreviation ostream := (list ascii).

Definition good (s : istream) : bool := negb (eofbit s) && negb (failbit s).
Definition istream_of (l : list ascii) : istream := mkIs l false false.
Definition set_fail (s : istream) : istream := mkIs (rest s) (eofbit s) true.

Definition newline : ascii := ascii_of_N 10.
Definition isspace (c : ascii) : bool :=
  let n := N_of_ascii c in ((9 <=? n) && (n <=? 13) || (n =? 32))%N.
Definition isdigit (c : ascii) : bool :=
  let n := N_of_ascii c in ((48 <=? n) && (n <=? 57))%N.
Definition digit_val (c : ascii) : Z := Z.of_N (N_of_ascii c) - 48.
Definition chars (s : string) : list ascii := list_ascii_of_string s.
Definition ascii_eqb (a b : ascii) : bool := (N_of_ascii a =? N_of_ascii b)%N.
Definition chars_eqb (a b : list ascii) : bool :=
  Nat.eqb (length a) (length b) && forallb (fun '(x, y) => ascii_eqb x y) (combine a b).

Fixpoint span (p : ascii -> bool) (l : list ascii) : list ascii * list ascii :=
  match l with
  | c :: l' => if p c then let '(a, b) := span p l' in (c :: a, b) else ([], l)
  | [] => ([], [])
  end.

(** [s.get()]: the character, if one was extracted. *)
Definition stream_get (s : istream) : option ascii * istream :=
  if negb (good s) then (None, set_fail s)
  else match rest s with
       | c :: l => (Some c, mkIs l false false)
       | [] => (None, mkIs [] true true)
       end.

(** [std::getline(s, line)]; the line is unchanged when the stream was not
    good. *)
Definition getline (s : istream) (line : list ascii) : list ascii * istream :=
  if negb (good s) then (line, set_fail s)
  else
    let '(l, r) := span (fun c => negb (ascii_eqb c newline)) (rest s) in
    match r with
    | _ :: r' => (l, mkIs r' false false)
    | [] => (l, mkIs [] true (Nat.eqb (length l) 0))
    end.

(** The sentry of a formatted extraction: leading white space is skipped;
    reaching the end of the stream there fails the extraction. *)
Definition sentry (s : istream) : option (list ascii) * istream :=
  if negb (good s) then (None, set_fail s)
  else match snd (span isspace (rest s)) with
       | [] => (None, mkIs [] true true)
       | r => (Some r, mkIs r false false)
       end.

(** [s >> token] for a [std::string]. *)
Definition get_token (s : istream) (token : list ascii)
  : list ascii * istream :=
  match sentry s with
  | (None, s') => (token, s')
  | (Some r, _) =>
      let '(w, r') := span (fun c => negb (isspace c)) r in
      (w, mkIs r' (Nat.eqb (length r') 0) false)
  end.

Definition digits_val (l : list ascii) : Z :=
  fold_left (fun acc c => 10 * acc + digit_val c) l 0.

(** [s >> value] for the integral types: an optional sign and decimal
    digits; without digits the extraction fails and stores zero.  The
    value is not reduced to the range of the type. *)
Definition get_int (s : istream) (old : Z) : Z * istream :=
  match sentry s with
  | (None, s') => (old, s')
  | (Some r, _) =>
      let '(neg, r1) :=
        match r with
        | c :: r' => if ascii_eqb c "-"%char then (true, r')
                     else if ascii_eqb c "+"%char then (false, r') else (false, r)
        | [] => (false, r)
        end in
      let '(ds, r2) := span isdigit r1 in
      match ds with
      | [] => (0, mkIs r1 false true)
      | _ => ((if neg then - digits_val ds else digits_val ds),
              mkIs r2 (Nat.eqb (length r2) 0) false)
      end
  end.

(** [s >> b] for [bool]: 0 and 1 are accepted, anything else fails. *)
Definition get_bool (s : istream) (old : bool) : bool * istream :=
  match sentry s with
  | (None, s') => (old, s')
  | _ =>
      let '(v, s') := get_int s 0 in
      if good s' || eofbit s' && negb (failbit s') then
        if v =? 0 then (false, s')
        else if v =? 1 then (true, s') else (true, set_fail s')
      else (false, s')
  end.

(** [s >> x] for [float]: sign, digits, fraction, decimal exponent. *)
Definition pow10 (e : Z) : Q :=
  if 0 <=? e then inject_Z (10 ^ e) else (1 / inject_Z (10 ^ (- e)))%Q.

Definition get_float (s : istream) (old : Q) : Q * istream :=
  match sentry s with
  | (None, s') => (old, s')
  | (Some r, _) =>
      let '(neg, r1) :=
        match r with
        | c :: r' => if ascii_eqb c "-"%char then (true, r')
                     else if ascii_eqb c "+"%char then (false, r') else (false, r)
        | [] => (false, r)
        end in
      let '(ip, r2) := span isdigit r1 in
      let '(fp, r3) :=
        match r2 with
        | c :: r' => if ascii_eqb c "."%char then span isdigit r' else ([], r2)
        | [] => ([], r2)
        end in
      match ip ++ fp with
      | [] => (0%Q, mkIs r1 false true)
      | _ =>
          let '(ex, r4) :=
            match r3 with
            | c :: r' =>
                if ascii_eqb c "e"%char || ascii_eqb c "E"%char then
                  let '(eneg, r'') :=
                    match r' with
                    | c' :: t => if ascii_eqb c' "-"%char then (true, t)
                                 else if ascii_eqb c' "+"%char then (false, t)
                                 else (false, r')
                    | [] => (false, r')
                    end in
                  let '(ed, r5) := span isdigit r'' in
                  match ed with
                  | [] => (0, r3)
                  | _ => ((if eneg then - digits_val ed else digits_val ed), r5)
                  end
                else (0, r3)
            | [] => (0, r3)
            end in
          let m := (inject_Z (digits_val (ip ++ fp))
                    * pow10 (ex - Z.of_nat (length fp)))%Q in
          (Qred (if neg then - m else m)%Q,
           mkIs r4 (Nat.eqb (length r4) 0) false)
      end
  end.

(** [s.read(buffer, n)]: the characters extracted; fewer than [n] sets
    both state bits. *)
Definition read_chars (s : istream) (n : nat) : list ascii * istream :=
  if negb (good s) then ([], set_fail s)
  else if (length (rest s) <? n)%nat then (rest s, mkIs [] true true)
  else (firstn n (rest s), mkIs (skipn n (rest s)) false false).

(** Formatted output of integers and of floats ([%g] with six significant
    digits, the default of [operator<<]). *)
Fixpoint show_nat_digits (fuel : nat) (n : Z) (acc : list ascii) : list ascii :=
  match fuel with
  | O => acc
  | S fuel' =>
      let acc := ascii_of_N (Z.to_N (48 + n mod 10)) :: acc in
      if n / 10 =? 0 then acc else show_nat_digits fuel' (n / 10) acc
  end.
Definition show_int (z : Z) : list ascii :=
  if z <? 0 then "-"%char :: show_nat_digits 100 (- z) []
  else show_nat_digits 100 z [].
Definition show_bool (b : bool) : list ascii := if b then chars "1" else chars "0".

Fixpoint decimal_exponent (fuel : nat) (a : Q) (e : Z) : Z :=
  match fuel with
  | O => e
  | S fuel' =>
      if Qle_bool (pow10 (e + 1)) a then decimal_exponent fuel' a (e + 1)
      else if Qltb a (pow10 e) then decimal_exponent fuel' a (e - 1)
      else e
  end.

Definition strip_zeros (l : list ascii) : list ascii :=
  rev (snd (span (fun c => ascii_eqb c "0"%char) (rev l))).

Definition show_float (q : Q) : list ascii :=
  if Qeq_bool q 0 then chars "0"
  else
    let a := Qabs q in
    let e := decimal_exponent 400 a 0 in
    let m := Qfloor (a / pow10 (e - 5) + (1 # 2))%Q in
    let '(m, e) := if 1000000 <=? m then (m / 10, e + 1) else (m, e) in
    let ds := show_nat_digits 100 m [] in
    let sign := if Qltb q 0 then chars "-" else [] in
    if (e <? -4) || (6 <=? e) then
      let frac := strip_zeros (skipn 1 ds) in
      sign ++ firstn 1 ds
           ++ (match frac with [] => [] | _ => "."%char :: frac end)
           ++ chars "e" ++ (if e <? 0 then chars "-" else chars "+")
           ++ (if Z.abs e <? 10 then chars "0" else [])
           ++ show_int (Z.abs e)
    else if e <? 0 then
      sign ++ chars "0." ++ repeat "0"%char (Z.to_nat (- e - 1))
           ++ strip_zeros ds
    else
      let frac := strip_zeros (skipn (Z.to_nat (e + 1)) ds) in
      sign ++ firstn (Z.to_nat (e + 1)) ds
           ++ (match frac with [] => [] | _ => "."%char :: frac end).

(** ** Collaborators of serialization *)

(** Modelled from the spec: a bounding volume is a set of axis-aligned
    boxes (centre and half size) with [empty()] and [intersects(AABB)]
    ([ufomap/geometry/bounding_volume.h] is not part of the sources). *)
Record AABB := mkAABB { center : Point3; half_size : Q }.
Abbreviation BoundingVolume := (list AABB).

Definition aabb_intersects (a b : AABB) : bool :=
  let overlap i :=
    Qle_bool (Qabs (Vec.get (center a) i - Vec.get (center b) i))
             (half_size a + half_size b) in
  overlap 0%nat && overlap 1%nat && overlap 2%nat.
Definition bv_empty (bv : BoundingVolume) : bool :=
  match bv with [] => true | _ => false end.
Definition bv_intersects (bv : BoundingVolume) (a : AABB) : bool :=
  existsb (fun b => aabb_intersects b a) bv.

(** Modelled from the spec: the LZ4 block codec, bytes in and bytes out;
    [None] is a negative return value. *)
Record LZ4 := mkLZ4
  { LZ4_compress_default : list ascii -> option (list ascii);
    LZ4_decompress_safe : list ascii -> Z -> option (list ascii) }.

(** Modelled from the spec: [LEAF_NODE::writeData] and
    [LEAF_NODE::readData] move the raw representation of the logit, four
    bytes, least significant first. *)
Fixpoint le_bytes (n : nat) (v : Z) : list ascii :=
  match n with
  | O => []
  | S n' => ascii_of_N (Z.to_N (v mod 256)) :: le_bytes n' (v / 256)
  end.
Fixpoint le_value (l : list ascii) : Z :=
  match l with
  | [] => 0
  | c :: l' => Z.of_N (N_of_ascii c) + 256 * le_value l'
  end.
Definition signed32 (v : Z) : Z := if v <? 2 ^ 31 then v else v - 2 ^ 32.

Definition writeData_leaf (s : ostream) (n : OccupancyNode) : ostream :=
  s ++ le_bytes 4 (wrap32 (logit_ n)).
Definition readData_leaf (s : istream) (n : OccupancyNode)
  : OccupancyNode * istream :=
  let '(bytes, s') := read_chars s 4 in
  if Nat.eqb (length bytes) 4 then (mkLeaf (signed32 (le_value bytes)), s')
  else (n, s').

(** [getChildCenter]. *)
Definition getChildCenter (parent_center : Point3) (child_half_size : Q)
  (child_idx : nat) : Point3 :=
  let off (bit : Z) (x : Q) :=
    if negb (Z.land (Z.of_nat child_idx) bit =? 0)
    then Qred (x + child_half_size) else Qred (x - child_half_size) in
  mkVector3 (off 1 (data0 parent_center)) (off 2 (data1 parent_center))
            (off 4 (data2 parent_center)).

(** A [std::bitset<8>] as a byte, and back. *)
Definition bits_to_char (b : nat -> bool) : ascii :=
  ascii_of_N
    (fold_right (fun i acc => (if b i then 2 ^ N.of_nat i else 0) + acc)%N 0%N
                (seq 0 8)).
Definition char_bit (c : ascii) (i : nat) : bool :=
  N.testbit (N_of_ascii c) (N.of_nat i).
Definition char_any (c : ascii) : bool := negb (N_of_ascii c =? 0)%N.

(** Reading one [char] with [s.read]; an exhausted stream leaves the
    variable as it was declared (modelled as zero). *)
Definition read_char (s : istream) : ascii * istream :=
  let '(l, s') := read_chars s 1 in
  (match l with c :: _ => c | [] => ascii_of_N 0 end, s').

(** ** Writing *)

Definition in_volume (bv : BoundingVolume) (c : Point3) (h : Q) : bool :=
  bv_empty bv || bv_intersects bv (mkAABB c h).

(** The loop of [writeNodesRecurs] over the leaves of a depth-1 child. *)
Definition writeLeafChildren (this : Members) (bv : BoundingVolume)
  (child : InnerNode OccupancyNode) (child_center : Point3) (s : ostream)
  : ostream :=
  let child_child_half_size := getNodeHalfSize this 0 in
  match children child with
  | None => s
  | Some child_children_arr =>
      snd (oct.mapS
             (fun j leaf s =>
                (leaf,
                 if in_volume bv (getChildCenter child_center
                                                 child_child_half_size j)
                              child_child_half_size
                 then writeData_leaf s leaf else s))
             child_children_arr s)
  end.

(** What [writeNodesRecurs] writes for a child whose bit is set, the child
    being at depth [S d]: its eight leaves when [1 == child_depth], and
    otherwise the recursive call, whose body is the second branch. *)
Fixpoint writeNodes_under (this : Members) (bv : BoundingVolume)
  (min_depth : nat) (d : nat) {struct d}
  : InnerNode (NodeT d) -> Point3 -> ostream -> ostream :=
  match d with
  | O => fun child child_center s =>
      writeLeafChildren this bv child child_center s
  | S child_depth' => fun n center s =>
      let child_depth := S child_depth' in
      let child_half_size := getNodeHalfSize this child_depth in
      match children n with
      | None => s
      | Some child_arr =>
          let child_centers i := getChildCenter center child_half_size i in
          let child_intersects i :=
            (min_depth <? child_depth)%nat
            && in_volume bv (child_centers i) child_half_size in
          let children_bits i :=
            (min_depth <? child_depth)%nat
            && child_intersects i && hasChildren (oct.get i child_arr) in
          let s := s ++ [bits_to_char children_bits] in
          snd (oct.mapS
                 (fun i child s =>
                    (child,
                     if child_intersects i then
                       if children_bits i
                       then writeNodes_under this bv min_depth child_depth'
                                             child (child_centers i) s
                       else writeData_leaf s (base child)
                     else s))
                 child_arr s)
      end
  end.

(** [writeNodesRecurs(s, bounding_volume, node, center, current_depth,
    min_depth)] with [current_depth = S d].  At [current_depth = 1] the
    test [child_depth > min_depth] fails, both bit sets stay zero and only
    the zero byte is written. *)
Definition writeNodesRecurs (this : Members) (bv : BoundingVolume) (d : nat)
  : InnerNode (NodeT d) -> Point3 -> nat -> ostream -> bool * ostream :=
  match d with
  | O => fun n center min_depth s =>
      (true, s ++ [bits_to_char (fun _ => false)])
  | S d' => fun n center min_depth s =>
      (true, writeNodes_under this bv min_depth (S d') n center s)
  end.

(** [writeNodes(s, bounding_volume, node, current_depth, min_depth)] on the
    root. *)
Definition writeNodes (this : OctreeBase) (bv : BoundingVolume)
  (min_depth : nat) (s : ostream) : bool * ostream :=
  let current_depth := depth_levels_ this in
  let half_size := getNodeHalfSize this current_depth in
  if negb (bv_empty bv) && negb (bv_intersects bv (mkAABB origin3 half_size))
  then (true, s)
  else
    let flip := hasChildren (root_ this) && (min_depth <? current_depth)%nat in
    let s := s ++ [bits_to_char (fun _ => flip)] in
    if negb flip then (true, writeData_leaf s (base (root_ this)))
    else writeNodesRecurs this bv (pred current_depth) (root_ this) origin3
                          min_depth s.

(** [writeBinaryNodes]: not implemented in the source, returns [true]. *)
Definition writeBinaryNodes (this : OctreeBase) (bv : BoundingVolume)
  (min_depth : nat) (s : ostream) : bool * ostream := (true, s).

(** [compressData(s_in, s_out, uncompressed_data_size)]. *)
Definition compressData (lz4 : LZ4) (s_in : list ascii) (s_out : ostream)
  (uncompressed_data_size : Z) : bool * ostream :=
  let data := firstn (Z.to_nat uncompressed_data_size) s_in in
  match LZ4_compress_default lz4 data with
  | Some compressed_data => (true, s_out ++ compressed_data)
  | None => (false, s_out)
  end.

(** [writeData(s, bounding_volume, compress, binary, depth)]: the returned
    size ([-1] on failure) and the stream. *)
Definition writeData_plain (this : OctreeBase) (bv : BoundingVolume)
  (binary : bool) (depth : nat) (s : ostream) : Z * ostream :=
  if binary && negb (binarySupport this) then (-1, s)
  else
    let '(ok, s') :=
      if binary then writeBinaryNodes this bv depth s
      else writeNodes this bv depth s in
    if ok then (Z.of_nat (length s') - Z.of_nat (length s), s') else (-1, s').

Definition writeData (lz4 : LZ4) (this : OctreeBase) (bv : BoundingVolume)
  (compress binary : bool) (depth : nat) (s : ostream) : Z * ostream :=
  if binary && negb (binarySupport this) then (-1, s)
  else if compress then
    let '(uncompressed_data_size, data) :=
      writeData_plain this bv binary depth [] in
    if uncompressed_data_size <? 0 then (-1, s)
    else
      let '(ok, s') := compressData lz4 data s uncompressed_data_size in
      if ok then (uncompressed_data_size, s') else (-1, s')
  else writeData_plain this bv binary depth s.

Definition FILE_HEADER : list ascii := chars "# UFOMap octree file".
Definition FILE_VERSION : list ascii := chars "1.0.0".
Definition getFileVersion : list ascii := FILE_VERSION.
Definition endl : list ascii := [newline].

(** [write(s, bounding_volume, compress, binary, depth)]. *)
Definition write (lz4 : LZ4) (this : OctreeBase) (bv : BoundingVolume)
  (compress binary : bool) (depth : nat) (s : ostream) : bool * ostream :=
  if binary && negb (binarySupport this) then (false, s)
  else
    let '(uncompressed_data_size, data) :=
      writeData lz4 this bv compress binary depth [] in
    if uncompressed_data_size <? 0 then (false, s)
    else
      (true,
       s ++ FILE_HEADER
         ++ [newline]
         ++ chars "# (feel free to add / change comments, but leave the first line as it is!)"
         ++ [newline] ++ chars "#" ++ [newline]
         ++ chars "version " ++ getFileVersion ++ endl
         ++ chars "id " ++ getTreeType this ++ endl
         ++ chars "binary " ++ show_bool binary ++ endl
         ++ chars "resolution " ++ show_float (resolution_ this) ++ endl
         ++ chars "depth_levels " ++ show_int (Z.of_nat (depth_levels_ this))
         ++ endl
         ++ chars "occupancy_thres " ++ show_float (getOccupancyThres this)
         ++ endl
         ++ chars "free_thres " ++ show_float (getFreeThres this) ++ endl
         ++ chars "compressed " ++ show_bool compress ++ endl
         ++ chars "uncompressed_data_size " ++ show_int uncompressed_data_size
         ++ endl
         ++ chars "data" ++ endl
         ++ data).

(** ** Reading *)

(** The values [readHeader] extracts. *)
Record Header := mkHeader
  { h_file_version : list ascii;
    h_id : list ascii;
    h_binary : bool;
    h_resolution : Q;
    h_depth_levels : Z;
    h_occupancy_thres : Q;
    h_free_thres : Q;
    h_compressed : bool;
    h_uncompressed_data_size : Z }.

(** [do { c = s.get(); } while (s.good() && (c != '\n'))]. *)
Fixpoint skip_line (fuel : nat) (s : istream) : istream :=
  match fuel with
  | O => s
  | S fuel' =>
      let '(c, s) := stream_get s in
      if good s
         && negb (match c with Some c => ascii_eqb c newline | None => false end)
      then skip_line fuel' s else s
  end.

Definition token_is (token : list ascii) (k : string) : bool :=
  chars_eqb token (chars k).

(** One round of the token loop of [readHeader]. *)
Definition readHeader_step (st : Header * list ascii * bool * istream)
  : Header * list ascii * bool * istream :=
  let '(h, token, header_read, s) := st in
  let '(token, s) := get_token s token in
  let skip s := skip_line (S (length (rest s))) s in
  if token_is token "data" then (h, token, true, skip s)
  else if chars_eqb (firstn 1 token) (chars "#") then (h, token, false, skip s)
  else if token_is token "version" then
    let '(v, s) := get_token s (h_file_version h) in
    (mkHeader v (h_id h) (h_binary h) (h_resolution h) (h_depth_levels h)
              (h_occupancy_thres h) (h_free_thres h) (h_compressed h)
              (h_uncompressed_data_size h), token, false, s)
  else if token_is token "id" then
    let '(v, s) := get_token s (h_id h) in
    (mkHeader (h_file_version h) v (h_binary h) (h_resolution h) (h_depth_levels h)
              (h_occupancy_thres h) (h_free_thres h) (h_compressed h)
              (h_uncompressed_data_size h), token, false, s)
  else if token_is token "binary" then
    let '(v, s) := get_bool s (h_binary h) in
    (mkHeader (h_file_version h) (h_id h) v (h_resolution h) (h_depth_levels h)
              (h_occupancy_thres h) (h_free_thres h) (h_compressed h)
              (h_uncompressed_data_size h), token, false, s)
  else if token_is token "resolution" then
    let '(v, s) := get_float s (h_resolution h) in
    (mkHeader (h_file_version h) (h_id h) (h_binary h) v (h_depth_levels h)
              (h_occupancy_thres h) (h_free_thres h) (h_compressed h)
              (h_uncompressed_data_size h), token, false, s)
  else if token_is token "depth_levels" then
    let '(v, s) := get_int s (h_depth_levels h) in
    (mkHeader (h_file_version h) (h_id h) (h_binary h) (h_resolution h) v
              (h_occupancy_thres h) (h_free_thres h) (h_compressed h)
              (h_uncompressed_data_size h), token, false, s)
  else if token_is token "occupancy_thres" then
    let '(v, s) := get_float s (h_occupancy_thres h) in
    (mkHeader (h_file_version h) (h_id h) (h_binary h) (h_resolution h)
              (h_depth_levels h) v (h_free_thres h) (h_compressed h)
              (h_uncompressed_data_size h), token, false, s)
  else if token_is token "free_thres" then
    let '(v, s) := get_float s (h_free_thres h) in
    (mkHeader (h_file_version h) (h_id h) (h_binary h) (h_resolution h)
              (h_depth_levels h) (h_occupancy_thres h) v (h_compressed h)
              (h_uncompressed_data_size h), token, false, s)
  else if token_is token "compressed" then
    let '(v, s) := get_bool s (h_compressed h) in
    (mkHeader (h_file_version h) (h_id h) (h_binary h) (h_resolution h)
              (h_depth_levels h) (h_occupancy_thres h) (h_free_thres h) v
              (h_uncompressed_data_size h), token, false, s)
  else if token_is token "uncompressed_data_size" then
    let '(v, s) := get_int s (h_uncompressed_data_size h) in
    (mkHeader (h_file_version h) (h_id h) (h_binary h) (h_resolution h)
              (h_depth_levels h) (h_occupancy_thres h) (h_free_thres h)
              (h_compressed h) v, token, false, s)
  else (h, token, false, skip s).

(** [readHeader]: the result flag, the extracted values and the stream
    after the header.  Every round of the token loop that leaves the
    stream good consumes a character, which bounds the loop. *)
Definition readHeader (this : Members) (s : istream)
  : bool * Header * istream :=
  let h0 := mkHeader [] [] false 0 0 (-1) (-1) false (-1) in
  let '(h, _, header_read, s) :=
    while_loop (fun '(_, _, header_read, s) => good s && negb header_read)
               readHeader_step (S (length (rest s))) (h0, [], false, s) in
  let ok :=
    header_read
    && negb (chars_eqb (h_file_version h) [])
    && negb (chars_eqb (h_id h) [])
    && negb (h_binary h && negb (binarySupport this))
    && negb (Qle_bool (h_resolution h) 0)
    && negb (h_depth_levels h =? 0)
    && negb (Qltb (h_occupancy_thres h) 0)
    && negb (Qltb (h_free_thres h) 0)
    && negb (h_uncompressed_data_size h <? 0)
    && chars_eqb (getTreeType this) (h_id h) in
  (ok, h, s).

(** [decompressData(s_in, s_out, uncompressed_data_size)]: the
    decompressed characters, if the codec accepts the input. *)
Definition decompressData (lz4 : LZ4) (s_in : istream)
  (uncompressed_data_size : Z) : option (list ascii) * istream :=
  let '(compressed_data, s_in) := read_chars s_in (length (rest s_in)) in
  (LZ4_decompress_safe lz4 compressed_data uncompressed_data_size, s_in).

(** The leaves of a depth-1 child, read in order. *)
Definition readLeafChildren (this : Members) (bv : BoundingVolume)
  (child : InnerNode OccupancyNode) (child_center : Point3) (s : istream)
  : InnerNode OccupancyNode * istream :=
  let child_child_half_size := getNodeHalfSize this 0 in
  match children child with
  | None => (child, s)
  | Some child_children_arr =>
      let '(arr, s) :=
        oct.mapS
          (fun j leaf s =>
             if in_volume bv (getChildCenter child_center
                                             child_child_half_size j)
                          child_child_half_size
             then readData_leaf s leaf else (leaf, s))
          child_children_arr s in
      (set_children child (Some arr), s)
  end.

(** What [readNodesRecurs] does for a child whose bit is set, before its
    [updateNode(child, child_depth)]; the child is at depth [S d]. *)
Fixpoint readNodes_under (bv : BoundingVolume) (d : nat) {struct d}
  : InnerNode (NodeT d) -> Point3 -> istream -> Members ->
    InnerNode (NodeT d) * istream * Members :=
  match d with
  | O => fun child child_center s this =>
      let '(_, child, this) := expand this O child in
      let '(child, s) := readLeafChildren this bv child child_center s in
      (child, s, this)
  | S child_depth' => fun n center s this =>
      let child_depth := S child_depth' in
      let child_half_size := getNodeHalfSize this child_depth in
      let '(children_char, s) := read_char s in
      let child_centers i := getChildCenter center child_half_size i in
      let child_intersects i := in_volume bv (child_centers i) child_half_size in
      let '(_, n, this) := expand this child_depth n in
      match children n with
      | None => (n, s, this)
      | Some child_arr =>
          let '(arr, (s, this)) :=
            oct.mapS
              (fun i child '(s, this) =>
                 if child_intersects i then
                   if char_bit children_char i then
                     let '(child, s, this) :=
                       readNodes_under bv child_depth' child (child_centers i)
                                       s this in
                     let '(_, child, this) :=
                       updateNode this child_depth' child in
                     (child, (s, this))
                   else
                     let '(l, s) := readData_leaf s (base child) in
                     let '(child, this) :=
                       prune this child_depth' (set_base child l) false in
                     (child, (s, this))
                 else (child, (s, this)))
              child_arr (s, this) in
          (set_children n (Some arr), s, this)
      end
  end.

(** [readNodesRecurs] with [current_depth = S d].  At [current_depth = 1]
    the source treats the block of leaves as a block of inner nodes; the
    model stops after the byte and the [expand]. *)
Definition readNodesRecurs (bv : BoundingVolume) (d : nat)
  : InnerNode (NodeT d) -> Point3 -> istream -> Members ->
    bool * InnerNode (NodeT d) * istream * Members :=
  match d with
  | O => fun n center s this =>
      let '(_, s) := read_char s in
      let '(_, n, this) := expand this O n in
      (true, n, s, this)
  | S d' => fun n center s this =>
      let '(n, s, this) := readNodes_under bv (S d') n center s this in
      (true, n, s, this)
  end.

(** [readNodes(s, bounding_volume, node, current_depth, ...)] on the
    root. *)
Definition readNodes (this : OctreeBase) (bv : BoundingVolume) (s : istream)
  : bool * OctreeBase * istream :=
  let current_depth := depth_levels_ this in
  let half_size := getNodeHalfSize this current_depth in
  if negb (bv_empty bv) && negb (bv_intersects bv (mkAABB origin3 half_size))
  then (true, this, s)
  else
    let '(children_char, s) := read_char s in
    if negb (char_any children_char) then
      let '(l, s) := readData_leaf s (base (root_ this)) in
      let '(n, m) :=
        prune this (pred current_depth) (set_base (root_ this) l) false in
      (true, mkOctree m current_depth n, s)
    else
      let '(success, n, s, m) :=
        readNodesRecurs bv (pred current_depth) (root_ this) origin3 s this in
      let '(_, n, m) := updateNode m (pred current_depth) n in
      (success, mkOctree m current_depth n, s).

(** [readBinaryNodes]: not implemented in the source, returns [true]. *)
Definition readBinaryNodes (this : OctreeBase) (bv : BoundingVolume)
  (s : istream) : bool * OctreeBase * istream := (true, this, s).

(** [readData(s, bounding_volume, resolution, depth_levels, ...)]: the
    returned flag and the tree after the call, or the exception of
    [clear] and of a negative buffer size. *)
Definition readData (lz4 : LZ4) (this : OctreeBase) (s : istream)
  (bv : BoundingVolume) (resolution : Q) (depth_levels : nat)
  (occupancy_thres free_thres : Q) (uncompressed_data_size : Z)
  (compressed binary : bool) : outcome (bool * OctreeBase) :=
  if binary && negb (binarySupport this) then Returns (false, this)
  else
    let cleared :=
      if negb (Qeq_bool (resolution_ this) resolution)
         || negb (Nat.eqb (depth_levels_ this) depth_levels)
      then clear this resolution depth_levels
      else Returns this in
    match cleared with
    | Throws => Throws
    | Returns this =>
        let nodes s :=
          if binary then readBinaryNodes this bv s else readNodes this bv s in
        if compressed then
          if uncompressed_data_size <? 0 then Throws
          else
            match decompressData lz4 s uncompressed_data_size with
            | (Some uncompressed, _) =>
                Returns (fst (nodes (istream_of uncompressed)))
            | (None, _) => Returns (false, this)
            end
        else Returns (fst (nodes s))
    end.

(** [read(std::istream& s)]. *)
Definition read (lz4 : LZ4) (this : OctreeBase) (s : istream)
  : outcome (bool * OctreeBase) :=
  let '(line, s) := getline s [] in
  if negb (chars_eqb (firstn (length FILE_HEADER) line) FILE_HEADER)
  then Returns (false, this)
  else
    let '(ok, h, s) := readHeader this s in
    if negb ok then Returns (false, this)
    else if h_compressed h then
      match decompressData lz4 s (h_uncompressed_data_size h) with
      | (Some uncompressed, _) =>
          readData lz4 this (istream_of uncompressed) [] (h_resolution h)
                   (Z.to_nat (h_depth_levels h)) (h_occupancy_thres h)
                   (h_free_thres h) (h_uncompressed_data_size h) (h_compressed h)
                   (h_binary h)
      | (None, _) => Returns (false, this)
      end
    else
      readData lz4 this s [] (h_resolution h) (Z.to_nat (h_depth_levels h))
               (h_occupancy_thres h) (h_free_thres h) (h_uncompressed_data_size h)
               (h_compressed h) (h_binary h).

(** ** Insertion of rays *)

(** The overloads of [integrateHit] and [integrateMiss] on keys and
    points. *)
Definition integrateHit_Key (this : OctreeBase) (k : Key) : Node * OctreeBase :=
  integrateHit this (code.of_key k).
Definition integrateMiss_Key (this : OctreeBase) (k : Key) : Node * OctreeBase :=
  integrateMiss this (code.of_key k).
Definition integrateHit_Point3 (this : OctreeBase) (coord : Point3)
  (depth : nat) : Node * OctreeBase :=
  integrateHit_Key this (coordToKey this coord depth).

(** [insertMissOnRay(origin, end, max_range, depth)]. *)
Definition insertMissOnRay (this : OctreeBase) (origin end_ : Point3)
  (max_range : Q) (depth : nat) : OctreeBase :=
  let ray := computeRay this origin end_ max_range depth in
  fold_left (fun this key => snd (integrateMiss_Key this key)) ray this.

(** [insertRay(origin, end, max_range, depth)]; the hit is
    [integrateHit(end)], at the default depth 0. *)
Definition insertRay (this : OctreeBase) (origin end_ : Point3)
  (max_range : Q) (depth : nat) : OctreeBase :=
  let this := insertMissOnRay this origin end_ max_range depth in
  snd (integrateHit_Point3 this end_ 0).

(** ** Change detection and size *)

Definition enableChangeDetection (this : OctreeBase) (enable : bool)
  : OctreeBase :=
  let 'mkMembers a1 a2 a3 a4 a5 a6 a7 a8 a9 a10 a11 a12 _ a14 a15 a16 a17
                 a18 a19 a20 a21 a22 a23 := members this in
  with_members this
    (mkMembers a1 a2 a3 a4 a5 a6 a7 a8 a9 a10 a11 a12 enable a14 a15 a16 a17
               a18 a19 a20 a21 a22 a23).
Definition isChangeDetectionEnabled (this : Members) : bool :=
  change_detection_enabled_ this.
Definition getChangedCodes (this : Members) : gset Code := changed_codes_ this.

(** [size()]: the sum of the three counters, a [size_t]. *)
Definition size (this : Members) : Z :=
  wrap64 (num_inner_nodes_ this + num_inner_leaf_nodes_ this
          + num_leaf_nodes_ this).

(** ** The state of a probability *)

(** [isOccupied(float probability)] is [return
    isOccupied(logit(probability))], and likewise [isFree(float)] and
    [isUnknown(float)]: [logit] returns a [float], so each of them calls
    itself.  [fuel] bounds the number of nested calls; [None] is a call
    that has not returned within it. *)
Fixpoint isOccupied_float (fuel : nat) (this : Members) (probability : Q)
  : option bool :=
  match fuel with
  | O => None
  | S fuel' => isOccupied_float fuel' this (logit_to_real (logit probability))
  end.

Fixpoint isFree_float (fuel : nat) (this : Members) (probability : Q)
  : option bool :=
  match fuel with
  | O => None
  | S fuel' => isFree_float fuel' this (logit_to_real (logit probability))
  end.

Fixpoint isUnknown_float (fuel : nat) (this : Members) (probability : Q)
  : option bool :=
  match fuel with
  | O => None
  | S fuel' => isUnknown_float fuel' this (logit_to_real (logit probability))
  end.

(** ** Log-odds as IEEE values

    The update path once more, over log-odds that include the values of
    IEEE arithmetic that are not finite numbers: the two infinities and
    NaN.  Data and control flow are those of the sections above.  A
    finite value is the fixed-point integer it is there; addition and
    the comparisons follow IEEE 754 (every comparison with NaN is false
    and [!=] is true; opposite infinities add up to NaN); [std::log]
    answers NaN for a negative argument and minus infinity for zero. *)

Module ieee.

Inductive float : Set :=
| NInf
| Fin (z : Z)
| PInf
| NaN.

(** [a < b]. *)
Definition flt_lt (a b : float) : bool :=
  match a, b with
  | NaN, _ | _, NaN => false
  | NInf, NInf => false
  | NInf, _ => true
  | Fin _, NInf => false
  | Fin x, Fin y => x <? y
  | Fin _, PInf => true
  | PInf, _ => false
  end.

(** [a <= b]. *)
Definition flt_le (a b : float) : bool :=
  match a, b with
  | NaN, _ | _, NaN => false
  | NInf, _ => true
  | Fin _, NInf => false
  | Fin x, Fin y => x <=? y
  | Fin _, PInf => true
  | PInf, PInf => true
  | PInf, _ => false
  end.

(** [a == b]; [a != b] is its negation. *)
Definition flt_eq (a b : float) : bool :=
  match a, b with
  | NInf, NInf => true
  | Fin x, Fin y => x =? y
  | PInf, PInf => true
  | _, _ => false
  end.

(** [a + b]. *)
Definition flt_add (a b : float) : float :=
  match a, b with
  | NaN, _ | _, NaN => NaN
  | NInf, PInf | PInf, NInf => NaN
  | NInf, _ | _, NInf => NInf
  | PInf, _ | _, PInf => PInf
  | Fin x, Fin y => Fin (x + y)
  end.

(** [std::clamp(v, lo, hi)]: [(v < lo) ? lo : (hi < v) ? hi : v]. *)
Definition clamp (v lo hi : float) : float :=
  if flt_lt v lo then lo else if flt_lt hi v then hi else v.

(** *** Nodes *)

(** Modelled from the spec: the leaf payload [OccupancyNode]
    ([ufomap/node.h] is not part of the sources) holds a single log-odds
    value, zero in a fresh node. *)
Record OccupancyNode := mkLeaf { logit_ : float }.

(** Modelled from the spec: [InnerNode<LEAF_NODE>] embeds a leaf and adds
    the summary flags and the owned child block; a fresh inner node is
    collapsed and owns no block. *)
Record InnerNode (C : Type) := mkInner
  { base : OccupancyNode;
    contains_free : bool;
    contains_unknown : bool;
    all_children_same : bool;
    children : option (Oct C) }.
Arguments mkInner {C}.
Arguments base {C}.
Arguments contains_free {C}.
Arguments contains_unknown {C}.
Arguments all_children_same {C}.
Arguments children {C}.

Fixpoint NodeT (d : nat) : Type :=
  match d with
  | O => OccupancyNode
  | S d' => InnerNode (NodeT d')
  end.

Definition default_leaf : OccupancyNode := mkLeaf (Fin 0).
Definition default_inner {C : Type} : InnerNode C :=
  mkInner default_leaf false false true None.

(** The embedded leaf of a node of any depth (the upcast to [LEAF_NODE&]). *)
Definition as_leaf {d : nat} : NodeT d -> OccupancyNode :=
  match d with O => fun n => n | S _ => fun n => base n end.
Definition logit_of {d : nat} (n : NodeT d) : float := logit_ (as_leaf n).

Definition set_base {C} (n : InnerNode C) (l : OccupancyNode) : InnerNode C :=
  mkInner l (contains_free n) (contains_unknown n) (all_children_same n)
          (children n).
Definition set_logit {C} (n : InnerNode C) (v : float) : InnerNode C :=
  set_base n (mkLeaf v).
Definition set_flags {C} (n : InnerNode C) (cf cu : bool) : InnerNode C :=
  mkInner (base n) cf cu (all_children_same n) (children n).
Definition set_all_children_same {C} (n : InnerNode C) (b : bool)
  : InnerNode C :=
  mkInner (base n) (contains_free n) (contains_unknown n) b (children n).
Definition set_children {C} (n : InnerNode C) (ch : option (Oct C))
  : InnerNode C :=
  mkInner (base n) (contains_free n) (contains_unknown n)
          (all_children_same n) ch.

(** Modelled from the spec: the handle [Node<LEAF_NODE>]: a pointer to a
    node of the tree (here the node it points to, with the depth it really
    has; [None] is the null pointer) and the code the handle carries. *)
Record Node := mkNode
  { node : option { d : nat & NodeT d };
    code : Code }.

Definition node_ptr {d : nat} (n : NodeT d) : option { d : nat & NodeT d } :=
  Some (existT d n).
(** [node.node->logit]. *)
Definition node_logit (n : Node) : float :=
  match node n with Some (existT _ p) => logit_of p | None => Fin 0 end.

(** *** The tree object *)

(** Every data member of [OctreeBase] except the root and the number of
    depth levels. *)
Record Members := mkMembers
  { resolution_ : Q;
    resolution_factor_ : Q;
    max_value_ : Z;
    occupancy_thres_log_ : float;
    free_thres_log_ : float;
    prob_hit_log_ : float;
    prob_miss_log_ : float;
    clamping_thres_min_log_ : float;
    clamping_thres_max_log_ : float;
    bbx_limit_enabled_ : bool;
    bbx_min_ : Point3;
    bbx_max_ : Point3;
    change_detection_enabled_ : bool;
    changed_codes_ : gset Code;
    nodes_sizes_ : list Q;
    nodes_half_sizes_ : list Q;
    automatic_pruning_enabled_ : bool;
    num_inner_nodes_ : Z;
    num_inner_leaf_nodes_ : Z;
    num_leaf_nodes_ : Z;
    indices_ : gmap Code float;
    getTreeType : list ascii;
    binarySupport : bool }.

Record OctreeBase := mkOctree
  { members :> Members;
    depth_levels_ : nat;
    root_ : InnerNode (NodeT (pred depth_levels_)) }.

(** The root passed as [LEAF_NODE&] with [current_depth = depth_levels_]. *)
Definition root_view (L : nat) : InnerNode (NodeT (pred L)) -> NodeT L :=
  match L with O => fun r => base r | S _ => fun r => r end.
Definition root_store (L : nat)
  : InnerNode (NodeT (pred L)) -> NodeT L -> InnerNode (NodeT (pred L)) :=
  match L with O => fun r l => set_base r l | S _ => fun _ n => n end.
Definition with_members (t : OctreeBase) (m : Members) : OctreeBase :=
  mkOctree m (depth_levels_ t) (root_ t).
Definition with_root (t : OctreeBase) (m : Members)
  (r : NodeT (depth_levels_ t)) : OctreeBase :=
  mkOctree m (depth_levels_ t) (root_store _ (root_ t) r).

(** Assignments to single data members. *)
Definition set_counters (m : Members) (inner inner_leaf leaf : Z) : Members :=
  let 'mkMembers a1 a2 a3 a4 a5 a6 a7 a8 a9 a10 a11 a12 a13 a14 a15 a16 a17
                 _ _ _ a21 a22 a23 := m in
  mkMembers a1 a2 a3 a4 a5 a6 a7 a8 a9 a10 a11 a12 a13 a14 a15 a16 a17
            inner inner_leaf leaf a21 a22 a23.
Definition set_changed_codes_ (m : Members) (s : gset Code) : Members :=
  let 'mkMembers a1 a2 a3 a4 a5 a6 a7 a8 a9 a10 a11 a12 a13 _ a15 a16 a17
                 a18 a19 a20 a21 a22 a23 := m in
  mkMembers a1 a2 a3 a4 a5 a6 a7 a8 a9 a10 a11 a12 a13 s a15 a16 a17
            a18 a19 a20 a21 a22 a23.
Definition set_prob_miss_log_ (m : Members) (v : float) : Members :=
  let 'mkMembers a1 a2 a3 a4 a5 a6 _ a8 a9 a10 a11 a12 a13 a14 a15 a16 a17
                 a18 a19 a20 a21 a22 a23 := m in
  mkMembers a1 a2 a3 a4 a5 a6 v a8 a9 a10 a11 a12 a13 a14 a15 a16 a17
            a18 a19 a20 a21 a22 a23.

(** *** Sensor model functions *)

(** [float logit(float probability)]:
    [std::log(probability / (1.0 - probability))] for a probability that
    is a finite number.  A probability of 1 divides by zero: the quotient
    is plus infinity and so is its logarithm. *)
Definition logit (probability : Q) : float :=
  if Qeq_bool (1 - probability) 0 then PInf
  else
    let x := (probability / (1 - probability))%Q in
    if Qltb x 0 then NaN
    else if Qeq_bool x 0 then NInf
    else Fin (real_to_logit (flog x)).

(** [logit] of a stored float: for an infinite or NaN argument the
    quotient is NaN. *)
Definition logit_float (probability : float) : float :=
  match probability with
  | Fin z => logit (logit_to_real z)
  | _ => NaN
  end.

Definition setProbMissLog (this : OctreeBase) (l : float) : OctreeBase :=
  with_members this (set_prob_miss_log_ this l).
(** The argument of [logit] is the member [prob_hit_log_], as the source
    has it. *)
Definition setProbMiss (this : OctreeBase) (p : Q) : OctreeBase :=
  setProbMissLog this (logit_float (prob_hit_log_ this)).

(** *** Checking the state of a node *)

Definition isOccupiedLog (this : Members) (l : float) : bool :=
  flt_lt (occupancy_thres_log_ this) l.
Definition isFreeLog (this : Members) (l : float) : bool :=
  flt_lt l (free_thres_log_ this).
Definition isUnknownLog (this : Members) (l : float) : bool :=
  flt_le (free_thres_log_ this) l && flt_le l (occupancy_thres_log_ this).

(** The overloads on [const LEAF_NODE&]. *)
Definition isOccupied (this : Members) (n : OccupancyNode) : bool :=
  isOccupiedLog this (logit_ n).
Definition isFree (this : Members) (n : OccupancyNode) : bool :=
  isFreeLog this (logit_ n).
Definition isUnknown (this : Members) (n : OccupancyNode) : bool :=
  isUnknownLog this (logit_ n).

(** The overloads on [const InnerNode<LEAF_NODE>&]. *)
Definition containsFree {C} (n : InnerNode C) : bool := contains_free n.
Definition containsUnknown {C} (n : InnerNode C) : bool := contains_unknown n.
Definition isLeaf {C} (n : InnerNode C) : bool := all_children_same n.
Definition hasChildren {C} (n : InnerNode C) : bool :=
  negb (all_children_same n).

(** *** Lookup *)

(** [getNode], as above. *)
Fixpoint getNode_from (c : Code) (return_nullptr : bool) (depth : nat)
  {struct depth} : NodeT depth -> Node :=
  match depth with
  | O => fun current_node => mkNode (node_ptr (d:=O) current_node) c
  | S d' => fun current_node =>
      if (code.getDepth c <? S d')%nat then
        if negb (hasChildren current_node) then
          if return_nullptr then mkNode None (mkCode 0 0)
          else mkNode (node_ptr (d:=S d') current_node)
                      (code.toDepth c (S d' + 1))
        else
          let child_idx := code.getChildIdx c d' in
          match children current_node with
          | Some ch => getNode_from c return_nullptr d' (oct.get child_idx ch)
          | None => mkNode None c
          end
      else mkNode (node_ptr (d:=S d') current_node) c
  end.

Definition getNode (this : OctreeBase) (c : Code) (return_nullptr : bool)
  : Node :=
  getNode_from c return_nullptr (depth_levels_ this)
               (root_view _ (root_ this)).

(** *** Creating and deleting children *)

Definition new_children (this : Members) (d : nat) : Oct (NodeT d) :=
  match d with
  | O => oct.replicate default_leaf
  | S _ =>
      oct.replicate
        (set_flags default_inner (isFree this default_leaf)
                   (isUnknown this default_leaf))
  end.

Definition createChildren (this : Members) (d : nat)
  (inner_node : InnerNode (NodeT d)) : bool * InnerNode (NodeT d) * Members :=
  match children inner_node with
  | Some _ => (false, inner_node, this)
  | None =>
      let this' :=
        match d with
        | O => set_counters this
                 (wrap64 (num_inner_nodes_ this + 1))
                 (wrap64 (num_inner_leaf_nodes_ this - 1))
                 (wrap64 (num_leaf_nodes_ this + 8))
        | S _ => set_counters this
                 (wrap64 (num_inner_nodes_ this + 1))
                 (wrap64 (num_inner_leaf_nodes_ this + 7))
                 (num_leaf_nodes_ this)
        end in
      (true,
       set_all_children_same
         (set_children inner_node (Some (new_children this d))) false,
       this')
  end.

(** What [expand] writes into each child. *)
Definition seed_child (d : nat) (inner_node : InnerNode (NodeT d))
  : NodeT d -> NodeT d :=
  match d return InnerNode (NodeT d) -> NodeT d -> NodeT d with
  | O => fun inner_node _ => mkLeaf (logit_ (base inner_node))
  | S _ => fun inner_node child =>
      mkInner (mkLeaf (logit_ (base inner_node)))
              (contains_free inner_node) (contains_unknown inner_node)
              true (children child)
  end inner_node.

Definition expand (this : Members) (d : nat)
  (inner_node : InnerNode (NodeT d)) : bool * InnerNode (NodeT d) * Members :=
  if negb (all_children_same inner_node) then (false, inner_node, this)
  else
    let '(_, inner_node, this) := createChildren this d inner_node in
    (true,
     set_children inner_node
       (option_map (oct.map (seed_child d inner_node)) (children inner_node)),
     this).

Fixpoint deleteChildren (d : nat) {struct d}
  : InnerNode (NodeT d) -> bool -> Members -> InnerNode (NodeT d) * Members :=
  match d with
  | O => fun inner_node manual_pruning this =>
      let inner_node := set_all_children_same inner_node true in
      match children inner_node with
      | None => (inner_node, this)
      | Some _ =>
          if negb manual_pruning && negb (automatic_pruning_enabled_ this)
          then (inner_node, this)
          else (set_children inner_node None,
                set_counters this
                  (wrap64 (num_inner_nodes_ this - 1))
                  (wrap64 (num_inner_leaf_nodes_ this + 1))
                  (wrap64 (num_leaf_nodes_ this - 8)))
      end
  | S child_depth => fun inner_node manual_pruning this =>
      let inner_node := set_all_children_same inner_node true in
      match children inner_node with
      | None => (inner_node, this)
      | Some ch =>
          if negb manual_pruning && negb (automatic_pruning_enabled_ this)
          then (inner_node, this)
          else
            let '(_, this) :=
              oct.mapS (fun _ child this =>
                          deleteChildren child_depth child manual_pruning this)
                       ch this in
            (set_children inner_node None,
             set_counters this
               (wrap64 (num_inner_nodes_ this - 1))
               (wrap64 (num_inner_leaf_nodes_ this - 7))
               (num_leaf_nodes_ this))
      end
  end.

Definition prune (this : Members) (d : nat) (inner_node : InnerNode (NodeT d))
  (manual_pruning : bool) : InnerNode (NodeT d) * Members :=
  let '(inner_node, this) := deleteChildren d inner_node manual_pruning this in
  (set_flags inner_node (isFree this (base inner_node))
             (isUnknown this (base inner_node)),
   this).

(** *** Summaries *)

(** [isNodeCollapsible]: the loop leaves with [false] at the first child
    whose logit [!=] that of [children[0]]. *)
Definition isNodeCollapsible (d : nat) : Oct (NodeT d) -> bool :=
  match d with
  | O => fun ch =>
      forallb (fun c => flt_eq (logit_ (c0 ch)) (logit_ c))
              (tl (oct.to_list ch))
  | S _ => fun ch =>
      if isLeaf (c0 ch)
      then forallb (fun c => flt_eq (logit_ (base (c0 ch))) (logit_ (base c))
                             && isLeaf c)
                   (tl (oct.to_list ch))
      else false
  end.

(** [getMaxChildLogit], starting from the first child on leaves and from
    [lowest()] on inner nodes. *)
Definition getMaxChildLogit (d : nat) : Oct (NodeT d) -> float :=
  match d with
  | O => fun ch =>
      fold_left (fun max c => if flt_lt max (logit_ c) then logit_ c else max)
                (oct.to_list ch) (logit_ (c0 ch))
  | S _ => fun ch =>
      fold_left (fun max c => if flt_lt max (logit_ (base c))
                              then logit_ (base c) else max)
                (oct.to_list ch) (Fin FLT_LOWEST)
  end.

(** The two flags computed by the loops of [updateNode]. *)
Definition childFlags (this : Members) (d : nat) : Oct (NodeT d) -> bool * bool :=
  match d with
  | O => fun ch =>
      fold_left (fun '(cf, cu) c =>
                   if isFree this c then (true, cu)
                   else if isUnknown this c then (cf, true)
                   else (cf, cu))
                (oct.to_list ch) (false, false)
  | S _ => fun ch =>
      fold_left (fun '(cf, cu) c =>
                   ((if containsFree c then true else cf),
                    (if containsUnknown c then true else cu)))
                (oct.to_list ch) (false, false)
  end.

(** [updateNode(node, depth)] with [depth = S d]. *)
Definition updateNode (this : Members) (d : nat) (n : InnerNode (NodeT d))
  : bool * InnerNode (NodeT d) * Members :=
  match children n with
  | None => (false, n, this)
  | Some ch =>
      if isNodeCollapsible d ch then
        let n := set_logit n (logit_of (c0 ch)) in
        let '(n, this) := prune this d n false in
        (true, n, this)
      else
        let new_logit := getMaxChildLogit d ch in
        let '(new_contains_free, new_contains_unknown) :=
          childFlags this d ch in
        if negb (flt_eq (logit_ (base n)) new_logit)
           || negb (Bool.eqb (contains_free n) new_contains_free)
           || negb (Bool.eqb (contains_unknown n) new_contains_unknown)
        then (true,
              set_flags (set_logit n new_logit) new_contains_free
                        new_contains_unknown,
              this)
        else (false, n, this)
  end.

(** *** Updating node values *)

Definition note_change (this : Members) (c : Code) : Members :=
  if change_detection_enabled_ this
  then set_changed_codes_ this ({[ c ]} ∪ changed_codes_ this)
  else this.

(** [updateNodeValueRecurs(code, logit_value, node, current_depth,
    set_value)]. *)
Fixpoint updateNodeValueRecurs (logit_value : float) (set_value : bool)
  (current_depth : nat) {struct current_depth}
  : Code -> NodeT current_depth -> Members ->
    (Node * bool) * NodeT current_depth * Members :=
  match current_depth with
  | O => fun c n this =>
      let n' :=
        if set_value
        then mkLeaf (clamp logit_value (clamping_thres_min_log_ this)
                           (clamping_thres_max_log_ this))
        else mkLeaf (clamp (flt_add (logit_ n) logit_value)
                           (clamping_thres_min_log_ this)
                           (clamping_thres_max_log_ this)) in
      let this := note_change this c in
      ((mkNode (node_ptr (d:=O) n') c, true), n', this)
  | S child_depth => fun c n this =>
      if (code.getDepth c <? S child_depth)%nat then
        (* Create children if they do not exist *)
        let '(_, inner_node, this) := expand this child_depth n in
        let child_idx := code.getChildIdx c child_depth in
        match children inner_node with
        | None => ((mkNode None c, false), inner_node, this)
        | Some ch =>
            let '((child, changed), child_node, this) :=
              updateNodeValueRecurs logit_value set_value child_depth c
                                    (oct.get child_idx ch) this in
            let inner_node :=
              set_children inner_node (Some (oct.set child_idx child_node ch)) in
            if changed then
              let '(changed, inner_node, this) :=
                updateNode this child_depth inner_node in
              let this :=
                if changed
                then note_change this (code.toDepth c (S child_depth))
                else this in
              ((child, changed), inner_node, this)
            else ((child, changed), inner_node, this)
        end
      else
        let '(n, this) :=
          if set_value then
            let n := set_logit n (clamp logit_value
                                        (clamping_thres_min_log_ this)
                                        (clamping_thres_max_log_ this)) in
            prune this child_depth n false
          else
            let n := set_logit n (clamp (flt_add (logit_ (base n)) logit_value)
                                        (clamping_thres_min_log_ this)
                                        (clamping_thres_max_log_ this)) in
            if negb (isOccupied this (base n)) then
              prune this child_depth n false
            else if hasChildren n then
              match children n with
              | None => (n, this)
              | Some ch =>
                  let '(ch, this) :=
                    oct.mapS
                      (fun child_idx child_node this =>
                         let '(_, child_node, this) :=
                           updateNodeValueRecurs logit_value set_value
                             child_depth (code.getChild c child_idx)
                             child_node this in
                         (child_node, this))
                      ch this in
                  let '(_, n, this) :=
                    updateNode this child_depth (set_children n (Some ch)) in
                  (n, this)
              end
            else (n, this) in
        let this := note_change this c in
        ((mkNode (node_ptr (d:=S child_depth) n) c, true), n, this)
  end.

(** [updateNodeValue(code, logit_update)]. *)
Definition updateNodeValue (this : OctreeBase) (c : Code) (logit_update : float)
  : Node * OctreeBase :=
  let n := getNode this c false in
  if (flt_le (Fin 0) logit_update
      && flt_le (clamping_thres_max_log_ this) (node_logit n))
     || (flt_le logit_update (Fin 0)
         && flt_le (node_logit n) (clamping_thres_min_log_ this))
  then (n, this)
  else
    let '((r, _), root, m) :=
      updateNodeValueRecurs logit_update false (depth_levels_ this) c
                            (root_view _ (root_ this)) this in
    (r, with_root this m root).

(** [setNodeValue(code, logit_value)]. *)
Definition setNodeValue (this : OctreeBase) (c : Code) (logit_value : float)
  : Node * OctreeBase :=
  let logit_value := clamp logit_value (clamping_thres_min_log_ this)
                           (clamping_thres_max_log_ this) in
  let n := getNode this c false in
  if negb (flt_eq logit_value (node_logit n)) then
    let '((r, _), root, m) :=
      updateNodeValueRecurs logit_value true (depth_levels_ this) c
                            (root_view _ (root_ this)) this in
    (r, with_root this m root)
  else (n, this).

Definition integrateHit (this : OctreeBase) (c : Code) : Node * OctreeBase :=
  updateNodeValue this c (prob_hit_log_ this).
Definition integrateMiss (this : OctreeBase) (c : Code) : Node * OctreeBase :=
  updateNodeValue this c (prob_miss_log_ this).

(** *** Construction *)

(** The protected constructor. *)
Definition OctreeBase_new (tree_type : list ascii) (binary_support : bool)
  (resolution : Q) (depth_levels : nat) (automatic_pruning : bool)
  (occupancy_thres free_thres prob_hit prob_miss
   clamping_thres_min clamping_thres_max : Q) : outcome OctreeBase :=
  if (depth_levels <? 2)%nat || (21 <? depth_levels)%nat then Throws
  else
    Returns
      (mkOctree
         {| resolution_ := resolution;
            resolution_factor_ := Qred (1 / resolution)%Q;
            max_value_ := max_value_of depth_levels;
            occupancy_thres_log_ := logit occupancy_thres;
            free_thres_log_ := logit free_thres;
            prob_hit_log_ := logit prob_hit;
            prob_miss_log_ := logit prob_miss;
            clamping_thres_min_log_ := logit clamping_thres_min;
            clamping_thres_max_log_ := logit clamping_thres_max;
            bbx_limit_enabled_ := false;
            bbx_min_ := origin3;
            bbx_max_ := origin3;
            change_detection_enabled_ := false;
            changed_codes_ := ∅;
            nodes_sizes_ := node_sizes resolution depth_levels;
            nodes_half_sizes_ := node_half_sizes resolution depth_levels;
            automatic_pruning_enabled_ := automatic_pruning;
            num_inner_nodes_ := 0;
            num_inner_leaf_nodes_ := 1;
            num_leaf_nodes_ := 0;
            indices_ := ∅;
            getTreeType := tree_type;
            binarySupport := binary_support |}
         depth_levels default_inner).

(** *** Vocabulary *)

Definition is_finite (v : float) : bool :=
  match v with Fin _ => true | _ => false end.
Definition is_nan (v : float) : bool :=
  match v with NaN => true | _ => false end.

(** [lo <= l] and [l <= hi]; false when one of the three is NaN. *)
Definition between (lo hi l : float) : Prop :=
  flt_le lo l = true /\ flt_le l hi = true.

(** Every logit stored in a node and, recursively, in the child block it
    owns (also a block kept after pruning) lies in [[lo, hi]]. *)
Fixpoint logits_in (lo hi : float) (d : nat) {struct d} : NodeT d -> Prop :=
  match d with
  | O => fun n => between lo hi (logit_ n)
  | S d' => fun n =>
      between lo hi (logit_ (base n))
      /\ match children n with
         | None => True
         | Some ch => oct.All (logits_in lo hi d') ch
         end
  end.

(** Every stored logit of a tree lies between its clamping thresholds. *)
Definition stored_logits_clamped (this : OctreeBase) : Prop :=
  logits_in (clamping_thres_min_log_ this) (clamping_thres_max_log_ this)
            (S (pred (depth_levels_ this))) (root_ this).

Definition clamps (m : Members) (lo hi : float) : Prop :=
  clamping_thres_min_log_ m = lo /\ clamping_thres_max_log_ m = hi.

(** The part of [logits_in] that speaks of the child block only. *)
Definition kids_in (lo hi : float) (d : nat) : NodeT d -> Prop :=
  match d with
  | O => fun _ => True
  | S d' => fun c =>
      match children c with
      | Some g => oct.All (logits_in lo hi d') g
      | None => True
      end
  end.

(** A node owns a child block exactly when it is not flagged
    [all_children_same], and so do the nodes of the block. *)
Fixpoint block_matches_flag (d : nat) {struct d} : NodeT d -> Prop :=
  match d with
  | O => fun _ => True
  | S d' => fun n =>
      match children n with
      | None => all_children_same n = true
      | Some ch =>
          all_children_same n = false /\ oct.All (block_matches_flag d') ch
      end
  end.

Definition tree_consistent (this : OctreeBase) : Prop :=
  block_matches_flag (S (pred (depth_levels_ this))) (root_ this).

(** The members with the three node counters and the set of changed
    codes erased. *)
Definition settings (m : Members) : Members :=
  set_counters (set_changed_codes_ m ∅) 0 0 0.

(** [child.logit <= node.logit] holds of every node of a child block and
    the node that owns the block. *)
Fixpoint dominated (d : nat) {struct d} : NodeT d -> Prop :=
  match d with
  | O => fun _ => True
  | S d' => fun n =>
      match children n with
      | None => True
      | Some ch =>
          oct.All (fun c => flt_le (logit_of c) (logit_ (base n)) = true
                            /\ dominated d' c) ch
      end
  end.

(** The summaries of the tree are sound. *)
Definition tree_dominated (this : OctreeBase) : Prop :=
  dominated (S (pred (depth_levels_ this))) (root_ this).

(** What the recursion of [updateNodeValueRecurs] needs of its value: not
    NaN when the value is set, finite when it is added. *)
Definition usable (v : float) (set_value : bool) : Prop :=
  if set_value then is_nan v = false else is_finite v = true.

End ieee.

(** * Vocabulary of the statements and example inputs *)

Definition from_outcome {A : Type} (d : A) (o : outcome A) : A :=
  match o with Returns a => a | Throws => d end.

Definition blank_members : Members :=
  mkMembers 0 0 0 0 0 0 0 0 0 false origin3 origin3 false ∅ [] [] false
            0 0 0 ∅ [] false.
Definition blank_tree : OctreeBase := mkOctree blank_members 2 default_inner.

Definition a_codec : LZ4 := mkLZ4 (fun _ => None) (fun _ _ => None).

(** The tree of the end-to-end scenarios: resolution 0.1, the sensor model
    of the scenarios, here with two depth levels. *)
Definition demo_new (automatic_pruning : bool) : outcome OctreeBase :=
  OctreeBase_new (chars "occupancy_map") false (1 # 10) 2 automatic_pruning
                 (1 # 2) (12 # 100) (7 # 10) (4 # 10) (1192 # 10000)
                 (971 # 1000).
Definition demo_tree : OctreeBase :=
  Eval vm_compute in from_outcome blank_tree (demo_new true).
Definition demo_tree_keep : OctreeBase :=
  Eval vm_compute in from_outcome blank_tree (demo_new false).

(** Resolution 1 and four depth levels: the cube [-8, 8]. *)
Definition grid_new : outcome OctreeBase :=
  OctreeBase_new (chars "occupancy_map") false 1 4 true
                 (1 # 2) (12 # 100) (7 # 10) (4 # 10) (1192 # 10000)
                 (971 # 1000).
Definition grid_tree : OctreeBase :=
  Eval vm_compute in from_outcome blank_tree grid_new.

(** The voxels around (0.05, 0.05, 0.05) and (-0.05, 0.05, 0.05). *)
Definition code_A : Code :=
  Eval vm_compute in
    code.of_key (coordToKey demo_tree (mkVector3 (5 # 100) (5 # 100) (5 # 100)) 0).
Definition code_B : Code :=
  Eval vm_compute in
    code.of_key (coordToKey demo_tree (mkVector3 (-5 # 100) (5 # 100) (5 # 100)) 0).

(** [demo_tree] after [integrateHit] at [code_A]. *)
Definition hit_tree : OctreeBase :=
  Eval vm_compute in snd (integrateHit demo_tree code_A).

(** [demo_tree] with the voxel [code_A] set to the upper clamping
    threshold. *)
Definition saturated_tree : OctreeBase :=
  Eval vm_compute in snd (setNodeValue demo_tree code_A 40000).

(** A receiver built through the public interface: automatic pruning
    disabled, one hit at [code_B], then [setNodeValue] on the root code.
    Its root is collapsed but still owns its child block. *)
Definition retaining_tree : OctreeBase :=
  Eval vm_compute in
    snd (setNodeValue (snd (integrateHit demo_tree_keep code_B))
                      (mkCode 0 2) 5000).

(** The stream [write] produces for [hit_tree]: not compressed, not
    binary, empty bounding volume, depth 0. *)
Definition hit_stream : list ascii :=
  Eval vm_compute in snd (write a_codec hit_tree [] false false 0 []).

(** The first line test of [read], and what [readHeader] makes of the
    lines after it. *)
Definition first_line_ok (s : istream) : bool :=
  chars_eqb (firstn (length FILE_HEADER) (fst (getline s []))) FILE_HEADER.
Definition header_of (this : Members) (s : istream) : bool * Header * istream :=
  readHeader this (snd (getline s [])).

(** What is left to read while the stream is good. *)
Definition stream_measure (s : istream) : nat :=
  if good s then S (length (rest s)) else 0%nat.

(** The runs of [while (cond) body]: from [s] the loop exits in [s']. *)
Inductive while_steps {S : Type} (cond : S -> bool) (body : S -> S)
  : S -> S -> Prop :=
| while_exit s : cond s = false -> while_steps cond body s s
| while_iter s s' :
    cond s = true -> while_steps cond body (body s) s' ->
    while_steps cond body s s'.

Definition positive_delta (r : Ray) : Prop :=
  (0 < data0 (t_delta r) /\ 0 < data1 (t_delta r) /\ 0 < data2 (t_delta r))%Q.

(** [grid_tree] with the voxel around (3.5, 0.5, 0.5) hit once. *)
Definition grid_hit_tree : OctreeBase :=
  Eval vm_compute in
    snd (integrateHit grid_tree
           (code.of_key (coordToKey grid_tree
                                    (mkVector3 (7 # 2) (1 # 2) (1 # 2)) 0))).

(** The segment [computeUpdate] walks for one point of the cloud: moved
    origin, moved end, direction and distance; [None] when the line
    misses the box. *)
Definition update_segment (this : OctreeBase) (sensor_origin : Point3)
  (max_range : Q) (point : Point3) : option (Point3 * Point3 * Point3 * Q) :=
  let origin := sensor_origin in
  let end_ := Vec.sub point origin in
  let distance := Vec.norm end_ in
  let dir := Vec.div end_ distance in
  let end_ :=
    if Qle_bool 0 max_range && Qltb max_range distance
    then Vec.add origin (Vec.scale dir max_range)
    else point in
  match moveLineIntoBBX this origin end_ with
  | None => None
  | Some (origin, end_) => Some (origin, end_, dir, distance)
  end.

(** The cell a point is recorded in as a hit: the cell of the end of its
    segment, when that end is the point itself. *)
Definition hit_cell (this : OctreeBase) (sensor_origin : Point3)
  (max_range : Q) (point : Point3) : option Code :=
  match update_segment this sensor_origin max_range point with
  | Some (_, end_, _, _) =>
      if Vec.eqb point end_
      then Some (code.of_key (coordToKey this end_ 0)) else None
  | None => None
  end.

(** The cells the ray to a point traverses, in the order of the walk. *)
Definition miss_cells (this : OctreeBase) (sensor_origin : Point3)
  (max_range : Q) (point : Point3) : list Code :=
  match update_segment this sensor_origin max_range point with
  | Some (origin, end_, dir, distance) =>
      let r := computeRayInit this origin end_ dir 0 in
      snd (while_loop
             (fun '(r, cells) =>
                negb (key.eqb (current r) (ending r))
                && Qle_bool (Vec.min (t_max r)) distance)
             (fun '(r, cells) =>
                (computeRayTakeStep r 0, cells ++ [code.of_key (current r)]))
             (ray_fuel distance r) (r, []))
  | None => []
  end.

Definition emplace_all (v : Z) (cells : list Code) (m : gmap Code Z)
  : gmap Code Z :=
  fold_left (fun m c => try_emplace c v m) cells m.

(** The hit cells and the traversed cells of a whole cloud. *)
Definition hit_cells (this : OctreeBase) (sensor_origin : Point3)
  (max_range : Q) (cloud : list Point3) : list Code :=
  omap (hit_cell this sensor_origin max_range) cloud.
Definition traversed_cells (this : OctreeBase) (sensor_origin : Point3)
  (max_range : Q) (cloud : list Point3) : list Code :=
  concat (map (miss_cells this sensor_origin max_range) cloud).

(** [hit_tree] with change detection enabled. *)
Definition detecting_tree : OctreeBase :=
  Eval vm_compute in enableChangeDetection hit_tree true.

(** A node owns a child block exactly when it is not flagged
    [all_children_same], and so do the nodes of the block. *)
Fixpoint block_matches_flag (d : nat) {struct d} : NodeT d -> Prop :=
  match d with
  | O => fun _ => True
  | S d' => fun n =>
      match children n with
      | None => all_children_same n = true
      | Some ch =>
          all_children_same n = false /\ oct.All (block_matches_flag d') ch
      end
  end.

(** Every node of the tree owns a child block exactly when it is not
    flagged. *)
Definition tree_consistent (this : OctreeBase) : Prop :=
  block_matches_flag (S (pred (depth_levels_ this))) (root_ this).

(** The members with the three node counters and the set of changed
    codes erased. *)
Definition settings (m : Members) : Members :=
  set_counters (set_changed_codes_ m ∅) 0 0 0.

(** The logit [getNode] answers a code with. *)
Definition answer (d : nat) (c : Code) (n : NodeT d) : Z :=
  node_logit (getNode_from c false d n).

(** A node that lookup does not descend from. *)
Definition flagged_leaf (d : nat) : NodeT d -> bool :=
  match d with O => fun _ => true | S _ => fun n => isLeaf n end.

(** The paths of two codes from the root part: at some level that both
    descend through they take different children. *)
Definition paths_part (this : OctreeBase) (c c' : Code) : Prop :=
  exists d0 : nat,
    (d0 < depth_levels_ this)%nat
    /\ (code.getDepth c <= d0)%nat /\ (code.getDepth c' <= d0)%nat
    /\ code.getChildIdx c d0 <> code.getChildIdx c' d0.

(** The sum of a function over a block. *)
Definition oct_sum {A} (f : A -> Z) (o : Oct A) : Z :=
  f (c0 o) + f (c1 o) + f (c2 o) + f (c3 o)
  + f (c4 o) + f (c5 o) + f (c6 o) + f (c7 o).

(** The nodes allocated in a subtree: inner nodes that own a child block,
    inner nodes that own none, and leaves. *)
Fixpoint count_inner (d : nat) {struct d} : NodeT d -> Z :=
  match d with
  | O => fun _ => 0
  | S d' => fun n =>
      match children n with
      | None => 0
      | Some ch => 1 + oct_sum (count_inner d') ch
      end
  end.

Fixpoint count_inner_leaf (d : nat) {struct d} : NodeT d -> Z :=
  match d with
  | O => fun _ => 0
  | S d' => fun n =>
      match children n with
      | None => 1
      | Some ch => oct_sum (count_inner_leaf d') ch
      end
  end.

Fixpoint count_leaf (d : nat) {struct d} : NodeT d -> Z :=
  match d with
  | O => fun _ => 1
  | S d' => fun n =>
      match children n with
      | None => 0
      | Some ch => oct_sum (count_leaf d') ch
      end
  end.

(** The three counters hold the given numbers, as [size_t] values. *)
Definition counters_are (m : Members) (inner inner_leaf leaf : Z) : Prop :=
  num_inner_nodes_ m = wrap64 inner
  /\ num_inner_leaf_nodes_ m = wrap64 inner_leaf
  /\ num_leaf_nodes_ m = wrap64 leaf.

(** The counters hold the numbers of nodes of the tree. *)
Definition counters_consistent (this : OctreeBase) : Prop :=
  counters_are this
    (count_inner (S (pred (depth_levels_ this))) (root_ this))
    (count_inner_leaf (S (pred (depth_levels_ this))) (root_ this))
    (count_leaf (S (pred (depth_levels_ this))) (root_ this)).

(** A step from node [n] and members [m] to [n'] and [m'] moves the
    counters by what it allocates and frees. *)
Definition tracks (d : nat) (n n' : NodeT d) (m m' : Members) : Prop :=
  forall a b c,
    counters_are m (a + count_inner d n) (b + count_inner_leaf d n)
                 (c + count_leaf d n) ->
    counters_are m' (a + count_inner d n') (b + count_inner_leaf d n')
                 (c + count_leaf d n').

(** The members with the counters erased, when change detection is off. *)
Definition quiet (m : Members) : option Members :=
  if change_detection_enabled_ m then None else Some (set_counters m 0 0 0).

(** The members with the three node counters erased. *)
Definition counters_erased (m : Members) : Members := set_counters m 0 0 0.

(** [2^d] as a rational. *)
Definition pow2 (d : nat) : Q := inject_Z (2 ^ Z.of_nat d).

(** The geometry the constructor sets up: a positive resolution and its
    inverse, [max_value_ = 2^(depth_levels_ - 1)], and the two size
    tables doubling from the resolution. *)
Definition grid_set_up (this : OctreeBase) : Prop :=
  (0 < resolution_ this)%Q
  /\ (resolution_factor_ this == 1 / resolution_ this)%Q
  /\ (1 <= depth_levels_ this <= 21)%nat
  /\ max_value_ this = 2 ^ (Z.of_nat (depth_levels_ this) - 1)
  /\ forall d, (d <= depth_levels_ this)%nat ->
               (getNodeSize this d == resolution_ this * pow2 d)%Q
               /\ (getNodeHalfSize this d
                   == resolution_ this * pow2 d / 2)%Q.

(** A coordinate the tree can store: [getMin() <= x < getMax()] on the
    axis. *)
Definition storable (this : OctreeBase) (x : Q) : Prop :=
  (- getNodeHalfSize this (depth_levels_ this) <= x
   /\ x < getNodeHalfSize this (depth_levels_ this))%Q.

(** The codes of the subtree of [c]: not deeper in the tree than [c]
    is, and on the path of [c] at every level above. *)
Definition code_below (this : OctreeBase) (c c' : Code) : Prop :=
  (code.getDepth c' <= code.getDepth c)%nat
  /\ forall e, (code.getDepth c <= e < depth_levels_ this)%nat ->
               code.getChildIdx c' e = code.getChildIdx c e.

(** No node of a child block has a logit above the logit of the node
    that owns the block. *)
Fixpoint dominated (d : nat) {struct d} : NodeT d -> Prop :=
  match d with
  | O => fun _ => True
  | S d' => fun n =>
      match children n with
      | None => True
      | Some ch =>
          oct.All (fun c => logit_of c <= logit_ (base n) /\ dominated d' c) ch
      end
  end.

(** The summaries of the tree are sound. *)
Definition tree_dominated (this : OctreeBase) : Prop :=
  dominated (S (pred (depth_levels_ this))) (root_ this).

(** The members with the node counters and the geometry
    ([resolution_], [resolution_factor_], [max_value_] and the two size
    tables) erased. *)
Definition kept_by_clear (m : Members) : Members :=
  set_resolution_ (set_max_value_ (set_counters m 0 0 0) 0) 0 0 [] [].

(** The loop of [insertPointCloud] over the accumulated updates. *)
Definition drain (l : list (Code * Z)) (this : OctreeBase) : OctreeBase :=
  fold_left (fun this '(c, value) => snd (updateNodeValue this c value))
            l this.

(** The ray after [k] steps. *)
Definition ray_after (depth : nat) (r : Ray) (k : nat) : Ray :=
  Nat.iter k (fun r => computeRayTakeStep r depth) r.

(** A point inside a box, faces included. *)
Definition within (bbx_min bbx_max p : Point3) : Prop :=
  forall i : nat,
    (Vec.get bbx_min i <= Vec.get p i)%Q /\ (Vec.get p i <= Vec.get bbx_max i)%Q.

(** Trees with log-odds as IEEE values: the tree of the end-to-end
    scenarios with a hit at [code_A]; the same sensor model with
    [prob_hit = 0.8]; and with [clamping_thres_min = 0], which is no
    lower clamping. *)
Definition ieee_blank_tree : ieee.OctreeBase :=
  ieee.mkOctree
    (ieee.mkMembers 0 0 0 (ieee.Fin 0) (ieee.Fin 0) (ieee.Fin 0) (ieee.Fin 0)
                    (ieee.Fin 0) (ieee.Fin 0) false origin3 origin3 false ∅
                    [] [] false 0 0 0 ∅ [] false)
    2 ieee.default_inner.
Definition ieee_hit_tree : ieee.OctreeBase :=
  Eval vm_compute in
    snd (ieee.integrateHit
           (from_outcome ieee_blank_tree
              (ieee.OctreeBase_new (chars "occupancy_map") false (1 # 10) 2
                 true (1 # 2) (12 # 100) (7 # 10) (4 # 10) (1192 # 10000)
                 (971 # 1000)))
           code_A).
Definition ieee_steep_tree : ieee.OctreeBase :=
  Eval vm_compute in
    from_outcome ieee_blank_tree
      (ieee.OctreeBase_new (chars "occupancy_map") false (1 # 10) 2 true
         (1 # 2) (12 # 100) (8 # 10) (4 # 10) (1192 # 10000) (971 # 1000)).
Definition ieee_unclamped_tree : ieee.OctreeBase :=
  Eval vm_compute in
    from_outcome ieee_blank_tree
      (ieee.OctreeBase_new (chars "occupancy_map") false (1 # 10) 2 true
         (1 # 2) (12 # 100) (7 # 10) (4 # 10) 0 (971 # 1000)).

(** * Properties *)

(** ** Example trees *)

Lemma demo_tree_constructed : demo_new true = Returns demo_tree.
Proof. vm_compute. reflexivity. Qed.

Lemma demo_tree_keep_constructed : demo_new false = Returns demo_tree_keep.
Proof. vm_compute. reflexivity. Qed.

Lemma grid_tree_constructed : grid_new = Returns grid_tree.
Proof. vm_compute. reflexivity. Qed.

Lemma hit_tree_integrated : snd (integrateHit demo_tree code_A) = hit_tree.
Proof. vm_compute. reflexivity. Qed.

(** ** Additive updates at a saturated node (C5) *)

(** C5.  When the update is non-negative and the logit that [getNode]
    finds for the code is at or above [clamping_thres_max_log_], or the
    update is non-positive and that logit is at or below
    [clamping_thres_min_log_], [updateNodeValue] returns the handle of the
    existing node and the tree object is unchanged: root and all nodes,
    summary flags, node counters and every other member. *)
Theorem updateNodeValue_saturated_noop
  (this : OctreeBase) (c : Code) (logit_update : Z) :
  (0 <= logit_update /\
   clamping_thres_max_log_ this <= node_logit (getNode this c false))
  \/ (logit_update <= 0 /\
      node_logit (getNode this c false) <= clamping_thres_min_log_ this) ->
  updateNodeValue this c logit_update = (getNode this c false, this).
Proof.
  intros H. unfold updateNodeValue.
  assert (E : ((0 <=? logit_update)
               && (clamping_thres_max_log_ this
                   <=? node_logit (getNode this c false))
               || (logit_update <=? 0)
                  && (node_logit (getNode this c false)
                      <=? clamping_thres_min_log_ this)) = true).
  { apply orb_true_iff.
    destruct H as [[H1 H2] | [H1 H2]]; [left | right];
      apply andb_true_iff; split; apply Z.leb_le; assumption. }
  rewrite E. reflexivity.
Qed.

(** The voxel [code_A] of [saturated_tree] sits at the upper threshold; a
    further hit changes nothing. *)
Lemma updateNodeValue_saturated_noop_witness :
  updateNodeValue saturated_tree code_A 8472
  = (getNode saturated_tree code_A false, saturated_tree).
Proof.
  apply (updateNodeValue_saturated_noop saturated_tree code_A 8472).
  left. vm_compute. split; intros H; discriminate H.
Defined.

(** ** The handle of a collapsed ancestor (C6) *)

(** C6.  On the freshly constructed tree (two depth levels, collapsed
    root) [getNode] for a leaf code stops at the root and returns the root
    node, but the handle's code is [code.toDepth(depth + 1)]: it is at
    depth 3, while the root, where descent stopped, is at depth 2 (as
    [getRoot] reports). *)
Theorem getNode_collapsed_handle_depth :
  node (getNode demo_tree code_A false) = node (getRoot demo_tree)
  /\ node_getDepth (getRoot demo_tree) = 2%nat
  /\ node_getDepth (getNode demo_tree code_A false) = 3%nat.
Proof. vm_compute. repeat split. Qed.

(** The logit half of the claim does hold: below a collapsed node every
    code is answered with that node's logit. *)
Lemma getNode_from_collapsed (c : Code) (d : nat) (n : NodeT (S d)) :
  hasChildren n = false -> (code.getDepth c < S d)%nat ->
  node_logit (getNode_from c false (S d) n) = logit_ (base n).
Proof.
  intros Hc Hd. simpl.
  apply Nat.ltb_lt in Hd. rewrite Hd, Hc. reflexivity.
Qed.

(** ** [setProbMiss] (C7) *)

(** C7.  [setProbMiss(p)] stores [logit(prob_hit_log_)], whatever [p] is;
    on the scenario tree [setProbMiss(0.4)] leaves [getProbMissLog()] at
    [logit(0.8472)] and not at [logit(0.4)]. *)
Theorem setProbMiss_ignores_argument :
  (forall (this : OctreeBase) (p : Q),
      getProbMissLog (setProbMiss this p)
      = logit (logit_to_real (prob_hit_log_ this)))
  /\ getProbMissLog (setProbMiss demo_tree (4 # 10)) = 17128
  /\ logit (4 # 10) = -4055.
Proof.
  split.
  - intros [[? ? ? ? ? ? ? ? ? ? ? ? ? ? ? ? ? ? ? ? ? ? ?] L r] p.
    reflexivity.
  - vm_compute. split; reflexivity.
Qed.

(** ** [getChild] (C8) *)

(** C8.  [getChild] throws exactly when the node is not a leaf or the
    index exceeds 7: the root of [hit_tree], which has children, cannot be
    descended into, and the childless root of [demo_tree] can. *)
Theorem getChild_throws_on_inner_nodes :
  (forall (this : OctreeBase) (n : Node) (child_idx : nat),
      getChild this n child_idx = Throws
      <-> (isLeaf_Node n = false \/ (7 < child_idx)%nat))
  /\ hasChildren_Node (getRoot hit_tree) = true
  /\ getChild hit_tree (getRoot hit_tree) 0 = Throws
  /\ isLeaf_Node (getRoot demo_tree) = true
  /\ getChild demo_tree (getRoot demo_tree) 0
     = Returns (getNode demo_tree (mkCode 0 1) false).
Proof.
  split.
  - intros this n i. unfold getChild.
    destruct (isLeaf_Node n); simpl.
    + destruct (7 <? i)%nat eqn:E.
      * split; [intros _; right; apply Nat.ltb_lt; exact E | reflexivity].
      * split; [discriminate |].
        intros [H | H]; [discriminate |].
        apply Nat.ltb_lt in H. congruence.
    + split; [intros _; left; reflexivity | reflexivity].
  - vm_compute. repeat split.
Qed.

(** ** [computeRay] with the default range (C2) *)

(** C2.  From (0.5, 0.5, 0.5) to (3.5, 0.5, 0.5) on the unit grid, with
    the default [max_range = -1], [computeRay] emits no key: its loop
    compares [t_max.min()] with [max_range].  The traversal the
    specification describes emits the three keys before the end key. *)
Theorem computeRay_default_range_emits_nothing :
  let origin := mkVector3 (1 # 2) (1 # 2) (1 # 2) in
  let end_ := mkVector3 (7 # 2) (1 # 2) (1 # 2) in
  computeRay grid_tree origin end_ (-1) 0 = []
  /\ computeRay_spec grid_tree origin end_ (-1) 0
     = [mkKey 8 8 8 0; mkKey 9 8 8 0; mkKey 10 8 8 0]
  /\ coordToKey grid_tree end_ 0 = mkKey 11 8 8 0.
Proof. vm_compute. repeat split. Qed.

(** ** Write, then read (C1) *)

Lemma retaining_tree_built :
  snd (setNodeValue (snd (integrateHit demo_tree_keep code_B)) (mkCode 0 2) 5000)
  = retaining_tree
  /\ all_children_same (root_ retaining_tree) = true
  /\ children (root_ retaining_tree) <> None.
Proof. vm_compute. repeat split. discriminate. Qed.

Lemma hit_stream_written :
  write a_codec hit_tree [] false false 0 [] = (true, hit_stream).
Proof. vm_compute. reflexivity. Qed.

(** Read into a freshly constructed tree the stream gives back the logits
    of [hit_tree] at the two example voxels. *)
Example write_read_fresh_receiver :
  exists t',
    read a_codec demo_tree (istream_of hit_stream) = Returns (true, t')
    /\ node_logit (getNode t' code_A false)
       = node_logit (getNode hit_tree code_A false)
    /\ node_logit (getNode t' code_B false)
       = node_logit (getNode hit_tree code_B false).
Proof. eexists. vm_compute. repeat split. Qed.

(** C1.  Read into [retaining_tree], a tree of the same type, resolution
    and depth, the stream written from [hit_tree] is accepted, but the
    result answers [code_B] with 0.8472 where [hit_tree] stores 0:
    [expand] does not clear [all_children_same] on a node that kept its
    child block, so the root stays collapsed and every code is answered
    with the root's summary. *)
Theorem write_read_into_retaining_tree :
  exists t',
    read a_codec retaining_tree (istream_of hit_stream) = Returns (true, t')
    /\ node_logit (getNode hit_tree code_B false) = 0
    /\ node_logit (getNode t' code_B false) = 8472
    /\ all_children_same (root_ t') = true.
Proof. eexists. vm_compute. repeat split. Qed.

(** ** Failing reads (C9) *)

Lemma readNodesRecurs_succeeds (bv : BoundingVolume) (d : nat)
  (n : InnerNode (NodeT d)) (c : Point3) (s : istream) (m : Members) :
  fst (fst (fst (readNodesRecurs bv d n c s m))) = true.
Proof.
  destruct d; unfold readNodesRecurs.
  - destruct (read_char s) as [? ?].
    destruct (expand m 0 n) as [[? ?] ?]. reflexivity.
  - destruct (readNodes_under bv (S d) n c s m) as [[? ?] ?]. reflexivity.
Qed.

Lemma readNodes_succeeds (this : OctreeBase) (bv : BoundingVolume)
  (s : istream) : fst (fst (readNodes this bv s)) = true.
Proof.
  unfold readNodes.
  destruct (negb (bv_empty bv)
            && negb (bv_intersects bv
                       (mkAABB origin3
                               (getNodeHalfSize this (depth_levels_ this)))));
    [reflexivity |].
  destruct (read_char s) as [ch s1].
  destruct (negb (char_any ch)).
  - destruct (readData_leaf s1 _) as [l s2].
    destruct (prune _ _ _ _) as [n m]. reflexivity.
  - pose proof (readNodesRecurs_succeeds bv (pred (depth_levels_ this))
                  (root_ this) origin3 s1 this) as H.
    destruct (readNodesRecurs _ _ _ _ _ _) as [[[b n] s2] m]. simpl in H.
    destruct (updateNode m _ n) as [[? ?] ?]. exact H.
Qed.

(** [readData] on a tree that already has the requested resolution and
    depth: a failure leaves the tree as it was. *)
Lemma readData_failure_same_grid (lz4 : LZ4) (this : OctreeBase)
  (s : istream) (bv : BoundingVolume) (res : Q) (dl : nat) (occ free : Q)
  (size : Z) (comp bin : bool) (t' : OctreeBase) :
  Qeq_bool (resolution_ this) res = true -> depth_levels_ this = dl ->
  readData lz4 this s bv res dl occ free size comp bin = Returns (false, t') ->
  t' = this.
Proof.
  intros Hres Hdl. unfold readData.
  destruct (bin && negb (binarySupport this)) eqn:Hb.
  { intros H. injection H as H. symmetry. exact H. }
  rewrite Hres, <- Hdl, Nat.eqb_refl. simpl.
  assert (Hn : forall s0,
             fst (if bin then readBinaryNodes this bv s0
                  else readNodes this bv s0) <> (false, t')).
  { intros s0 E. destruct bin.
    - discriminate E.
    - pose proof (readNodes_succeeds this bv s0) as H.
      rewrite E in H. discriminate H. }
  destruct comp.
  - destruct (size <? 0); [discriminate |].
    destruct (decompressData lz4 s size) as [[u |] s1].
    + intros H. injection H as H. destruct (Hn _ H).
    + intros H. injection H as H. symmetry. exact H.
  - intros H. injection H as H. destruct (Hn _ H).
Qed.

(** C9, as amended.  [read] leaves the tree untouched when it fails on
    the first line, on the header or on its own decompression; [readData]
    and [read] leave it untouched on every failure when the resolution and
    depth requested are already those of the tree. *)
Theorem failed_read_keeps_tree (lz4 : LZ4) (this : OctreeBase) (s : istream)
  (bv : BoundingVolume) (res : Q) (dl : nat) (occ free : Q) (size : Z)
  (comp bin : bool) :
  (Qeq_bool (resolution_ this) res = true -> depth_levels_ this = dl ->
   forall t', readData lz4 this s bv res dl occ free size comp bin
              = Returns (false, t') -> t' = this)
  /\ (first_line_ok s && fst (fst (header_of this s)) = false ->
      read lz4 this s = Returns (false, this))
  /\ (h_compressed (snd (fst (header_of this s))) = true ->
      fst (decompressData lz4 (snd (header_of this s))
             (h_uncompressed_data_size (snd (fst (header_of this s)))))
      = None ->
      read lz4 this s = Returns (false, this))
  /\ (Qeq_bool (resolution_ this) (h_resolution (snd (fst (header_of this s))))
      = true ->
      depth_levels_ this
      = Z.to_nat (h_depth_levels (snd (fst (header_of this s)))) ->
      forall t', read lz4 this s = Returns (false, t') -> t' = this).
Proof.
  split; [intros Hres Hdl t' H; eapply readData_failure_same_grid; eauto |].
  unfold first_line_ok, header_of, read.
  destruct (getline s []) as [line s1]. cbn [fst snd].
  destruct (chars_eqb (firstn (length FILE_HEADER) line) FILE_HEADER);
    cbn [negb andb].
  2:{ repeat split; intros; try reflexivity.
      match goal with H : Returns _ = Returns _ |- _ => injection H as H end.
      symmetry. assumption. }
  destruct (readHeader this s1) as [[ok h] s2]. cbn [fst snd].
  destruct ok; cbn [negb].
  2:{ repeat split; intros; try reflexivity.
      match goal with H : Returns _ = Returns _ |- _ => injection H as H end.
      symmetry. assumption. }
  split; [discriminate |]. split.
  - intros Hc Hd. rewrite Hc.
    destruct (decompressData lz4 s2 (h_uncompressed_data_size h)) as [[u |] s3];
      [discriminate Hd | reflexivity].
  - intros Hres Hdl t'. destruct (h_compressed h).
    + destruct (decompressData lz4 s2 (h_uncompressed_data_size h))
        as [[u |] s3].
      * intros H. eapply readData_failure_same_grid; eauto.
      * intros H. injection H as H. symmetry. exact H.
    + intros H. eapply readData_failure_same_grid; eauto.
Qed.

(** A compressed block the codec rejects, read with the grid of
    [hit_tree]; and a stream whose first line is not the file header. *)
Lemma failed_read_keeps_tree_witness :
  (Qeq_bool (resolution_ hit_tree) (1 # 10) = true
   /\ depth_levels_ hit_tree = 2%nat
   /\ readData a_codec hit_tree (istream_of []) [] (1 # 10) 2 (1 # 2)
               (12 # 100) 0 true false = Returns (false, hit_tree))
  /\ (first_line_ok (istream_of (chars "not a map"))
      && fst (fst (header_of hit_tree (istream_of (chars "not a map"))))
      = false
      /\ read a_codec hit_tree (istream_of (chars "not a map"))
         = Returns (false, hit_tree)).
Proof.
  pose proof (failed_read_keeps_tree a_codec hit_tree
                (istream_of (chars "not a map")) [] (1 # 10) 2 (1 # 2)
                (12 # 100) 0 true false) as (_ & H2 & _).
  split.
  - split; [vm_compute; reflexivity |].
    split; [reflexivity | vm_compute; reflexivity].
  - split; [vm_compute; reflexivity | apply H2; vm_compute; reflexivity].
Defined.

(** C9, the claim as stated fails: [readData] asked for resolution 0.2 on
    the 0.1 tree [hit_tree], with a compressed block the codec rejects,
    returns failure after it has cleared the tree; the logit 0.8472 at
    [code_A] is gone. *)
Lemma readData_failure_after_clear :
  exists t',
    readData a_codec hit_tree (istream_of []) [] (2 # 10) 2 (1 # 2)
             (12 # 100) 0 true false = Returns (false, t')
    /\ node_logit (getNode hit_tree code_A false) = 8472
    /\ node_logit (getNode t' code_A false) = 0.
Proof. eexists. vm_compute. repeat split. Qed.

(** ** Properties of all eight children of a block *)

Lemma oct_All_get {A} (P : A -> Prop) (o : Oct A) (i : nat) :
  oct.All P o -> P (oct.get i o).
Proof.
  intros (H0 & H1 & H2 & H3 & H4 & H5 & H6 & H7).
  do 8 (destruct i as [| i]; [assumption |]). assumption.
Qed.

Lemma oct_All_set {A} (P : A -> Prop) (o : Oct A) (i : nat) (a : A) :
  oct.All P o -> P a -> oct.All P (oct.set i a o).
Proof.
  intros (H0 & H1 & H2 & H3 & H4 & H5 & H6 & H7) Ha.
  do 8 (destruct i as [| i]; [repeat split; assumption |]).
  repeat split; assumption.
Qed.

Lemma oct_All_map {A B} (P : A -> Prop) (Q : B -> Prop) (f : A -> B)
  (o : Oct A) :
  (forall a, P a -> Q (f a)) -> oct.All P o -> oct.All Q (oct.map f o).
Proof.
  intros Hf (H0 & H1 & H2 & H3 & H4 & H5 & H6 & H7).
  repeat split; apply Hf; assumption.
Qed.

Lemma oct_All_impl {A} (P Q : A -> Prop) (o : Oct A) :
  (forall a, P a -> Q a) -> oct.All P o -> oct.All Q o.
Proof.
  intros Hf (H0 & H1 & H2 & H3 & H4 & H5 & H6 & H7).
  repeat split; apply Hf; assumption.
Qed.

Lemma oct_All_to_list {A} (P : A -> Prop) (o : Oct A) :
  oct.All P o -> Forall P (oct.to_list o).
Proof.
  intros (H0 & H1 & H2 & H3 & H4 & H5 & H6 & H7).
  unfold oct.to_list. repeat constructor; assumption.
Qed.

(** A loop over the eight children keeps an invariant of the threaded
    state and establishes a property of every new child. *)
Lemma oct_mapS_inv {A B S} (P : A -> Prop) (Q : B -> Prop) (I : S -> Prop)
  (f : nat -> A -> S -> B * S) (o : Oct A) (s : S) (o' : Oct B) (s' : S) :
  (forall i a s b s', f i a s = (b, s') -> P a -> I s -> Q b /\ I s') ->
  oct.All P o -> I s -> oct.mapS f o s = (o', s') ->
  oct.All Q o' /\ I s'.
Proof.
  intros Hf (H0 & H1 & H2 & H3 & H4 & H5 & H6 & H7) Hs.
  unfold oct.mapS.
  destruct (f 0%nat (c0 o) s) as [b0 s0] eqn:E0.
  destruct (Hf _ _ _ _ _ E0 H0 Hs) as [Q0 I0].
  destruct (f 1%nat (c1 o) s0) as [b1 s1] eqn:E1.
  destruct (Hf _ _ _ _ _ E1 H1 I0) as [Q1 I1].
  destruct (f 2%nat (c2 o) s1) as [b2 s2] eqn:E2.
  destruct (Hf _ _ _ _ _ E2 H2 I1) as [Q2 I2].
  destruct (f 3%nat (c3 o) s2) as [b3 s3] eqn:E3.
  destruct (Hf _ _ _ _ _ E3 H3 I2) as [Q3 I3].
  destruct (f 4%nat (c4 o) s3) as [b4 s4] eqn:E4.
  destruct (Hf _ _ _ _ _ E4 H4 I3) as [Q4 I4].
  destruct (f 5%nat (c5 o) s4) as [b5 s5] eqn:E5.
  destruct (Hf _ _ _ _ _ E5 H5 I4) as [Q5 I5].
  destruct (f 6%nat (c6 o) s5) as [b6 s6] eqn:E6.
  destruct (Hf _ _ _ _ _ E6 H6 I5) as [Q6 I6].
  destruct (f 7%nat (c7 o) s6) as [b7 s7] eqn:E7.
  destruct (Hf _ _ _ _ _ E7 H7 I6) as [Q7 I7].
  intros E. injection E as <- <-. repeat split; assumption.
Qed.

(** ** Clamping (C4) *)

(** Case analysis on the floats of a goal, then integer arithmetic. *)
Ltac flt_cases :=
  unfold ieee.between, ieee.clamp in *;
  repeat match goal with
         | x : ieee.float |- _ => destruct x
         end;
  cbn [ieee.flt_le ieee.flt_lt ieee.flt_eq ieee.flt_add ieee.is_finite
       ieee.is_nan] in *;
  repeat match goal with
         | |- context [(?a <? ?b)] => destruct (Z.ltb_spec a b)
         | H : context [(?a <? ?b)] |- _ => destruct (Z.ltb_spec a b)
         end;
  cbn [ieee.flt_le ieee.flt_lt ieee.flt_eq ieee.flt_add ieee.is_finite
       ieee.is_nan] in *;
  repeat match goal with
         | H : _ /\ _ |- _ => destruct H
         | H : (_ <=? _) = true |- _ => apply Z.leb_le in H
         | H : (_ =? _) = true |- _ => apply Z.eqb_eq in H
         | |- _ /\ _ => split
         | |- (_ <=? _) = true => apply Z.leb_le
         end;
  try discriminate; try congruence; try reflexivity; try lia.

Section IeeeClamping.
Import ieee.

Lemma clamp_range (v lo hi : float) :
  flt_le lo hi = true -> is_nan v = false -> between lo hi (clamp v lo hi).
Proof. intros H N. flt_cases. Qed.

Lemma between_ordered lo hi l : between lo hi l -> flt_le lo hi = true.
Proof. intros H. flt_cases. Qed.

Lemma between_number lo hi l : between lo hi l -> is_nan l = false.
Proof. intros H. flt_cases. Qed.

Lemma flt_add_number (l v : float) :
  is_nan l = false -> is_finite v = true -> is_nan (flt_add l v) = false.
Proof. intros H N. flt_cases. Qed.

Lemma flt_max_step lo hi init x :
  flt_le init hi = true -> between lo hi x ->
  flt_le (if flt_lt init x then x else init) hi = true
  /\ flt_le lo (if flt_lt init x then x else init) = true.
Proof. intros H B. flt_cases. Qed.

Lemma flt_max_keep lo hi init x :
  flt_le lo init = true -> flt_le init hi = true -> between lo hi x ->
  between lo hi (if flt_lt init x then x else init).
Proof. intros L H B. flt_cases. Qed.

Lemma clamps_set_counters m a b c lo hi :
  clamps m lo hi -> clamps (set_counters m a b c) lo hi.
Proof. destruct m; exact (fun H => H). Qed.

Lemma clamps_set_changed_codes_ m s lo hi :
  clamps m lo hi -> clamps (set_changed_codes_ m s) lo hi.
Proof. destruct m; exact (fun H => H). Qed.

Lemma clamps_note_change m c lo hi :
  clamps m lo hi -> clamps (note_change m c) lo hi.
Proof.
  intros H. unfold note_change.
  destruct (change_detection_enabled_ m);
    [apply clamps_set_changed_codes_ |]; exact H.
Qed.

Create HintDb ieee_clamping.
#[local] Hint Resolve clamps_set_counters
  clamps_set_changed_codes_ clamps_note_change : ieee_clamping.

Lemma logits_in_S lo hi d (n : InnerNode (NodeT d)) :
  logits_in lo hi (S d) n
  <-> between lo hi (logit_ (base n))
      /\ match children n with
         | Some ch => oct.All (logits_in lo hi d) ch
         | None => True
         end.
Proof. reflexivity. Qed.

Lemma logits_in_base lo hi d (n : InnerNode (NodeT d)) :
  logits_in lo hi (S d) n -> between lo hi (logit_ (base n)).
Proof. intros H. exact (proj1 (proj1 (logits_in_S lo hi d n) H)). Qed.

Lemma logits_in_block lo hi d (n : InnerNode (NodeT d)) :
  logits_in lo hi (S d) n ->
  match children n with
  | Some ch => oct.All (logits_in lo hi d) ch
  | None => True
  end.
Proof. intros H. exact (proj2 (proj1 (logits_in_S lo hi d n) H)). Qed.

Lemma logits_in_children lo hi d (n : InnerNode (NodeT d)) ch :
  logits_in lo hi (S d) n -> children n = Some ch ->
  oct.All (logits_in lo hi d) ch.
Proof.
  intros H E. pose proof (logits_in_block lo hi d n H) as B.
  rewrite E in B. exact B.
Qed.

Lemma logits_in_intro lo hi d (n : InnerNode (NodeT d)) :
  between lo hi (logit_ (base n)) ->
  (forall ch, children n = Some ch -> oct.All (logits_in lo hi d) ch) ->
  logits_in lo hi (S d) n.
Proof.
  intros Hl Hc. apply logits_in_S. split; [exact Hl |].
  destruct (children n) as [ch |]; [apply Hc; reflexivity | exact I].
Qed.

Lemma logits_in_set_all_children_same lo hi d (n : InnerNode (NodeT d)) b :
  logits_in lo hi (S d) n -> logits_in lo hi (S d) (set_all_children_same n b).
Proof.
  intros H. apply logits_in_S.
  exact (conj (logits_in_base _ _ _ _ H) (logits_in_block _ _ _ _ H)).
Qed.

Lemma logits_in_set_flags lo hi d (n : InnerNode (NodeT d)) cf cu :
  logits_in lo hi (S d) n -> logits_in lo hi (S d) (set_flags n cf cu).
Proof.
  intros H. apply logits_in_S.
  exact (conj (logits_in_base _ _ _ _ H) (logits_in_block _ _ _ _ H)).
Qed.

Lemma logits_in_set_logit lo hi d (n : InnerNode (NodeT d)) v :
  logits_in lo hi (S d) n -> between lo hi v ->
  logits_in lo hi (S d) (set_logit n v).
Proof.
  intros H Hv. apply logits_in_S.
  exact (conj Hv (logits_in_block _ _ _ _ H)).
Qed.

Lemma logits_in_set_base lo hi d (n : InnerNode (NodeT d)) l :
  logits_in lo hi (S d) n -> between lo hi (logit_ l) ->
  logits_in lo hi (S d) (set_base n l).
Proof.
  intros H Hv. apply logits_in_S.
  exact (conj Hv (logits_in_block _ _ _ _ H)).
Qed.

Lemma logits_in_set_children lo hi d (n : InnerNode (NodeT d)) ch :
  logits_in lo hi (S d) n ->
  match ch with
  | Some ch => oct.All (logits_in lo hi d) ch
  | None => True
  end ->
  logits_in lo hi (S d) (set_children n ch).
Proof.
  intros H Hc. apply logits_in_S.
  exact (conj (logits_in_base _ _ _ _ H) Hc).
Qed.

#[local] Hint Resolve logits_in_set_all_children_same logits_in_set_flags
  logits_in_set_logit logits_in_set_base logits_in_set_children : ieee_clamping.

Lemma logit_of_in lo hi d (n : NodeT d) :
  logits_in lo hi d n -> between lo hi (logit_of n).
Proof.
  destruct d; intros H; [exact H | exact (logits_in_base _ _ _ _ H)].
Qed.

Lemma createChildren_clamps m d n lo hi :
  clamps m lo hi -> clamps (snd (createChildren m d n)) lo hi.
Proof.
  intros H. unfold createChildren.
  destruct (children n); [exact H |].
  destruct d; simpl; auto with ieee_clamping.
Qed.

Lemma logits_in_kids lo hi d (c : NodeT d) :
  logits_in lo hi d c -> kids_in lo hi d c.
Proof.
  destruct d; intros H; [exact I | exact (logits_in_block _ _ _ _ H)].
Qed.

Lemma seed_child_in lo hi d (p : InnerNode (NodeT d)) (c : NodeT d) :
  between lo hi (logit_ (base p)) -> kids_in lo hi d c ->
  logits_in lo hi d (seed_child d p c).
Proof.
  destruct d; intros Hl Hk; [exact Hl |].
  apply logits_in_S. split; assumption.
Qed.

Lemma new_children_kids lo hi m d :
  oct.All (kids_in lo hi d) (new_children m d).
Proof. destruct d; simpl; repeat split. Qed.

Lemma expand_logits_in lo hi m d (n : InnerNode (NodeT d)) :
  clamps m lo hi -> logits_in lo hi (S d) n ->
  logits_in lo hi (S d) (snd (fst (expand m d n)))
  /\ clamps (snd (expand m d n)) lo hi.
Proof.
  intros Hm Hn. pose proof (logits_in_base _ _ _ _ Hn) as Hl.
  unfold expand.
  destruct (negb (all_children_same n)); [split; assumption |].
  pose proof (createChildren_clamps m d n lo hi Hm) as Hc.
  unfold createChildren in *.
  destruct (children n) as [ch |] eqn:E; cbn [fst snd] in *.
  - split; [| exact Hc]. rewrite E.
    apply logits_in_set_children; [exact Hn |].
    apply (oct_All_map (logits_in lo hi d));
      [| exact (logits_in_children _ _ _ _ _ Hn E)].
    intros a Ha. apply seed_child_in; [exact Hl |].
    apply logits_in_kids. exact Ha.
  - split; [| exact Hc].
    apply logits_in_intro; [exact Hl |].
    intros ch E0. cbn in E0. injection E0 as <-.
    apply (oct_All_map (kids_in lo hi d)); [| apply new_children_kids].
    intros a Ha. apply seed_child_in; [exact Hl | exact Ha].
Qed.

Lemma deleteChildren_logits_in lo hi d :
  forall (n : InnerNode (NodeT d)) manual m n' m',
    deleteChildren d n manual m = (n', m') ->
    clamps m lo hi -> logits_in lo hi (S d) n ->
    logits_in lo hi (S d) n' /\ clamps m' lo hi.
Proof.
  induction d as [| d IH]; intros n manual m n' m'; cbn [deleteChildren];
    change (children (set_all_children_same n true)) with (children n);
    intros E Hm Hn.
  - destruct (children n) as [ch |];
      [destruct (negb manual && negb (automatic_pruning_enabled_ m)) |];
      injection E as <- <-; split; auto with ieee_clamping.
  - destruct (children n) as [ch |] eqn:Ech;
      [destruct (negb manual && negb (automatic_pruning_enabled_ m)) |];
      try (injection E as <- <-; split; auto with ieee_clamping; fail).
    match type of E with
    | context [oct.mapS ?f ch m] =>
        destruct (oct.mapS f ch m) as [ch1 m1] eqn:EM
    end.
    injection E as <- <-.
    destruct (oct_mapS_inv (logits_in lo hi (S d)) (logits_in lo hi (S d))
                (fun s => clamps s lo hi) _ _ _ _ _
                (fun i a s b s' Ef Ha Hs => IH a manual s b s' Ef Hs Ha)
                (logits_in_children _ _ _ _ _ Hn Ech) Hm EM) as [_ H].
    split; auto with ieee_clamping.
Qed.

Lemma expand_logits_in' lo hi m d (n : InnerNode (NodeT d)) b n' m' :
  expand m d n = (b, n', m') ->
  clamps m lo hi -> logits_in lo hi (S d) n ->
  logits_in lo hi (S d) n' /\ clamps m' lo hi.
Proof.
  intros E Hm Hn. pose proof (expand_logits_in lo hi m d n Hm Hn) as H.
  rewrite E in H. exact H.
Qed.

Lemma prune_logits_in lo hi m d (n : InnerNode (NodeT d)) manual n' m' :
  prune m d n manual = (n', m') ->
  clamps m lo hi -> logits_in lo hi (S d) n ->
  logits_in lo hi (S d) n' /\ clamps m' lo hi.
Proof.
  unfold prune. intros E Hm Hn.
  destruct (deleteChildren d n manual m) as [n1 m1] eqn:ED.
  destruct (deleteChildren_logits_in lo hi d _ _ _ _ _ ED Hm Hn) as [H1 H2].
  injection E as <- <-. split; auto with ieee_clamping.
Qed.

(** The running maximum of [getMaxChildLogit] stays within the bounds of
    its start value and of the values it has seen. *)
Lemma fold_max_range {A} (f : A -> float) (lo hi : float) (l : list A) :
  Forall (fun a => between lo hi (f a)) l ->
  forall init, flt_le init hi = true -> (flt_le lo init = true \/ l <> []) ->
  between lo hi
    (fold_left (fun max c => if flt_lt max (f c) then f c else max) l init).
Proof.
  induction 1 as [| a l Ha Hl IH]; intros init Hi Hlo; simpl.
  - destruct Hlo as [Hlo | Hlo]; [split; assumption | congruence].
  - destruct Hlo as [Hlo | _].
    + destruct (flt_max_keep lo hi init (f a) Hlo Hi Ha) as [H1 H2].
      apply IH; [exact H2 | left; exact H1].
    + destruct (flt_max_step lo hi init (f a) Hi Ha) as [H1 H2].
      apply IH; [exact H1 |].
      (* the first child is within the bounds: so is the maximum so far
         once it has been compared with it, or it was the start value *)
      destruct (flt_lt init (f a)) eqn:E; [left; exact (proj1 Ha) |].
      destruct l as [| b l]; [| right; discriminate].
      left. exact H2.
Qed.

Lemma getMaxChildLogit_range lo hi d (ch : Oct (NodeT d)) :
  flt_le (Fin FLT_LOWEST) hi = true -> oct.All (logits_in lo hi d) ch ->
  between lo hi (getMaxChildLogit d ch).
Proof.
  intros Hlow Hch. destruct d; unfold getMaxChildLogit.
  - apply (fold_max_range logit_ lo hi).
    + apply oct_All_to_list. exact Hch.
    + destruct Hch as [H _]. exact (proj2 H).
    + left. destruct Hch as [H _]. exact (proj1 H).
  - apply (fold_max_range (fun c => logit_ (base c)) lo hi).
    + apply oct_All_to_list. revert Hch. apply oct_All_impl.
      intros a Ha. exact (logits_in_base _ _ _ _ Ha).
    + exact Hlow.
    + right. discriminate.
Qed.

Lemma updateNode_logits_in lo hi m d (n : InnerNode (NodeT d)) b n' m' :
  updateNode m d n = (b, n', m') ->
  flt_le (Fin FLT_LOWEST) hi = true -> clamps m lo hi ->
  logits_in lo hi (S d) n ->
  logits_in lo hi (S d) n' /\ clamps m' lo hi.
Proof.
  unfold updateNode. intros E Hlow Hm Hn.
  destruct (children n) as [ch |] eqn:Ech;
    [| injection E as <- <- <-; split; assumption].
  pose proof (logits_in_children _ _ _ _ _ Hn Ech) as Hch.
  destruct (isNodeCollapsible d ch).
  - destruct (prune m d (set_logit n (logit_of (c0 ch))) false)
      as [n1 m1] eqn:EP.
    injection E as <- <- <-.
    apply (prune_logits_in lo hi _ _ _ _ _ _ EP Hm).
    apply logits_in_set_logit; [exact Hn |].
    apply (logit_of_in lo hi d). destruct Hch as [H0 _]. exact H0.
  - destruct (childFlags m d ch) as [cf cu].
    match type of E with context [if ?c then _ else _] => destruct c end;
      injection E as <- <- <-; [| split; assumption].
    split; [| exact Hm].
    apply logits_in_set_flags, logits_in_set_logit; [exact Hn |].
    apply getMaxChildLogit_range; assumption.
Qed.

Lemma updateNodeValueRecurs_logits_in lo hi v sv :
  usable v sv -> flt_le (Fin FLT_LOWEST) hi = true ->
  forall d c (n : NodeT d) m r n' m',
    updateNodeValueRecurs v sv d c n m = (r, n', m') ->
    clamps m lo hi -> logits_in lo hi d n ->
    logits_in lo hi d n' /\ clamps m' lo hi.
Proof.
  intros Hv Hlow.
  assert (Hclamp : forall m l,
             clamps m lo hi -> between lo hi l ->
             between lo hi
               (clamp (if sv then v else flt_add l v)
                      (clamping_thres_min_log_ m)
                      (clamping_thres_max_log_ m))).
  { intros m l [<- <-] Hl. apply clamp_range.
    - exact (between_ordered _ _ _ Hl).
    - destruct sv; [exact Hv |].
      apply flt_add_number; [exact (between_number _ _ _ Hl) | exact Hv]. }
  induction d as [| d IH]; intros c n m r n' m' E Hm Hn;
    cbn [updateNodeValueRecurs] in E.
  - injection E as <- <- <-. split; [| auto with ieee_clamping].
    pose proof (Hclamp m (logit_ n) Hm Hn) as H.
    destruct sv; exact H.
  - destruct (code.getDepth c <? S d)%nat.
    + destruct (expand m d n) as [[b n1] m1] eqn:EE.
      destruct (expand_logits_in' lo hi _ _ _ _ _ _ EE Hm Hn) as [Hn1 Hm1].
      destruct (children n1) as [ch |] eqn:Ech;
        [| injection E as <- <- <-; split; assumption].
      destruct (updateNodeValueRecurs v sv d c
                  (oct.get (code.getChildIdx c d) ch) m1)
        as [[[child changed] cn] m2] eqn:ER.
      destruct (IH _ _ _ _ _ _ ER Hm1
                  (oct_All_get _ _ _ (logits_in_children _ _ _ _ _ Hn1 Ech)))
        as [Hcn Hm2].
      assert (Hn2 : logits_in lo hi (S d)
                      (set_children n1
                         (Some (oct.set (code.getChildIdx c d) cn ch)))).
      { apply logits_in_set_children; [exact Hn1 |].
        apply oct_All_set; [| exact Hcn].
        exact (logits_in_children _ _ _ _ _ Hn1 Ech). }
      destruct changed; [| injection E as <- <- <-; split; assumption].
      destruct (updateNode m2 d _) as [[chg n2] m3] eqn:EU.
      destruct (updateNode_logits_in lo hi _ _ _ _ _ _ EU Hlow Hm2 Hn2)
        as [Hn3 Hm3].
      injection E as <- <- <-. split; [exact Hn3 |].
      destruct chg; auto with ieee_clamping.
    + pose proof (Hclamp m (logit_ (base n)) Hm (logits_in_base _ _ _ _ Hn))
        as Hc.
      destruct sv.
      * destruct (prune m d _ false) as [n1 m1] eqn:EP.
        injection E as <- <- <-.
        destruct (prune_logits_in lo hi _ _ _ _ _ _ EP Hm) as [H1 H2];
          [apply logits_in_set_logit; [exact Hn | exact Hc] |].
        split; auto with ieee_clamping.
      * set (n0 := set_logit n (clamp (flt_add (logit_ (base n)) v)
                                  (clamping_thres_min_log_ m)
                                  (clamping_thres_max_log_ m))) in *.
        assert (Hn0 : logits_in lo hi (S d) n0)
          by (apply logits_in_set_logit; [exact Hn | exact Hc]).
        destruct (negb (isOccupied m (base n0))).
        { destruct (prune m d n0 false) as [n1 m1] eqn:EP.
          injection E as <- <- <-.
          destruct (prune_logits_in lo hi _ _ _ _ _ _ EP Hm Hn0) as [H1 H2].
          split; auto with ieee_clamping. }
        destruct (hasChildren n0);
          [| injection E as <- <- <-; split; auto with ieee_clamping].
        destruct (children n0) as [ch |] eqn:Ech;
          [| injection E as <- <- <-; split; auto with ieee_clamping].
        match type of E with
        | context [oct.mapS ?f ch m] =>
            destruct (oct.mapS f ch m) as [ch1 m1] eqn:EM;
            destruct (oct_mapS_inv (logits_in lo hi d) (logits_in lo hi d)
                        (fun s => clamps s lo hi) f ch m ch1 m1) as [Hch1 Hm1];
            [| exact (logits_in_children _ _ _ _ _ Hn0 Ech) | exact Hm
             | exact EM |]
        end.
        { intros i a s b s' Ef Ha Hs.
          destruct (updateNodeValueRecurs v false d (code.getChild c i) a s)
            as [[r0 cn] s0] eqn:ER.
          injection Ef as <- <-. exact (IH _ _ _ _ _ _ ER Hs Ha). }
        destruct (updateNode m1 d _) as [[chg n2] m2] eqn:EU.
        injection E as <- <- <-.
        destruct (updateNode_logits_in lo hi _ _ _ _ _ _ EU Hlow Hm1)
          as [H1 H2];
          [apply logits_in_set_children; assumption |].
        split; auto with ieee_clamping.
Qed.

Lemma root_view_in lo hi L (r : InnerNode (NodeT (pred L))) :
  logits_in lo hi (S (pred L)) r -> logits_in lo hi L (root_view L r).
Proof.
  destruct L; intros H; [exact (logits_in_base _ _ _ _ H) | exact H].
Qed.

Lemma root_store_in lo hi L (r : InnerNode (NodeT (pred L))) (n : NodeT L) :
  logits_in lo hi (S (pred L)) r -> logits_in lo hi L n ->
  logits_in lo hi (S (pred L)) (root_store L r n).
Proof.
  destruct L; intros Hr Hn; [| exact Hn].
  apply (logits_in_set_base lo hi 0); [exact Hr | exact Hn].
Qed.

Lemma updateNodeValueRecurs_root_clamped (this : OctreeBase) (c : Code)
  (v : float) (sv : bool) r root m :
  usable v sv ->
  flt_le (Fin FLT_LOWEST) (clamping_thres_max_log_ this) = true ->
  stored_logits_clamped this ->
  updateNodeValueRecurs v sv (depth_levels_ this) c
                        (root_view _ (root_ this)) this = (r, root, m) ->
  stored_logits_clamped (with_root this m root).
Proof.
  intros Hv Hlow Hin E. unfold stored_logits_clamped in *.
  destruct (updateNodeValueRecurs_logits_in
              (clamping_thres_min_log_ this) (clamping_thres_max_log_ this)
              v sv Hv Hlow _ _ _ _ _ _ _ E (conj eq_refl eq_refl)
              (root_view_in _ _ _ _ Hin)) as [Hr [Hmin Hmax]].
  cbn [with_root members depth_levels_ root_].
  rewrite Hmin, Hmax. apply root_store_in; assumption.
Qed.

Lemma updateNodeValue_clamped (this : OctreeBase) (c : Code) (v : float) :
  flt_le (Fin FLT_LOWEST) (clamping_thres_max_log_ this) = true ->
  stored_logits_clamped this -> is_finite v = true ->
  stored_logits_clamped (snd (updateNodeValue this c v)).
Proof.
  intros Hlow Hin Hv. unfold updateNodeValue.
  match goal with |- context [if ?b then _ else _] => destruct b end;
    [exact Hin |].
  destruct (updateNodeValueRecurs v false _ c _ this) as [[[r ?] root] m]
    eqn:E.
  exact (updateNodeValueRecurs_root_clamped _ _ _ false _ _ _ Hv Hlow Hin E).
Qed.




End IeeeClamping.

(** ** Loops *)

Lemma while_steps_unique {S} (cond : S -> bool) (body : S -> S) s s1 s2 :
  while_steps cond body s s1 -> while_steps cond body s s2 -> s1 = s2.
Proof.
  induction 1 as [s H | s s1 H _ IH]; inversion 1; subst;
    try congruence; auto.
Qed.

(** With a measure that every round decreases, as long as an invariant
    holds, enough fuel lets the loop reach its exit. *)
Lemma while_loop_exits {S} (Inv : S -> Prop) (mu : S -> nat)
  (cond : S -> bool) (body : S -> S) :
  (forall s, Inv s -> cond s = true ->
             Inv (body s) /\ (mu (body s) < mu s)%nat) ->
  forall fuel s, Inv s -> (mu s <= fuel)%nat ->
                 cond (while_loop cond body fuel s) = false.
Proof.
  intros Hdec. induction fuel as [| fuel IH]; intros s Hs Hmu; simpl.
  - destruct (cond s) eqn:E; [| reflexivity].
    destruct (Hdec s Hs E) as [_ H]. lia.
  - destruct (cond s) eqn:E; [| exact E].
    destruct (Hdec s Hs E) as [Hi H]. apply IH; [exact Hi | lia].
Qed.

Lemma while_loop_steps {S} (cond : S -> bool) (body : S -> S) fuel s :
  cond (while_loop cond body fuel s) = false ->
  while_steps cond body s (while_loop cond body fuel s).
Proof.
  revert s. induction fuel as [| fuel IH]; intros s; simpl.
  - apply while_exit.
  - destruct (cond s) eqn:E.
    + intros H. apply while_iter; [exact E | apply IH; exact H].
    + intros _. apply while_exit. exact E.
Qed.

(** ** Termination of the ray walk *)

Lemma Qltb_lt (a b : Q) : Qltb a b = true <-> (a < b)%Q.
Proof.
  unfold Qltb. rewrite negb_true_iff. split.
  - intros H. apply Qnot_le_lt. intros Hle.
    apply Qle_bool_iff in Hle. congruence.
  - intros H. destruct (Qle_bool b a) eqn:E; [| reflexivity].
    apply Qle_bool_iff in E. exfalso. exact (Qlt_not_le _ _ H E).
Qed.

Lemma Qle_bool_false (a b : Q) : Qle_bool a b = false <-> (b < a)%Q.
Proof.
  split.
  - intros H. apply Qnot_le_lt. intros Hle.
    apply Qle_bool_iff in Hle. congruence.
  - intros H. destruct (Qle_bool a b) eqn:E; [| reflexivity].
    apply Qle_bool_iff in E. exfalso. exact (Qlt_not_le _ _ H E).
Qed.

Lemma axis_steps_advance (range delta t : Q) :
  (0 < delta)%Q -> (t <= range)%Q ->
  (axis_steps range delta (Qred (t + delta)) < axis_steps range delta t)%nat.
Proof.
  intros Hd Ht. unfold axis_steps.
  assert (E : Qle_bool t range = true) by (apply Qle_bool_iff; exact Ht).
  rewrite E.
  destruct (Qle_bool (Qred (t + delta)) range) eqn:E'; [| lia].
  apply Qle_bool_iff in E'. rewrite Qred_correct in E'.
  assert (Hx : ((range - Qred (t + delta)) / delta
                == (range - t) / delta - 1)%Q).
  { rewrite Qred_correct. field. intros H. rewrite H in Hd.
    exact (Qlt_irrefl _ Hd). }
  rewrite Hx.
  set (x := ((range - t) / delta)%Q).
  assert (H1 : (1 <= x)%Q).
  { unfold x. apply Qle_shift_div_l; [exact Hd | lra]. }
  pose proof (Qfloor_le (x - 1)) as Ha.
  pose proof (Qlt_floor x) as Hb.
  pose proof (Qfloor_resp_le _ _ H1) as Hc.
  change (Qfloor 1%Q) with 1%Z in Hc.
  assert (Hlt : (Qfloor (x - 1) < Qfloor x)%Z).
  { rewrite Zlt_Qlt. rewrite inject_Z_plus in Hb.
    change (inject_Z 1) with 1%Q in Hb. lra. }
  lia.
Qed.

Lemma min_index_le (v : Vector3) :
  (Vec.get v (Vec.minElementIndex v) <= Vec.min v)%Q.
Proof.
  destruct v as [a b c].
  unfold Vec.minElementIndex, Vec.min, Vec.qmin, Vec.get, Qltb. simpl.
  destruct (Qle_bool a b) eqn:E1; destruct (Qle_bool a c) eqn:E2;
    destruct (Qle_bool b c) eqn:E3; simpl;
    repeat match goal with
           | H : Qle_bool _ _ = true |- _ => apply Qle_bool_iff in H
           | H : Qle_bool _ _ = false |- _ => apply Qle_bool_false in H
           end;
    repeat match goal with
           | |- context [Qle_bool ?x ?y] =>
               let E := fresh "E" in
               destruct (Qle_bool x y) eqn:E;
               [apply Qle_bool_iff in E | apply Qle_bool_false in E]; simpl
           end; lra.
Qed.

Lemma ray_fuel_advance (range : Q) (r : Ray) (depth : nat) :
  positive_delta r -> Qle_bool (Vec.min (t_max r)) range = true ->
  positive_delta (computeRayTakeStep r depth)
  /\ (ray_fuel range (computeRayTakeStep r depth) < ray_fuel range r)%nat.
Proof.
  intros (H0 & H1 & H2) Hmin. split; [exact (conj H0 (conj H1 H2)) |].
  apply Qle_bool_iff in Hmin.
  pose proof (min_index_le (t_max r)) as Hi.
  assert (Hle : (Vec.get (t_max r) (Vec.minElementIndex (t_max r)) <= range)%Q)
    by lra.
  unfold ray_fuel, computeRayTakeStep. cbn [t_delta t_max].
  destruct (t_max r) as [a b c]. destruct (t_delta r) as [da db dc].
  destruct (Vec.minElementIndex (mkVector3 a b c)) as [| [| i]];
    cbn [Vec.get Vec.set data0 data1 data2] in *.
  - pose proof (axis_steps_advance range da a H0 Hle). lia.
  - pose proof (axis_steps_advance range db b H1 Hle). lia.
  - pose proof (axis_steps_advance range dc c H2 Hle). lia.
Qed.

Lemma init_axis_positive (this : OctreeBase) origin dir border depth i :
  (0 < getNodeSize this depth)%Q ->
  (0 < snd (fst (init_axis this origin dir border depth i)))%Q.
Proof.
  intros Hs. unfold init_axis.
  destruct (Qltb 0 (Vec.get dir i)) eqn:E1.
  - cbn. rewrite Qred_correct. apply Qltb_lt in E1.
    apply Qlt_shift_div_l.
    + rewrite Qabs_pos; lra.
    + lra.
  - destruct (Qltb (Vec.get dir i) 0) eqn:E2.
    + cbn. rewrite Qred_correct. apply Qltb_lt in E2.
      apply Qlt_shift_div_l.
      * rewrite Qabs_neg; lra.
      * lra.
    + cbn. reflexivity.
Qed.

Lemma computeRayInit_positive (this : OctreeBase) origin end_ dir depth :
  (0 < getNodeSize this depth)%Q ->
  let r := computeRayInit this origin end_ dir depth in
  key.eqb (current r) (ending r) = false -> positive_delta r.
Proof.
  intros Hs. unfold computeRayInit.
  destruct (key.eqb (coordToKey this origin depth)
                    (coordToKey this end_ depth)) eqn:E.
  - cbn. intros H. congruence.
  - pose proof (init_axis_positive this origin dir
                  (keyToCoord this (coordToKey this origin depth)) depth 0 Hs)
      as H0.
    pose proof (init_axis_positive this origin dir
                  (keyToCoord this (coordToKey this origin depth)) depth 1 Hs)
      as H1.
    pose proof (init_axis_positive this origin dir
                  (keyToCoord this (coordToKey this origin depth)) depth 2 Hs)
      as H2.
    destruct (init_axis this origin dir _ depth 0) as [[s0 d0] m0].
    destruct (init_axis this origin dir _ depth 1) as [[s1 d1] m1].
    destruct (init_axis this origin dir _ depth 2) as [[s2 d2] m2].
    cbn in *. intros _. repeat split; assumption.
Qed.

(** The walk of [castRay] reaches its exit within [ray_fuel] rounds. *)
Lemma castRay_walk_exits (this : OctreeBase) (ignore_unknown : bool)
  (range : Q) (depth : nat) origin end_ dir :
  (0 < getNodeSize this depth)%Q ->
  let r := computeRayInit this origin end_ dir depth in
  castRay_cond this ignore_unknown range
    (while_loop (castRay_cond this ignore_unknown range)
                (fun r => computeRayTakeStep r depth) (ray_fuel range r) r)
  = false.
Proof.
  intros Hs r.
  destruct (key.eqb (current r) (ending r)) eqn:E.
  - assert (Hc : castRay_cond this ignore_unknown range r = false)
      by (unfold castRay_cond; rewrite E; reflexivity).
    destruct (ray_fuel range r); simpl; [exact Hc | rewrite Hc; exact Hc].
  - apply (while_loop_exits positive_delta (ray_fuel range)).
    + intros s Hp Hc. unfold castRay_cond in Hc.
      apply andb_true_iff in Hc as [Hc _].
      apply andb_true_iff in Hc as [Hc _].
      apply andb_true_iff in Hc as [_ Hc].
      apply ray_fuel_advance; assumption.
    + apply computeRayInit_positive; assumption.
    + apply Nat.le_refl.
Qed.

(** ** The token loop of [readHeader]

    Every extraction leaves at most what it found, a stream that is not
    good stays so, and [s >> token] on a good stream consumes a character
    or ends the stream.  So the token loop exits by its own condition
    within the bound [readHeader] gives it, and so does the loop that
    skips a line. *)

Section HeaderLoop.
Local Open Scope nat_scope.

Lemma span_length (p : ascii -> bool) (l : list ascii) :
  length (snd (span p l)) <= length l.
Proof.
  induction l as [| c l IH]; simpl; [lia |].
  destruct (p c); [| simpl; lia].
  destruct (span p l) as [a b]. simpl in *. lia.
Qed.

Lemma span_stops (p : ascii -> bool) (l : list ascii) c r :
  snd (span p l) = c :: r -> p c = false.
Proof.
  induction l as [| x l IH]; simpl; [discriminate |].
  destruct (p x) eqn:E.
  - destruct (span p l) as [a b]. simpl in *. exact IH.
  - simpl. intros H. injection H as -> _. exact E.
Qed.

Lemma span_progress (p : ascii -> bool) c (r : list ascii) :
  p c = true -> length (snd (span p (c :: r))) < length (c :: r).
Proof.
  intros H. simpl. rewrite H.
  pose proof (span_length p r) as L.
  destruct (span p r) as [a b]. simpl in *. lia.
Qed.

Lemma sentry_length s :
  length (rest (snd (sentry s))) <= length (rest s).
Proof.
  unfold sentry. destruct (negb (good s)); [simpl; lia |].
  pose proof (span_length isspace (rest s)) as L.
  destruct (snd (span isspace (rest s))) as [| c r]; simpl in *; lia.
Qed.

Lemma get_token_length s tok :
  length (rest (snd (get_token s tok))) <= length (rest s).
Proof.
  unfold get_token, sentry. destruct (negb (good s)); [simpl; lia |].
  pose proof (span_length isspace (rest s)) as L.
  destruct (snd (span isspace (rest s))) as [| c r] eqn:E; [simpl; lia |].
  pose proof (span_length (fun c => negb (isspace c)) (c :: r)) as L2.
  destruct (span (fun c => negb (isspace c)) (c :: r)) as [w r']. simpl in *. lia.
Qed.

Lemma get_token_progress s tok :
  good s = true ->
  good (snd (get_token s tok)) = true ->
  length (rest (snd (get_token s tok))) < length (rest s).
Proof.
  intros G. unfold get_token, sentry. rewrite G. cbn [negb].
  pose proof (span_length isspace (rest s)) as L.
  destruct (snd (span isspace (rest s))) as [| c r] eqn:E; [discriminate |].
  pose proof (span_stops _ _ _ _ E) as Hc.
  assert (P : length (snd (span (fun c => negb (isspace c)) (c :: r)))
              < length (c :: r)).
  { apply span_progress. rewrite Hc. reflexivity. }
  destruct (span (fun c => negb (isspace c)) (c :: r)) as [w r']. simpl in *.
  intros _. lia.
Qed.

Lemma stream_get_length s :
  length (rest (snd (stream_get s))) <= length (rest s).
Proof.
  unfold stream_get. destruct (negb (good s)); [simpl; lia |].
  destruct (rest s); simpl; lia.
Qed.

Lemma skip_line_length fuel s :
  length (rest (skip_line fuel s)) <= length (rest s).
Proof.
  revert s. induction fuel as [| fuel IH]; intros s; simpl; [lia |].
  pose proof (stream_get_length s) as L.
  destruct (stream_get s) as [c s1]. simpl in L.
  destruct (good s1 && _); [specialize (IH s1); lia | lia].
Qed.

Lemma sign_length (r : list ascii) :
  length (snd (match r with
               | c :: r' => if ascii_eqb c "-"%char then (true, r')
                            else if ascii_eqb c "+"%char then (false, r')
                            else (false, r)
               | [] => (false, r)
               end)) <= length r.
Proof.
  destruct r as [| c r]; simpl; [lia |].
  destruct (ascii_eqb c "-"); simpl; [lia |].
  destruct (ascii_eqb c "+"); simpl; lia.
Qed.

Lemma get_int_length s old :
  length (rest (snd (get_int s old))) <= length (rest s).
Proof.
  unfold get_int.
  pose proof (sentry_length s) as L.
  destruct (sentry s) as [[r |] s1] eqn:E; simpl in L; [| simpl; lia].
  assert (Lr : length r <= length (rest s)).
  { unfold sentry in E. destruct (negb (good s)); [discriminate |].
    destruct (snd (span isspace (rest s))); [discriminate |].
    injection E as <- <-. exact L. }
  pose proof (sign_length r) as L1.
  destruct (match r with [] => _ | _ => _ end) as [neg r1]. simpl in L1.
  pose proof (span_length isdigit r1) as L2.
  destruct (span isdigit r1) as [ds r2]. simpl in L2.
  destruct ds; simpl; lia.
Qed.

Lemma get_bool_length s old :
  length (rest (snd (get_bool s old))) <= length (rest s).
Proof.
  unfold get_bool.
  pose proof (sentry_length s) as L.
  destruct (sentry s) as [[r |] s1]; simpl in L; [| simpl; lia].
  pose proof (get_int_length s 0%Z) as L1.
  destruct (get_int s 0%Z) as [v s2]. simpl in L1.
  destruct (good s2 || _); [| simpl; lia].
  destruct (v =? 0)%Z; [simpl; lia |].
  destruct (v =? 1)%Z; simpl; lia.
Qed.

Lemma get_float_length s old :
  length (rest (snd (get_float s old))) <= length (rest s).
Proof.
  unfold get_float.
  pose proof (sentry_length s) as L.
  destruct (sentry s) as [[r |] s1] eqn:E; simpl in L; [| simpl; lia].
  assert (Lr : length r <= length (rest s)).
  { unfold sentry in E. destruct (negb (good s)); [discriminate |].
    destruct (snd (span isspace (rest s))); [discriminate |].
    injection E as <- <-. exact L. }
  pose proof (sign_length r) as L1.
  destruct (match r with [] => _ | _ => _ end) as [neg r1]. simpl in L1.
  pose proof (span_length isdigit r1) as L2.
  destruct (span isdigit r1) as [ip r2]. simpl in L2.
  assert (L3 : forall fp r3,
             match r2 with
             | c :: r' => if ascii_eqb c "."%char then span isdigit r' else ([], r2)
             | [] => ([], r2)
             end = (fp, r3) -> length r3 <= length r2).
  { intros fp r3. destruct r2 as [| c r']; [intros H; injection H as _ <-; lia |].
    destruct (ascii_eqb c "."); [| intros H; injection H as _ <-; lia].
    pose proof (span_length isdigit r') as L3. intros H. rewrite H in L3.
    simpl in *. lia. }
  destruct (match r2 with [] => _ | _ => _ end) as [fp r3].
  specialize (L3 fp r3 eq_refl).
  destruct (ip ++ fp); [simpl; lia |].
  assert (L4 : forall ex r4,
             match r3 with
             | c :: r' =>
                 if ascii_eqb c "e"%char || ascii_eqb c "E"%char then
                   let '(eneg, r'') :=
                     match r' with
                     | c' :: t => if ascii_eqb c' "-"%char then (true, t)
                                  else if ascii_eqb c' "+"%char then (false, t)
                                  else (false, r')
                     | [] => (false, r')
                     end in
                   let '(ed, r5) := span isdigit r'' in
                   match ed with
                   | [] => (0%Z, r3)
                   | _ => ((if eneg then (- digits_val ed)%Z else digits_val ed), r5)
                   end
                 else (0%Z, r3)
             | [] => (0%Z, r3)
             end = (ex, r4) -> length r4 <= length r3).
  { intros ex r4. destruct r3 as [| c r']; [intros H; injection H as _ <-; lia |].
    destruct (ascii_eqb c "e" || ascii_eqb c "E");
      [| intros H; injection H as _ <-; lia].
    pose proof (sign_length r') as L4.
    destruct (match r' with [] => _ | _ => _ end) as [eneg r''].
    simpl in L4.
    pose proof (span_length isdigit r'') as L5.
    destruct (span isdigit r'') as [ed r5]. simpl in L5.
    destruct ed; intros H; injection H as _ <-; simpl; lia. }
  destruct (match r3 with [] => _ | _ => _ end) as [ex r4].
  specialize (L4 ex r4 eq_refl). simpl. lia.
Qed.

Lemma set_fail_not_good s : good (set_fail s) = false.
Proof. unfold good, set_fail. simpl. apply andb_false_r. Qed.

Lemma stream_get_stays_bad s :
  good s = false -> good (snd (stream_get s)) = false.
Proof.
  intros G. unfold stream_get. rewrite G. simpl. apply set_fail_not_good.
Qed.

Lemma skip_line_stays_bad fuel s :
  good s = false -> good (skip_line (S fuel) s) = false.
Proof.
  intros G. cbn [skip_line]. unfold stream_get. rewrite G. cbn [negb].
  rewrite set_fail_not_good. cbn [andb]. apply set_fail_not_good.
Qed.

Lemma sentry_stays_bad s :
  good s = false -> sentry s = (None, set_fail s).
Proof. intros G. unfold sentry. rewrite G. reflexivity. Qed.

Lemma get_token_stays_bad s tok :
  good s = false -> good (snd (get_token s tok)) = false.
Proof.
  intros G. unfold get_token. rewrite (sentry_stays_bad s G). simpl.
  apply set_fail_not_good.
Qed.

Lemma get_int_stays_bad s old :
  good s = false -> good (snd (get_int s old)) = false.
Proof.
  intros G. unfold get_int. rewrite (sentry_stays_bad s G). simpl.
  apply set_fail_not_good.
Qed.

Lemma get_bool_stays_bad s old :
  good s = false -> good (snd (get_bool s old)) = false.
Proof.
  intros G. unfold get_bool. rewrite (sentry_stays_bad s G). simpl.
  apply set_fail_not_good.
Qed.

Lemma get_float_stays_bad s old :
  good s = false -> good (snd (get_float s old)) = false.
Proof.
  intros G. unfold get_float. rewrite (sentry_stays_bad s G). simpl.
  apply set_fail_not_good.
Qed.

Lemma stream_measure_step s s1 s2 :
  good s = true ->
  (good s1 = true -> length (rest s1) < length (rest s)) ->
  length (rest s2) <= length (rest s1) ->
  (good s1 = false -> good s2 = false) ->
  stream_measure s2 < stream_measure s.
Proof.
  intros G P L B. unfold stream_measure. rewrite G.
  destruct (good s2) eqn:G2; [| lia].
  destruct (good s1) eqn:G1; [specialize (P eq_refl); lia |].
  specialize (B eq_refl). discriminate.
Qed.

Lemma readHeader_step_progress h token header_read s :
  good s = true ->
  stream_measure (snd (readHeader_step (h, token, header_read, s)))
  < stream_measure s.
Proof.
  intros G. unfold readHeader_step. cbv zeta.
  pose proof (get_token_progress s token G) as P.
  destruct (get_token s token) as [token1 s1]. cbn [snd] in P.
  repeat match goal with
         | |- context [if ?b then _ else _] => destruct b
         end;
    repeat match goal with
           | |- context [get_token s1 ?o] =>
               pose proof (get_token_length s1 o);
               pose proof (get_token_stays_bad s1 o);
               destruct (get_token s1 o)
           | |- context [get_int s1 ?o] =>
               pose proof (get_int_length s1 o);
               pose proof (get_int_stays_bad s1 o);
               destruct (get_int s1 o)
           | |- context [get_bool s1 ?o] =>
               pose proof (get_bool_length s1 o);
               pose proof (get_bool_stays_bad s1 o);
               destruct (get_bool s1 o)
           | |- context [get_float s1 ?o] =>
               pose proof (get_float_length s1 o);
               pose proof (get_float_stays_bad s1 o);
               destruct (get_float s1 o)
           end;
    cbn [snd] in *; cbv beta;
    (apply (stream_measure_step s s1);
     [ exact G | exact P
     | first [ assumption | apply skip_line_length ]
     | first [ assumption | apply skip_line_stays_bad ] ]).
Qed.

(** X28.  The token loop of [readHeader] ends: from any state, within as
    many rounds as the stream has characters left, and one more, the
    loop test [s.good() && !header_read] fails.  Every round consumes a
    character or leaves the stream not good. *)
Lemma readHeader_loop_exits (st : Header * list ascii * bool * istream) :
  let cond := fun '(_, _, header_read, s) => good s && negb header_read in
  cond (while_loop cond readHeader_step
                   (S (length (rest (snd st)))) st) = false.
Proof.
  intros cond.
  apply (while_loop_exits (fun _ => True) (fun st => stream_measure (snd st)));
    [| exact I | unfold stream_measure; destruct (good (snd st)); lia].
  intros [[[h token] header_read] s] _ C. split; [exact I |].
  apply readHeader_step_progress.
  simpl in C. apply andb_true_iff in C. apply C.
Qed.

Lemma skip_line_fuel fuel s :
  length (rest s) < fuel ->
  skip_line fuel s = skip_line (S (length (rest s))) s.
Proof.
  revert s. induction fuel as [| fuel IH]; intros s L; [lia |].
  cbn [skip_line]. unfold stream_get.
  destruct (good s) eqn:G; cbn [negb].
  - destruct (rest s) as [| c l] eqn:R; [reflexivity |].
    destruct (good _ && _); [| reflexivity].
    simpl in L. rewrite IH by (simpl; lia). reflexivity.
  - rewrite set_fail_not_good. reflexivity.
Qed.

End HeaderLoop.

(** ** [castRay] with a negative range (C10) *)

(** C10, as amended.  For a direction that can be normalised and a
    negative [max_range], [castRay] behaves as with the distance between
    [getMin()] and [getMax()].  When the segment
    from the origin to [origin + direction * range] misses the box the
    result is [false] and [end] is left as it was; otherwise the walk
    exits at some key, the result says whether that key is occupied, and
    [end] is that key's centre. *)
Theorem castRay_negative_range (this : OctreeBase)
  (origin direction end_ : Point3) (ignore_unknown : bool) (max_range : Q)
  (depth : nat) :
  (0 < getNodeSize this depth)%Q -> (0 < Vec.norm direction)%Q ->
  (max_range < 0)%Q ->
  let range := Vec.distance (getMin this) (getMax this) in
  let dir := Vec.normalize direction in
  castRay this origin direction end_ ignore_unknown max_range depth
  = castRay this origin direction end_ ignore_unknown range depth
  /\ match moveLineIntoBBX this origin (Vec.add origin (Vec.scale dir range))
     with
     | None =>
         castRay this origin direction end_ ignore_unknown max_range depth
         = (false, end_)
     | Some (o, e) =>
         exists r,
           while_steps (castRay_cond this ignore_unknown range)
                       (fun r => computeRayTakeStep r depth)
                       (computeRayInit this o e dir depth) r
           /\ castRay this origin direction end_ ignore_unknown max_range
                      depth
              = (isOccupied_Key this (current r), keyToCoord this (current r))
     end.
Proof.
  intros Hs _ Hneg range dir.
  assert (E : Qltb max_range 0 = true) by (apply Qltb_lt; exact Hneg).
  unfold castRay. rewrite E. fold range. fold dir.
  split; [destruct (Qltb range 0); reflexivity |].
  destruct (moveLineIntoBBX this origin (Vec.add origin (Vec.scale dir range)))
    as [[o e] |]; [| reflexivity].
  eexists. split; [| reflexivity].
  apply while_loop_steps. apply castRay_walk_exits. exact Hs.
Qed.

(** On the unit grid, from (0.5, 0.5, 0.5) along +x, the walk stops at
    the occupied voxel around (3.5, 0.5, 0.5). *)
Lemma castRay_negative_range_witness :
  let origin := mkVector3 (1 # 2) (1 # 2) (1 # 2) in
  let direction := mkVector3 1 0 0 in
  (0 < getNodeSize grid_hit_tree 0)%Q
  /\ (0 < Vec.norm direction)%Q
  /\ (-1 < 0)%Q
  /\ castRay grid_hit_tree origin direction origin3 true (-1) 0
     = castRay grid_hit_tree origin direction origin3 true
               (Vec.distance (getMin grid_hit_tree) (getMax grid_hit_tree)) 0
  /\ castRay grid_hit_tree origin direction origin3 true (-1) 0
     = (true, mkVector3 (7 # 2) (1 # 2) (1 # 2)).
Proof.
  intros origin direction.
  assert (H1 : (0 < getNodeSize grid_hit_tree 0)%Q) by reflexivity.
  assert (H2 : (-1 < 0)%Q) by reflexivity.
  assert (H3 : (0 < Vec.norm direction)%Q) by reflexivity.
  split; [exact H1 |]. split; [exact H3 |]. split; [exact H2 |].
  split; [| vm_compute; reflexivity].
  exact (proj1 (castRay_negative_range grid_hit_tree origin direction origin3
                  true (-1) 0 H1 H3 H2)).
Defined.

(** C10, the claim as stated fails: from (100, 0.5, 0.5), outside the cube
    [-8, 8], along +x the segment misses the box; [castRay] returns
    [false] without a single step and leaves [end] at the caller's value,
    here (1/3, 0, 0), which is the centre of no key. *)
Lemma castRay_outside_box_leaves_end :
  let origin := mkVector3 100 (1 # 2) (1 # 2) in
  let direction := mkVector3 1 0 0 in
  let end_ := mkVector3 (1 # 3) 0 0 in
  castRay grid_tree origin direction end_ false (-1) 0 = (false, end_)
  /\ forall k : Key, keyToCoord grid_tree k <> end_.
Proof.
  intros origin direction end_. split; [vm_compute; reflexivity |].
  intros k H. apply (f_equal data0) in H.
  unfold end_, keyToCoord, keyToCoord1 in H. cbn [data0] in H.
  destruct (Nat.eqb (depth_levels_ grid_tree) (key.getDepth k));
    [discriminate H |].
  match type of H with
  | Qred ?x = _ => assert (E : (x == 1 # 3)%Q) by (rewrite <- H; symmetry; apply Qred_correct)
  end.
  clear H. revert E.
  generalize (Qfloor ((inject_Z (key0 k) - inject_Z (max_value_ grid_tree))
                      / inject_Z (2 ^ Z.of_nat (key.getDepth k)))).
  intros z. unfold getNodeSize.
  destruct (key.getDepth k) as [| [| [| [| [| d]]]]];
    cbn [nth nodes_sizes_ grid_tree members];
    try destruct d; unfold Qeq; cbn; lia.
Qed.

(** ** The accumulator of [insertPointCloud] (C3) *)

(** Two loops that step the same state and accumulate in step. *)
Lemma while_loop_paired {S A B : Type} (cond : S -> bool) (step : S -> S)
  (fa : S -> A -> A) (fb : S -> B -> B) (R : A -> B -> Prop) :
  (forall s a b, R a b -> R (fa s a) (fb s b)) ->
  forall fuel s a b,
    R a b ->
    R (snd (while_loop (fun '(s, _) => cond s)
                       (fun '(s, a) => (step s, fa s a)) fuel (s, a)))
      (snd (while_loop (fun '(s, _) => cond s)
                       (fun '(s, b) => (step s, fb s b)) fuel (s, b))).
Proof.
  intros HR. induction fuel as [| fuel IH]; intros s a b H; simpl.
  - exact H.
  - destruct (cond s); [apply IH, HR, H | exact H].
Qed.

Lemma computeUpdate_point_cells (this : OctreeBase) (sensor_origin : Point3)
  (max_range : Q) (indices : gmap Code Z) (point : Point3) :
  computeUpdate_point this sensor_origin max_range indices point
  = emplace_all (prob_miss_log_ this)
      (miss_cells this sensor_origin max_range point)
      (match hit_cell this sensor_origin max_range point with
       | Some c => <[ c := prob_hit_log_ this ]> indices
       | None => indices
       end).
Proof.
  unfold computeUpdate_point, miss_cells, hit_cell, update_segment.
  destruct (moveLineIntoBBX _ _ _) as [[o e] |]; [| reflexivity].
  set (acc := if Vec.eqb point e then _ else indices).
  replace (match (if Vec.eqb point e then _ else None) with
           | Some c => _
           | None => indices
           end) with acc by (unfold acc; destruct (Vec.eqb point e); reflexivity).
  apply (while_loop_paired
           (fun r => negb (key.eqb (current r) (ending r))
                     && Qle_bool (Vec.min (t_max r))
                                 (Vec.norm (Vec.sub point sensor_origin)))
           (fun r => computeRayTakeStep r 0)
           (fun r m => try_emplace (code.of_key (current r))
                                   (prob_miss_log_ this) m)
           (fun r l => l ++ [code.of_key (current r)])
           (fun m l => m = emplace_all (prob_miss_log_ this) l acc)).
  - intros s a b ->. unfold emplace_all. rewrite fold_left_app. reflexivity.
  - reflexivity.
Qed.

Lemma emplace_all_lookup (v : Z) (cells : list Code) (m : gmap Code Z)
  (c : Code) :
  emplace_all v cells m !! c
  = match m !! c with
    | Some x => Some x
    | None => if decide (c ∈ cells) then Some v else None
    end.
Proof.
  revert m. induction cells as [| a cells IH]; intros m; simpl.
  - destruct (m !! c); [reflexivity |].
    destruct (decide (c ∈ [])) as [H | H]; [inversion H | reflexivity].
  - unfold emplace_all in *. simpl. rewrite IH. unfold try_emplace.
    destruct (m !! a) as [x |] eqn:Ea.
    + destruct (m !! c) as [y |] eqn:Ec; [reflexivity |].
      assert (c <> a) by congruence.
      destruct (decide (c ∈ cells)) as [H1 | H1];
        destruct (decide (c ∈ a :: cells)) as [H2 | H2]; try reflexivity.
      * exfalso. apply H2. right. exact H1.
      * exfalso. apply H1. inversion H2; subst; [congruence | assumption].
    + destruct (decide (c = a)) as [-> | Hne].
      * rewrite lookup_insert_eq, Ea.
        destruct (decide (a ∈ a :: cells)) as [H | H]; [reflexivity |].
        exfalso. apply H. left.
      * rewrite lookup_insert_ne by congruence.
        destruct (m !! c); [reflexivity |].
        destruct (decide (c ∈ cells)) as [H1 | H1];
          destruct (decide (c ∈ a :: cells)) as [H2 | H2]; try reflexivity.
        -- exfalso. apply H2. right. exact H1.
        -- exfalso. apply H1. inversion H2; subst; [congruence | assumption].
Qed.

Lemma computeUpdate_fold_lookup (this : OctreeBase) (sensor_origin : Point3)
  (max_range : Q) (cloud : list Point3) (c : Code) :
  forall indices : gmap Code Z,
    fold_left (computeUpdate_point this sensor_origin max_range) cloud indices
      !! c
    = if decide (c ∈ hit_cells this sensor_origin max_range cloud)
      then Some (prob_hit_log_ this)
      else match indices !! c with
           | Some v => Some v
           | None =>
               if decide (c ∈ traversed_cells this sensor_origin max_range
                                              cloud)
               then Some (prob_miss_log_ this) else None
           end.
Proof.
  induction cloud as [| p cloud IH]; intros indices; simpl.
  - destruct (decide (c ∈ hit_cells this sensor_origin max_range []))
      as [H | H]; [inversion H |].
    destruct (indices !! c); [reflexivity |].
    destruct (decide (c ∈ traversed_cells this sensor_origin max_range []))
      as [H' | H']; [inversion H' | reflexivity].
  - rewrite IH, computeUpdate_point_cells, emplace_all_lookup.
    unfold hit_cells, traversed_cells. simpl.
    fold (hit_cells this sensor_origin max_range cloud).
    fold (traversed_cells this sensor_origin max_range cloud).
    destruct (hit_cell this sensor_origin max_range p) as [h |] eqn:Eh.
    + destruct (decide (c = h)) as [-> | Hne].
      * rewrite lookup_insert_eq.
        destruct (decide (h ∈ hit_cells this sensor_origin max_range cloud));
          destruct (decide (h ∈ h :: hit_cells this sensor_origin max_range
                                                cloud)) as [H | H];
          try reflexivity; exfalso; apply H; left.
      * rewrite lookup_insert_ne by congruence.
        destruct (decide (c ∈ hit_cells this sensor_origin max_range cloud))
          as [H1 | H1];
          destruct (decide (c ∈ h :: hit_cells this sensor_origin max_range
                                                cloud)) as [H2 | H2];
          try reflexivity.
        -- exfalso. apply H2. right. exact H1.
        -- exfalso. inversion H2; subst; [congruence | contradiction].
        -- destruct (indices !! c); [reflexivity |].
           destruct (decide (c ∈ miss_cells this sensor_origin max_range p))
             as [H3 | H3];
             destruct (decide (c ∈ miss_cells this sensor_origin max_range p
                                 ++ traversed_cells this sensor_origin
                                      max_range cloud)) as [H4 | H4];
             try reflexivity.
           ++ exfalso. apply H4. apply elem_of_app. left. exact H3.
           ++ destruct (decide (c ∈ traversed_cells this sensor_origin
                                      max_range cloud)) as [H5 | H5];
                [reflexivity |].
              exfalso. apply elem_of_app in H4. tauto.
           ++ destruct (decide (c ∈ traversed_cells this sensor_origin
                                      max_range cloud)) as [H5 | H5];
                [| reflexivity].
              exfalso. apply H4. apply elem_of_app. right. exact H5.
    + destruct (decide (c ∈ hit_cells this sensor_origin max_range cloud));
        [reflexivity |].
      destruct (indices !! c); [reflexivity |].
      destruct (decide (c ∈ miss_cells this sensor_origin max_range p))
        as [H3 | H3];
        destruct (decide (c ∈ miss_cells this sensor_origin max_range p
                            ++ traversed_cells this sensor_origin
                                 max_range cloud)) as [H4 | H4];
        try reflexivity.
      * exfalso. apply H4. apply elem_of_app. left. exact H3.
      * destruct (decide (c ∈ traversed_cells this sensor_origin
                                max_range cloud)) as [H5 | H5];
          [reflexivity |].
        exfalso. apply elem_of_app in H4. tauto.
      * destruct (decide (c ∈ traversed_cells this sensor_origin
                                max_range cloud)) as [H5 | H5];
          [| reflexivity].
        exfalso. apply H4. apply elem_of_app. right. exact H5.
Qed.

(** The walk that collects [miss_cells] reaches its exit within its
    fuel. *)
Lemma miss_walk_exits (this : OctreeBase) (distance : Q) origin end_ dir
  (cells : list Code) :
  (0 < getNodeSize this 0)%Q ->
  let r0 := computeRayInit this origin end_ dir 0 in
  let guard (r : Ray) :=
    negb (key.eqb (current r) (ending r))
    && Qle_bool (Vec.min (t_max r)) distance in
  let '(r, _) :=
    while_loop (fun '(r, cells) => guard r)
               (fun '(r, cells) =>
                  (computeRayTakeStep r 0, cells ++ [code.of_key (current r)]))
               (ray_fuel distance r0) (r0, cells) in
  guard r = false.
Proof.
  intros Hs r0 guard.
  set (cond := fun '(r, _) => guard r : bool).
  set (body := fun '(r, cells) =>
                 (computeRayTakeStep r 0, cells ++ [code.of_key (current r)])).
  assert (H : cond (while_loop cond body (ray_fuel distance r0) (r0, cells))
              = false).
  { destruct (key.eqb (current r0) (ending r0)) eqn:E.
    - assert (Hc : cond (r0, cells) = false)
        by (unfold cond, guard; rewrite E; reflexivity).
      destruct (ray_fuel distance r0); cbn [while_loop];
        [exact Hc | rewrite Hc; exact Hc].
    - apply (while_loop_exits (fun s => positive_delta (fst s))
                              (fun s => ray_fuel distance (fst s))).
      + intros [r l] Hp Hc. unfold cond, guard in Hc.
        apply andb_true_iff in Hc as [_ Hc]. cbn [fst body].
        apply ray_fuel_advance; assumption.
      + apply computeRayInit_positive; assumption.
      + apply Nat.le_refl. }
  destruct (while_loop cond body (ray_fuel distance r0) (r0, cells))
    as [r l].
  exact H.
Qed.

(** C3, as amended.  After [computeUpdate] the accumulator holds, for
    every cell, at most one value: [prob_hit_log_] when the cell is the
    end point cell of some surviving point of the cloud, wherever in the
    cloud that point comes; otherwise the value it held before the call;
    otherwise [prob_miss_log_] when some ray traverses the cell; and none
    otherwise.  The list that [insertPointCloud] drains into the tree has
    no cell twice. *)
Theorem computeUpdate_accumulator (this : OctreeBase) (sensor_origin : Point3)
  (cloud : list Point3) (max_range : Q) :
  (forall c : Code,
      indices_ (computeUpdate this sensor_origin cloud max_range) !! c
      = if decide (c ∈ hit_cells this sensor_origin max_range cloud)
        then Some (prob_hit_log_ this)
        else match indices_ this !! c with
             | Some v => Some v
             | None =>
                 if decide (c ∈ traversed_cells this sensor_origin max_range
                                                cloud)
                 then Some (prob_miss_log_ this) else None
             end)
  /\ NoDup (map fst (map_to_list
                       (indices_ (computeUpdate this sensor_origin cloud
                                                max_range)))).
Proof.
  split.
  - intros c.
    replace (indices_ (computeUpdate this sensor_origin cloud max_range))
      with (fold_left (computeUpdate_point this sensor_origin max_range)
                      cloud (indices_ this)).
    + apply computeUpdate_fold_lookup.
    + unfold computeUpdate. destruct this as [[] L r]. reflexivity.
  - apply NoDup_fst_map_to_list.
Qed.

(** C3, the claim as stated fails: on the unit grid, from (0.5, 0.5, 0.5),
    the ray to (3.5, 0.5, 0.5) records a miss for the cell of
    (1.5, 0.5, 0.5); the later point (1.5, 0.5, 0.5) overwrites it with a
    hit.  The first write to that cell does not win. *)
Lemma later_hit_overwrites_miss :
  let origin := mkVector3 (1 # 2) (1 # 2) (1 # 2) in
  let far := mkVector3 (7 # 2) (1 # 2) (1 # 2) in
  let near := mkVector3 (3 # 2) (1 # 2) (1 # 2) in
  let cell := code.of_key (coordToKey grid_tree near 0) in
  indices_ (computeUpdate grid_tree origin [far] (-1)) !! cell
  = Some (prob_miss_log_ grid_tree)
  /\ indices_ (computeUpdate grid_tree origin [far; near] (-1)) !! cell
     = Some (prob_hit_log_ grid_tree)
  /\ prob_miss_log_ grid_tree <> prob_hit_log_ grid_tree.
Proof. vm_compute. repeat split. discriminate. Qed.

(** ** Lookup after an update

    The properties below are about trees in which a node owns a child
    block exactly when it is not flagged [all_children_same]
    ([tree_consistent]).  The constructor and [clear] give such trees, and
    with automatic pruning enabled the updates keep them so. *)

Lemma settings_set_counters m a b c :
  settings (set_counters m a b c) = settings m.
Proof. destruct m; reflexivity. Qed.

Lemma settings_set_changed_codes_ m s :
  settings (set_changed_codes_ m s) = settings m.
Proof. destruct m; reflexivity. Qed.

Lemma settings_note_change m c : settings (note_change m c) = settings m.
Proof.
  unfold note_change. destruct (change_detection_enabled_ m);
    [apply settings_set_changed_codes_ | reflexivity].
Qed.

Lemma settings_auto m m' :
  settings m = settings m' ->
  automatic_pruning_enabled_ m = automatic_pruning_enabled_ m'.
Proof.
  intros H. apply (f_equal automatic_pruning_enabled_) in H.
  destruct m, m'; exact H.
Qed.

Lemma settings_clamps m m' :
  settings m = settings m' ->
  clamping_thres_min_log_ m = clamping_thres_min_log_ m'
  /\ clamping_thres_max_log_ m = clamping_thres_max_log_ m'.
Proof.
  intros H. split.
  - apply (f_equal clamping_thres_min_log_) in H. destruct m, m'; exact H.
  - apply (f_equal clamping_thres_max_log_) in H. destruct m, m'; exact H.
Qed.

Lemma settings_thresholds m m' :
  settings m = settings m' ->
  occupancy_thres_log_ m = occupancy_thres_log_ m'
  /\ free_thres_log_ m = free_thres_log_ m'.
Proof.
  intros H. split.
  - apply (f_equal occupancy_thres_log_) in H. destruct m, m'; exact H.
  - apply (f_equal free_thres_log_) in H. destruct m, m'; exact H.
Qed.

Lemma settings_detection m m' :
  settings m = settings m' ->
  change_detection_enabled_ m = change_detection_enabled_ m'.
Proof.
  intros H. apply (f_equal change_detection_enabled_) in H.
  destruct m, m'; exact H.
Qed.

Lemma createChildren_settings m d n :
  settings (snd (createChildren m d n)) = settings m.
Proof.
  unfold createChildren. destruct (children n); [reflexivity |].
  destruct d; apply settings_set_counters.
Qed.

Lemma expand_settings m d n : settings (snd (expand m d n)) = settings m.
Proof.
  unfold expand. destruct (negb (all_children_same n)); [reflexivity |].
  pose proof (createChildren_settings m d n) as H.
  destruct (createChildren m d n) as [[b n1] m1]. exact H.
Qed.

Lemma oct_mapS_state {A B S} (I : S -> Prop)
  (f : nat -> A -> S -> B * S) (o : Oct A) (s : S) :
  (forall i a s, I s -> I (snd (f i a s))) ->
  I s -> I (snd (oct.mapS f o s)).
Proof.
  intros Hf Hs. unfold oct.mapS.
  pose proof (Hf 0%nat (c0 o) s Hs) as H0.
  destruct (f 0%nat (c0 o) s) as [b0 s0].
  pose proof (Hf 1%nat (c1 o) s0 H0) as H1.
  destruct (f 1%nat (c1 o) s0) as [b1 s1].
  pose proof (Hf 2%nat (c2 o) s1 H1) as H2.
  destruct (f 2%nat (c2 o) s1) as [b2 s2].
  pose proof (Hf 3%nat (c3 o) s2 H2) as H3.
  destruct (f 3%nat (c3 o) s2) as [b3 s3].
  pose proof (Hf 4%nat (c4 o) s3 H3) as H4.
  destruct (f 4%nat (c4 o) s3) as [b4 s4].
  pose proof (Hf 5%nat (c5 o) s4 H4) as H5.
  destruct (f 5%nat (c5 o) s4) as [b5 s5].
  pose proof (Hf 6%nat (c6 o) s5 H5) as H6.
  destruct (f 6%nat (c6 o) s5) as [b6 s6].
  pose proof (Hf 7%nat (c7 o) s6 H6) as H7.
  destruct (f 7%nat (c7 o) s6) as [b7 s7].
  exact H7.
Qed.

Lemma deleteChildren_settings d :
  forall (n : InnerNode (NodeT d)) manual m,
    settings (snd (deleteChildren d n manual m)) = settings m.
Proof.
  induction d as [| d IH]; intros n manual m; cbn [deleteChildren];
    change (children (set_all_children_same n true)) with (children n).
  - destruct (children n);
      [destruct (negb manual && negb (automatic_pruning_enabled_ m)) |];
      try reflexivity.
    apply settings_set_counters.
  - destruct (children n) as [ch |];
      [destruct (negb manual && negb (automatic_pruning_enabled_ m)) |];
      try reflexivity.
    match goal with
    | |- context [oct.mapS ?f ch m] =>
        pose proof (oct_mapS_state (fun s => settings s = settings m) f ch m)
          as H;
        destruct (oct.mapS f ch m) as [ch1 m1]
    end.
    cbn [snd] in *. rewrite settings_set_counters. apply H; [| reflexivity].
    intros i a s Hs. rewrite IH. exact Hs.
Qed.

Lemma prune_settings m d n manual :
  settings (snd (prune m d n manual)) = settings m.
Proof.
  unfold prune. pose proof (deleteChildren_settings d n manual m) as H.
  destruct (deleteChildren d n manual m) as [n1 m1]. exact H.
Qed.

Lemma updateNode_settings m d n :
  settings (snd (updateNode m d n)) = settings m.
Proof.
  unfold updateNode. destruct (children n) as [ch |]; [| reflexivity].
  destruct (isNodeCollapsible d ch).
  - pose proof (prune_settings m d (set_logit n (logit_of (c0 ch))) false) as H.
    destruct (prune m d _ false) as [n1 m1]. exact H.
  - destruct (childFlags m d ch) as [cf cu].
    match goal with |- context [if ?c then _ else _] => destruct c end;
      reflexivity.
Qed.

Lemma updateNodeValueRecurs_settings v sv :
  forall d c (n : NodeT d) m,
    settings (snd (updateNodeValueRecurs v sv d c n m)) = settings m.
Proof.
  induction d as [| d IH]; intros c n m; cbn [updateNodeValueRecurs].
  - apply settings_note_change.
  - destruct (code.getDepth c <? S d)%nat.
    + pose proof (expand_settings m d n) as HE.
      destruct (expand m d n) as [[b n1] m1]. cbn [snd] in HE.
      destruct (children n1) as [ch |]; [| exact HE].
      pose proof (IH c (oct.get (code.getChildIdx c d) ch) m1) as HR.
      destruct (updateNodeValueRecurs v sv d c _ m1)
        as [[[child changed] cn] m2]. cbn [snd] in HR.
      destruct changed; [| cbn [snd]; congruence].
      match goal with
      | |- context [updateNode m2 d ?x] =>
          pose proof (updateNode_settings m2 d x) as HU;
          destruct (updateNode m2 d x) as [[chg n2] m3]
      end.
      cbn [snd] in *. destruct chg; [rewrite settings_note_change |];
        congruence.
    + destruct sv.
      { match goal with
        | |- context [prune m d ?x false] =>
            pose proof (prune_settings m d x false) as HP;
            destruct (prune m d x false) as [n1 m1]
        end.
        cbn [snd] in *. rewrite settings_note_change. exact HP. }
      match goal with |- context [if ?b then _ else _] => destruct b end.
      { match goal with
        | |- context [prune m d ?x false] =>
            pose proof (prune_settings m d x false) as HP;
            destruct (prune m d x false) as [n1 m1]
        end.
        cbn [snd] in *. rewrite settings_note_change. exact HP. }
      match goal with |- context [if ?b then _ else _] => destruct b end;
        [| cbn [snd]; apply settings_note_change].
      match goal with
      | |- context [children ?x] => destruct (children x) as [ch |]
      end; [| cbn [snd]; apply settings_note_change].
      match goal with
      | |- context [oct.mapS ?f ch m] =>
          pose proof (oct_mapS_state (fun s => settings s = settings m) f ch m)
            as H;
          destruct (oct.mapS f ch m) as [ch1 m1]
      end.
      cbn [snd] in H.
      match goal with
      | |- context [updateNode m1 d ?x] =>
          pose proof (updateNode_settings m1 d x) as HU;
          destruct (updateNode m1 d x) as [[chg n2] m2]
      end.
      cbn [snd] in *. rewrite settings_note_change, HU.
      apply H; [| reflexivity].
      intros i a s Hs.
      pose proof (IH (code.getChild c i) a s) as HR.
      destruct (updateNodeValueRecurs v false d (code.getChild c i) a s)
        as [[r0 cn] s0]. cbn [snd] in *. congruence.
Qed.

(** Blocks of eight and child indices. *)

Lemma oct_get_set_eq {A} (i : nat) (a : A) (o : Oct A) :
  oct.get i (oct.set i a o) = a.
Proof. do 8 (destruct i as [| i]; [reflexivity |]). reflexivity. Qed.

Lemma oct_get_set_ne {A} (i j : nat) (a : A) (o : Oct A) :
  (i < 8)%nat -> (j < 8)%nat -> i <> j ->
  oct.get j (oct.set i a o) = oct.get j o.
Proof.
  intros Hi Hj Hij.
  do 8 (destruct i as [| i];
        [do 8 (destruct j as [| j]; [first [reflexivity | congruence] |]); lia |]).
  lia.
Qed.

Lemma oct_get_map {A B} (f : A -> B) (i : nat) (o : Oct A) :
  oct.get i (oct.map f o) = f (oct.get i o).
Proof. do 8 (destruct i as [| i]; [reflexivity |]). reflexivity. Qed.

Lemma oct_get_replicate {A} (i : nat) (a : A) :
  oct.get i (oct.replicate a) = a.
Proof. do 8 (destruct i as [| i]; [reflexivity |]). reflexivity. Qed.

Lemma oct_get_in_list {A} (i : nat) (o : Oct A) :
  oct.get i o = c0 o \/ In (oct.get i o) (tl (oct.to_list o)).
Proof.
  destruct i as [| i]; [left; reflexivity |]. right.
  do 7 (destruct i as [| i]; [simpl; tauto |]). simpl; tauto.
Qed.

Lemma getChildIdx_lt (c : Code) (d : nat) : (code.getChildIdx c d < 8)%nat.
Proof.
  unfold code.getChildIdx.
  change 7 with (Z.ones 3). rewrite Z.land_ones by lia.
  pose proof (Z.mod_pos_bound (Z.shiftr (code_ c) (3 * Z.of_nat d)) (2 ^ 3)
                ltac:(lia)). lia.
Qed.

(** What [getNode] answers. *)

Lemma logit_of_S d (n : InnerNode (NodeT d)) :
  @logit_of (S d) n = logit_ (base n).
Proof. reflexivity. Qed.

Lemma getNode_from_S c rn d (n : InnerNode (NodeT d)) :
  getNode_from c rn (S d) n
  = if (code.getDepth c <? S d)%nat then
      if negb (hasChildren n) then
        if rn then mkNode None (mkCode 0 0)
        else mkNode (node_ptr (d:=S d) n) (code.toDepth c (S d + 1))
      else
        match children n with
        | Some ch => getNode_from c rn d (oct.get (code.getChildIdx c d) ch)
        | None => mkNode None c
        end
    else mkNode (node_ptr (d:=S d) n) c.
Proof. reflexivity. Qed.

Lemma answer_leaf d c (n : NodeT d) :
  flagged_leaf d n = true -> answer d c n = logit_of n.
Proof.
  destruct d; intros H; unfold answer; [reflexivity |].
  rewrite getNode_from_S.
  change (@all_children_same (NodeT d) n = true) in H.
  unfold hasChildren. rewrite H. cbn [negb].
  destruct (code.getDepth c <? S d)%nat; reflexivity.
Qed.

Lemma answer_descend d c (n : InnerNode (NodeT d)) ch :
  (code.getDepth c < S d)%nat -> all_children_same n = false ->
  children n = Some ch ->
  answer (S d) c n = answer d c (oct.get (code.getChildIdx c d) ch).
Proof.
  intros Hc Hf Hch. unfold answer. rewrite getNode_from_S.
  apply Nat.ltb_lt in Hc. rewrite Hc. unfold hasChildren. rewrite Hf, Hch.
  reflexivity.
Qed.

Lemma answer_here d c (n : InnerNode (NodeT d)) :
  (S d <= code.getDepth c)%nat -> answer (S d) c n = logit_ (base n).
Proof.
  intros Hc. unfold answer. rewrite getNode_from_S.
  apply Nat.ltb_ge in Hc. rewrite Hc. reflexivity.
Qed.

Lemma collapsible_answer d (ch : Oct (NodeT d)) :
  isNodeCollapsible d ch = true ->
  forall i c, answer d c (oct.get i ch) = logit_of (c0 ch).
Proof.
  intros H i c. destruct d; cbn [isNodeCollapsible] in H.
  - rewrite answer_leaf by reflexivity.
    destruct (oct_get_in_list i ch) as [-> | Hin]; [reflexivity |].
    rewrite forallb_forall in H. specialize (H _ Hin).
    apply Z.eqb_eq in H. unfold logit_of. cbn. symmetry. exact H.
  - destruct (isLeaf (c0 ch)) eqn:E0; [| discriminate].
    destruct (oct_get_in_list i ch) as [-> | Hin].
    + apply answer_leaf. exact E0.
    + rewrite forallb_forall in H. specialize (H _ Hin).
      apply andb_true_iff in H. destruct H as [H1 H2].
      rewrite answer_leaf by exact H2.
      apply Z.eqb_eq in H1. unfold logit_of. cbn. symmetry. exact H1.
Qed.

(** Child blocks and flags. *)

Lemma block_matches_flag_S d (n : InnerNode (NodeT d)) :
  block_matches_flag (S d) n
  <-> match children n with
      | None => all_children_same n = true
      | Some ch =>
          all_children_same n = false /\ oct.All (block_matches_flag d) ch
      end.
Proof. reflexivity. Qed.

Lemma block_matches_flag_none d (n : InnerNode (NodeT d)) :
  block_matches_flag (S d) n -> children n = None ->
  all_children_same n = true.
Proof.
  intros H E. pose proof (proj1 (block_matches_flag_S d n) H) as B.
  rewrite E in B. exact B.
Qed.

Lemma block_matches_flag_some d (n : InnerNode (NodeT d)) ch :
  block_matches_flag (S d) n -> children n = Some ch ->
  all_children_same n = false /\ oct.All (block_matches_flag d) ch.
Proof.
  intros H E. pose proof (proj1 (block_matches_flag_S d n) H) as B.
  rewrite E in B. exact B.
Qed.

Lemma block_matches_flag_intro d (n : InnerNode (NodeT d)) :
  (children n = None -> all_children_same n = true) ->
  (forall ch, children n = Some ch ->
              all_children_same n = false
              /\ oct.All (block_matches_flag d) ch) ->
  block_matches_flag (S d) n.
Proof.
  intros H1 H2. apply block_matches_flag_S.
  destruct (children n) as [ch |]; [apply H2 | apply H1]; reflexivity.
Qed.

Lemma deleteChildren_base d :
  forall (n : InnerNode (NodeT d)) manual m,
    base (fst (deleteChildren d n manual m)) = base n
    /\ all_children_same (fst (deleteChildren d n manual m)) = true.
Proof.
  destruct d; intros n manual m; cbn [deleteChildren];
    change (children (set_all_children_same n true)) with (children n).
  - destruct (children n);
      [destruct (negb manual && negb (automatic_pruning_enabled_ m)) |];
      split; reflexivity.
  - destruct (children n) as [ch |];
      [destruct (negb manual && negb (automatic_pruning_enabled_ m)) |];
      try (split; reflexivity).
    match goal with
    | |- context [oct.mapS ?f ch m] => destruct (oct.mapS f ch m) as [ch1 m1]
    end.
    split; reflexivity.
Qed.

Lemma prune_base m d (n : InnerNode (NodeT d)) manual :
  base (fst (prune m d n manual)) = base n
  /\ all_children_same (fst (prune m d n manual)) = true.
Proof.
  unfold prune. pose proof (deleteChildren_base d n manual m) as H.
  destruct (deleteChildren d n manual m) as [n1 m1]. exact H.
Qed.

Lemma seed_child_leaf d (p : InnerNode (NodeT d)) (x : NodeT d) :
  flagged_leaf d (seed_child d p x) = true
  /\ logit_of (seed_child d p x) = logit_ (base p).
Proof. destruct d; split; reflexivity. Qed.

Lemma seed_child_shape d (p : InnerNode (NodeT d)) (x : NodeT d) :
  match d return NodeT d -> Prop with
  | O => fun _ => True
  | S _ => fun x => children x = None
  end x ->
  block_matches_flag d (seed_child d p x).
Proof.
  destruct d; intros H; [exact I |].
  apply block_matches_flag_S. cbn. rewrite H. reflexivity.
Qed.

(** After [expand] a consistent node has its block, and every child
    answers what the node answered. *)
Lemma expand_shape m d (n : InnerNode (NodeT d)) :
  block_matches_flag (S d) n ->
  let n1 := snd (fst (expand m d n)) in
  all_children_same n1 = false
  /\ exists ch,
      children n1 = Some ch
      /\ oct.All (block_matches_flag d) ch
      /\ forall c, (code.getDepth c < S d)%nat ->
                   answer d c (oct.get (code.getChildIdx c d) ch)
                   = answer (S d) c n.
Proof.
  intros Hn. unfold expand.
  destruct (all_children_same n) eqn:Ef; cbn [negb].
  - unfold createChildren.
    destruct (children n) as [ch |] eqn:Ech;
      [destruct (block_matches_flag_some d n ch Hn Ech); congruence |].
    cbn [fst snd]. split; [reflexivity |].
    eexists. split; [reflexivity |]. split.
    + destruct d; cbn; repeat split.
    + intros c Hc. rewrite oct_get_map.
      destruct (seed_child_leaf d
                  (set_all_children_same
                     (set_children n (Some (new_children m d))) false)
                  (oct.get (code.getChildIdx c d) (new_children m d)))
        as [H1 H2].
      rewrite (answer_leaf _ _ _ H1), H2.
      symmetry. apply (answer_leaf (S d)). exact Ef.
  - cbn [fst snd]. split; [exact Ef |].
    destruct (children n) as [ch |] eqn:Ech;
      [| pose proof (block_matches_flag_none d n Hn Ech); congruence].
    exists ch. split; [reflexivity |].
    split; [exact (proj2 (block_matches_flag_some d n ch Hn Ech)) |].
    intros c Hc. symmetry. apply answer_descend; assumption.
Qed.

(** [updateNode] keeps what the node answers for the codes below it. *)
Lemma updateNode_answer m d (n : InnerNode (NodeT d)) ch c :
  all_children_same n = false -> children n = Some ch ->
  (code.getDepth c < S d)%nat ->
  answer (S d) c (snd (fst (updateNode m d n)))
  = answer d c (oct.get (code.getChildIdx c d) ch).
Proof.
  intros Hf Hch Hc. unfold updateNode. rewrite Hch.
  destruct (isNodeCollapsible d ch) eqn:EC.
  - pose proof (prune_base m d (set_logit n (logit_of (c0 ch))) false)
      as [Hb Hl].
    destruct (prune m d _ false) as [n1 m1]. cbn [fst snd] in *.
    rewrite (answer_leaf (S d) c n1 Hl).
    rewrite (collapsible_answer d ch EC).
    rewrite logit_of_S, Hb. reflexivity.
  - destruct (childFlags m d ch) as [cf cu].
    match goal with |- context [if ?b then _ else _] => destruct b end;
      cbn [fst snd]; apply answer_descend; assumption.
Qed.

Lemma updateNodeValueRecurs_S v sv d c (n : InnerNode (NodeT d)) m :
  updateNodeValueRecurs v sv (S d) c n m
  = if (code.getDepth c <? S d)%nat then
      let '(_, inner_node, this) := expand m d n in
      let child_idx := code.getChildIdx c d in
      match children inner_node with
      | None => ((mkNode None c, false), inner_node, this)
      | Some ch =>
          let '((child, changed), child_node, this) :=
            updateNodeValueRecurs v sv d c (oct.get child_idx ch) this in
          let inner_node :=
            set_children inner_node (Some (oct.set child_idx child_node ch)) in
          if changed then
            let '(changed, inner_node, this) := updateNode this d inner_node in
            let this :=
              if changed then note_change this (code.toDepth c (S d))
              else this in
            ((child, changed), inner_node, this)
          else ((child, changed), inner_node, this)
      end
    else
      let '(n, this) :=
        if sv then
          let n := set_logit n (clamp v (clamping_thres_min_log_ m)
                                        (clamping_thres_max_log_ m)) in
          prune m d n false
        else
          let n := set_logit n (clamp (logit_ (base n) + v)
                                      (clamping_thres_min_log_ m)
                                      (clamping_thres_max_log_ m)) in
          if negb (isOccupied m (base n)) then prune m d n false
          else if hasChildren n then
            match children n with
            | None => (n, m)
            | Some ch =>
                let '(ch, this) :=
                  oct.mapS
                    (fun child_idx child_node this =>
                       let '(_, child_node, this) :=
                         updateNodeValueRecurs v sv d (code.getChild c child_idx)
                                               child_node this in
                       (child_node, this))
                    ch m in
                let '(_, n, this) :=
                  updateNode this d (set_children n (Some ch)) in
                (n, this)
            end
          else (n, m) in
      let this := note_change this c in
      ((mkNode (node_ptr (d:=S d) n) c, true), n, this).
Proof. reflexivity. Qed.

(** The descending branch of [updateNodeValueRecurs] on a consistent
    node: the call on the child of the code, and what the node answers
    afterwards. *)
Lemma descend_step v sv d c (n : InnerNode (NodeT d)) m r n' m' :
  block_matches_flag (S d) n -> (code.getDepth c < S d)%nat ->
  updateNodeValueRecurs v sv (S d) c n m = (r, n', m') ->
  exists ch m1 r1 cn m2,
    oct.All (block_matches_flag d) ch
    /\ (forall c', (code.getDepth c' < S d)%nat ->
                   answer d c' (oct.get (code.getChildIdx c' d) ch)
                   = answer (S d) c' n)
    /\ settings m1 = settings m
    /\ updateNodeValueRecurs v sv d c (oct.get (code.getChildIdx c d) ch) m1
       = (r1, cn, m2)
    /\ forall c', (code.getDepth c' < S d)%nat ->
                  answer (S d) c' n'
                  = answer d c' (oct.get (code.getChildIdx c' d)
                                         (oct.set (code.getChildIdx c d) cn ch)).
Proof.
  intros Hn Hc E. rewrite updateNodeValueRecurs_S in E.
  pose proof Hc as Hc'. apply Nat.ltb_lt in Hc'. rewrite Hc' in E.
  pose proof (expand_shape m d n Hn) as (Hf & ch & Hch & Hall & Hans).
  pose proof (expand_settings m d n) as Hset.
  destruct (expand m d n) as [[b n1] m1]. cbn [fst snd] in *.
  rewrite Hch in E.
  destruct (updateNodeValueRecurs v sv d c (oct.get (code.getChildIdx c d) ch) m1)
    as [[[child changed] cn] m2] eqn:ER.
  exists ch, m1, (child, changed), cn, m2.
  split; [exact Hall |]. split; [exact Hans |]. split; [exact Hset |].
  split; [exact ER |].
  intros c' Hc1.
  destruct changed.
  - match type of E with
    | context [updateNode m2 d ?x] =>
        pose proof (updateNode_answer m2 d x _ c' Hf eq_refl Hc1) as HU;
        destruct (updateNode m2 d x) as [[chg n2] m3]
    end.
    cbn [fst snd] in HU. injection E as _ <- _. exact HU.
  - injection E as _ <- _. apply answer_descend; [exact Hc1 | exact Hf |].
    reflexivity.
Qed.

(** After [setNodeValue]'s recursion the code is answered with the
    clamped value. *)
Lemma set_answer v :
  forall d c (n : NodeT d) m r n' m',
    block_matches_flag d n ->
    updateNodeValueRecurs v true d c n m = (r, n', m') ->
    answer d c n' = clamp v (clamping_thres_min_log_ m)
                            (clamping_thres_max_log_ m).
Proof.
  induction d as [| d IH]; intros c n m r n' m' Hn E.
  - cbn [updateNodeValueRecurs] in E. injection E as _ <- _. reflexivity.
  - destruct (Nat.lt_ge_cases (code.getDepth c) (S d)) as [Hc | Hc].
    + destruct (descend_step _ _ _ _ _ _ _ _ _ Hn Hc E)
        as (ch & m1 & r1 & cn & m2 & Hall & _ & Hset & ER & Hans).
      rewrite (Hans c Hc), oct_get_set_eq.
      rewrite (IH _ _ _ _ _ _ (oct_All_get _ _ _ Hall) ER).
      destruct (settings_clamps _ _ Hset) as [-> ->]. reflexivity.
    + rewrite updateNodeValueRecurs_S in E.
      pose proof Hc as Hc'. apply Nat.ltb_ge in Hc'. rewrite Hc' in E.
      cbv iota zeta in E.
      match type of E with
      | context [prune m d ?x false] =>
          pose proof (prune_base m d x false) as [Hb _];
          destruct (prune m d x false) as [n1 m1]
      end.
      cbn [fst] in Hb. injection E as _ <- _.
      rewrite answer_here by exact Hc. rewrite Hb. reflexivity.
Qed.

(** After [updateNodeValue]'s recursion a voxel code is answered with the
    clamped sum. *)
Lemma add_answer v :
  forall d c (n : NodeT d) m r n' m',
    code.getDepth c = 0%nat ->
    block_matches_flag d n ->
    updateNodeValueRecurs v false d c n m = (r, n', m') ->
    answer d c n' = clamp (answer d c n + v) (clamping_thres_min_log_ m)
                          (clamping_thres_max_log_ m).
Proof.
  induction d as [| d IH]; intros c n m r n' m' H0 Hn E.
  - cbn [updateNodeValueRecurs] in E. injection E as _ <- _. reflexivity.
  - assert (Hc : (code.getDepth c < S d)%nat) by lia.
    destruct (descend_step _ _ _ _ _ _ _ _ _ Hn Hc E)
      as (ch & m1 & r1 & cn & m2 & Hall & Hbefore & Hset & ER & Hans).
    rewrite (Hans c Hc), oct_get_set_eq.
    rewrite (IH _ _ _ _ _ _ H0 (oct_All_get _ _ _ Hall) ER).
    rewrite (Hbefore c Hc).
    destruct (settings_clamps _ _ Hset) as [-> ->]. reflexivity.
Qed.

(** A code whose path leaves the path of the updated code keeps its
    answer. *)
Lemma other_answer v sv :
  forall d c c' (n : NodeT d) m r n' m' d0,
    (d0 < d)%nat -> (code.getDepth c <= d0)%nat ->
    (code.getDepth c' <= d0)%nat ->
    code.getChildIdx c d0 <> code.getChildIdx c' d0 ->
    block_matches_flag d n ->
    updateNodeValueRecurs v sv d c n m = (r, n', m') ->
    answer d c' n' = answer d c' n.
Proof.
  induction d as [| d IH]; intros c c' n m r n' m' d0 Hd0 Hc Hc' Hne Hn E;
    [lia |].
  assert (Hc1 : (code.getDepth c < S d)%nat) by lia.
  assert (Hc2 : (code.getDepth c' < S d)%nat) by lia.
  destruct (descend_step _ _ _ _ _ _ _ _ _ Hn Hc1 E)
    as (ch & m1 & r1 & cn & m2 & Hall & Hbefore & Hset & ER & Hans).
  rewrite (Hans c' Hc2), <- (Hbefore c' Hc2).
  destruct (Nat.eq_dec (code.getChildIdx c d) (code.getChildIdx c' d))
    as [Heq | Hneq].
  - rewrite <- Heq, oct_get_set_eq.
    assert (d0 <> d) by (intros ->; contradiction).
    apply (IH c c' _ m1 r1 cn m2 d0); try assumption; try lia.
    apply oct_All_get. exact Hall.
  - rewrite oct_get_set_ne; [reflexivity | apply getChildIdx_lt
                             | apply getChildIdx_lt | exact Hneq].
Qed.

(** The updates keep the blocks in line with the flags. *)

Lemma block_matches_flag_set_logit d (n : InnerNode (NodeT d)) v :
  block_matches_flag (S d) n -> block_matches_flag (S d) (set_logit n v).
Proof. intros H. apply block_matches_flag_S. exact (proj1 (block_matches_flag_S d n) H). Qed.

Lemma block_matches_flag_set_flags d (n : InnerNode (NodeT d)) cf cu :
  block_matches_flag (S d) n -> block_matches_flag (S d) (set_flags n cf cu).
Proof. intros H. apply block_matches_flag_S. exact (proj1 (block_matches_flag_S d n) H). Qed.

Lemma block_matches_flag_collapsed d (n : InnerNode (NodeT d)) :
  children n = None -> all_children_same n = true ->
  block_matches_flag (S d) n.
Proof.
  intros H1 H2. apply block_matches_flag_intro; [intros _; exact H2 |].
  intros ch E. congruence.
Qed.

Lemma block_matches_flag_expanded d (n : InnerNode (NodeT d)) ch :
  children n = Some ch -> all_children_same n = false ->
  oct.All (block_matches_flag d) ch ->
  block_matches_flag (S d) n.
Proof.
  intros H1 H2 H3. apply block_matches_flag_intro; [congruence |].
  intros ch' E. assert (ch' = ch) by congruence. subst. split; assumption.
Qed.

Lemma deleteChildren_consistent d :
  forall (n : InnerNode (NodeT d)) manual m,
    manual || automatic_pruning_enabled_ m = true ->
    block_matches_flag (S d) (fst (deleteChildren d n manual m)).
Proof.
  destruct d; intros n manual m Ha; cbn [deleteChildren];
    change (children (set_all_children_same n true)) with (children n);
    (assert (Hb : negb manual && negb (automatic_pruning_enabled_ m) = false)
      by (destruct manual, (automatic_pruning_enabled_ m);
          first [reflexivity | discriminate]));
    rewrite Hb.
  - destruct (children n) eqn:E; cbn [fst];
      apply block_matches_flag_collapsed; first [reflexivity | exact E].
  - destruct (children n) as [ch |] eqn:E.
    + match goal with
      | |- context [oct.mapS ?f ch m] => destruct (oct.mapS f ch m) as [ch1 m1]
      end.
      cbn [fst]. apply block_matches_flag_collapsed; reflexivity.
    + cbn [fst]. apply block_matches_flag_collapsed;
        first [reflexivity | exact E].
Qed.

Lemma prune_consistent m d (n : InnerNode (NodeT d)) manual :
  manual || automatic_pruning_enabled_ m = true ->
  block_matches_flag (S d) (fst (prune m d n manual)).
Proof.
  intros Ha. unfold prune.
  pose proof (deleteChildren_consistent d n manual m Ha) as H.
  destruct (deleteChildren d n manual m) as [n1 m1]. cbn [fst] in *.
  apply block_matches_flag_set_flags. exact H.
Qed.

Lemma updateNode_consistent m d (n : InnerNode (NodeT d)) :
  automatic_pruning_enabled_ m = true ->
  block_matches_flag (S d) n ->
  block_matches_flag (S d) (snd (fst (updateNode m d n))).
Proof.
  intros Ha Hn. unfold updateNode.
  destruct (children n) as [ch |] eqn:Ech; [| exact Hn].
  destruct (isNodeCollapsible d ch).
  - pose proof (prune_consistent m d (set_logit n (logit_of (c0 ch))) false)
      as H.
    destruct (prune m d _ false) as [n1 m1]. cbn [fst snd] in *.
    apply H. rewrite Ha. reflexivity.
  - destruct (childFlags m d ch) as [cf cu].
    match goal with |- context [if ?b then _ else _] => destruct b end;
      cbn [fst snd]; [| exact Hn].
    apply block_matches_flag_set_flags, block_matches_flag_set_logit. exact Hn.
Qed.

Lemma updateNodeValueRecurs_consistent v sv :
  forall d c (n : NodeT d) m,
    automatic_pruning_enabled_ m = true ->
    block_matches_flag d n ->
    block_matches_flag d (snd (fst (updateNodeValueRecurs v sv d c n m))).
Proof.
  induction d as [| d IH]; intros c n m Ha Hn; [exact I |].
  rewrite updateNodeValueRecurs_S.
  destruct (code.getDepth c <? S d)%nat.
  - pose proof (expand_shape m d n Hn) as (Hf & ch & Hch & Hall & _).
    pose proof (expand_settings m d n) as Hset.
    destruct (expand m d n) as [[b n1] m1]. cbn [fst snd] in *.
    rewrite Hch.
    pose proof (IH c (oct.get (code.getChildIdx c d) ch) m1
                  ltac:(rewrite (settings_auto _ _ Hset); exact Ha)
                  (oct_All_get _ _ _ Hall)) as Hcn.
    pose proof (updateNodeValueRecurs_settings v sv d c
                  (oct.get (code.getChildIdx c d) ch) m1) as Hset2.
    destruct (updateNodeValueRecurs v sv d c _ m1)
      as [[[child changed] cn] m2]. cbn [fst snd] in *.
    assert (Hn2 : block_matches_flag (S d)
                    (set_children n1
                       (Some (oct.set (code.getChildIdx c d) cn ch)))).
    { apply (block_matches_flag_expanded d _
                 (oct.set (code.getChildIdx c d) cn ch));
        [reflexivity | exact Hf |].
      apply oct_All_set; assumption. }
    destruct changed; [| exact Hn2].
    match goal with
    | |- context [updateNode m2 d ?x] =>
        pose proof (updateNode_consistent m2 d x
                      ltac:(rewrite (settings_auto _ _ Hset2),
                              (settings_auto _ _ Hset); exact Ha) Hn2) as HU;
        destruct (updateNode m2 d x) as [[chg n2] m3]
    end.
    exact HU.
  - assert (Hp : forall x, block_matches_flag (S d) (fst (prune m d x false)))
      by (intros x; apply prune_consistent; rewrite Ha; reflexivity).
    destruct sv; cbv iota zeta.
    { match goal with
      | |- context [prune m d ?x false] =>
          specialize (Hp x); destruct (prune m d x false) as [n1 m1]
      end.
      exact Hp. }
    match goal with |- context [if ?b then _ else _] => destruct b end.
    { match goal with
      | |- context [prune m d ?x false] =>
          specialize (Hp x); destruct (prune m d x false) as [n1 m1]
      end.
      exact Hp. }
    match goal with |- context [if ?b then _ else _] => destruct b end;
      [| cbn [fst snd]; apply block_matches_flag_set_logit; exact Hn].
    match goal with
    | |- context [children ?x] => destruct (children x) as [ch |] eqn:Ech
    end; [| cbn [fst snd]; apply block_matches_flag_set_logit; exact Hn].
    change (children n = Some ch) in Ech.
    destruct (block_matches_flag_some d n ch Hn Ech) as [Hf Hall].
    match goal with
    | |- context [oct.mapS ?f ch m] =>
        destruct (oct.mapS f ch m) as [ch1 m1] eqn:EM;
        destruct (oct_mapS_inv (block_matches_flag d) (block_matches_flag d)
                    (fun s => automatic_pruning_enabled_ s = true)
                    f ch m ch1 m1) as [Hch1 Hm1];
        [| exact Hall | exact Ha | exact EM |]
    end.
    { intros i a s b s' Ef Hb Hs.
      pose proof (IH (code.getChild c i) a s Hs Hb) as H1.
      pose proof (updateNodeValueRecurs_settings v false d
                    (code.getChild c i) a s) as H2.
      destruct (updateNodeValueRecurs v false d (code.getChild c i) a s)
        as [[r0 cn] s0]. cbn [fst snd] in *.
      injection Ef as <- <-. split; [exact H1 |].
      rewrite (settings_auto _ _ H2). exact Hs. }
    match goal with
    | |- context [updateNode m1 d ?x] =>
        pose proof (updateNode_consistent m1 d x Hm1) as HU;
        destruct (updateNode m1 d x) as [[chg n2] m2]
    end.
    cbn [fst snd] in *. apply HU.
    apply (block_matches_flag_expanded d _ ch1);
      [reflexivity | exact Hf | exact Hch1].
Qed.

(** From the root node to the tree. *)

Lemma root_view_store L (r : InnerNode (NodeT (pred L))) (n : NodeT L) :
  root_view L (root_store L r n) = n.
Proof. destruct L; reflexivity. Qed.

Lemma root_view_consistent L (r : InnerNode (NodeT (pred L))) :
  block_matches_flag (S (pred L)) r -> block_matches_flag L (root_view L r).
Proof. destruct L; intros H; [exact I | exact H]. Qed.

Lemma root_store_consistent L (r : InnerNode (NodeT (pred L))) (n : NodeT L) :
  block_matches_flag (S (pred L)) r -> block_matches_flag L n ->
  block_matches_flag (S (pred L)) (root_store L r n).
Proof.
  destruct L; intros Hr Hn; [| exact Hn].
  apply block_matches_flag_S. exact (proj1 (block_matches_flag_S _ r) Hr).
Qed.

Lemma getNode_with_root (this : OctreeBase) m (n : NodeT (depth_levels_ this))
  c rn :
  getNode (with_root this m n) c rn = getNode_from c rn (depth_levels_ this) n.
Proof.
  unfold getNode, with_root. cbn [depth_levels_ root_].
  rewrite root_view_store. reflexivity.
Qed.

Lemma getNode_answer (this : OctreeBase) c :
  node_logit (getNode this c false)
  = answer (depth_levels_ this) c (root_view _ (root_ this)).
Proof. reflexivity. Qed.

Lemma clamp_twice v lo hi :
  lo <= hi -> clamp (clamp v lo hi) lo hi = clamp v lo hi.
Proof.
  intros H. unfold clamp.
  destruct (v <? lo) eqn:E1.
  - rewrite Z.ltb_irrefl. destruct (hi <? lo) eqn:E2; [lia | reflexivity].
  - destruct (hi <? v) eqn:E2.
    + destruct (hi <? lo) eqn:E3; [lia |]. rewrite Z.ltb_irrefl. reflexivity.
    + rewrite E1, E2. reflexivity.
Qed.

(** X1.  In a tree whose child blocks match the flags, with the lower
    clamping threshold not above the upper one, [getNode(code)] after
    [setNodeValue(code, v)] answers with [v] clamped to the thresholds,
    for a code of any depth. *)
Theorem setNodeValue_then_getNode (this : OctreeBase) (c : Code) (v : Z) :
  clamping_thres_min_log_ this <= clamping_thres_max_log_ this ->
  tree_consistent this ->
  node_logit (getNode (snd (setNodeValue this c v)) c false)
  = clamp v (clamping_thres_min_log_ this) (clamping_thres_max_log_ this).
Proof.
  intros Hlh Hn. unfold setNodeValue.
  match goal with |- context [if negb ?b then _ else _] => destruct b eqn:Eb end;
    cbn [negb].
  - cbn [snd]. apply Z.eqb_eq in Eb. symmetry. exact Eb.
  - destruct (updateNodeValueRecurs _ true _ c _ this) as [[[r ?] root] m]
      eqn:E.
    cbn [snd]. rewrite getNode_with_root.
    pose proof (set_answer _ _ _ _ _ _ _ _ (root_view_consistent _ _ Hn) E)
      as H.
    unfold answer in H. rewrite H. apply clamp_twice. exact Hlh.
Qed.

Lemma updateNodeValue_voxel_answer (this : OctreeBase) (c : Code) (v : Z) :
  tree_consistent this ->
  code.getDepth c = 0%nat ->
  clamping_thres_min_log_ this <= node_logit (getNode this c false)
  <= clamping_thres_max_log_ this ->
  node_logit (getNode (snd (updateNodeValue this c v)) c false)
  = clamp (node_logit (getNode this c false) + v)
          (clamping_thres_min_log_ this) (clamping_thres_max_log_ this).
Proof.
  intros Hn H0 Hold. unfold updateNodeValue.
  match goal with |- context [if ?b then _ else _] => destruct b eqn:Eb end.
  - cbn [snd]. unfold clamp.
    apply orb_true_iff in Eb.
    destruct Eb as [Eb | Eb]; apply andb_true_iff in Eb; destruct Eb as [E1 E2];
      apply Z.leb_le in E1, E2;
      repeat match goal with
             | |- context [?a <? ?b] => destruct (Z.ltb_spec a b)
             end; lia.
  - destruct (updateNodeValueRecurs v false _ c _ this) as [[[r ?] root] m]
      eqn:E.
    cbn [snd]. rewrite getNode_with_root.
    exact (add_answer _ _ _ _ _ _ _ _ H0 (root_view_consistent _ _ Hn) E).
Qed.

(** X2.  In a tree whose child blocks match the flags, for a voxel code
    (depth 0) answered with a logit within the clamping thresholds,
    [getNode(code)] after [updateNodeValue(code, v)] answers with that
    logit plus [v], clamped to the thresholds. *)
Theorem updateNodeValue_then_getNode (this : OctreeBase) (c : Code) (v : Z) :
  tree_consistent this ->
  code.getDepth c = 0%nat ->
  clamping_thres_min_log_ this <= node_logit (getNode this c false)
  <= clamping_thres_max_log_ this ->
  node_logit (getNode (snd (updateNodeValue this c v)) c false)
  = clamp (node_logit (getNode this c false) + v)
          (clamping_thres_min_log_ this) (clamping_thres_max_log_ this).
Proof. exact (updateNodeValue_voxel_answer this c v). Qed.


Lemma with_root_consistent (this : OctreeBase) v sv c :
  automatic_pruning_enabled_ this = true -> tree_consistent this ->
  let '(_, root, m) :=
    updateNodeValueRecurs v sv (depth_levels_ this) c
                          (root_view _ (root_ this)) this in
  tree_consistent (with_root this m root)
  /\ automatic_pruning_enabled_ (with_root this m root) = true.
Proof.
  intros Ha Hn.
  pose proof (updateNodeValueRecurs_consistent v sv _ c _ this Ha
                (root_view_consistent _ _ Hn)) as H.
  pose proof (updateNodeValueRecurs_settings v sv _ c
                (root_view _ (root_ this)) this) as Hs.
  destruct (updateNodeValueRecurs v sv _ c _ this) as [[r root] m].
  cbn [fst snd] in *. split.
  - unfold tree_consistent, with_root. cbn [depth_levels_ root_].
    apply root_store_consistent; assumption.
  - cbn [with_root members]. rewrite (settings_auto _ _ Hs). exact Ha.
Qed.

(** X4.  With automatic pruning enabled, [setNodeValue],
    [updateNodeValue], [integrateHit] and [integrateMiss] keep the child
    blocks in line with the flags: afterwards a node owns a child block
    exactly when it is not flagged [all_children_same]; automatic pruning
    stays enabled. *)
Theorem updates_keep_tree_consistent (this : OctreeBase) (c : Code) (v : Z) :
  automatic_pruning_enabled_ this = true -> tree_consistent this ->
  let kept t :=
    tree_consistent t /\ automatic_pruning_enabled_ t = true in
  kept (snd (setNodeValue this c v))
  /\ kept (snd (updateNodeValue this c v))
  /\ kept (snd (integrateHit this c))
  /\ kept (snd (integrateMiss this c)).
Proof.
  intros Ha Hn kept.
  assert (Hup : forall u, kept (snd (updateNodeValue this c u))).
  { intros u. unfold updateNodeValue.
    match goal with |- context [if ?b then _ else _] => destruct b end;
      [split; assumption |].
    pose proof (with_root_consistent this u false c Ha Hn) as H.
    destruct (updateNodeValueRecurs u false _ c _ this) as [[[r ?] root] m].
    exact H. }
  split; [| split; [apply Hup | split; apply Hup]].
  unfold setNodeValue. cbv zeta.
  match goal with |- context [if ?b then _ else _] => destruct b end;
    [| split; assumption].
  match goal with
  | |- context [updateNodeValueRecurs ?u true _ c _ _] =>
      pose proof (with_root_consistent this u true c Ha Hn) as H;
      destruct (updateNodeValueRecurs u true _ c _ this) as [[[r ?] root] m]
  end.
  exact H.
Qed.

Lemma hit_tree_consistent : tree_consistent hit_tree.
Proof. vm_compute. repeat split. Qed.

(** On [hit_tree]: a value above the upper threshold set at the voxel
    [code_B]. *)
Lemma setNodeValue_then_getNode_witness :
  clamping_thres_min_log_ hit_tree <= clamping_thres_max_log_ hit_tree
  /\ tree_consistent hit_tree
  /\ node_logit (getNode (snd (setNodeValue hit_tree code_B 90000)) code_B
                         false)
     = clamp 90000 (clamping_thres_min_log_ hit_tree)
             (clamping_thres_max_log_ hit_tree).
Proof.
  assert (H1 : clamping_thres_min_log_ hit_tree
               <= clamping_thres_max_log_ hit_tree)
    by (vm_compute; intros H; discriminate H).
  split; [exact H1 |]. split; [exact hit_tree_consistent |].
  exact (setNodeValue_then_getNode hit_tree code_B 90000 H1
           hit_tree_consistent).
Defined.

(** On [hit_tree]: a miss at the voxel that was hit. *)
Lemma updateNodeValue_then_getNode_witness :
  tree_consistent hit_tree
  /\ code.getDepth code_A = 0%nat
  /\ clamping_thres_min_log_ hit_tree
     <= node_logit (getNode hit_tree code_A false)
     <= clamping_thres_max_log_ hit_tree
  /\ node_logit (getNode (snd (updateNodeValue hit_tree code_A (-4055)))
                         code_A false)
     = clamp (node_logit (getNode hit_tree code_A false) + -4055)
             (clamping_thres_min_log_ hit_tree)
             (clamping_thres_max_log_ hit_tree).
Proof.
  assert (H3 : clamping_thres_min_log_ hit_tree
               <= node_logit (getNode hit_tree code_A false)
               <= clamping_thres_max_log_ hit_tree)
    by (vm_compute; split; intros H; discriminate H).
  split; [exact hit_tree_consistent |]. split; [reflexivity |].
  split; [exact H3 |].
  exact (updateNodeValue_then_getNode hit_tree code_A (-4055)
           hit_tree_consistent eq_refl H3).
Defined.


(** On [hit_tree]: a miss at another voxel. *)
Lemma updates_keep_tree_consistent_witness :
  automatic_pruning_enabled_ hit_tree = true
  /\ tree_consistent hit_tree
  /\ tree_consistent (snd (integrateMiss hit_tree code_B)).
Proof.
  split; [reflexivity |]. split; [exact hit_tree_consistent |].
  exact (proj1 (proj2 (proj2 (proj2
           (updates_keep_tree_consistent hit_tree code_B 0 eq_refl
              hit_tree_consistent))))).
Defined.

(** ** Setting a subtree *)

Lemma set_answer_below v :
  forall d c c' (n : NodeT d) m r n' m',
    (code.getDepth c' <= code.getDepth c)%nat ->
    (forall e, (code.getDepth c <= e < d)%nat ->
               code.getChildIdx c' e = code.getChildIdx c e) ->
    block_matches_flag d n ->
    updateNodeValueRecurs v true d c n m = (r, n', m') ->
    answer d c' n' = clamp v (clamping_thres_min_log_ m)
                             (clamping_thres_max_log_ m).
Proof.
  induction d as [| d IH]; intros c c' n m r n' m' Hd He Hn E.
  - cbn [updateNodeValueRecurs] in E. injection E as _ <- _. reflexivity.
  - destruct (Nat.lt_ge_cases (code.getDepth c) (S d)) as [Hc | Hc].
    + destruct (descend_step _ _ _ _ _ _ _ _ _ Hn Hc E)
        as (ch & m1 & r1 & cn & m2 & Hall & _ & Hset & ER & Hans).
      rewrite (Hans c') by lia.
      rewrite (He d) by lia. rewrite oct_get_set_eq.
      rewrite (IH c c' _ _ _ _ _ Hd ltac:(intros e H; apply He; lia)
                 (oct_All_get _ _ _ Hall) ER).
      destruct (settings_clamps _ _ Hset) as [-> ->]. reflexivity.
    + rewrite updateNodeValueRecurs_S in E.
      pose proof Hc as Hc'. apply Nat.ltb_ge in Hc'. rewrite Hc' in E.
      cbv iota zeta in E.
      match type of E with
      | context [prune m d ?x false] =>
          pose proof (prune_base m d x false) as [Hb Hl];
          destruct (prune m d x false) as [n1 m1]
      end.
      cbn [fst] in Hb, Hl. injection E as _ <- _.
      rewrite (answer_leaf (S d) c' n1 Hl).
      rewrite logit_of_S, Hb. reflexivity.
Qed.



(** The entry test matters: the root of [hit_tree] carries the logit of
    its occupied voxel, so setting the root code to that value returns at
    once and the other voxels keep their logit 0. *)
Lemma setNodeValue_entry_test_skips_subtree :
  let v := node_logit (getNode hit_tree (mkCode 0 2) false) in
  code_below hit_tree (mkCode 0 2) code_B
  /\ node_logit (getNode (snd (setNodeValue hit_tree (mkCode 0 2) v))
                         code_B false) = 0
  /\ v <> 0.
Proof.
  split; [| vm_compute; split; [reflexivity | intros H; discriminate H]].
  split; [vm_compute; lia |]. intros e He.
  change (code.getDepth (mkCode 0 2)) with 2%nat in He.
  change (depth_levels_ hit_tree) with 2%nat in He. lia.
Qed.

(** ** The handle of [getNode] *)

Lemma getNode_from_live d :
  forall c (n : NodeT d),
    block_matches_flag d n -> node (getNode_from c false d n) <> None.
Proof.
  induction d as [| d IH]; intros c n Hn.
  - cbn. discriminate.
  - rewrite getNode_from_S.
    destruct (code.getDepth c <? S d)%nat; [| cbn; discriminate].
    unfold hasChildren.
    match goal with
    | |- context [negb (negb ?b)] => destruct b eqn:Ef
    end; cbn [negb]; [cbn; discriminate |].
    match goal with
    | |- context [match ?x with Some _ => _ | None => _ end] =>
        destruct x as [ch |] eqn:Ech
    end.
    + change (children n = Some ch) in Ech.
      destruct (block_matches_flag_some d n ch Hn Ech) as [_ Hall].
      apply IH. apply oct_All_get. exact Hall.
    + change (children n = None) in Ech.
      pose proof (block_matches_flag_none d n Hn Ech) as H.
      change (@all_children_same (NodeT d) n = true) in H.
      change (@all_children_same (NodeT d) n = false) in Ef.
      rewrite H in Ef. discriminate Ef.
Qed.

Lemma getNode_from_null d :
  forall c (n : NodeT d),
    block_matches_flag d n ->
    getNode_from c true d n = mkNode None (mkCode 0 0)
    \/ (getNode_from c true d n = getNode_from c false d n
        /\ code (getNode_from c true d n) = c).
Proof.
  induction d as [| d IH]; intros c n Hn.
  - right. split; reflexivity.
  - rewrite !getNode_from_S.
    destruct (code.getDepth c <? S d)%nat; [| right; split; reflexivity].
    unfold hasChildren.
    match goal with
    | |- context [negb (negb ?b)] => destruct b eqn:Ef
    end; cbn [negb]; [left; reflexivity |].
    match goal with
    | |- context [match ?x with Some _ => _ | None => _ end] =>
        destruct x as [ch |] eqn:Ech
    end.
    + change (children n = Some ch) in Ech.
      destruct (block_matches_flag_some d n ch Hn Ech) as [_ Hall].
      apply IH. apply oct_All_get. exact Hall.
    + right. split; reflexivity.
Qed.

(** X6.  On a tree whose child blocks match the flags, [getNode(code)]
    never returns the null handle; [getNode(code, true)] returns either
    the null handle or what [getNode(code)] returns, and then a handle
    that carries the code asked for. *)
Theorem getNode_null_handle (this : OctreeBase) (c : Code) :
  tree_consistent this ->
  node (getNode this c false) <> None
  /\ (getNode this c true = mkNode None (mkCode 0 0)
      \/ (getNode this c true = getNode this c false
          /\ code (getNode this c true) = c)).
Proof.
  intros Hn. unfold getNode. split.
  - apply getNode_from_live, root_view_consistent, Hn.
  - apply getNode_from_null, root_view_consistent, Hn.
Qed.

(** On [hit_tree]: the voxel that was hit. *)
Lemma getNode_null_handle_witness :
  tree_consistent hit_tree
  /\ node (getNode hit_tree code_A false) <> None.
Proof.
  split; [exact hit_tree_consistent |].
  exact (proj1 (getNode_null_handle hit_tree code_A hit_tree_consistent)).
Defined.

(** ** The node counters *)

Lemma wrap64_add_l a k : wrap64 (wrap64 a + k) = wrap64 (a + k).
Proof. unfold wrap64. apply Zplus_mod_idemp_l. Qed.

Lemma counters_are_ext m a b c a' b' c' :
  a = a' -> b = b' -> c = c' ->
  counters_are m a b c -> counters_are m a' b' c'.
Proof. intros -> -> ->. exact id. Qed.

Lemma counters_are_set_counters m a b c ka kb kc :
  counters_are m a b c ->
  counters_are (set_counters m (wrap64 (num_inner_nodes_ m + ka))
                             (wrap64 (num_inner_leaf_nodes_ m + kb))
                             (wrap64 (num_leaf_nodes_ m + kc)))
               (a + ka) (b + kb) (c + kc).
Proof.
  intros (H1 & H2 & H3). unfold counters_are.
  destruct m; cbn in *. subst.
  rewrite !wrap64_add_l. repeat split.
Qed.

Lemma counters_are_set_counters2 m a b c ka kb :
  counters_are m a b c ->
  counters_are (set_counters m (wrap64 (num_inner_nodes_ m + ka))
                             (wrap64 (num_inner_leaf_nodes_ m + kb))
                             (num_leaf_nodes_ m))
               (a + ka) (b + kb) c.
Proof.
  intros (H1 & H2 & H3). unfold counters_are.
  destruct m; cbn in *. subst.
  rewrite !wrap64_add_l. repeat split.
Qed.

Lemma counters_are_note_change m c a b k :
  counters_are m a b k -> counters_are (note_change m c) a b k.
Proof.
  unfold note_change. destruct (change_detection_enabled_ m); [| exact id].
  destruct m; exact id.
Qed.

Lemma count_inner_S d (n : InnerNode (NodeT d)) :
  count_inner (S d) n
  = match children n with
    | None => 0
    | Some ch => 1 + oct_sum (count_inner d) ch
    end.
Proof. reflexivity. Qed.

Lemma count_inner_leaf_S d (n : InnerNode (NodeT d)) :
  count_inner_leaf (S d) n
  = match children n with
    | None => 1
    | Some ch => oct_sum (count_inner_leaf d) ch
    end.
Proof. reflexivity. Qed.

Lemma count_leaf_S d (n : InnerNode (NodeT d)) :
  count_leaf (S d) n
  = match children n with
    | None => 0
    | Some ch => oct_sum (count_leaf d) ch
    end.
Proof. reflexivity. Qed.

Lemma counts_block d (n n' : InnerNode (NodeT d)) :
  children n' = children n ->
  count_inner (S d) n' = count_inner (S d) n
  /\ count_inner_leaf (S d) n' = count_inner_leaf (S d) n
  /\ count_leaf (S d) n' = count_leaf (S d) n.
Proof.
  intros E. rewrite !count_inner_S, !count_inner_leaf_S, !count_leaf_S, E.
  repeat split.
Qed.

Lemma counts_collapsed d (n : InnerNode (NodeT d)) :
  children n = None ->
  count_inner (S d) n = 0 /\ count_inner_leaf (S d) n = 1
  /\ count_leaf (S d) n = 0.
Proof.
  intros E. rewrite !count_inner_S, !count_inner_leaf_S, !count_leaf_S, E.
  repeat split.
Qed.

Lemma counts_expanded d (n : InnerNode (NodeT d)) ch :
  children n = Some ch ->
  count_inner (S d) n = 1 + oct_sum (count_inner d) ch
  /\ count_inner_leaf (S d) n = oct_sum (count_inner_leaf d) ch
  /\ count_leaf (S d) n = oct_sum (count_leaf d) ch.
Proof.
  intros E. rewrite !count_inner_S, !count_inner_leaf_S, !count_leaf_S, E.
  repeat split.
Qed.

Lemma tracks_refl d n m : tracks d n n m m.
Proof. intros a b c H. exact H. Qed.

Lemma tracks_trans d n1 n2 n3 m1 m2 m3 :
  tracks d n1 n2 m1 m2 -> tracks d n2 n3 m2 m3 -> tracks d n1 n3 m1 m3.
Proof. intros H1 H2 a b c H. apply H2, H1, H. Qed.

Lemma tracks_block d (n n' : InnerNode (NodeT d)) m :
  children n' = children n -> tracks (S d) n n' m m.
Proof.
  intros E a b c H. destruct (counts_block d n n' E) as (-> & -> & ->).
  exact H.
Qed.

Lemma tracks_note_change d n n' m m' c :
  tracks d n n' m m' -> tracks d n n' m (note_change m' c).
Proof. intros H a b k Hm. apply counters_are_note_change, H, Hm. Qed.

Lemma oct_sum_map {A B} (f : B -> Z) (g : A -> B) (o : Oct A) :
  oct_sum f (oct.map g o) = oct_sum (fun a => f (g a)) o.
Proof. reflexivity. Qed.

Lemma oct_sum_ext {A} (f g : A -> Z) (o : Oct A) :
  (forall a, f a = g a) -> oct_sum f o = oct_sum g o.
Proof. intros H. unfold oct_sum. rewrite !H. reflexivity. Qed.

Lemma counts_seed_child d (p : InnerNode (NodeT d)) (x : NodeT d) :
  count_inner d (seed_child d p x) = count_inner d x
  /\ count_inner_leaf d (seed_child d p x) = count_inner_leaf d x
  /\ count_leaf d (seed_child d p x) = count_leaf d x.
Proof.
  destruct d; [repeat split |].
  apply (counts_block d x (seed_child (S d) p x)). reflexivity.
Qed.

Lemma counts_new_children m d :
  oct_sum (count_inner d) (new_children m d) = 0
  /\ oct_sum (count_inner_leaf d) (new_children m d)
     = match d with O => 0 | S _ => 8 end
  /\ oct_sum (count_leaf d) (new_children m d)
     = match d with O => 8 | S _ => 0 end.
Proof. destruct d; repeat split. Qed.

Lemma createChildren_tracks m d (n : InnerNode (NodeT d)) :
  tracks (S d) n (snd (fst (createChildren m d n))) m
         (snd (createChildren m d n)).
Proof.
  unfold createChildren.
  destruct (children n) as [ch |] eqn:E; [apply tracks_refl |].
  cbn [fst snd]. intros a b c H.
  destruct (counts_collapsed d n E) as (E1 & E2 & E3).
  rewrite E1, E2, E3 in H.
  destruct (counts_expanded d
              (set_all_children_same
                 (set_children n (Some (new_children m d))) false)
              (new_children m d) eq_refl) as (-> & -> & ->).
  destruct (counts_new_children m d) as (-> & -> & ->).
  destruct d.
  - eapply counters_are_ext;
      [| | | exact (counters_are_set_counters m _ _ _ 1 (-1) 8 H)]; lia.
  - eapply counters_are_ext;
      [| | | exact (counters_are_set_counters2 m _ _ _ 1 7 H)]; lia.
Qed.

Lemma expand_tracks m d (n : InnerNode (NodeT d)) :
  tracks (S d) n (snd (fst (expand m d n))) m (snd (expand m d n)).
Proof.
  unfold expand. destruct (negb (all_children_same n)); [apply tracks_refl |].
  pose proof (createChildren_tracks m d n) as H.
  destruct (createChildren m d n) as [[b n1] m1]. cbn [fst snd] in *.
  eapply tracks_trans; [exact H |].
  intros a b' c Hm.
  destruct (children n1) as [ch |] eqn:E.
  - destruct (counts_expanded d n1 ch E) as (E1 & E2 & E3).
    rewrite E1, E2, E3 in Hm.
    destruct (counts_expanded d
                (set_children n1
                   (option_map (oct.map (seed_child d n1)) (Some ch)))
                (oct.map (seed_child d n1) ch) eq_refl) as (-> & -> & ->).
    rewrite !oct_sum_map.
    rewrite (oct_sum_ext (fun a => count_inner d (seed_child d n1 a))
                         (count_inner d)),
      (oct_sum_ext (fun a => count_inner_leaf d (seed_child d n1 a))
                   (count_inner_leaf d)),
      (oct_sum_ext (fun a => count_leaf d (seed_child d n1 a))
                   (count_leaf d));
      [exact Hm | | |]; intros x; apply counts_seed_child.
  - destruct (counts_block d n1
                (set_children n1
                   (option_map (oct.map (seed_child d n1)) None)))
      as (-> & -> & ->); [| exact Hm].
    cbn. rewrite E. reflexivity.
Qed.

Ltac track_step d T H x :=
  match type of H with
  | counters_are _ ?A ?B ?C =>
      apply (counters_are_ext _ A B C
               ((A - count_inner d x) + count_inner d x)
               ((B - count_inner_leaf d x) + count_inner_leaf d x)
               ((C - count_leaf d x) + count_leaf d x)) in H;
      [apply T in H | lia | lia | lia]
  end.

(** A loop over the eight children whose rounds each keep the counters
    in step. *)
Lemma oct_mapS_tracks d (P Q : NodeT d -> Prop) (I : Members -> Prop)
  (f : nat -> NodeT d -> Members -> NodeT d * Members) (o o' : Oct (NodeT d))
  (s s' : Members) :
  (forall i a s, P a -> I s ->
                 Q (fst (f i a s)) /\ I (snd (f i a s))
                 /\ tracks d a (fst (f i a s)) s (snd (f i a s))) ->
  oct.All P o -> I s ->
  oct.mapS f o s = (o', s') ->
  oct.All Q o' /\ I s'
  /\ forall a b c,
      counters_are s (a + oct_sum (count_inner d) o)
                   (b + oct_sum (count_inner_leaf d) o)
                   (c + oct_sum (count_leaf d) o) ->
      counters_are s' (a + oct_sum (count_inner d) o')
                   (b + oct_sum (count_inner_leaf d) o')
                   (c + oct_sum (count_leaf d) o').
Proof.
  intros Hf (H0 & H1 & H2 & H3 & H4 & H5 & H6 & H7) Hs.
  unfold oct.mapS.
  destruct (Hf 0%nat (c0 o) s H0 Hs) as (Q0 & I0 & T0).
  destruct (f 0%nat (c0 o) s) as [b0 s0]. cbn [fst snd] in *.
  destruct (Hf 1%nat (c1 o) s0 H1 I0) as (Q1 & I1 & T1).
  destruct (f 1%nat (c1 o) s0) as [b1 s1]. cbn [fst snd] in *.
  destruct (Hf 2%nat (c2 o) s1 H2 I1) as (Q2 & I2 & T2).
  destruct (f 2%nat (c2 o) s1) as [b2 s2]. cbn [fst snd] in *.
  destruct (Hf 3%nat (c3 o) s2 H3 I2) as (Q3 & I3 & T3).
  destruct (f 3%nat (c3 o) s2) as [b3 s3]. cbn [fst snd] in *.
  destruct (Hf 4%nat (c4 o) s3 H4 I3) as (Q4 & I4 & T4).
  destruct (f 4%nat (c4 o) s3) as [b4 s4]. cbn [fst snd] in *.
  destruct (Hf 5%nat (c5 o) s4 H5 I4) as (Q5 & I5 & T5).
  destruct (f 5%nat (c5 o) s4) as [b5 s5]. cbn [fst snd] in *.
  destruct (Hf 6%nat (c6 o) s5 H6 I5) as (Q6 & I6 & T6).
  destruct (f 6%nat (c6 o) s5) as [b6 s6]. cbn [fst snd] in *.
  destruct (Hf 7%nat (c7 o) s6 H7 I6) as (Q7 & I7 & T7).
  destruct (f 7%nat (c7 o) s6) as [b7 s7]. cbn [fst snd] in *.
  intros E. injection E as <- <-.
  split; [repeat split; assumption |]. split; [exact I7 |].
  intros a b c H. unfold oct_sum in *. cbn [c0 c1 c2 c3 c4 c5 c6 c7].
  track_step d T0 H (c0 o). track_step d T1 H (c1 o).
  track_step d T2 H (c2 o). track_step d T3 H (c3 o).
  track_step d T4 H (c4 o). track_step d T5 H (c5 o).
  track_step d T6 H (c6 o). track_step d T7 H (c7 o).
  revert H. apply counters_are_ext; lia.
Qed.

Lemma oct_sum_set {A} (f : A -> Z) (i : nat) (x : A) (o : Oct A) :
  oct_sum f (oct.set i x o) = oct_sum f o - f (oct.get i o) + f x.
Proof.
  unfold oct_sum.
  do 8 (destruct i as [| i]; [cbn; lia |]). cbn; lia.
Qed.

Lemma sums_collapsed d (ch : Oct (NodeT (S d))) :
  oct.All (fun b : NodeT (S d) => children b = None) ch ->
  oct_sum (count_inner (S d)) ch = 0
  /\ oct_sum (count_inner_leaf (S d)) ch = 8
  /\ oct_sum (count_leaf (S d)) ch = 0.
Proof.
  intros (H0 & H1 & H2 & H3 & H4 & H5 & H6 & H7). unfold oct_sum.
  destruct (counts_collapsed d _ H0) as (-> & -> & ->).
  destruct (counts_collapsed d _ H1) as (-> & -> & ->).
  destruct (counts_collapsed d _ H2) as (-> & -> & ->).
  destruct (counts_collapsed d _ H3) as (-> & -> & ->).
  destruct (counts_collapsed d _ H4) as (-> & -> & ->).
  destruct (counts_collapsed d _ H5) as (-> & -> & ->).
  destruct (counts_collapsed d _ H6) as (-> & -> & ->).
  destruct (counts_collapsed d _ H7) as (-> & -> & ->).
  repeat split.
Qed.

Lemma deleteChildren_frees d (n : InnerNode (NodeT d)) manual m :
  negb manual && negb (automatic_pruning_enabled_ m) = false ->
  children (fst (deleteChildren d n manual m)) = None.
Proof.
  intros Hb. destruct d; cbn [deleteChildren];
    change (children (set_all_children_same n true)) with (children n);
    rewrite Hb.
  - destruct (children n) eqn:E; [reflexivity | exact E].
  - destruct (children n) as [ch |] eqn:E; [| exact E].
    match goal with
    | |- context [oct.mapS ?f ch m] => destruct (oct.mapS f ch m) as [ch1 m1]
    end.
    reflexivity.
Qed.

Lemma deleteChildren_tracks d :
  forall (n : InnerNode (NodeT d)) manual m,
    tracks (S d) n (fst (deleteChildren d n manual m)) m
           (snd (deleteChildren d n manual m)).
Proof.
  induction d as [| d IH]; intros n manual m; cbn [deleteChildren];
    change (children (set_all_children_same n true)) with (children n).
  - destruct (children n) as [ch |] eqn:E;
      [destruct (negb manual && negb (automatic_pruning_enabled_ m)) |];
      cbn [fst snd]; try (apply tracks_block; reflexivity).
    intros a b c H.
    destruct (counts_expanded 0 n ch E) as (E1 & E2 & E3).
    rewrite E1, E2, E3 in H.
    destruct (counts_collapsed 0
                (set_children (set_all_children_same n true) None) eq_refl)
      as (-> & -> & ->).
    eapply counters_are_ext;
      [| | | exact (counters_are_set_counters m _ _ _ (-1) 1 (-8) H)];
      unfold oct_sum; cbn; lia.
  - destruct (children n) as [ch |] eqn:E;
      [destruct (negb manual && negb (automatic_pruning_enabled_ m)) eqn:Eb |];
      cbn [fst snd]; try (apply tracks_block; reflexivity).
    match goal with
    | |- context [oct.mapS ?f ch m] =>
        destruct (oct.mapS f ch m) as [ch1 m1] eqn:EM;
        destruct (oct_mapS_tracks (S d) (fun _ => True)
                    (fun b : NodeT (S d) => children b = None)
                    (fun s => settings s = settings m) f ch ch1 m m1)
          as (HQ & HI & HT);
        [| destruct ch; repeat split | reflexivity | exact EM |]
    end.
    { intros i a s _ Hs. cbv beta. split; [| split].
      - apply deleteChildren_frees.
        rewrite (settings_auto _ _ Hs). exact Eb.
      - etransitivity; [apply deleteChildren_settings | exact Hs].
      - apply IH. }
    cbn [fst snd] in *. intros a b c H.
    destruct (counts_expanded (S d) n ch E) as (E1 & E2 & E3).
    rewrite E1, E2, E3 in H.
    match type of H with
    | counters_are _ ?A ?B ?C =>
        apply (counters_are_ext _ A B C
                 ((a + 1) + oct_sum (count_inner (S d)) ch) B C) in H;
        [| lia | reflexivity | reflexivity]
    end.
    apply HT in H.
    destruct (sums_collapsed d ch1 HQ) as (S1 & S2 & S3).
    rewrite S1, S2, S3 in H.
    destruct (counts_collapsed (S d)
                (set_children (set_all_children_same n true) None) eq_refl)
      as (-> & -> & ->).
    eapply counters_are_ext;
      [| | | exact (counters_are_set_counters2 m1 _ _ _ (-1) (-7) H)]; lia.
Qed.

Lemma prune_tracks m d (n : InnerNode (NodeT d)) manual :
  tracks (S d) n (fst (prune m d n manual)) m (snd (prune m d n manual)).
Proof.
  unfold prune. pose proof (deleteChildren_tracks d n manual m) as H.
  destruct (deleteChildren d n manual m) as [n1 m1]. cbn [fst snd] in *.
  eapply tracks_trans; [exact H |]. apply tracks_block. reflexivity.
Qed.

Lemma updateNode_tracks m d (n : InnerNode (NodeT d)) :
  tracks (S d) n (snd (fst (updateNode m d n))) m (snd (updateNode m d n)).
Proof.
  unfold updateNode. destruct (children n) as [ch |]; [| apply tracks_refl].
  destruct (isNodeCollapsible d ch).
  - pose proof (prune_tracks m d (set_logit n (logit_of (c0 ch))) false) as H.
    destruct (prune m d _ false) as [n1 m1]. cbn [fst snd] in *.
    eapply tracks_trans; [| exact H]. apply tracks_block. reflexivity.
  - destruct (childFlags m d ch) as [cf cu].
    match goal with |- context [if ?b then _ else _] => destruct b end;
      cbn [fst snd]; [apply tracks_block; reflexivity | apply tracks_refl].
Qed.

Lemma tracks_child d (n : InnerNode (NodeT d)) ch i x m m' :
  children n = Some ch ->
  tracks d (oct.get i ch) x m m' ->
  tracks (S d) n (set_children n (Some (oct.set i x ch))) m m'.
Proof.
  intros E T a b c H.
  destruct (counts_expanded d n ch E) as (E1 & E2 & E3).
  rewrite E1, E2, E3 in H.
  destruct (counts_expanded d (set_children n (Some (oct.set i x ch)))
              (oct.set i x ch) eq_refl) as (-> & -> & ->).
  rewrite !oct_sum_set.
  track_step d T H (oct.get i ch).
  revert H. apply counters_are_ext; lia.
Qed.

Lemma updateNodeValueRecurs_tracks v sv :
  forall d c (n : NodeT d) m,
    tracks d n (snd (fst (updateNodeValueRecurs v sv d c n m))) m
           (snd (updateNodeValueRecurs v sv d c n m)).
Proof.
  induction d as [| d IH]; intros c n m.
  - cbn [updateNodeValueRecurs fst snd]. apply tracks_note_change.
    intros a b k H. exact H.
  - rewrite updateNodeValueRecurs_S.
    destruct (code.getDepth c <? S d)%nat.
    + pose proof (expand_tracks m d n) as HE.
      destruct (expand m d n) as [[b n1] m1]. cbn [fst snd] in *.
      destruct (children n1) as [ch |] eqn:Ech; [| exact HE].
      pose proof (IH c (oct.get (code.getChildIdx c d) ch) m1) as HR.
      destruct (updateNodeValueRecurs v sv d c _ m1)
        as [[[child changed] cn] m2]. cbn [fst snd] in *.
      pose proof (tracks_child d n1 ch _ cn m1 m2 Ech HR) as HC.
      destruct changed;
        [| cbn [fst snd]; exact (tracks_trans _ _ _ _ _ _ _ HE HC)].
      match goal with
      | |- context [updateNode m2 d ?x] =>
          pose proof (updateNode_tracks m2 d x) as HU;
          destruct (updateNode m2 d x) as [[chg n2] m3]
      end.
      cbn [fst snd] in *.
      pose proof (tracks_trans _ _ _ _ _ _ _ HE
                    (tracks_trans _ _ _ _ _ _ _ HC HU)) as HT.
      destruct chg; [apply tracks_note_change |]; exact HT.
    + destruct sv; cbv iota zeta.
      { match goal with
        | |- context [prune m d ?x false] =>
            pose proof (prune_tracks m d x false) as HP;
            destruct (prune m d x false) as [n1 m1]
        end.
        cbn [fst snd] in *. apply tracks_note_change.
        eapply tracks_trans; [| exact HP]. apply tracks_block. reflexivity. }
      match goal with |- context [if ?b then _ else _] => destruct b end.
      { match goal with
        | |- context [prune m d ?x false] =>
            pose proof (prune_tracks m d x false) as HP;
            destruct (prune m d x false) as [n1 m1]
        end.
        cbn [fst snd] in *. apply tracks_note_change.
        eapply tracks_trans; [| exact HP]. apply tracks_block. reflexivity. }
      match goal with |- context [if ?b then _ else _] => destruct b end;
        [| cbn [fst snd]; apply tracks_note_change, tracks_block; reflexivity].
      match goal with
      | |- context [children ?x] => destruct (children x) as [ch |] eqn:Ech
      end;
        [| cbn [fst snd]; apply tracks_note_change, tracks_block; reflexivity].
      change (children n = Some ch) in Ech.
      match goal with
      | |- context [oct.mapS ?f ch m] =>
          destruct (oct.mapS f ch m) as [ch1 m1] eqn:EM;
          destruct (oct_mapS_tracks d (fun _ => True) (fun _ => True)
                      (fun _ => True) f ch ch1 m m1) as (_ & _ & HT);
          [| destruct ch; repeat split | exact I | exact EM |]
      end.
      { intros i a s _ _. cbv beta. split; [exact I |]. split; [exact I |].
        pose proof (IH (code.getChild c i) a s) as HR.
        destruct (updateNodeValueRecurs v false d (code.getChild c i) a s)
          as [[r0 cn] s0]. exact HR. }
      cbn [fst snd] in HT.
      match goal with
      | |- context [updateNode m1 d ?x] =>
          pose proof (updateNode_tracks m1 d x) as HU;
          destruct (updateNode m1 d x) as [[chg n2] m2]
      end.
      cbn [fst snd] in *. apply tracks_note_change.
      eapply tracks_trans; [| exact HU].
      intros a b k H.
      destruct (counts_expanded d n ch Ech) as (E1 & E2 & E3).
      rewrite E1, E2, E3 in H.
      match type of H with
      | counters_are _ ?A ?B ?C =>
          apply (counters_are_ext _ A B C
                   ((a + 1) + oct_sum (count_inner d) ch) B C) in H;
          [| lia | reflexivity | reflexivity]
      end.
      apply HT in H.
      match goal with
      | |- context [set_children ?x (Some ch1)] =>
          destruct (counts_expanded d (set_children x (Some ch1)) ch1 eq_refl)
            as (-> & -> & ->)
      end.
      revert H. apply counters_are_ext; lia.
Qed.

Lemma root_tracks L (r : InnerNode (NodeT (pred L))) (n' : NodeT L) m m' :
  tracks L (root_view L r) n' m m' ->
  counters_are m (count_inner (S (pred L)) r)
               (count_inner_leaf (S (pred L)) r) (count_leaf (S (pred L)) r) ->
  counters_are m' (count_inner (S (pred L)) (root_store L r n'))
               (count_inner_leaf (S (pred L)) (root_store L r n'))
               (count_leaf (S (pred L)) (root_store L r n')).
Proof.
  destruct L; cbn [pred root_view root_store]; intros T H.
  - destruct (counts_block 0 r (set_base r n') eq_refl) as (E1 & E2 & E3).
    specialize (T (count_inner 1 r) (count_inner_leaf 1 r)
                  (count_leaf 1 r - 1)).
    change (count_inner 0 (base r)) with 0 in T.
    change (count_inner_leaf 0 (base r)) with 0 in T.
    change (count_leaf 0 (base r)) with 1 in T.
    change (count_inner 0 n') with 0 in T.
    change (count_inner_leaf 0 n') with 0 in T.
    change (count_leaf 0 n') with 1 in T.
    apply (counters_are_ext m' (count_inner 1 r + 0) (count_inner_leaf 1 r + 0)
             (count_leaf 1 r - 1 + 1));
      [ etransitivity; [apply Z.add_0_r | symmetry; exact E1]
      | etransitivity; [apply Z.add_0_r | symmetry; exact E2]
      | etransitivity; [apply Z.sub_add | symmetry; exact E3] |].
    apply T. revert H. apply counters_are_ext; lia.
  - specialize (T 0 0 0). cbn [Z.add] in T. apply T. exact H.
Qed.

Lemma with_root_counters (this : OctreeBase) v sv c :
  counters_consistent this ->
  let '(_, root, m) :=
    updateNodeValueRecurs v sv (depth_levels_ this) c
                          (root_view _ (root_ this)) this in
  counters_consistent (with_root this m root).
Proof.
  intros H.
  pose proof (updateNodeValueRecurs_tracks v sv _ c
                (root_view _ (root_ this)) this) as T.
  destruct (updateNodeValueRecurs v sv _ c _ this) as [[r root] m].
  cbn [fst snd] in T.
  exact (root_tracks _ _ _ _ _ T H).
Qed.

(** X7.  If the three node counters hold the numbers of inner nodes
    with a child block, of inner nodes without one and of leaves that
    the tree has (as [size_t] values), they do so after [setNodeValue],
    [updateNodeValue], [integrateHit] and [integrateMiss]: every block
    that is allocated or freed is counted. *)
Theorem updates_keep_counters (this : OctreeBase) (c : Code) (v : Z) :
  counters_consistent this ->
  counters_consistent (snd (setNodeValue this c v))
  /\ counters_consistent (snd (updateNodeValue this c v))
  /\ counters_consistent (snd (integrateHit this c))
  /\ counters_consistent (snd (integrateMiss this c)).
Proof.
  intros H.
  assert (Hup : forall u, counters_consistent (snd (updateNodeValue this c u))).
  { intros u. unfold updateNodeValue.
    match goal with |- context [if ?b then _ else _] => destruct b end;
      [exact H |].
    pose proof (with_root_counters this u false c H) as HW.
    destruct (updateNodeValueRecurs u false _ c _ this) as [[[r ?] root] m].
    exact HW. }
  split; [| split; [apply Hup | split; apply Hup]].
  unfold setNodeValue. cbv zeta.
  match goal with |- context [if ?b then _ else _] => destruct b end;
    [| exact H].
  match goal with
  | |- context [updateNodeValueRecurs ?u true _ c _ _] =>
      pose proof (with_root_counters this u true c H) as HW;
      destruct (updateNodeValueRecurs u true _ c _ this) as [[[r ?] root] m]
  end.
  exact HW.
Qed.

Lemma hit_tree_counted : counters_consistent hit_tree.
Proof. vm_compute. repeat split. Qed.

(** On [hit_tree]: setting the root code frees every block. *)
Lemma updates_keep_counters_witness :
  counters_consistent hit_tree
  /\ counters_consistent (snd (setNodeValue hit_tree (mkCode 0 2) 5000)).
Proof.
  split; [exact hit_tree_counted |].
  exact (proj1 (updates_keep_counters hit_tree (mkCode 0 2) 5000
                  hit_tree_counted)).
Defined.

(** ** What an update leaves alone *)

Lemma updateNodeValue_settings (this : OctreeBase) c u :
  depth_levels_ (snd (updateNodeValue this c u)) = depth_levels_ this
  /\ settings (snd (updateNodeValue this c u)) = settings this.
Proof.
  unfold updateNodeValue.
  match goal with |- context [if ?b then _ else _] => destruct b end;
    [split; reflexivity |].
  pose proof (updateNodeValueRecurs_settings u false _ c
                (root_view _ (root_ this)) this) as Hs.
  destruct (updateNodeValueRecurs u false _ c _ this) as [[[r ?] root] m].
  cbn [fst snd] in *. split; [reflexivity | exact Hs].
Qed.

Lemma setNodeValue_settings (this : OctreeBase) c u :
  depth_levels_ (snd (setNodeValue this c u)) = depth_levels_ this
  /\ settings (snd (setNodeValue this c u)) = settings this.
Proof.
  unfold setNodeValue. cbv zeta.
  match goal with |- context [if ?b then _ else _] => destruct b end;
    [| split; reflexivity].
  match goal with
  | |- context [updateNodeValueRecurs ?v true _ c _ _] =>
      pose proof (updateNodeValueRecurs_settings v true _ c
                    (root_view _ (root_ this)) this) as Hs;
      destruct (updateNodeValueRecurs v true _ c _ this) as [[[r ?] root] m]
  end.
  cbn [fst snd] in *. split; [reflexivity | exact Hs].
Qed.

(** X8.  Besides the nodes, an update assigns the three node counters and
    the set of changed codes, and nothing else: the depth, the
    resolution and the size tables, the sensor model, the thresholds, the
    box, the switches and the accumulator are as before. *)
Theorem updates_leave_settings (this : OctreeBase) (c : Code) (v : Z) :
  let same t :=
    depth_levels_ t = depth_levels_ this /\ settings t = settings this in
  same (snd (setNodeValue this c v))
  /\ same (snd (updateNodeValue this c v))
  /\ same (snd (integrateHit this c))
  /\ same (snd (integrateMiss this c)).
Proof.
  intros same. split; [apply setNodeValue_settings |].
  split; [| split]; apply updateNodeValue_settings.
Qed.

(** ** Inner nodes bound the nodes below them *)

Lemma dominated_S d (n : InnerNode (NodeT d)) :
  dominated (S d) n
  <-> match children n with
      | None => True
      | Some ch =>
          oct.All (fun c => logit_of c <= logit_ (base n) /\ dominated d c) ch
      end.
Proof. reflexivity. Qed.

Lemma dominated_children d (n : InnerNode (NodeT d)) ch :
  dominated (S d) n -> children n = Some ch ->
  oct.All (fun c => logit_of c <= logit_ (base n) /\ dominated d c) ch.
Proof.
  intros H E. pose proof (proj1 (dominated_S d n) H) as B.
  rewrite E in B. exact B.
Qed.

Lemma oct_All_get_inv {A} (P : A -> Prop) (o : Oct A) :
  (forall i, (i < 8)%nat -> P (oct.get i o)) -> oct.All P o.
Proof.
  intros H.
  repeat split;
    [ apply (H 0%nat) | apply (H 1%nat) | apply (H 2%nat) | apply (H 3%nat)
    | apply (H 4%nat) | apply (H 5%nat) | apply (H 6%nat) | apply (H 7%nat) ];
    lia.
Qed.

Lemma oct_get_in {A} (i : nat) (o : Oct A) : In (oct.get i o) (oct.to_list o).
Proof.
  do 8 (destruct i as [| i]; [simpl; tauto |]). simpl; tauto.
Qed.

Lemma answer_bounded :
  forall d c (n : NodeT d),
    block_matches_flag d n -> dominated d n -> answer d c n <= logit_of n.
Proof.
  induction d as [| d IH]; intros c n Hn Hd.
  - rewrite (answer_leaf 0 c n eq_refl). lia.
  - destruct (Nat.lt_ge_cases (code.getDepth c) (S d)) as [Hc | Hc].
    + destruct (children n) as [ch |] eqn:Ech.
      * change (children n = Some ch) in Ech.
        destruct (block_matches_flag_some d n ch Hn Ech) as [Hf Hall].
        rewrite (answer_descend d c n ch Hc Hf Ech).
        pose proof (oct_All_get _ _ (code.getChildIdx c d)
                      (dominated_children d n ch Hd Ech)) as [H1 H2].
        pose proof (IH c _ (oct_All_get _ _ (code.getChildIdx c d) Hall) H2).
        rewrite logit_of_S. lia.
      * change (children n = None) in Ech.
        rewrite (answer_leaf (S d) c n (block_matches_flag_none d n Hn Ech)).
        lia.
    + rewrite (answer_here d c n Hc), logit_of_S. lia.
Qed.

Lemma answer_monotone :
  forall d c c' (n : NodeT d),
    block_matches_flag d n -> dominated d n ->
    (code.getDepth c' <= code.getDepth c)%nat ->
    (forall e, (code.getDepth c <= e < d)%nat ->
               code.getChildIdx c' e = code.getChildIdx c e) ->
    answer d c' n <= answer d c n.
Proof.
  induction d as [| d IH]; intros c c' n Hn Hd Hle He.
  - rewrite (answer_leaf 0 c n eq_refl), (answer_leaf 0 c' n eq_refl). lia.
  - destruct (Nat.lt_ge_cases (code.getDepth c) (S d)) as [Hc | Hc].
    + destruct (children n) as [ch |] eqn:Ech.
      * change (children n = Some ch) in Ech.
        destruct (block_matches_flag_some d n ch Hn Ech) as [Hf Hall].
        rewrite (answer_descend d c n ch Hc Hf Ech).
        rewrite (answer_descend d c' n ch ltac:(lia) Hf Ech).
        rewrite (He d) by lia.
        apply IH; [apply oct_All_get; exact Hall | | exact Hle |].
        -- apply (oct_All_get _ _ (code.getChildIdx c d)
                    (dominated_children d n ch Hd Ech)).
        -- intros e H. apply He. lia.
      * change (children n = None) in Ech.
        pose proof (block_matches_flag_none d n Hn Ech) as Hf.
        rewrite (answer_leaf (S d) c n Hf), (answer_leaf (S d) c' n Hf). lia.
    + rewrite (answer_here d c n Hc).
      pose proof (answer_bounded (S d) c' n Hn Hd) as H.
      rewrite logit_of_S in H. exact H.
Qed.

Lemma hit_tree_dominated : tree_dominated hit_tree.
Proof. vm_compute. repeat split; intros H; discriminate H. Qed.

(** X10.  A coarse answer bounds the fine ones.  On a tree whose child
    blocks match the flags and whose summaries are sound, the logit
    [getNode] answers a code with is not below the logit it answers any
    code of that code's subtree with; so when [isOccupied] holds of a
    code of the subtree, it holds of the code. *)
Theorem coarse_answer_bounds_fine (this : OctreeBase) (c c' : Code) :
  tree_consistent this -> tree_dominated this -> code_below this c c' ->
  node_logit (getNode this c' false) <= node_logit (getNode this c false)
  /\ (isOccupied_Code this c' = true -> isOccupied_Code this c = true).
Proof.
  intros Hn Hd [Hle He].
  assert (H : node_logit (getNode this c' false)
              <= node_logit (getNode this c false)).
  { rewrite !getNode_answer.
    destruct this as [m L r]. cbn [depth_levels_ root_ members] in *.
    destruct L as [| L].
    - cbn [root_view].
      rewrite (answer_leaf 0 c _ eq_refl), (answer_leaf 0 c' _ eq_refl). lia.
    - cbn [root_view]. apply answer_monotone; assumption. }
  split; [exact H |].
  unfold isOccupied_Code, isOccupied_Node, isOccupiedLog.
  intros E. apply Z.ltb_lt in E. apply Z.ltb_lt. lia.
Qed.

(** On [hit_tree]: the root code and the voxel that was hit. *)
Lemma coarse_answer_bounds_fine_witness :
  tree_consistent hit_tree
  /\ tree_dominated hit_tree
  /\ code_below hit_tree (mkCode 0 2) code_A
  /\ isOccupied_Code hit_tree code_A = true
  /\ isOccupied_Code hit_tree (mkCode 0 2) = true.
Proof.
  assert (H3 : code_below hit_tree (mkCode 0 2) code_A).
  { split; [vm_compute; lia |]. intros e He.
    change (code.getDepth (mkCode 0 2)) with 2%nat in He.
    change (depth_levels_ hit_tree) with 2%nat in He. lia. }
  assert (H4 : isOccupied_Code hit_tree code_A = true)
    by (vm_compute; reflexivity).
  split; [exact hit_tree_consistent |]. split; [exact hit_tree_dominated |].
  split; [exact H3 |]. split; [exact H4 |].
  exact (proj2 (coarse_answer_bounds_fine hit_tree (mkCode 0 2) code_A
                  hit_tree_consistent hit_tree_dominated H3) H4).
Defined.

(** ** Change detection *)

(** What the functions that allocate and free nodes leave alone: every
    member that [set_counters] does not assign. *)
Section CountersOnly.
Context {T : Type} (p : Members -> T).
Hypothesis p_set_counters : forall m a b c, p (set_counters m a b c) = p m.

Lemma createChildren_keeps m d n : p (snd (createChildren m d n)) = p m.
Proof.
  unfold createChildren. destruct (children n); [reflexivity |].
  destruct d; apply p_set_counters.
Qed.

Lemma expand_keeps m d n : p (snd (expand m d n)) = p m.
Proof.
  unfold expand. destruct (negb (all_children_same n)); [reflexivity |].
  pose proof (createChildren_keeps m d n) as H.
  destruct (createChildren m d n) as [[b n1] m1]. exact H.
Qed.

Lemma deleteChildren_keeps d :
  forall (n : InnerNode (NodeT d)) manual m,
    p (snd (deleteChildren d n manual m)) = p m.
Proof.
  induction d as [| d IH]; intros n manual m; cbn [deleteChildren];
    change (children (set_all_children_same n true)) with (children n).
  - destruct (children n);
      [destruct (negb manual && negb (automatic_pruning_enabled_ m)) |];
      try reflexivity.
    apply p_set_counters.
  - destruct (children n) as [ch |];
      [destruct (negb manual && negb (automatic_pruning_enabled_ m)) |];
      try reflexivity.
    match goal with
    | |- context [oct.mapS ?f ch m] =>
        pose proof (oct_mapS_state (fun s => p s = p m) f ch m) as H;
        destruct (oct.mapS f ch m) as [ch1 m1]
    end.
    cbn [snd] in *. rewrite p_set_counters. apply H; [| reflexivity].
    intros i a s Hs. etransitivity; [apply IH | exact Hs].
Qed.

Lemma prune_keeps m d n manual : p (snd (prune m d n manual)) = p m.
Proof.
  unfold prune. pose proof (deleteChildren_keeps d n manual m) as H.
  destruct (deleteChildren d n manual m) as [n1 m1]. exact H.
Qed.

Lemma updateNode_keeps m d n : p (snd (updateNode m d n)) = p m.
Proof.
  unfold updateNode. destruct (children n) as [ch |]; [| reflexivity].
  destruct (isNodeCollapsible d ch).
  - pose proof (prune_keeps m d (set_logit n (logit_of (c0 ch))) false) as H.
    destruct (prune m d _ false) as [n1 m1]. exact H.
  - destruct (childFlags m d ch) as [cf cu].
    match goal with |- context [if ?c then _ else _] => destruct c end;
      reflexivity.
Qed.

Lemma clearRecurs_keeps d :
  forall (n : InnerNode (NodeT d)) m, p (snd (clearRecurs d n m)) = p m.
Proof.
  induction d as [| d IH]; intros n m; cbn [clearRecurs].
  - destruct (children n); [apply deleteChildren_keeps | reflexivity].
  - destruct (children n) as [ch |]; [| reflexivity].
    match goal with
    | |- context [oct.mapS ?f ch m] =>
        pose proof (oct_mapS_state (fun s => p s = p m) f ch m) as H;
        destruct (oct.mapS f ch m) as [ch1 m1]
    end.
    cbn [snd] in H. etransitivity; [apply deleteChildren_keeps |].
    apply H; [| reflexivity].
    intros i a s Hs. etransitivity; [apply IH | exact Hs].
Qed.

Hypothesis p_note : forall m c, p (note_change m c) = p m.

Lemma updateNodeValueRecurs_keeps v sv :
  forall d c (n : NodeT d) m,
    p (snd (updateNodeValueRecurs v sv d c n m)) = p m.
Proof.
  induction d as [| d IH]; intros c n m; cbn [updateNodeValueRecurs].
  - apply p_note.
  - destruct (code.getDepth c <? S d)%nat.
    + pose proof (expand_keeps m d n) as HE.
      destruct (expand m d n) as [[b n1] m1]. cbn [snd] in HE.
      destruct (children n1) as [ch |]; [| exact HE].
      pose proof (IH c (oct.get (code.getChildIdx c d) ch) m1) as HR.
      destruct (updateNodeValueRecurs v sv d c _ m1)
        as [[[child changed] cn] m2]. cbn [snd] in HR.
      destruct changed; [| cbn [snd]; congruence].
      match goal with
      | |- context [updateNode m2 d ?x] =>
          pose proof (updateNode_keeps m2 d x) as HU;
          destruct (updateNode m2 d x) as [[chg n2] m3]
      end.
      cbn [snd] in *. destruct chg; [rewrite p_note |]; congruence.
    + destruct sv.
      { match goal with
        | |- context [prune m d ?x false] =>
            pose proof (prune_keeps m d x false) as HP;
            destruct (prune m d x false) as [n1 m1]
        end.
        cbn [snd] in *. rewrite p_note. exact HP. }
      match goal with |- context [if ?b then _ else _] => destruct b end.
      { match goal with
        | |- context [prune m d ?x false] =>
            pose proof (prune_keeps m d x false) as HP;
            destruct (prune m d x false) as [n1 m1]
        end.
        cbn [snd] in *. rewrite p_note. exact HP. }
      match goal with |- context [if ?b then _ else _] => destruct b end;
        [| cbn [snd]; apply p_note].
      match goal with
      | |- context [children ?x] => destruct (children x) as [ch |]
      end; [| cbn [snd]; apply p_note].
      match goal with
      | |- context [oct.mapS ?f ch m] =>
          pose proof (oct_mapS_state (fun s => p s = p m) f ch m) as H;
          destruct (oct.mapS f ch m) as [ch1 m1]
      end.
      cbn [snd] in H.
      match goal with
      | |- context [updateNode m1 d ?x] =>
          pose proof (updateNode_keeps m1 d x) as HU;
          destruct (updateNode m1 d x) as [[chg n2] m2]
      end.
      cbn [snd] in *. rewrite p_note, HU.
      apply H; [| reflexivity].
      intros i a s Hs.
      pose proof (IH (code.getChild c i) a s) as HR.
      destruct (updateNodeValueRecurs v false d (code.getChild c i) a s)
        as [[r0 cn] s0]. cbn [snd] in *. congruence.
Qed.
End CountersOnly.

Lemma quiet_set_counters m a b c : quiet (set_counters m a b c) = quiet m.
Proof. destruct m as [? ? ? ? ? ? ? ? ? ? ? ? [] ? ? ? ? ? ? ? ? ? ?]; reflexivity. Qed.

Lemma quiet_note_change m c : quiet (note_change m c) = quiet m.
Proof. destruct m as [? ? ? ? ? ? ? ? ? ? ? ? [] ? ? ? ? ? ? ? ? ? ?]; reflexivity. Qed.

Lemma quiet_changed m m' :
  change_detection_enabled_ m = false -> quiet m' = quiet m ->
  changed_codes_ m' = changed_codes_ m.
Proof.
  intros H E. unfold quiet in E. rewrite H in E.
  destruct (change_detection_enabled_ m'); [discriminate |].
  injection E as E. apply (f_equal changed_codes_) in E.
  destruct m, m'; exact E.
Qed.

Lemma counters_erased_set_counters m a b c :
  counters_erased (set_counters m a b c) = counters_erased m.
Proof. destruct m; reflexivity. Qed.

Lemma counters_erased_changed m m' :
  counters_erased m = counters_erased m' ->
  changed_codes_ m = changed_codes_ m'.
Proof.
  intros H. apply (f_equal changed_codes_) in H. destruct m, m'; exact H.
Qed.

Lemma changed_grows (X Y : gset Code) (c : Code) : X ⊆ Y -> X ⊆ {[ c ]} ∪ Y.
Proof. set_solver. Qed.

Lemma changed_has (Y : gset Code) (c : Code) : c ∈ ({[ c ]} ∪ Y : gset Code).
Proof. set_solver. Qed.

Lemma changed_keeps (Y : gset Code) (c c' : Code) :
  c ∈ Y -> c ∈ ({[ c' ]} ∪ Y : gset Code).
Proof. set_solver. Qed.

Lemma note_change_records m c :
  change_detection_enabled_ m = true ->
  changed_codes_ (note_change m c) = {[ c ]} ∪ changed_codes_ m.
Proof.
  intros H. unfold note_change. rewrite H. destruct m; reflexivity.
Qed.

(** With change detection on, [updateNodeValueRecurs] only adds to the
    changed codes, and on a consistent node it adds the code of the
    call. *)
Lemma updateNodeValueRecurs_records v sv :
  forall d c (n : NodeT d) m,
    change_detection_enabled_ m = true ->
    changed_codes_ m ⊆ changed_codes_ (snd (updateNodeValueRecurs v sv d c n m))
    /\ (block_matches_flag d n ->
        c ∈ changed_codes_ (snd (updateNodeValueRecurs v sv d c n m))).
Proof.
  assert (Hd : forall m m', settings m' = settings m ->
                            change_detection_enabled_ m = true ->
                            change_detection_enabled_ m' = true).
  { intros m m' H E. rewrite (settings_detection _ _ H). exact E. }
  induction d as [| d IH]; intros c n m Hm.
  - cbn [updateNodeValueRecurs snd]. rewrite (note_change_records _ _ Hm).
    split; [apply changed_grows; reflexivity | intros _; apply changed_has].
  - rewrite updateNodeValueRecurs_S.
    destruct (code.getDepth c <? S d)%nat.
    + pose proof (expand_keeps counters_erased counters_erased_set_counters
                    m d n) as HE.
      pose proof (expand_settings m d n) as HEs.
      pose proof (expand_shape m d n) as HS.
      destruct (expand m d n) as [[b n1] m1]. cbn [fst snd] in *.
      apply counters_erased_changed in HE.
      destruct (children n1) as [ch |] eqn:Ech.
      2:{ cbn [snd]. rewrite HE. split; [reflexivity |].
          intros Hn. destruct (HS Hn) as (_ & ch & Hch & _). congruence. }
      pose proof (IH c (oct.get (code.getChildIdx c d) ch) m1
                    (Hd _ _ HEs Hm)) as [HR1 HR2].
      pose proof (updateNodeValueRecurs_settings v sv d c
                    (oct.get (code.getChildIdx c d) ch) m1) as Hset.
      destruct (updateNodeValueRecurs v sv d c _ m1)
        as [[[child changed] cn] m2]. cbn [fst snd] in *.
      assert (G1 : changed_codes_ m ⊆ changed_codes_ m2)
        by (rewrite <- HE; exact HR1).
      assert (G2 : block_matches_flag (S d) n -> c ∈ changed_codes_ m2).
      { intros Hn. apply HR2.
        destruct (HS Hn) as (_ & ch' & Hch & Hall & _).
        assert (ch' = ch) by congruence. subst ch'.
        apply oct_All_get. exact Hall. }
      destruct changed; [| cbn [snd]; split; assumption].
      match goal with
      | |- context [updateNode m2 d ?x] =>
          pose proof (updateNode_keeps counters_erased
                        counters_erased_set_counters m2 d x) as HU;
          pose proof (updateNode_settings m2 d x) as HUs;
          destruct (updateNode m2 d x) as [[chg n2] m3]
      end.
      cbn [fst snd] in *. apply counters_erased_changed in HU.
      destruct chg; [| rewrite HU; split; assumption].
      rewrite note_change_records
        by (apply (Hd m); [congruence | exact Hm]).
      rewrite HU. split; [apply changed_grows, G1 |].
      intros Hn. apply changed_keeps, G2, Hn.
    + assert (Hfin : forall mx,
                 changed_codes_ m ⊆ changed_codes_ mx ->
                 change_detection_enabled_ mx = true ->
                 changed_codes_ m ⊆ changed_codes_ (note_change mx c)
                 /\ (block_matches_flag (S d) n ->
                     c ∈ changed_codes_ (note_change mx c))).
      { intros mx H1 H2. rewrite (note_change_records _ _ H2).
        split; [apply changed_grows, H1 | intros _; apply changed_has]. }
      assert (Hkeep : forall mx,
                 counters_erased mx = counters_erased m ->
                 settings mx = settings m ->
                 changed_codes_ m ⊆ changed_codes_ (note_change mx c)
                 /\ (block_matches_flag (S d) n ->
                     c ∈ changed_codes_ (note_change mx c))).
      { intros mx H1 H2. apply Hfin; [| exact (Hd _ _ H2 Hm)].
        rewrite (counters_erased_changed _ _ H1). reflexivity. }
      destruct sv; cbv iota zeta.
      { match goal with
        | |- context [prune m d ?x false] =>
            pose proof (prune_keeps counters_erased
                          counters_erased_set_counters m d x false) as HP;
            pose proof (prune_settings m d x false) as HPs;
            destruct (prune m d x false) as [n1 m1]
        end.
        cbn [snd] in *. apply Hkeep; assumption. }
      match goal with |- context [if ?b then _ else _] => destruct b end.
      { match goal with
        | |- context [prune m d ?x false] =>
            pose proof (prune_keeps counters_erased
                          counters_erased_set_counters m d x false) as HP;
            pose proof (prune_settings m d x false) as HPs;
            destruct (prune m d x false) as [n1 m1]
        end.
        cbn [snd] in *. apply Hkeep; assumption. }
      match goal with |- context [if ?b then _ else _] => destruct b end;
        [| cbn [snd]; apply Hkeep; reflexivity].
      match goal with
      | |- context [children ?x] => destruct (children x) as [ch |] eqn:Ech
      end; [| cbn [snd]; apply Hkeep; reflexivity].
      match goal with
      | |- context [oct.mapS ?f ch m] =>
          pose proof (oct_mapS_state
                        (fun s => changed_codes_ m ⊆ changed_codes_ s
                                  /\ settings s = settings m) f ch m) as HM;
          destruct (oct.mapS f ch m) as [ch1 m1]
      end.
      cbn [snd] in HM.
      destruct HM as [HM1 HM2]; [| split; reflexivity |].
      { intros i a s [Hs1 Hs2]. cbv beta.
        pose proof (IH (code.getChild c i) a s (Hd _ _ Hs2 Hm)) as [HR _].
        pose proof (updateNodeValueRecurs_settings v false d
                      (code.getChild c i) a s) as Hset.
        destruct (updateNodeValueRecurs v false d (code.getChild c i) a s)
          as [[r0 cn] s0]. cbn [fst snd] in *.
        split; [etransitivity; [exact Hs1 | exact HR] | congruence]. }
      match goal with
      | |- context [updateNode m1 d ?x] =>
          pose proof (updateNode_keeps counters_erased
                        counters_erased_set_counters m1 d x) as HU;
          pose proof (updateNode_settings m1 d x) as HUs;
          destruct (updateNode m1 d x) as [[chg n2] m2]
      end.
      cbn [fst snd] in *. apply counters_erased_changed in HU.
      apply Hfin; [rewrite HU; exact HM1 |].
      apply (Hd m); [congruence | exact Hm].
Qed.

(** X11.  While change detection is disabled, [setNodeValue],
    [updateNodeValue], [integrateHit] and [integrateMiss] leave the set
    of changed codes as it is. *)
Theorem updates_silent_without_detection (this : OctreeBase) (c : Code)
  (v : Z) :
  isChangeDetectionEnabled this = false ->
  getChangedCodes (snd (setNodeValue this c v)) = getChangedCodes this
  /\ getChangedCodes (snd (updateNodeValue this c v)) = getChangedCodes this
  /\ getChangedCodes (snd (integrateHit this c)) = getChangedCodes this
  /\ getChangedCodes (snd (integrateMiss this c)) = getChangedCodes this.
Proof.
  unfold isChangeDetectionEnabled, getChangedCodes. intros Hoff.
  assert (Hrec : forall u sv,
             changed_codes_
               (snd (updateNodeValueRecurs u sv (depth_levels_ this) c
                       (root_view _ (root_ this)) this))
             = changed_codes_ this).
  { intros u sv. apply quiet_changed; [exact Hoff |].
    apply (updateNodeValueRecurs_keeps quiet quiet_set_counters
             quiet_note_change). }
  assert (Hup : forall u,
             changed_codes_ (snd (updateNodeValue this c u))
             = changed_codes_ this).
  { intros u. unfold updateNodeValue.
    match goal with |- context [if ?b then _ else _] => destruct b end;
      [reflexivity |].
    specialize (Hrec u false).
    destruct (updateNodeValueRecurs u false _ c _ this) as [[[r ?] root] m].
    exact Hrec. }
  split; [| split; [apply Hup | split; apply Hup]].
  unfold setNodeValue. cbv zeta.
  match goal with |- context [if ?b then _ else _] => destruct b end;
    [| reflexivity].
  match goal with
  | |- context [updateNodeValueRecurs ?u true _ c _ _] =>
      specialize (Hrec u true);
      destruct (updateNodeValueRecurs u true _ c _ this) as [[[r ?] root] m]
  end.
  exact Hrec.
Qed.

(** X12.  While change detection is enabled, on a tree whose child
    blocks match the flags, [setNodeValue] and [updateNodeValue] only add
    to the set of changed codes, and the code of the call is in the set
    afterwards unless the call returns at its entry test: for
    [setNodeValue] when the clamped value is what [getNode] answers
    already, for [updateNodeValue] when the node is saturated in the
    direction of the update. *)
Theorem updates_record_changed_code (this : OctreeBase) (c : Code) (v : Z) :
  isChangeDetectionEnabled this = true -> tree_consistent this ->
  (getChangedCodes this ⊆ getChangedCodes (snd (setNodeValue this c v))
   /\ (clamp v (clamping_thres_min_log_ this) (clamping_thres_max_log_ this)
       <> node_logit (getNode this c false) ->
       c ∈ getChangedCodes (snd (setNodeValue this c v))))
  /\ (getChangedCodes this ⊆ getChangedCodes (snd (updateNodeValue this c v))
      /\ (~ (0 <= v /\ clamping_thres_max_log_ this
                       <= node_logit (getNode this c false)) ->
          ~ (v <= 0 /\ node_logit (getNode this c false)
                       <= clamping_thres_min_log_ this) ->
          c ∈ getChangedCodes (snd (updateNodeValue this c v)))).
Proof.
  unfold isChangeDetectionEnabled, getChangedCodes. intros Hon Hn.
  assert (Hrec : forall u sv,
             let m := snd (updateNodeValueRecurs u sv (depth_levels_ this) c
                             (root_view _ (root_ this)) this) in
             changed_codes_ this ⊆ changed_codes_ m /\ c ∈ changed_codes_ m).
  { intros u sv m.
    destruct (updateNodeValueRecurs_records u sv _ c
                (root_view _ (root_ this)) this Hon) as [H1 H2].
    split; [exact H1 |]. apply H2, root_view_consistent, Hn. }
  split.
  - unfold setNodeValue. cbv zeta.
    match goal with |- context [if negb ?b then _ else _] => destruct b eqn:Eb end;
      cbn [negb].
    + cbn [snd]. split; [reflexivity |]. intros H. apply Z.eqb_eq in Eb.
      contradiction.
    + match goal with
      | |- context [updateNodeValueRecurs ?u true _ c _ _] =>
          specialize (Hrec u true);
          destruct (updateNodeValueRecurs u true _ c _ this)
            as [[[r ?] root] m]
      end.
      cbn [snd] in *. split; [apply Hrec | intros _; apply Hrec].
  - unfold updateNodeValue.
    match goal with |- context [if ?b then _ else _] => destruct b eqn:Eb end.
    + cbn [snd]. split; [reflexivity |]. intros H1 H2.
      apply orb_true_iff in Eb.
      destruct Eb as [Eb | Eb]; apply andb_true_iff in Eb;
        destruct Eb as [E1 E2]; apply Z.leb_le in E1, E2; tauto.
    + specialize (Hrec v false).
      destruct (updateNodeValueRecurs v false _ c _ this) as [[[r ?] root] m].
      cbn [snd] in *. split; [apply Hrec | intros _ _; apply Hrec].
Qed.

(** On [hit_tree], where change detection is off. *)
Lemma updates_silent_without_detection_witness :
  isChangeDetectionEnabled hit_tree = false
  /\ getChangedCodes (snd (integrateMiss hit_tree code_B))
     = getChangedCodes hit_tree.
Proof.
  split; [reflexivity |].
  exact (proj2 (proj2 (proj2
           (updates_silent_without_detection hit_tree code_B 0 eq_refl)))).
Defined.

Lemma detecting_tree_consistent : tree_consistent detecting_tree.
Proof. vm_compute. repeat split. Qed.

(** On [detecting_tree]: setting the untouched voxel [code_B] to 0.5
    records it. *)
Lemma updates_record_changed_code_witness :
  isChangeDetectionEnabled detecting_tree = true
  /\ tree_consistent detecting_tree
  /\ clamp 5000 (clamping_thres_min_log_ detecting_tree)
            (clamping_thres_max_log_ detecting_tree)
     <> node_logit (getNode detecting_tree code_B false)
  /\ code_B ∈ getChangedCodes (snd (setNodeValue detecting_tree code_B 5000)).
Proof.
  assert (H3 : clamp 5000 (clamping_thres_min_log_ detecting_tree)
                     (clamping_thres_max_log_ detecting_tree)
               <> node_logit (getNode detecting_tree code_B false))
    by (vm_compute; intros H; discriminate H).
  split; [reflexivity |]. split; [exact detecting_tree_consistent |].
  split; [exact H3 |].
  exact (proj2 (proj1 (updates_record_changed_code detecting_tree code_B 5000
                         eq_refl detecting_tree_consistent)) H3).
Defined.

(** ** Insertion of rays and point clouds *)

Lemma updateNodeValue_keeps_consistent (this : OctreeBase) c u :
  automatic_pruning_enabled_ this = true /\ tree_consistent this ->
  automatic_pruning_enabled_ (snd (updateNodeValue this c u)) = true
  /\ tree_consistent (snd (updateNodeValue this c u)).
Proof.
  intros [Ha Hn]. unfold updateNodeValue.
  match goal with |- context [if ?b then _ else _] => destruct b end;
    [split; assumption |].
  pose proof (with_root_consistent this u false c Ha Hn) as H.
  destruct (updateNodeValueRecurs u false _ c _ this) as [[[r ?] root] m].
  split; apply H.
Qed.

Lemma updateNodeValue_keeps_counters (this : OctreeBase) c u :
  counters_consistent this ->
  counters_consistent (snd (updateNodeValue this c u)).
Proof.
  intros H. unfold updateNodeValue.
  match goal with |- context [if ?b then _ else _] => destruct b end;
    [exact H |].
  pose proof (with_root_counters this u false c H) as HW.
  destruct (updateNodeValueRecurs u false _ c _ this) as [[[r ?] root] m].
  exact HW.
Qed.

Section Bulk.
Variable P : OctreeBase -> Prop.
Hypothesis P_update :
  forall t c v, P t -> P (snd (updateNodeValue t c v)).
Hypothesis P_indices :
  forall t i, P t -> P (with_members t (set_indices_ t i)).

Lemma insertMissOnRay_keeps this origin end_ max_range depth :
  P this -> P (insertMissOnRay this origin end_ max_range depth).
Proof.
  unfold insertMissOnRay. cbv zeta.
  generalize (computeRay this origin end_ max_range depth). intros ray.
  revert this. induction ray as [| k ray IH]; intros this H; [exact H |].
  cbn [fold_left]. apply IH. apply P_update. exact H.
Qed.

Lemma insertRay_keeps this origin end_ max_range depth :
  P this -> P (insertRay this origin end_ max_range depth).
Proof.
  intros H. unfold insertRay. cbv zeta.
  apply P_update. apply insertMissOnRay_keeps. exact H.
Qed.

Lemma insertPointCloud_keeps this origin cloud max_range :
  P this -> P (insertPointCloud this origin cloud max_range).
Proof.
  intros H. unfold insertPointCloud. cbv zeta.
  apply P_indices.
  assert (H0 : P (computeUpdate this origin cloud max_range))
    by (apply P_indices; exact H).
  revert H0.
  generalize (map_to_list
                (indices_ (computeUpdate this origin cloud max_range))).
  generalize (computeUpdate this origin cloud max_range).
  intros t l. revert t. induction l as [| [c v] l IH]; intros t Ht;
    [exact Ht |].
  cbn [fold_left]. apply IH. apply P_update. exact Ht.
Qed.
End Bulk.

Lemma consistent_indices (t : OctreeBase) i :
  automatic_pruning_enabled_ t = true /\ tree_consistent t ->
  automatic_pruning_enabled_ (with_members t (set_indices_ t i)) = true
  /\ tree_consistent (with_members t (set_indices_ t i)).
Proof. destruct t as [m L r]. destruct m. exact id. Qed.

Lemma counters_indices (t : OctreeBase) i :
  counters_consistent t ->
  counters_consistent (with_members t (set_indices_ t i)).
Proof. destruct t as [m L r]. destruct m. exact id. Qed.

(** X13.  [insertPointCloud], [insertMissOnRay] and [insertRay] keep the
    shape invariants the single updates keep: child blocks that match
    the flags (with automatic pruning) and counters that match the
    nodes; [insertPointCloud] leaves its accumulator empty. *)
Theorem insertions_keep_invariants (this : OctreeBase)
  (origin end_ : Point3) (cloud : list Point3) (max_range : Q)
  (depth : nat) (t : OctreeBase) :
  In t [insertPointCloud this origin cloud max_range;
        insertMissOnRay this origin end_ max_range depth;
        insertRay this origin end_ max_range depth] ->
  indices_ (insertPointCloud this origin cloud max_range) = ∅
  /\ (automatic_pruning_enabled_ this = true ->
      tree_consistent this -> tree_consistent t)
  /\ (counters_consistent this -> counters_consistent t).
Proof.
  intros Hin. split.
  { unfold insertPointCloud. cbv zeta.
    match goal with
    | |- indices_ (members (with_members ?t _)) = _ => destruct t as [m L r]
    end.
    destruct m. reflexivity. }
  pose proof (insertPointCloud_keeps _ updateNodeValue_keeps_consistent
                consistent_indices this origin cloud max_range) as A2.
  pose proof (insertPointCloud_keeps _ updateNodeValue_keeps_counters
                counters_indices this origin cloud max_range) as A3.
  pose proof (insertMissOnRay_keeps _ updateNodeValue_keeps_consistent
                this origin end_ max_range depth) as B2.
  pose proof (insertMissOnRay_keeps _ updateNodeValue_keeps_counters
                this origin end_ max_range depth) as B3.
  pose proof (insertRay_keeps _ updateNodeValue_keeps_consistent
                this origin end_ max_range depth) as C2.
  pose proof (insertRay_keeps _ updateNodeValue_keeps_counters
                this origin end_ max_range depth) as C3.
  destruct Hin as [<- | [<- | [<- | []]]].
  - split; [intros H1 H2; apply A2; split; assumption | exact A3].
  - split; [intros H1 H2; apply B2; split; assumption | exact B3].
  - split; [intros H1 H2; apply C2; split; assumption | exact C3].
Qed.

(** On [grid_hit_tree]: a ray through the voxel that was hit. *)
Lemma insertions_keep_invariants_witness :
  let origin := mkVector3 (1 # 2) (1 # 2) (1 # 2) in
  let end_ := mkVector3 (11 # 2) (1 # 2) (1 # 2) in
  let t := insertRay grid_hit_tree origin end_ 8 0 in
  In t [insertPointCloud grid_hit_tree origin [end_] 8;
        insertMissOnRay grid_hit_tree origin end_ 8 0;
        insertRay grid_hit_tree origin end_ 8 0]
  /\ automatic_pruning_enabled_ grid_hit_tree = true
  /\ tree_consistent grid_hit_tree
  /\ counters_consistent grid_hit_tree
  /\ tree_consistent t /\ counters_consistent t.
Proof.
  intros origin end_ t.
  assert (H0 : In t [insertPointCloud grid_hit_tree origin [end_] 8;
                     insertMissOnRay grid_hit_tree origin end_ 8 0;
                     insertRay grid_hit_tree origin end_ 8 0])
    by (right; right; left; reflexivity).
  assert (H4 : tree_consistent grid_hit_tree)
    by (vm_compute; repeat split).
  assert (H5 : counters_consistent grid_hit_tree)
    by (vm_compute; repeat split).
  destruct (insertions_keep_invariants grid_hit_tree origin end_ [end_] 8 0
              t H0) as (_ & B & C).
  split; [exact H0 |]. split; [reflexivity |]. split; [exact H4 |].
  split; [exact H5 |].
  split; [exact (B eq_refl H4) | exact (C H5)].
Defined.

(** ** The accumulated updates of [insertPointCloud] *)

Lemma updateNodeValue_other_answer (this : OctreeBase) (c c' : Code) (v : Z) :
  tree_consistent this -> paths_part this c c' ->
  node_logit (getNode (snd (updateNodeValue this c v)) c' false)
  = node_logit (getNode this c' false).
Proof.
  intros Hn (d0 & Hd0 & Hc & Hc' & Hne).
  unfold updateNodeValue.
  match goal with |- context [if ?b then _ else _] => destruct b end;
    [reflexivity |].
  destruct (updateNodeValueRecurs v false _ c _ this) as [[[r ?] root] m]
    eqn:E.
  cbn [snd]. rewrite getNode_with_root.
  exact (other_answer _ _ _ _ _ _ _ _ _ _ _ Hd0 Hc Hc' Hne
           (root_view_consistent _ _ Hn) E).
Qed.

Lemma paths_part_depth (t t' : OctreeBase) c c' :
  depth_levels_ t' = depth_levels_ t -> paths_part t c c' ->
  paths_part t' c c'.
Proof.
  intros E (d0 & H). exists d0. rewrite E. exact H.
Qed.

Lemma drain_other (c : Code) :
  forall l (t : OctreeBase),
    automatic_pruning_enabled_ t = true -> tree_consistent t ->
    (forall c' v, In (c', v) l -> paths_part t c' c) ->
    node_logit (getNode (drain l t) c false) = node_logit (getNode t c false).
Proof.
  induction l as [| [c1 v1] l IH]; intros t Ha Hn Hp; [reflexivity |].
  unfold drain. cbn [fold_left]. fold (drain l (snd (updateNodeValue t c1 v1))).
  destruct (updateNodeValue_keeps_consistent t c1 v1 (conj Ha Hn))
    as [Ha1 Hn1].
  destruct (updateNodeValue_settings t c1 v1) as [Hd1 _].
  rewrite IH; [| exact Ha1 | exact Hn1 |].
  - apply updateNodeValue_other_answer; [exact Hn |].
    apply (Hp c1 v1). left. reflexivity.
  - intros c' v Hin. apply (paths_part_depth t); [exact Hd1 |].
    apply (Hp c' v). right. exact Hin.
Qed.

Lemma drain_hit (c : Code) (v : Z) :
  forall l (t : OctreeBase),
    NoDup (map fst l) -> In (c, v) l ->
    (forall c' v', In (c', v') l -> c' <> c -> paths_part t c' c) ->
    code.getDepth c = 0%nat ->
    clamping_thres_min_log_ t <= node_logit (getNode t c false)
    <= clamping_thres_max_log_ t ->
    automatic_pruning_enabled_ t = true -> tree_consistent t ->
    node_logit (getNode (drain l t) c false)
    = clamp (node_logit (getNode t c false) + v)
            (clamping_thres_min_log_ t) (clamping_thres_max_log_ t).
Proof.
  induction l as [| [c1 v1] l IH]; intros t Hnd Hin Hp H0 Hold Ha Hn;
    [destruct Hin |].
  unfold drain. cbn [fold_left]. fold (drain l (snd (updateNodeValue t c1 v1))).
  destruct (updateNodeValue_keeps_consistent t c1 v1 (conj Ha Hn))
    as [Ha1 Hn1].
  destruct (updateNodeValue_settings t c1 v1) as [Hd1 Hs1].
  destruct (settings_clamps _ _ Hs1) as [Emin Emax].
  cbn [map fst] in Hnd. apply NoDup_cons in Hnd.
  destruct Hnd as [Hnot Hnd].
  destruct (decide (c1 = c)) as [-> | Hne].
  - assert (v1 = v) as ->.
    { destruct Hin as [E | Hin]; [congruence |].
      exfalso. apply Hnot. apply list_elem_of_In.
      apply (in_map fst) in Hin. exact Hin. }
    rewrite drain_other; [| exact Ha1 | exact Hn1 |].
    + apply updateNodeValue_voxel_answer; assumption.
    + intros c' v' Hin'. apply (paths_part_depth t); [exact Hd1 |].
      apply (Hp c' v'); [right; exact Hin' |].
      intros ->. apply Hnot. apply list_elem_of_In.
      apply (in_map fst) in Hin'. exact Hin'.
  - destruct Hin as [E | Hin]; [congruence |].
    assert (Hsame : node_logit (getNode (snd (updateNodeValue t c1 v1)) c false)
                    = node_logit (getNode t c false)).
    { apply updateNodeValue_other_answer; [exact Hn |].
      apply (Hp c1 v1); [left; reflexivity | exact Hne]. }
    rewrite (IH (snd (updateNodeValue t c1 v1)) Hnd Hin).
    + rewrite Hsame, Emin, Emax. reflexivity.
    + intros c' v' Hin' Hc'. apply (paths_part_depth t); [exact Hd1 |].
      apply (Hp c' v'); [right; exact Hin' | exact Hc'].
    + exact H0.
    + rewrite Hsame, Emin, Emax. exact Hold.
    + exact Ha1.
    + exact Hn1.
Qed.

Lemma getNode_set_indices (t : OctreeBase) i c rn :
  getNode (with_members t (set_indices_ t i)) c rn = getNode t c rn.
Proof. destruct t as [m L r]. destruct m. reflexivity. Qed.

Lemma paths_part_set_indices (t : OctreeBase) i c c' :
  paths_part t c c' -> paths_part (with_members t (set_indices_ t i)) c c'.
Proof. destruct t as [m L r]. destruct m. exact id. Qed.

Lemma clamps_set_indices (t : OctreeBase) i :
  clamping_thres_min_log_ (with_members t (set_indices_ t i))
  = clamping_thres_min_log_ t
  /\ clamping_thres_max_log_ (with_members t (set_indices_ t i))
     = clamping_thres_max_log_ t.
Proof. destruct t as [m L r]. destruct m. split; reflexivity. Qed.

(** X14.  [insertPointCloud] applies each accumulated update once, in
    whatever order the accumulator is visited.  With automatic pruning,
    on a tree whose child blocks match the flags, for a voxel code
    answered with a logit within the clamping thresholds, when every
    other accumulated code is in another cell of the tree: afterwards
    the voxel is answered with its logit plus the value accumulated for
    it, clamped, and with its old logit when none was accumulated. *)
Theorem insertPointCloud_applies_accumulator (this : OctreeBase)
  (sensor_origin : Point3) (cloud : list Point3) (max_range : Q)
  (c : Code) :
  let acc := indices_ (computeUpdate this sensor_origin cloud max_range) in
  automatic_pruning_enabled_ this = true -> tree_consistent this ->
  (forall c' v, acc !! c' = Some v -> c' <> c -> paths_part this c' c) ->
  code.getDepth c = 0%nat ->
  clamping_thres_min_log_ this <= node_logit (getNode this c false)
  <= clamping_thres_max_log_ this ->
  node_logit
    (getNode (insertPointCloud this sensor_origin cloud max_range) c false)
  = match acc !! c with
    | Some v => clamp (node_logit (getNode this c false) + v)
                      (clamping_thres_min_log_ this)
                      (clamping_thres_max_log_ this)
    | None => node_logit (getNode this c false)
    end.
Proof.
  intros acc Ha Hn Hp H0 Hold.
  unfold insertPointCloud. cbv zeta. rewrite getNode_set_indices.
  fold (drain (map_to_list
                 (indices_ (computeUpdate this sensor_origin cloud max_range)))
              (computeUpdate this sensor_origin cloud max_range)).
  fold acc.
  set (t := computeUpdate this sensor_origin cloud max_range) in *.
  assert (Hview : forall rn, getNode t c rn = getNode this c rn)
    by (intros rn; apply getNode_set_indices).
  destruct (consistent_indices this
              (fold_left (computeUpdate_point this sensor_origin max_range)
                         cloud (indices_ this)) (conj Ha Hn)) as [Ha' Hn'].
  destruct (clamps_set_indices this
              (fold_left (computeUpdate_point this sensor_origin max_range)
                         cloud (indices_ this))) as [Emin Emax].
  fold (computeUpdate this sensor_origin cloud max_range) in Ha', Hn', Emin,
    Emax.
  fold t in Ha', Hn', Emin, Emax.
  assert (Hp' : forall c' v, In (c', v) (map_to_list acc) -> c' <> c ->
                             paths_part t c' c).
  { intros c' v Hin Hne. apply paths_part_set_indices.
    apply (Hp c' v); [| exact Hne].
    apply elem_of_map_to_list. apply list_elem_of_In. exact Hin. }
  destruct (acc !! c) as [v |] eqn:E.
  - rewrite (drain_hit c v (map_to_list acc) t).
    + rewrite Hview, Emin, Emax. reflexivity.
    + apply NoDup_fst_map_to_list.
    + apply list_elem_of_In. apply elem_of_map_to_list. exact E.
    + exact Hp'.
    + exact H0.
    + rewrite Hview, Emin, Emax. exact Hold.
    + exact Ha'.
    + exact Hn'.
  - rewrite drain_other; [rewrite Hview; reflexivity | exact Ha' | exact Hn' |].
    intros c' v Hin. apply (Hp' c' v Hin).
    intros ->. apply list_elem_of_In, elem_of_map_to_list in Hin. congruence.
Qed.

Lemma grid_tree_consistent : tree_consistent grid_tree.
Proof. vm_compute. repeat split. Qed.

(** On the unit grid: one point at (3.5, 0.5, 0.5) seen from
    (0.5, 0.5, 0.5); the accumulator holds a hit for its cell and misses
    for the three cells before it. *)
Lemma insertPointCloud_applies_accumulator_witness :
  let origin := mkVector3 (1 # 2) (1 # 2) (1 # 2) in
  let far := mkVector3 (7 # 2) (1 # 2) (1 # 2) in
  let c := code.of_key (coordToKey grid_tree far 0) in
  let acc := indices_ (computeUpdate grid_tree origin [far] (-1)) in
  automatic_pruning_enabled_ grid_tree = true
  /\ tree_consistent grid_tree
  /\ (forall c' v, acc !! c' = Some v -> c' <> c ->
                   paths_part grid_tree c' c)
  /\ code.getDepth c = 0%nat
  /\ clamping_thres_min_log_ grid_tree
     <= node_logit (getNode grid_tree c false)
     <= clamping_thres_max_log_ grid_tree
  /\ node_logit (getNode (insertPointCloud grid_tree origin [far] (-1)) c
                         false)
     = prob_hit_log_ grid_tree.
Proof.
  intros origin far c acc.
  assert (H3 : forall c' v, acc !! c' = Some v -> c' <> c ->
                            paths_part grid_tree c' c).
  { intros c' v H Hne.
    apply elem_of_map_to_list, list_elem_of_In in H.
    vm_compute in H.
    repeat match type of H with
           | _ \/ _ => destruct H as [H | H]
           end;
      try contradiction;
      injection H as <- <-;
      first [ exfalso; apply Hne; vm_compute; reflexivity
            | exists 0%nat; vm_compute; repeat split; lia
            | exists 1%nat; vm_compute; repeat split; lia ]. }
  assert (H5 : clamping_thres_min_log_ grid_tree
               <= node_logit (getNode grid_tree c false)
               <= clamping_thres_max_log_ grid_tree)
    by (vm_compute; split; intros H; discriminate H).
  split; [reflexivity |]. split; [exact grid_tree_consistent |].
  split; [exact H3 |]. split; [reflexivity |]. split; [exact H5 |].
  rewrite (insertPointCloud_applies_accumulator grid_tree origin [far] (-1) c
             eq_refl grid_tree_consistent H3 eq_refl H5).
  vm_compute. reflexivity.
Defined.

(** ** [clear] *)

Lemma clearRecurs_frees d :
  forall (n : InnerNode (NodeT d)) m,
    children (fst (clearRecurs d n m)) = None.
Proof.
  destruct d; intros n m; cbn [clearRecurs].
  - destruct (children n) eqn:E; [| exact E].
    apply deleteChildren_frees. reflexivity.
  - destruct (children n) as [ch |] eqn:E; [| exact E].
    match goal with
    | |- context [oct.mapS ?f ch m] => destruct (oct.mapS f ch m) as [ch1 m1]
    end.
    apply deleteChildren_frees. reflexivity.
Qed.

Lemma clearRecurs_tracks d :
  forall (n : InnerNode (NodeT d)) m,
    tracks (S d) n (fst (clearRecurs d n m)) m (snd (clearRecurs d n m)).
Proof.
  induction d as [| d IH]; intros n m; cbn [clearRecurs].
  - destruct (children n); [apply deleteChildren_tracks | apply tracks_refl].
  - destruct (children n) as [ch |] eqn:E; [| apply tracks_refl].
    match goal with
    | |- context [oct.mapS ?f ch m] =>
        destruct (oct.mapS f ch m) as [ch1 m1] eqn:EM;
        destruct (oct_mapS_tracks (S d) (fun _ => True) (fun _ => True)
                    (fun _ => True) f ch ch1 m m1) as (_ & _ & HT);
        [| destruct ch; repeat split | exact I | exact EM |]
    end.
    { intros i a s _ _. cbv beta. split; [exact I |]. split; [exact I |].
      apply IH. }
    eapply tracks_trans; [| apply deleteChildren_tracks].
    intros a b c H.
    destruct (counts_expanded (S d) n ch E) as (E1 & E2 & E3).
    rewrite E1, E2, E3 in H.
    match type of H with
    | counters_are _ ?A ?B ?C =>
        apply (counters_are_ext _ A B C
                 ((a + 1) + oct_sum (count_inner (S d)) ch) B C) in H;
        [| lia | reflexivity | reflexivity]
    end.
    apply HT in H.
    destruct (counts_expanded (S d) (set_children n (Some ch1)) ch1 eq_refl)
      as (-> & -> & ->).
    revert H. apply counters_are_ext; lia.
Qed.

Lemma counters_are_set_max_value_ m v a b c :
  counters_are m a b c -> counters_are (set_max_value_ m v) a b c.
Proof. destruct m; exact id. Qed.

Lemma counters_are_set_resolution_ m r rf s h a b c :
  counters_are m a b c -> counters_are (set_resolution_ m r rf s h) a b c.
Proof. destruct m; exact id. Qed.

Lemma answer_default L c :
  node_logit (getNode_from c false L (root_view L default_inner)) = 0.
Proof.
  destruct L; [reflexivity |].
  change (answer (S L) c default_inner = 0).
  rewrite (answer_leaf (S L)); reflexivity.
Qed.

Lemma kept_by_clear_set_counters m a b c :
  kept_by_clear (set_counters m a b c) = kept_by_clear m.
Proof. destruct m; reflexivity. Qed.

Lemma kept_by_clear_set_max_value_ m v :
  kept_by_clear (set_max_value_ m v) = kept_by_clear m.
Proof. destruct m; reflexivity. Qed.

Lemma kept_by_clear_set_resolution_ m r rf s h :
  kept_by_clear (set_resolution_ m r rf s h) = kept_by_clear m.
Proof. destruct m; reflexivity. Qed.

(** X16.  [clear(resolution, depth_levels)] throws for more than 21
    levels and otherwise leaves the empty tree of that depth: a childless
    root that answers every code with logit 0; counters that matched the
    nodes before the call count the one root node afterwards.  Apart
    from the nodes, the counters and the geometry, [clear] assigns no
    member: the sensor model, the thresholds, the box, the switches, the
    set of changed codes and the accumulator stay. *)
Theorem clear_leaves_empty_tree (this : OctreeBase) (resolution : Q)
  (depth_levels : nat) :
  (clear this resolution depth_levels = Throws <-> (21 < depth_levels)%nat)
  /\ forall t,
      clear this resolution depth_levels = Returns t ->
      depth_levels_ t = depth_levels
      /\ tree_consistent t
      /\ (forall c, node_logit (getNode t c false) = 0)
      /\ (counters_consistent this ->
          counters_consistent t /\ size t = 1)
      /\ kept_by_clear t = kept_by_clear this.
Proof.
  unfold clear. split.
  - destruct (21 <? depth_levels)%nat eqn:E.
    + split; [intros _; apply Nat.ltb_lt; exact E | reflexivity].
    + destruct (clearRecurs _ (root_ this) this) as [r m].
      split; [discriminate |]. intros H. apply Nat.ltb_lt in H. congruence.
  - intros t. destruct (21 <? depth_levels)%nat; [discriminate |].
    pose proof (clearRecurs_tracks _ (root_ this) this) as HT.
    pose proof (clearRecurs_frees _ (root_ this) this) as HF.
    pose proof (clearRecurs_keeps kept_by_clear kept_by_clear_set_counters
                  _ (root_ this) this) as HK.
    destruct (clearRecurs _ (root_ this) this) as [r m]. cbn [fst snd] in *.
    intros E. injection E as <-. cbn [depth_levels_].
    split; [reflexivity |].
    split; [apply block_matches_flag_collapsed; reflexivity |].
    split; [intros c; apply answer_default |].
    split.
    2:{ cbn [members].
        destruct (negb (Qeq_bool resolution (resolution_ this)));
          rewrite ?kept_by_clear_set_resolution_,
            kept_by_clear_set_max_value_; exact HK. }
    intros Hc. unfold counters_consistent in Hc.
    specialize (HT 0 0 0). cbn [Z.add] in HT. specialize (HT Hc).
    destruct (counts_collapsed _ r HF) as (E1 & E2 & E3).
    rewrite E1, E2, E3 in HT.
    assert (H : counters_are
                  (if negb (Qeq_bool resolution (resolution_ this))
                   then set_resolution_
                          (set_max_value_ m (max_value_of depth_levels))
                          resolution (Qred (1 / resolution))
                          (node_sizes resolution depth_levels)
                          (node_half_sizes resolution depth_levels)
                   else set_max_value_ m (max_value_of depth_levels))
                  0 1 0).
    { destruct (negb (Qeq_bool resolution (resolution_ this)));
        [apply counters_are_set_resolution_ |];
        apply counters_are_set_max_value_; exact HT. }
    split.
    + unfold counters_consistent. cbn [members depth_levels_ root_].
      destruct (counts_collapsed (pred depth_levels) default_inner eq_refl)
        as (-> & -> & ->).
      exact H.
    + unfold size. cbn [members]. destruct H as (-> & -> & ->). reflexivity.
Qed.

(** On [hit_tree], cleared to three depth levels. *)
Lemma clear_leaves_empty_tree_witness :
  let t := from_outcome blank_tree (clear hit_tree (1 # 10) 3) in
  clear hit_tree (1 # 10) 3 = Returns t
  /\ counters_consistent hit_tree
  /\ depth_levels_ t = 3%nat
  /\ tree_consistent t
  /\ node_logit (getNode t code_A false) = 0
  /\ size t = 1
  /\ prob_hit_log_ t = prob_hit_log_ hit_tree.
Proof.
  intros t.
  assert (H1 : clear hit_tree (1 # 10) 3 = Returns t)
    by (vm_compute; reflexivity).
  destruct (proj2 (clear_leaves_empty_tree hit_tree (1 # 10) 3) t H1)
    as (A & B & C & D).
  split; [exact H1 |]. split; [exact hit_tree_counted |].
  split; [exact A |]. split; [exact B |]. split; [exact (C code_A) |].
  split; [exact (proj2 (proj1 D hit_tree_counted)) |].
  vm_compute. reflexivity.
Defined.

(** ** The constructor *)

Lemma pow2_S d : (pow2 (S d) == 2 * pow2 d)%Q.
Proof.
  unfold pow2. rewrite Nat2Z.inj_succ, Z.pow_succ_r by lia.
  rewrite inject_Z_mult. reflexivity.
Qed.

Lemma pow2_pos d : (0 < pow2 d)%Q.
Proof.
  unfold pow2. change 0%Q with (inject_Z 0). rewrite <- Zlt_Qlt.
  apply Z.pow_pos_nonneg; lia.
Qed.

Lemma nth_doubling n :
  forall size d, (d < n)%nat ->
                 (nth d (doubling n size) 0 == size * pow2 d)%Q.
Proof.
  induction n as [| n IH]; intros size d Hd; [lia |].
  cbn [doubling]. destruct d as [| d]; cbn [nth].
  - change (pow2 0) with 1%Q. ring.
  - rewrite IH by lia. rewrite Qred_correct, pow2_S. ring.
Qed.

Lemma node_sizes_nth resolution L d :
  (d <= L)%nat ->
  (nth d (node_sizes resolution L) 0 == resolution * pow2 d)%Q
  /\ (nth d (node_half_sizes resolution L) 0 == resolution * pow2 d / 2)%Q.
Proof.
  intros Hd. unfold node_sizes, node_half_sizes. split.
  - apply nth_doubling. lia.
  - destruct d as [| d]; cbn [nth].
    + rewrite Qred_correct. change (pow2 0) with 1%Q. field.
    + rewrite nth_doubling by lia. rewrite pow2_S. field.
Qed.

Lemma max_value_of_small L :
  (1 <= L <= 21)%nat -> max_value_of L = 2 ^ (Z.of_nat L - 1).
Proof.
  intros H. unfold max_value_of, wrap32. apply Z.mod_small. split.
  - apply Z.pow_nonneg. lia.
  - apply Z.pow_lt_mono_r; lia.
Qed.

(** The geometry of a constructed tree. *)
Lemma OctreeBase_new_grid_set_up (tree_type : list ascii)
  (binary_support : bool) (resolution : Q) (depth_levels : nat)
  (automatic_pruning : bool)
  (occupancy_thres free_thres prob_hit prob_miss
   clamping_thres_min clamping_thres_max : Q) (t : OctreeBase) :
  OctreeBase_new tree_type binary_support resolution depth_levels
                 automatic_pruning occupancy_thres free_thres prob_hit
                 prob_miss clamping_thres_min clamping_thres_max
  = Returns t ->
  (0 < resolution)%Q -> grid_set_up t.
Proof.
  unfold OctreeBase_new.
  destruct ((depth_levels <? 2)%nat || (21 <? depth_levels)%nat) eqn:E;
    [discriminate |].
  apply orb_false_iff in E. destruct E as [E1 E2].
  apply Nat.ltb_ge in E1, E2.
  intros Ht Hres. injection Ht as <-. unfold grid_set_up.
  cbn [depth_levels_ members resolution_ resolution_factor_ max_value_].
  split; [exact Hres |]. split; [apply Qred_correct |].
  split; [lia |]. split; [apply max_value_of_small; lia |].
  intros d Hd. apply node_sizes_nth. exact Hd.
Qed.

Lemma grid_tree_set_up : grid_set_up grid_tree.
Proof.
  apply (OctreeBase_new_grid_set_up _ _ _ _ _ _ _ _ _ _ _ _
           grid_tree_constructed).
  reflexivity.
Qed.

(** X17.  The constructor throws unless [2 <= depth_levels <= 21]; the
    tree it returns is the empty tree of that depth, with one counted
    node, the geometry of the resolution (when that is positive), change
    detection and the box limit off. *)
Theorem constructor_sets_up_empty_tree (tree_type : list ascii)
  (binary_support : bool) (resolution : Q) (depth_levels : nat)
  (automatic_pruning : bool)
  (occupancy_thres free_thres prob_hit prob_miss
   clamping_thres_min clamping_thres_max : Q) :
  let made :=
    OctreeBase_new tree_type binary_support resolution depth_levels
                   automatic_pruning occupancy_thres free_thres prob_hit
                   prob_miss clamping_thres_min clamping_thres_max in
  (made = Throws <-> (depth_levels < 2 \/ 21 < depth_levels)%nat)
  /\ forall t,
      made = Returns t ->
      depth_levels_ t = depth_levels
      /\ tree_consistent t /\ counters_consistent t /\ size t = 1
      /\ (forall c, node_logit (getNode t c false) = 0)
      /\ ((0 < resolution)%Q -> grid_set_up t)
      /\ change_detection_enabled_ t = false
      /\ isBBXLimitEnabled t = false.
Proof.
  intros made.
  pose proof (OctreeBase_new_grid_set_up tree_type binary_support resolution
                depth_levels automatic_pruning occupancy_thres free_thres
                prob_hit prob_miss clamping_thres_min clamping_thres_max)
    as HG.
  fold made in HG. revert HG. subst made. unfold OctreeBase_new.
  destruct ((depth_levels <? 2)%nat || (21 <? depth_levels)%nat) eqn:E;
    intros HG.
  - split; [| discriminate]. split; [| reflexivity]. intros _.
    apply orb_true_iff in E. destruct E as [E | E]; apply Nat.ltb_lt in E; lia.
  - apply orb_false_iff in E. destruct E as [E1 E2].
    apply Nat.ltb_ge in E1, E2.
    split; [split; [discriminate | lia] |].
    intros t Ht. injection Ht as <-. cbn [depth_levels_ members].
    split; [reflexivity |].
    split; [apply block_matches_flag_collapsed; reflexivity |].
    split; [repeat split |]. split; [reflexivity |].
    split; [intros c; apply answer_default |].
    split; [| split; reflexivity].
    intros Hres. exact (HG _ eq_refl Hres).
Qed.

(** On the tree of resolution 1 with four depth levels. *)
Lemma constructor_sets_up_empty_tree_witness :
  grid_new = Returns grid_tree
  /\ (0 < 1)%Q
  /\ depth_levels_ grid_tree = 4%nat
  /\ tree_consistent grid_tree
  /\ counters_consistent grid_tree
  /\ size grid_tree = 1
  /\ grid_set_up grid_tree.
Proof.
  destruct (proj2 (constructor_sets_up_empty_tree
                     (chars "occupancy_map") false 1 4 true
                     (1 # 2) (12 # 100) (7 # 10) (4 # 10) (1192 # 10000)
                     (971 # 1000)) grid_tree grid_tree_constructed)
    as (A & B & C & D & _ & F & _).
  split; [exact grid_tree_constructed |]. split; [reflexivity |].
  split; [exact A |]. split; [exact B |]. split; [exact C |].
  split; [exact D |]. exact (F eq_refl).
Defined.

(** ** Coordinates and keys *)

Lemma Qfloor_unique (x : Q) (z : Z) :
  (inject_Z z <= x)%Q -> (x < inject_Z (z + 1))%Q -> Qfloor x = z.
Proof.
  intros H1 H2.
  pose proof (Qfloor_le x) as F1. pose proof (Qlt_floor x) as F2.
  assert (A : Qfloor x < z + 1).
  { rewrite Zlt_Qlt. eapply Qle_lt_trans; [exact F1 | exact H2]. }
  assert (B : z < Qfloor x + 1).
  { rewrite Zlt_Qlt. eapply Qle_lt_trans; [exact H1 | exact F2]. }
  lia.
Qed.

Lemma inject_Z_pow2 d : inject_Z (2 ^ Z.of_nat d) = pow2 d.
Proof. reflexivity. Qed.

Section Grid.
Variable this : OctreeBase.
Hypothesis grid : grid_set_up this.

Local Abbreviation r := (resolution_ this).
Local Abbreviation L := (depth_levels_ this).
Local Abbreviation maxv := (max_value_ this).

Lemma grid_r_pos : (0 < r)%Q.
Proof. exact (proj1 grid). Qed.

Lemma grid_rf : (resolution_factor_ this == 1 / r)%Q.
Proof. exact (proj1 (proj2 grid)). Qed.

Lemma grid_L : (1 <= L <= 21)%nat.
Proof. exact (proj1 (proj2 (proj2 grid))). Qed.

Lemma grid_max : maxv = 2 ^ (Z.of_nat L - 1).
Proof. exact (proj1 (proj2 (proj2 (proj2 grid)))). Qed.

Lemma grid_size d :
  (d <= L)%nat -> (getNodeSize this d == r * pow2 d)%Q.
Proof. intros H. exact (proj1 (proj2 (proj2 (proj2 (proj2 grid))) d H)). Qed.

Lemma grid_half d :
  (d <= L)%nat -> (getNodeHalfSize this d == r * pow2 d / 2)%Q.
Proof. intros H. exact (proj2 (proj2 (proj2 (proj2 (proj2 grid))) d H)). Qed.

Lemma grid_max_Q : (inject_Z maxv == pow2 L / 2)%Q.
Proof.
  rewrite grid_max. unfold pow2.
  pose proof grid_L as HL.
  replace (Z.of_nat L) with (Z.succ (Z.of_nat L - 1)) at 2 by lia.
  rewrite Z.pow_succ_r by lia. rewrite inject_Z_mult. field.
Qed.

(** The index of the cell on the finest grid. *)
Lemma storable_floor x :
  storable this x ->
  - maxv <= Qfloor (resolution_factor_ this * x) < maxv.
Proof.
  intros [H1 H2].
  rewrite (grid_half L) in H1, H2 by lia.
  pose proof grid_r_pos as Hr. pose proof grid_rf as Hrf.
  pose proof grid_max_Q as HM.
  assert (Hy : (x == r * (resolution_factor_ this * x))%Q).
  { rewrite Hrf. field. intros E. rewrite E in Hr.
    exact (Qlt_irrefl _ Hr). }
  revert Hy. generalize (resolution_factor_ this * x)%Q. intros y Hy.
  pose proof (pow2_pos L) as HP.
  assert (Y1 : (inject_Z (- maxv) <= y)%Q).
  { rewrite inject_Z_opp, HM. rewrite Hy in H1.
    apply (Qmult_le_l _ _ r Hr).
    assert (E : (r * - (pow2 L / 2) == - (r * pow2 L / 2))%Q) by field.
    rewrite E. exact H1. }
  assert (Y2 : (y < inject_Z maxv)%Q).
  { rewrite HM. rewrite Hy in H2.
    apply (Qmult_lt_l _ _ r Hr).
    assert (E : (r * (pow2 L / 2) == r * pow2 L / 2)%Q) by field.
    rewrite E. exact H2. }
  split.
  - rewrite <- (Qfloor_Z (- maxv)). apply Qfloor_resp_le. exact Y1.
  - rewrite Zlt_Qlt. eapply Qle_lt_trans; [apply Qfloor_le | exact Y2].
Qed.

Lemma max_multiple d : (d < L)%nat -> maxv = 2 ^ (Z.of_nat L - 1 - Z.of_nat d) * 2 ^ Z.of_nat d.
Proof.
  intros H. rewrite grid_max, <- Z.pow_add_r by lia. f_equal. lia.
Qed.

(** The key [coordToKey] computes: the cell index at the depth, placed at
    the middle of the cell. *)
Lemma coordToKey1_value x d :
  (d < L)%nat -> storable this x ->
  let q := Qfloor (resolution_factor_ this * x) / 2 ^ Z.of_nat d in
  coordToKey1 this x d
  = q * 2 ^ Z.of_nat d + (if Nat.eqb d 0 then 0 else 2 ^ (Z.of_nat d - 1))
    + maxv
  /\ 0 <= coordToKey1 this x d < 2 ^ 32.
Proof.
  intros Hd Hx q. pose proof (storable_floor x Hx) as Hk.
  set (kv := Qfloor (resolution_factor_ this * x)) in *.
  pose proof grid_L as HL. pose proof (max_multiple d Hd) as HM.
  assert (Hmax : 0 < maxv <= 2 ^ 20).
  { rewrite grid_max. split; [apply Z.pow_pos_nonneg; lia |].
    apply Z.pow_le_mono_r; lia. }
  assert (Hp : 0 < 2 ^ Z.of_nat d) by (apply Z.pow_pos_nonneg; lia).
  set (P := 2 ^ Z.of_nat d) in *.
  set (N := 2 ^ (Z.of_nat L - 1 - Z.of_nat d)) in *.
  assert (Hq1 : q * P <= kv < q * P + P).
  { subst q. pose proof (Z.div_mod kv P ltac:(lia)).
    pose proof (Z.mod_pos_bound kv P Hp). lia. }
  assert (Hq2 : - N <= q < N).
  { split.
    - assert (- N * P <= kv) by lia.
      subst q. apply Z.div_le_lower_bound; lia.
    - subst q. apply Z.div_lt_upper_bound; lia. }
  assert (Hq3 : - maxv <= q * P <= maxv - P) by nia.
  unfold coordToKey1. fold kv.
  destruct d as [| d].
  - change (Nat.eqb 0 0) with true. cbv iota.
    assert (P = 1) by reflexivity.
    assert (q = kv) by (subst q; rewrite H; apply Z.div_1_r).
    replace (q * P + 0 + maxv) with (kv + maxv) by lia.
    unfold wrap32. rewrite Z.mod_small by lia. lia.
  - change (Nat.eqb (S d) 0) with false. cbv iota.
    rewrite Z.shiftr_div_pow2, Z.shiftl_mul_pow2 by lia.
    rewrite Z.shiftl_mul_pow2 by lia. rewrite Z.mul_1_l.
    fold P. fold q.
    assert (Hh : 0 < 2 ^ (Z.of_nat (S d) - 1) < P).
    { split; [apply Z.pow_pos_nonneg; lia |].
      apply Z.pow_lt_mono_r; lia. }
    unfold wrap32. rewrite Z.mod_small by lia. lia.
Qed.

(** [keyToCoord] on such a key: the middle of the cell. *)
Lemma keyToCoord1_value q d :
  (d < L)%nat ->
  (keyToCoord1 this
     (q * 2 ^ Z.of_nat d + (if Nat.eqb d 0 then 0 else 2 ^ (Z.of_nat d - 1))
      + maxv) d
   == (inject_Z q + (1 # 2)) * (r * pow2 d))%Q.
Proof.
  intros Hd. unfold keyToCoord1.
  assert (E : Nat.eqb L d = false) by (apply Nat.eqb_neq; lia).
  rewrite E. rewrite Qred_correct, (grid_size d) by lia.
  rewrite inject_Z_pow2.
  pose proof (pow2_pos d) as HP.
  assert (HPn : ~ (pow2 d == 0)%Q).
  { intros H. rewrite H in HP. exact (Qlt_irrefl _ HP). }
  match goal with
  | |- context [Qfloor ?t] => assert (F : Qfloor t = q)
  end.
  { apply Qfloor_unique.
    - destruct d as [| d].
      + change (Nat.eqb 0 0) with true. cbv iota.
        change (pow2 0) with 1%Q. change (2 ^ Z.of_nat 0) with 1.
        rewrite !inject_Z_plus, inject_Z_mult. field_simplify. lra.
      + change (Nat.eqb (S d) 0) with false. cbv iota.
        rewrite !inject_Z_plus, inject_Z_mult, inject_Z_pow2.
        assert (H2 : (inject_Z (2 ^ (Z.of_nat (S d) - 1))
                      == pow2 (S d) * (1 # 2))%Q).
        { unfold pow2.
          replace (Z.of_nat (S d)) with (Z.succ (Z.of_nat (S d) - 1)) at 2
            by lia.
          rewrite Z.pow_succ_r by lia. rewrite inject_Z_mult. field. }
        rewrite H2. clear H2.
        apply Qle_shift_div_l; [exact HP |].
        revert HP. generalize (pow2 (S d)) (inject_Z q)
                              (inject_Z (max_value_ this)).
        intros P Qq M HP. nra.
    - rewrite inject_Z_plus. change (inject_Z 1) with 1%Q.
      destruct d as [| d].
      + change (Nat.eqb 0 0) with true. cbv iota.
        change (pow2 0) with 1%Q. change (2 ^ Z.of_nat 0) with 1.
        rewrite !inject_Z_plus, inject_Z_mult. field_simplify. lra.
      + change (Nat.eqb (S d) 0) with false. cbv iota.
        rewrite !inject_Z_plus, inject_Z_mult, inject_Z_pow2.
        assert (H2 : (inject_Z (2 ^ (Z.of_nat (S d) - 1))
                      == pow2 (S d) * (1 # 2))%Q).
        { unfold pow2.
          replace (Z.of_nat (S d)) with (Z.succ (Z.of_nat (S d) - 1)) at 2
            by lia.
          rewrite Z.pow_succ_r by lia. rewrite inject_Z_mult. field. }
        rewrite H2. clear H2. change (inject_Z 1) with 1%Q.
        apply Qlt_shift_div_r; [exact HP |].
        revert HP. generalize (pow2 (S d)) (inject_Z q)
                              (inject_Z (max_value_ this)).
        intros P Qq M HP. nra. }
  rewrite F. reflexivity.
Qed.

Lemma half_pow2 d :
  (inject_Z (2 ^ (Z.of_nat (S d) - 1)) == pow2 (S d) * (1 # 2))%Q.
Proof.
  unfold pow2.
  replace (Z.of_nat (S d)) with (Z.succ (Z.of_nat (S d) - 1)) at 2 by lia.
  rewrite Z.pow_succ_r by lia. rewrite inject_Z_mult. field.
Qed.

Lemma storable_index x d :
  (d < L)%nat -> storable this x ->
  let q := Qfloor (resolution_factor_ this * x) / 2 ^ Z.of_nat d in
  - maxv <= q * 2 ^ Z.of_nat d <= maxv - 2 ^ Z.of_nat d.
Proof.
  intros Hd Hx q. pose proof (storable_floor x Hx) as Hk.
  set (kv := Qfloor (resolution_factor_ this * x)) in *.
  pose proof (max_multiple d Hd) as HM.
  assert (Hp : 0 < 2 ^ Z.of_nat d) by (apply Z.pow_pos_nonneg; lia).
  set (P := 2 ^ Z.of_nat d) in *.
  set (N := 2 ^ (Z.of_nat L - 1 - Z.of_nat d)) in *.
  assert (Hq1 : q * P <= kv < q * P + P).
  { subst q. pose proof (Z.div_mod kv P ltac:(lia)).
    pose proof (Z.mod_pos_bound kv P Hp). lia. }
  assert (Hq2 : - N <= q < N).
  { split.
    - assert (- N * P <= kv) by lia.
      subst q. apply Z.div_le_lower_bound; lia.
    - subst q. apply Z.div_lt_upper_bound; lia. }
  nia.
Qed.

(** The middle of a cell is a coordinate of that cell. *)
Lemma centre_key x d :
  (d < L)%nat -> storable this x ->
  coordToKey1 this (keyToCoord1 this (coordToKey1 this x d) d) d
  = coordToKey1 this x d.
Proof.
  intros Hd Hx.
  pose proof (storable_index x d Hd Hx) as Hq.
  destruct (coordToKey1_value x d Hd Hx) as [Ek _]. rewrite Ek.
  set (q := Qfloor (resolution_factor_ this * x) / 2 ^ Z.of_nat d) in *.
  clearbody q.
  pose proof (keyToCoord1_value q d Hd) as Ec.
  set (c := keyToCoord1 this _ d) in *. clearbody c.
  pose proof grid_r_pos as Hr. pose proof grid_rf as Hrf.
  pose proof (pow2_pos d) as HP. pose proof grid_max_Q as HM.
  pose proof grid_L as HL.
  assert (Hrc : (resolution_factor_ this * c
                 == (inject_Z q + (1 # 2)) * pow2 d)%Q).
  { rewrite Ec, Hrf. field. intros E. rewrite E in Hr.
    exact (Qlt_irrefl _ Hr). }
  assert (Hq' : (- inject_Z maxv <= inject_Z q * pow2 d)%Q
                /\ (inject_Z q * pow2 d <= inject_Z maxv - pow2 d)%Q).
  { split.
    - rewrite <- inject_Z_pow2, <- inject_Z_mult, <- inject_Z_opp,
        <- Zle_Qle. apply Hq.
    - pose proof (proj2 Hq) as H2. rewrite Zle_Qle in H2.
      unfold Z.sub in H2.
      rewrite inject_Z_plus, inject_Z_opp, inject_Z_mult, !inject_Z_pow2
        in H2.
      exact H2. }
  assert (Hc : storable this c).
  { unfold storable. rewrite (grid_half L) by lia. rewrite Ec.
    destruct Hq' as [Q1 Q2]. rewrite HM in Q1, Q2.
    assert (E1 : (- (r * pow2 L / 2) == r * - (pow2 L / 2))%Q) by field.
    assert (E2 : (r * pow2 L / 2 == r * (pow2 L / 2))%Q) by field.
    assert (E3 : ((inject_Z q + (1 # 2)) * (r * pow2 d)
                  == r * (inject_Z q * pow2 d + pow2 d * (1 # 2)))%Q) by ring.
    rewrite E1, E2, E3.
    split; [apply (Qmult_le_l _ _ _ Hr) | apply (Qmult_lt_l _ _ _ Hr)];
      revert Q1 Q2 HP;
      generalize (inject_Z q * pow2 d)%Q (pow2 d) (pow2 L / 2)%Q;
      intros; lra. }
  destruct (coordToKey1_value c d Hd Hc) as [-> _].
  assert (Hp : 0 < 2 ^ Z.of_nat d) by (apply Z.pow_pos_nonneg; lia).
  assert (Ef : Qfloor (resolution_factor_ this * c) / 2 ^ Z.of_nat d = q).
  { rewrite Hrc. destruct d as [| d].
    - change (pow2 0) with 1%Q. change (2 ^ Z.of_nat 0) with 1.
      rewrite Z.div_1_r. apply Qfloor_unique.
      + lra.
      + rewrite inject_Z_plus. change (inject_Z 1) with 1%Q. lra.
    - assert (E : ((inject_Z q + (1 # 2)) * pow2 (S d)
                   == inject_Z (q * 2 ^ Z.of_nat (S d)
                                + 2 ^ (Z.of_nat (S d) - 1)))%Q).
      { rewrite inject_Z_plus, inject_Z_mult, inject_Z_pow2, half_pow2.
        ring. }
      rewrite E, Qfloor_Z.
      rewrite Z.div_add_l by lia.
      rewrite Z.div_small; [lia |].
      split; [apply Z.pow_nonneg; lia | apply Z.pow_lt_mono_r; lia]. }
  rewrite Ef. reflexivity.
Qed.

End Grid.

Lemma storable_on_grid_tree (a b c : Q) :
  (-8 <= a)%Q -> (a < 8)%Q -> (-8 <= b)%Q -> (b < 8)%Q ->
  (-8 <= c)%Q -> (c < 8)%Q ->
  forall i, storable grid_tree (Vec.get (mkVector3 a b c) i).
Proof.
  intros A1 A2 B1 B2 C1 C2 i. unfold storable.
  change (getNodeHalfSize grid_tree (depth_levels_ grid_tree)) with 8%Q.
  change (- 8)%Q with (-8)%Q.
  destruct i as [| [| i]]; cbn [Vec.get data0 data1 data2]; split;
    assumption.
Qed.



(** ** Segments inside the box *)

Lemma Qltb_false_le a b : (b <= a)%Q -> Qltb a b = false.
Proof.
  intros H. unfold Qltb. apply negb_false_iff. apply Qle_bool_iff. exact H.
Qed.

Lemma getIntersection_same_side d_1 d_2 p_1 p_2 :
  (0 <= d_1 * d_2)%Q -> getIntersection d_1 d_2 p_1 p_2 = None.
Proof.
  intros H. unfold getIntersection.
  apply Qle_bool_iff in H. rewrite H. reflexivity.
Qed.

(** A segment with both ends inside the box is left as it is. *)
Lemma moveLineIntoBBX_in_inner (this : OctreeBase)
  (bbx_min bbx_max origin end_ : Point3) :
  within bbx_min bbx_max origin -> within bbx_min bbx_max end_ ->
  moveLineIntoBBX_in this bbx_min bbx_max origin end_ = Some (origin, end_).
Proof.
  intros Ho He. unfold moveLineIntoBBX_in.
  assert (Hb : forall i,
             Qltb (Vec.get origin i) (Vec.get bbx_min i)
             && Qltb (Vec.get end_ i) (Vec.get bbx_min i) = false).
  { intros i. rewrite (Qltb_false_le _ _ (proj1 (Ho i))). reflexivity. }
  assert (Ha : forall i,
             Qltb (Vec.get bbx_max i) (Vec.get origin i)
             && Qltb (Vec.get bbx_max i) (Vec.get end_ i) = false).
  { intros i. rewrite (Qltb_false_le _ _ (proj2 (Ho i))). reflexivity. }
  rewrite !Hb, !Ha. cbn [orb].
  assert (Hmin : forall hit i,
             collect_hit bbx_min bbx_max bbx_min origin end_ hit i = hit).
  { intros hit i. unfold collect_hit.
    destruct (length hit <? 2)%nat; [| reflexivity].
    rewrite getIntersection_same_side; [reflexivity |].
    destruct (Ho i) as [H1 _]. destruct (He i) as [H2 _].
    apply Qmult_le_0_compat; lra. }
  assert (Hmax : forall hit i,
             collect_hit bbx_min bbx_max bbx_max origin end_ hit i = hit).
  { intros hit i. unfold collect_hit.
    destruct (length hit <? 2)%nat; [| reflexivity].
    rewrite getIntersection_same_side; [reflexivity |].
    destruct (Ho i) as [_ H1]. destruct (He i) as [_ H2].
    assert (E : ((Vec.get origin i - Vec.get bbx_max i)
                 * (Vec.get end_ i - Vec.get bbx_max i)
                 == (Vec.get bbx_max i - Vec.get origin i)
                    * (Vec.get bbx_max i - Vec.get end_ i))%Q) by ring.
    rewrite E. apply Qmult_le_0_compat; lra. }
  cbn [fold_left]. rewrite !Hmin, !Hmax. reflexivity.
Qed.

(** X21.  [moveLineIntoBBX] returns [true] and leaves a segment as it is
    when every coordinate of both its ends lies between the
    corresponding coordinates of the box, faces included. *)
Theorem moveLineIntoBBX_keeps_inner_segment (this : OctreeBase)
  (origin end_ : Point3) :
  let bbx_min := if isBBXLimitEnabled this then bbx_min_ this
                 else getMin this in
  let bbx_max := if isBBXLimitEnabled this then bbx_max_ this
                 else getMax this in
  within bbx_min bbx_max origin -> within bbx_min bbx_max end_ ->
  moveLineIntoBBX this origin end_ = Some (origin, end_).
Proof.
  intros bbx_min bbx_max Ho He. unfold moveLineIntoBBX. cbv zeta.
  apply moveLineIntoBBX_in_inner; assumption.
Qed.

(** On the unit grid: an end on a face and on an edge of the cube. *)
Lemma moveLineIntoBBX_keeps_inner_segment_witness :
  let origin := mkVector3 (1 # 2) (1 # 2) (1 # 2) in
  let end_ := mkVector3 (7 # 2) (-8) 8 in
  within (getMin grid_tree) (getMax grid_tree) origin
  /\ within (getMin grid_tree) (getMax grid_tree) end_
  /\ moveLineIntoBBX grid_tree origin end_ = Some (origin, end_).
Proof.
  intros origin end_.
  assert (Ho : within (getMin grid_tree) (getMax grid_tree) origin)
    by (intros [| [| i]]; split; intros H; discriminate H).
  assert (He : within (getMin grid_tree) (getMax grid_tree) end_)
    by (intros [| [| i]]; split; intros H; discriminate H).
  split; [exact Ho |]. split; [exact He |].
  exact (moveLineIntoBBX_keeps_inner_segment grid_tree origin end_ Ho He).
Defined.

(** ** The keys of [computeRay] *)

Lemma ray_loop_excludes_end (range : Q) (depth : nat) :
  forall fuel r ray,
    Forall (fun k => key.eqb k (ending r) = false) ray ->
    Forall (fun k => key.eqb k (ending r) = false)
           (snd (while_loop
                   (fun '(r, ray) =>
                      negb (key.eqb (current r) (ending r))
                      && Qle_bool (Vec.min (t_max r)) range)
                   (fun '(r, ray) =>
                      (computeRayTakeStep r depth, ray ++ [current r]))
                   fuel (r, ray))).
Proof.
  induction fuel as [| fuel IH]; intros r ray H; [exact H |].
  cbn [while_loop].
  destruct (negb (key.eqb (current r) (ending r))
            && Qle_bool (Vec.min (t_max r)) range) eqn:E; [| exact H].
  apply andb_true_iff in E. destruct E as [E _].
  apply negb_true_iff in E.
  specialize (IH (computeRayTakeStep r depth) (ray ++ [current r])).
  change (ending (computeRayTakeStep r depth)) with (ending r) in IH.
  apply IH. apply Forall_app. split; [exact H |].
  constructor; [exact E | constructor].
Qed.

Lemma ray_loop_head (range : Q) (depth : nat) :
  forall fuel r ray,
    exists tl,
      snd (while_loop
             (fun '(r, ray) =>
                negb (key.eqb (current r) (ending r))
                && Qle_bool (Vec.min (t_max r)) range)
             (fun '(r, ray) =>
                (computeRayTakeStep r depth, ray ++ [current r]))
             fuel (r, ray)) = ray ++ tl
      /\ (tl = [] \/ exists tl', tl = current r :: tl').
Proof.
  induction fuel as [| fuel IH]; intros r ray.
  - exists []. split; [symmetry; apply app_nil_r | left; reflexivity].
  - cbn [while_loop].
    destruct (negb (key.eqb (current r) (ending r))
              && Qle_bool (Vec.min (t_max r)) range).
    + destruct (IH (computeRayTakeStep r depth) (ray ++ [current r]))
        as (tl & E & _).
      exists (current r :: tl). split.
      * rewrite E, <- app_assoc. reflexivity.
      * right. exists tl. reflexivity.
    + exists []. split; [symmetry; apply app_nil_r | left; reflexivity].
Qed.

Lemma computeRayInit_ends (this : OctreeBase) origin end_ dir depth :
  current (computeRayInit this origin end_ dir depth)
  = coordToKey this origin depth
  /\ ending (computeRayInit this origin end_ dir depth)
     = coordToKey this end_ depth.
Proof.
  unfold computeRayInit.
  destruct (key.eqb _ _); [split; reflexivity |].
  destruct (init_axis this origin dir _ depth 0) as [[s0 d0] m0].
  destruct (init_axis this origin dir _ depth 1) as [[s1 d1] m1].
  destruct (init_axis this origin dir _ depth 2) as [[s2 d2] m2].
  split; reflexivity.
Qed.

Lemma ray_walk_exits (this : OctreeBase) (range : Q) (depth : nat)
  origin end_ dir (keys : list Key) :
  (0 < getNodeSize this depth)%Q ->
  let r0 := computeRayInit this origin end_ dir depth in
  let guard (r : Ray) :=
    negb (key.eqb (current r) (ending r))
    && Qle_bool (Vec.min (t_max r)) range in
  guard (fst (while_loop (fun '(r, ray) => guard r)
                         (fun '(r, ray) =>
                            (computeRayTakeStep r depth, ray ++ [current r]))
                         (ray_fuel range r0) (r0, keys)))
  = false.
Proof.
  intros Hs r0 guard.
  set (cond := fun '(r, _) => guard r : bool).
  set (body := fun '(r, ray) =>
                 (computeRayTakeStep r depth, ray ++ [current r])).
  assert (H : cond (while_loop cond body (ray_fuel range r0) (r0, keys))
              = false).
  { destruct (key.eqb (current r0) (ending r0)) eqn:E.
    - assert (Hc : cond (r0, keys) = false)
        by (unfold cond, guard; rewrite E; reflexivity).
      destruct (ray_fuel range r0); cbn [while_loop];
        [exact Hc | rewrite Hc; exact Hc].
    - apply (while_loop_exits (fun s => positive_delta (fst s))
                              (fun s => ray_fuel range (fst s))).
      + intros [r l] Hp Hc. unfold cond, guard in Hc.
        apply andb_true_iff in Hc as [_ Hc]. cbn [fst body].
        apply ray_fuel_advance; assumption.
      + apply computeRayInit_positive; assumption.
      + apply Nat.le_refl. }
  destruct (while_loop cond body (ray_fuel range r0) (r0, keys)) as [r l].
  exact H.
Qed.

(** X23.  The keys [computeRay] emits.  When the clipped segment misses the
    box there are none.  Otherwise the walk stops by its own test (for a
    positive cell size), the keys begin with the cell of the origin and
    none of them is the cell of the end point. *)
Theorem computeRay_excludes_end_cell (this : OctreeBase)
  (origin end_ : Point3) (max_range : Q) (depth : nat) :
  (0 < getNodeSize this depth)%Q ->
  let direction := Vec.normalize (Vec.sub end_ origin) in
  let clipped :=
    if Qle_bool 0 max_range && Qltb max_range (Vec.distance origin end_)
    then Vec.add origin (Vec.scale direction max_range)
    else end_ in
  let keys := computeRay this origin end_ max_range depth in
  match moveLineIntoBBX this origin clipped with
  | None => keys = []
  | Some (origin', end') =>
      let r0 := computeRayInit this origin' end' direction depth in
      let guard (r : Ray) :=
        negb (key.eqb (current r) (ending r))
        && Qle_bool (Vec.min (t_max r)) max_range in
      guard (fst (while_loop
                    (fun '(r, ray) => guard r)
                    (fun '(r, ray) =>
                       (computeRayTakeStep r depth, ray ++ [current r]))
                    (ray_fuel max_range r0) (r0, []))) = false
      /\ Forall (fun k => key.eqb k (coordToKey this end' depth) = false) keys
      /\ (keys = []
          \/ exists rest, keys = coordToKey this origin' depth :: rest)
  end.
Proof.
  intros Hs direction clipped keys. subst keys. unfold computeRay.
  fold direction. fold clipped.
  destruct (moveLineIntoBBX this origin clipped) as [[origin' end'] |];
    [| reflexivity].
  cbv zeta.
  set (r0 := computeRayInit this origin' end' direction depth).
  destruct (computeRayInit_ends this origin' end' direction depth)
    as [Ec Ee].
  split; [apply (ray_walk_exits this max_range depth); exact Hs |]. split.
  - rewrite <- Ee.
    apply (ray_loop_excludes_end max_range depth). constructor.
  - destruct (ray_loop_head max_range depth (ray_fuel max_range r0) r0 [])
      as (tl & E & [-> | [tl' ->]]).
    + left. exact E.
    + right. exists tl'. rewrite <- Ec. exact E.
Qed.

(** On the unit grid, from (0.5, 0.5, 0.5) to (3.5, 0.5, 0.5) with range
    8. *)
Lemma computeRay_excludes_end_cell_witness :
  let origin := mkVector3 (1 # 2) (1 # 2) (1 # 2) in
  let end_ := mkVector3 (7 # 2) (1 # 2) (1 # 2) in
  (0 < getNodeSize grid_tree 0)%Q
  /\ Forall (fun k => key.eqb k (coordToKey grid_tree end_ 0) = false)
            (computeRay grid_tree origin end_ 8 0)
  /\ exists rest,
      computeRay grid_tree origin end_ 8 0
      = coordToKey grid_tree origin 0 :: rest.
Proof.
  intros origin end_.
  assert (H1 : (0 < getNodeSize grid_tree 0)%Q) by reflexivity.
  split; [exact H1 |].
  pose proof (computeRay_excludes_end_cell grid_tree origin end_ 8 0 H1)
    as H.
  cbv zeta in H.
  assert (E : moveLineIntoBBX grid_tree origin
                (if Qle_bool 0 8 && Qltb 8 (Vec.distance origin end_)
                 then Vec.add origin
                        (Vec.scale (Vec.normalize (Vec.sub end_ origin)) 8)
                 else end_)
              = Some (origin, end_)) by (vm_compute; reflexivity).
  rewrite E in H. destruct H as (_ & A & [B | B]).
  - exfalso. revert B. vm_compute. intros B. discriminate B.
  - split; [exact A | exact B].
Defined.

(** ** The first hit of [castRay] *)

Lemma while_loop_trace {S} (cond : S -> bool) (body : S -> S) :
  forall fuel s,
    exists n : nat,
      while_loop cond body fuel s = Nat.iter n body s
      /\ forall k, (k < n)%nat -> cond (Nat.iter k body s) = true.
Proof.
  induction fuel as [| fuel IH]; intros s.
  - exists 0%nat. split; [reflexivity | intros k Hk; lia].
  - cbn [while_loop]. destruct (cond s) eqn:E.
    + destruct (IH (body s)) as (n & E1 & E2).
      exists (Datatypes.S n). split.
      * rewrite E1. symmetry. apply Nat.iter_succ_r.
      * intros [| k] Hk; [exact E |].
        rewrite Nat.iter_succ_r. apply E2. lia.
    + exists 0%nat. split; [reflexivity | intros k Hk; lia].
Qed.

(** X24.  [castRay] returns the first hit.  When the segment meets the box,
    the walk stops after some number of steps by its own test (for a
    positive cell size); no key it passed before is occupied, nor unknown
    unless unknown space is ignored, each of them was reached within the
    range and none is the end key; the result says whether the key
    at which the walk stopped is occupied, and [end] is that key's
    centre. *)
Theorem castRay_first_hit (this : OctreeBase)
  (origin direction end_ : Point3) (ignore_unknown : bool) (max_range : Q)
  (depth : nat) (origin' end' : Point3) :
  (0 < getNodeSize this depth)%Q ->
  let range := castRay_range this max_range in
  let dir := Vec.normalize direction in
  moveLineIntoBBX this origin (Vec.add origin (Vec.scale dir range))
  = Some (origin', end') ->
  exists n : nat,
    let at_step := ray_after depth (computeRayInit this origin' end' dir depth) in
    (forall k, (k < n)%nat ->
               isOccupied_Key this (current (at_step k)) = false
               /\ (ignore_unknown = false ->
                   isUnknown_Key this (current (at_step k)) = false)
               /\ (Vec.min (t_max (at_step k)) <= range)%Q
               /\ key.eqb (current (at_step k)) (ending (at_step k)) = false)
    /\ castRay_cond this ignore_unknown range (at_step n) = false
    /\ castRay this origin direction end_ ignore_unknown max_range depth
       = (isOccupied_Key this (current (at_step n)),
          keyToCoord this (current (at_step n))).
Proof.
  intros Hs range dir Hbox.
  pose proof (castRay_walk_exits this ignore_unknown range depth origin' end'
                dir Hs) as Hexit.
  cbv zeta in Hexit.
  destruct (while_loop_trace (castRay_cond this ignore_unknown range)
              (fun r => computeRayTakeStep r depth)
              (ray_fuel range (computeRayInit this origin' end' dir depth))
              (computeRayInit this origin' end' dir depth))
    as (n & E1 & E2).
  exists n. cbv zeta. unfold ray_after. split; [| split].
  - intros k Hk. specialize (E2 k Hk). unfold castRay_cond in E2.
    apply andb_true_iff in E2. destruct E2 as [E2 E5].
    apply andb_true_iff in E2. destruct E2 as [E2 E4].
    apply andb_true_iff in E2. destruct E2 as [E2 E3].
    apply negb_true_iff in E2, E4. apply Qle_bool_iff in E3.
    split; [exact E4 |]. split; [| split; [exact E3 | exact E2]].
    intros ->. cbn [orb] in E5. apply negb_true_iff in E5. exact E5.
  - rewrite <- E1. exact Hexit.
  - unfold castRay. fold (castRay_range this max_range). fold range.
    fold dir. rewrite Hbox. rewrite E1. reflexivity.
Qed.

(** On the unit grid with the voxel around (3.5, 0.5, 0.5) hit: from
    (0.5, 0.5, 0.5) along +x with range 6. *)
Lemma castRay_first_hit_witness :
  let origin := mkVector3 (1 # 2) (1 # 2) (1 # 2) in
  let direction := mkVector3 1 0 0 in
  (0 < getNodeSize grid_hit_tree 0)%Q
  /\ moveLineIntoBBX grid_hit_tree origin
       (Vec.add origin
          (Vec.scale (Vec.normalize direction) (castRay_range grid_hit_tree 6)))
     = Some (origin, mkVector3 (13 # 2) (1 # 2) (1 # 2))
  /\ exists n : nat,
      castRay grid_hit_tree origin direction origin3 true 6 0
      = (isOccupied_Key grid_hit_tree
           (current (ray_after 0
                       (computeRayInit grid_hit_tree origin
                          (mkVector3 (13 # 2) (1 # 2) (1 # 2))
                          (Vec.normalize direction) 0) n)),
         keyToCoord grid_hit_tree
           (current (ray_after 0
                       (computeRayInit grid_hit_tree origin
                          (mkVector3 (13 # 2) (1 # 2) (1 # 2))
                          (Vec.normalize direction) 0) n))).
Proof.
  intros origin direction.
  assert (H1 : (0 < getNodeSize grid_hit_tree 0)%Q) by reflexivity.
  assert (H2 : moveLineIntoBBX grid_hit_tree origin
                 (Vec.add origin
                    (Vec.scale (Vec.normalize direction)
                       (castRay_range grid_hit_tree 6)))
               = Some (origin, mkVector3 (13 # 2) (1 # 2) (1 # 2)))
    by (vm_compute; reflexivity).
  split; [exact H1 |]. split; [exact H2 |].
  destruct (castRay_first_hit grid_hit_tree origin direction origin3 true 6 0
              origin (mkVector3 (13 # 2) (1 # 2) (1 # 2)) H1 H2)
    as (n & _ & _ & E).
  exists n. exact E.
Defined.

(** ** The state of a probability *)

(** X26.  [isOccupied(float)], [isFree(float)] and [isUnknown(float)]
    return for no probability, whatever the number of nested calls
    allowed: each is a call of itself. *)
Theorem state_of_probability_never_returns (this : Members) (p : Q)
  (fuel : nat) :
  isOccupied_float fuel this p = None
  /\ isFree_float fuel this p = None
  /\ isUnknown_float fuel this p = None.
Proof.
  revert p. induction fuel as [| fuel IH]; intros p;
    [repeat split |].
  destruct (IH (logit_to_real (logit p))) as (A & B & C).
  split; [exact A |]. split; [exact B | exact C].
Qed.

(** ** The smallest component of a vector *)

(** X27.  [minElementIndex] is the index of a component equal to [min()],
    no component is below [min()], and the components before that index
    are above it: among equal smallest components the first is chosen. *)
Theorem minElementIndex_selects_min (a : Vector3) :
  (Vec.minElementIndex a < 3)%nat
  /\ Vec.get a (Vec.minElementIndex a) = Vec.min a
  /\ (forall i, (Vec.min a <= Vec.get a i)%Q)
  /\ (forall j, (j < Vec.minElementIndex a)%nat ->
                (Vec.min a < Vec.get a j)%Q).
Proof.
  destruct a as [x y z].
  unfold Vec.minElementIndex, Vec.min, Vec.qmin, Qltb.
  cbn [data0 data1 data2].
  destruct (Qle_bool x y) eqn:E1; cbn [negb].
  - destruct (Qle_bool x z) eqn:E2; cbn [negb Vec.get data0 data1 data2].
    + apply Qle_bool_iff in E1, E2.
      split; [lia |]. split; [reflexivity |]. split.
      * intros [| [| i]]; cbn [Vec.get data0 data1 data2]; lra.
      * intros j Hj. lia.
    + apply Qle_bool_iff in E1. apply Qle_bool_false in E2.
      split; [lia |]. split; [reflexivity |]. split.
      * intros [| [| i]]; cbn [Vec.get data0 data1 data2]; lra.
      * intros [| [| j]] Hj; cbn [Vec.get data0 data1 data2]; [lra | lra | lia].
  - destruct (Qle_bool y z) eqn:E2; cbn [negb Vec.get data0 data1 data2].
    + apply Qle_bool_false in E1. apply Qle_bool_iff in E2.
      split; [lia |]. split; [reflexivity |]. split.
      * intros [| [| i]]; cbn [Vec.get data0 data1 data2]; lra.
      * intros [| j] Hj; cbn [Vec.get data0 data1 data2]; [lra | lia].
    + apply Qle_bool_false in E1. apply Qle_bool_false in E2.
      split; [lia |]. split; [reflexivity |]. split.
      * intros [| [| i]]; cbn [Vec.get data0 data1 data2]; lra.
      * intros [| [| j]] Hj; cbn [Vec.get data0 data1 data2]; [lra | lra | lia].
Qed.

(** On the vector (3, 1, 1). *)
Lemma minElementIndex_selects_min_witness :
  (0 < Vec.minElementIndex (mkVector3 3 1 1))%nat
  /\ (Vec.min (mkVector3 3 1 1) < Vec.get (mkVector3 3 1 1) 0)%Q.
Proof.
  assert (H : (0 < Vec.minElementIndex (mkVector3 3 1 1))%nat)
    by (vm_compute; lia).
  split; [exact H |].
  exact (proj2 (proj2 (proj2 (minElementIndex_selects_min (mkVector3 3 1 1))))
           0%nat H).
Defined.

(** ** Sound summaries after an update *)

Section IeeeSummaries.
Import ieee.

Lemma ieee_settings_set_counters m a b c :
  settings (set_counters m a b c) = settings m.
Proof. destruct m; reflexivity. Qed.

Lemma ieee_settings_set_changed_codes_ m s :
  settings (set_changed_codes_ m s) = settings m.
Proof. destruct m; reflexivity. Qed.

Lemma ieee_settings_note_change m c : settings (note_change m c) = settings m.
Proof.
  unfold note_change. destruct (change_detection_enabled_ m);
    [apply ieee_settings_set_changed_codes_ | reflexivity].
Qed.

Lemma ieee_settings_auto m m' :
  settings m = settings m' ->
  automatic_pruning_enabled_ m = automatic_pruning_enabled_ m'.
Proof.
  intros H. apply (f_equal automatic_pruning_enabled_) in H.
  destruct m, m'; exact H.
Qed.

Lemma ieee_createChildren_settings m d n :
  settings (snd (createChildren m d n)) = settings m.
Proof.
  unfold createChildren. destruct (children n); [reflexivity |].
  destruct d; apply ieee_settings_set_counters.
Qed.

Lemma ieee_expand_settings m d n : settings (snd (expand m d n)) = settings m.
Proof.
  unfold expand. destruct (negb (all_children_same n)); [reflexivity |].
  pose proof (ieee_createChildren_settings m d n) as H.
  destruct (createChildren m d n) as [[b n1] m1]. exact H.
Qed.

Lemma ieee_deleteChildren_settings d :
  forall (n : InnerNode (NodeT d)) manual m,
    settings (snd (deleteChildren d n manual m)) = settings m.
Proof.
  induction d as [| d IH]; intros n manual m; cbn [deleteChildren];
    change (children (set_all_children_same n true)) with (children n).
  - destruct (children n);
      [destruct (negb manual && negb (automatic_pruning_enabled_ m)) |];
      try reflexivity.
    apply ieee_settings_set_counters.
  - destruct (children n) as [ch |];
      [destruct (negb manual && negb (automatic_pruning_enabled_ m)) |];
      try reflexivity.
    match goal with
    | |- context [oct.mapS ?f ch m] =>
        pose proof (oct_mapS_state (fun s => settings s = settings m) f ch m)
          as H;
        destruct (oct.mapS f ch m) as [ch1 m1]
    end.
    cbn [snd] in *. rewrite ieee_settings_set_counters. apply H; [| reflexivity].
    intros i a s Hs. rewrite IH. exact Hs.
Qed.

Lemma ieee_prune_settings m d n manual :
  settings (snd (prune m d n manual)) = settings m.
Proof.
  unfold prune. pose proof (ieee_deleteChildren_settings d n manual m) as H.
  destruct (deleteChildren d n manual m) as [n1 m1]. exact H.
Qed.

Lemma ieee_updateNode_settings m d n :
  settings (snd (updateNode m d n)) = settings m.
Proof.
  unfold updateNode. destruct (children n) as [ch |]; [| reflexivity].
  destruct (isNodeCollapsible d ch).
  - pose proof (ieee_prune_settings m d (set_logit n (logit_of (c0 ch))) false) as H.
    destruct (prune m d _ false) as [n1 m1]. exact H.
  - destruct (childFlags m d ch) as [cf cu].
    match goal with |- context [if ?c then _ else _] => destruct c end;
      reflexivity.
Qed.

Lemma ieee_updateNodeValueRecurs_settings v sv :
  forall d c (n : NodeT d) m,
    settings (snd (updateNodeValueRecurs v sv d c n m)) = settings m.
Proof.
  induction d as [| d IH]; intros c n m; cbn [updateNodeValueRecurs].
  - apply ieee_settings_note_change.
  - destruct (code.getDepth c <? S d)%nat.
    + pose proof (ieee_expand_settings m d n) as HE.
      destruct (expand m d n) as [[b n1] m1]. cbn [snd] in HE.
      destruct (children n1) as [ch |]; [| exact HE].
      pose proof (IH c (oct.get (code.getChildIdx c d) ch) m1) as HR.
      destruct (updateNodeValueRecurs v sv d c _ m1)
        as [[[child changed] cn] m2]. cbn [snd] in HR.
      destruct changed; [| cbn [snd]; congruence].
      match goal with
      | |- context [updateNode m2 d ?x] =>
          pose proof (ieee_updateNode_settings m2 d x) as HU;
          destruct (updateNode m2 d x) as [[chg n2] m3]
      end.
      cbn [snd] in *. destruct chg; [rewrite ieee_settings_note_change |];
        congruence.
    + destruct sv.
      { match goal with
        | |- context [prune m d ?x false] =>
            pose proof (ieee_prune_settings m d x false) as HP;
            destruct (prune m d x false) as [n1 m1]
        end.
        cbn [snd] in *. rewrite ieee_settings_note_change. exact HP. }
      match goal with |- context [if ?b then _ else _] => destruct b end.
      { match goal with
        | |- context [prune m d ?x false] =>
            pose proof (ieee_prune_settings m d x false) as HP;
            destruct (prune m d x false) as [n1 m1]
        end.
        cbn [snd] in *. rewrite ieee_settings_note_change. exact HP. }
      match goal with |- context [if ?b then _ else _] => destruct b end;
        [| cbn [snd]; apply ieee_settings_note_change].
      match goal with
      | |- context [children ?x] => destruct (children x) as [ch |]
      end; [| cbn [snd]; apply ieee_settings_note_change].
      match goal with
      | |- context [oct.mapS ?f ch m] =>
          pose proof (oct_mapS_state (fun s => settings s = settings m) f ch m)
            as H;
          destruct (oct.mapS f ch m) as [ch1 m1]
      end.
      cbn [snd] in H.
      match goal with
      | |- context [updateNode m1 d ?x] =>
          pose proof (ieee_updateNode_settings m1 d x) as HU;
          destruct (updateNode m1 d x) as [[chg n2] m2]
      end.
      cbn [snd] in *. rewrite ieee_settings_note_change, HU.
      apply H; [| reflexivity].
      intros i a s Hs.
      pose proof (IH (code.getChild c i) a s) as HR.
      destruct (updateNodeValueRecurs v false d (code.getChild c i) a s)
        as [[r0 cn] s0]. cbn [snd] in *. congruence.
Qed.

Lemma ieee_logit_of_S d (n : InnerNode (NodeT d)) :
  @logit_of (S d) n = logit_ (base n).
Proof. reflexivity. Qed.

Lemma ieee_block_matches_flag_S d (n : InnerNode (NodeT d)) :
  block_matches_flag (S d) n
  <-> match children n with
      | None => all_children_same n = true
      | Some ch =>
          all_children_same n = false /\ oct.All (block_matches_flag d) ch
      end.
Proof. reflexivity. Qed.

Lemma ieee_block_matches_flag_none d (n : InnerNode (NodeT d)) :
  block_matches_flag (S d) n -> children n = None ->
  all_children_same n = true.
Proof.
  intros H E. pose proof (proj1 (ieee_block_matches_flag_S d n) H) as B.
  rewrite E in B. exact B.
Qed.

Lemma ieee_block_matches_flag_some d (n : InnerNode (NodeT d)) ch :
  block_matches_flag (S d) n -> children n = Some ch ->
  all_children_same n = false /\ oct.All (block_matches_flag d) ch.
Proof.
  intros H E. pose proof (proj1 (ieee_block_matches_flag_S d n) H) as B.
  rewrite E in B. exact B.
Qed.

Lemma ieee_seed_child_leaf d (p : InnerNode (NodeT d)) (x : NodeT d) :
  logit_of (seed_child d p x) = logit_ (base p).
Proof. destruct d; reflexivity. Qed.

(** After [expand] a consistent node has its block. *)
Lemma ieee_expand_shape m d (n : InnerNode (NodeT d)) :
  block_matches_flag (S d) n ->
  let n1 := snd (fst (expand m d n)) in
  all_children_same n1 = false
  /\ exists ch,
      children n1 = Some ch /\ oct.All (block_matches_flag d) ch.
Proof.
  intros Hn. unfold expand.
  destruct (all_children_same n) eqn:Ef; cbn [negb].
  - unfold createChildren.
    destruct (children n) as [ch |] eqn:Ech;
      [destruct (ieee_block_matches_flag_some d n ch Hn Ech); congruence |].
    cbn [fst snd]. split; [reflexivity |].
    eexists. split; [reflexivity |].
    destruct d; cbn; repeat split.
  - cbn [fst snd]. split; [exact Ef |].
    destruct (children n) as [ch |] eqn:Ech;
      [| pose proof (ieee_block_matches_flag_none d n Hn Ech); congruence].
    exists ch. split; [reflexivity |].
    exact (proj2 (ieee_block_matches_flag_some d n ch Hn Ech)).
Qed.

Lemma ieee_updateNodeValueRecurs_S v sv d c (n : InnerNode (NodeT d)) m :
  updateNodeValueRecurs v sv (S d) c n m
  = if (code.getDepth c <? S d)%nat then
      let '(_, inner_node, this) := expand m d n in
      let child_idx := code.getChildIdx c d in
      match children inner_node with
      | None => ((mkNode None c, false), inner_node, this)
      | Some ch =>
          let '((child, changed), child_node, this) :=
            updateNodeValueRecurs v sv d c (oct.get child_idx ch) this in
          let inner_node :=
            set_children inner_node (Some (oct.set child_idx child_node ch)) in
          if changed then
            let '(changed, inner_node, this) := updateNode this d inner_node in
            let this :=
              if changed then note_change this (code.toDepth c (S d))
              else this in
            ((child, changed), inner_node, this)
          else ((child, changed), inner_node, this)
      end
    else
      let '(n, this) :=
        if sv then
          let n := set_logit n (clamp v (clamping_thres_min_log_ m)
                                        (clamping_thres_max_log_ m)) in
          prune m d n false
        else
          let n := set_logit n (clamp (flt_add (logit_ (base n)) v)
                                      (clamping_thres_min_log_ m)
                                      (clamping_thres_max_log_ m)) in
          if negb (isOccupied m (base n)) then prune m d n false
          else if hasChildren n then
            match children n with
            | None => (n, m)
            | Some ch =>
                let '(ch, this) :=
                  oct.mapS
                    (fun child_idx child_node this =>
                       let '(_, child_node, this) :=
                         updateNodeValueRecurs v sv d (code.getChild c child_idx)
                                               child_node this in
                       (child_node, this))
                    ch m in
                let '(_, n, this) :=
                  updateNode this d (set_children n (Some ch)) in
                (n, this)
            end
          else (n, m) in
      let this := note_change this c in
      ((mkNode (node_ptr (d:=S d) n) c, true), n, this).
Proof. reflexivity. Qed.

Lemma ieee_deleteChildren_frees d (n : InnerNode (NodeT d)) manual m :
  negb manual && negb (automatic_pruning_enabled_ m) = false ->
  children (fst (deleteChildren d n manual m)) = None.
Proof.
  intros Hb. destruct d; cbn [deleteChildren];
    change (children (set_all_children_same n true)) with (children n);
    rewrite Hb.
  - destruct (children n) eqn:E; [reflexivity | exact E].
  - destruct (children n) as [ch |] eqn:E; [| exact E].
    match goal with
    | |- context [oct.mapS ?f ch m] => destruct (oct.mapS f ch m) as [ch1 m1]
    end.
    reflexivity.
Qed.

Lemma flt_eq_true a b : flt_eq a b = true -> a = b.
Proof. intros H. flt_cases. Qed.

Lemma flt_le_refl a : is_nan a = false -> flt_le a a = true.
Proof. intros H. flt_cases. Qed.

Lemma flt_le_trans a b c :
  flt_le a b = true -> flt_le b c = true -> flt_le a c = true.
Proof. intros H1 H2. flt_cases. Qed.

Lemma flt_max_bounds a x :
  is_nan a = false -> is_nan x = false ->
  flt_le a (if flt_lt a x then x else a) = true
  /\ flt_le x (if flt_lt a x then x else a) = true
  /\ is_nan (if flt_lt a x then x else a) = false.
Proof. intros H1 H2. flt_cases. Qed.

Lemma ieee_dominated_S d (n : InnerNode (NodeT d)) :
  dominated (S d) n
  <-> match children n with
      | None => True
      | Some ch =>
          oct.All (fun c => flt_le (logit_of c) (logit_ (base n)) = true
                            /\ dominated d c) ch
      end.
Proof. reflexivity. Qed.

Lemma ieee_dominated_none d (n : InnerNode (NodeT d)) :
  children n = None -> dominated (S d) n.
Proof. intros E. apply ieee_dominated_S. rewrite E. exact I. Qed.

Lemma ieee_dominated_some d (n : InnerNode (NodeT d)) ch :
  children n = Some ch ->
  oct.All (fun c => flt_le (logit_of c) (logit_ (base n)) = true
                    /\ dominated d c) ch ->
  dominated (S d) n.
Proof. intros E H. apply ieee_dominated_S. rewrite E. exact H. Qed.

Lemma ieee_dominated_children d (n : InnerNode (NodeT d)) ch :
  dominated (S d) n -> children n = Some ch ->
  oct.All (fun c => flt_le (logit_of c) (logit_ (base n)) = true
                    /\ dominated d c) ch.
Proof.
  intros H E. pose proof (proj1 (ieee_dominated_S d n) H) as B.
  rewrite E in B. exact B.
Qed.

(** Over numbers the running maximum is not below its start value nor
    below any value it has seen. *)
Lemma ieee_fold_max_ge {A} (f : A -> float) (l : list A) :
  Forall (fun a => is_nan (f a) = false) l ->
  forall init, is_nan init = false ->
    flt_le init
      (fold_left (fun max c => if flt_lt max (f c) then f c else max) l init)
    = true
    /\ forall a, In a l ->
         flt_le (f a)
           (fold_left (fun max c => if flt_lt max (f c) then f c else max)
                      l init)
         = true.
Proof.
  induction 1 as [| x l Hx Hl IH]; intros init Hi; cbn [fold_left].
  - split; [apply flt_le_refl; exact Hi | intros a []].
  - destruct (flt_max_bounds init (f x) Hi Hx) as (B1 & B2 & B3).
    destruct (IH _ B3) as [H1 H2].
    split; [exact (flt_le_trans _ _ _ B1 H1) |].
    intros a [<- | Ha]; [exact (flt_le_trans _ _ _ B2 H1) | apply H2, Ha].
Qed.

(** [getMaxChildLogit] is not below the logit of any child, when no child
    holds NaN. *)
Lemma ieee_getMaxChildLogit_ge d (ch : Oct (NodeT d)) (i : nat) :
  oct.All (fun c => is_nan (logit_of c) = false) ch ->
  flt_le (logit_of (oct.get i ch)) (getMaxChildLogit d ch) = true.
Proof.
  intros Hn. destruct d; cbn [getMaxChildLogit].
  - apply (proj2 (ieee_fold_max_ge (fun c : OccupancyNode => logit_ c)
                    (oct.to_list ch) (oct_All_to_list _ _ Hn)
                    (logit_ (c0 ch)) (proj1 Hn))).
    apply oct_get_in.
  - apply (proj2 (ieee_fold_max_ge
                    (fun c : InnerNode (NodeT d) => logit_ (base c))
                    (oct.to_list ch) (oct_All_to_list _ _ Hn)
                    (Fin FLT_LOWEST) eq_refl)).
    apply oct_get_in.
Qed.

Lemma ieee_prune_dominated m d (n : InnerNode (NodeT d)) :
  automatic_pruning_enabled_ m = true ->
  dominated (S d) (fst (prune m d n false)).
Proof.
  intros Ha. unfold prune.
  pose proof (ieee_deleteChildren_frees d n false m
                ltac:(rewrite Ha; reflexivity)) as H.
  destruct (deleteChildren d n false m) as [n1 m1]. cbn [fst] in *.
  apply ieee_dominated_none. exact H.
Qed.

Lemma ieee_updateNode_dominated m d (n : InnerNode (NodeT d)) ch :
  automatic_pruning_enabled_ m = true ->
  children n = Some ch -> oct.All (dominated d) ch ->
  oct.All (fun c => is_nan (logit_of c) = false) ch ->
  dominated (S d) (snd (fst (updateNode m d n))).
Proof.
  intros Ha Ech Hall Hnum. unfold updateNode. rewrite Ech.
  destruct (isNodeCollapsible d ch).
  - pose proof (ieee_prune_dominated m d (set_logit n (logit_of (c0 ch))) Ha)
      as H.
    destruct (prune m d _ false) as [n1 m1]. exact H.
  - destruct (childFlags m d ch) as [cf cu].
    match goal with
    | |- context [if ?b then _ else _] => destruct b eqn:Eb
    end; cbn [fst snd].
    + apply (ieee_dominated_some d _ ch); [exact Ech |].
      apply oct_All_get_inv. intros i _. split.
      * apply ieee_getMaxChildLogit_ge. exact Hnum.
      * apply oct_All_get. exact Hall.
    + apply orb_false_iff in Eb. destruct Eb as [Eb _].
      apply orb_false_iff in Eb. destruct Eb as [Eb _].
      apply negb_false_iff, flt_eq_true in Eb.
      apply (ieee_dominated_some d _ ch); [exact Ech |].
      apply oct_All_get_inv. intros i _. split.
      * rewrite Eb. apply ieee_getMaxChildLogit_ge. exact Hnum.
      * apply oct_All_get. exact Hall.
Qed.

(** After [expand] every child is bounded by the node. *)
Lemma ieee_expand_dominated m d (n : InnerNode (NodeT d)) :
  block_matches_flag (S d) n -> dominated (S d) n ->
  is_nan (logit_ (base n)) = false ->
  let n1 := snd (fst (expand m d n)) in
  base n1 = base n
  /\ forall ch, children n1 = Some ch ->
                oct.All (fun c => flt_le (logit_of c) (logit_ (base n)) = true
                                  /\ dominated d c) ch.
Proof.
  intros Hn Hd Hnum. unfold expand.
  destruct (all_children_same n) eqn:Ef; cbn [negb].
  - unfold createChildren.
    destruct (children n) as [ch |] eqn:Ech;
      [destruct (ieee_block_matches_flag_some d n ch Hn Ech); congruence |].
    cbn [fst snd]. split; [reflexivity |].
    intros ch E. injection E as <-.
    apply oct_All_get_inv. intros i _. rewrite oct_get_map.
    rewrite ieee_seed_child_leaf.
    split; [apply flt_le_refl; exact Hnum |].
    destruct d; [exact I |].
    apply ieee_dominated_none. cbn [seed_child children new_children].
    rewrite oct_get_replicate. reflexivity.
  - cbn [fst snd]. split; [reflexivity |].
    intros ch E. exact (ieee_dominated_children d n ch Hd E).
Qed.

Lemma ieee_expand_base m d (n : InnerNode (NodeT d)) :
  base (snd (fst (expand m d n))) = base n.
Proof.
  unfold expand. destruct (negb (all_children_same n)); [reflexivity |].
  unfold createChildren. destruct (children n); reflexivity.
Qed.

(** A call that reports no change leaves the logit of the node. *)
Lemma ieee_unchanged_keeps_logit v sv d c (n : NodeT d) m :
  snd (fst (fst (updateNodeValueRecurs v sv d c n m))) = false ->
  logit_of (snd (fst (updateNodeValueRecurs v sv d c n m))) = logit_of n.
Proof.
  destruct d as [| d]; [cbn; discriminate |].
  rewrite ieee_updateNodeValueRecurs_S.
  destruct (code.getDepth c <? S d)%nat.
  - pose proof (ieee_expand_base m d n) as Hb.
    destruct (expand m d n) as [[b n1] m1]. cbn [fst snd] in Hb.
    cbv zeta.
    match goal with
    | |- context [match ?x with Some _ => _ | None => _ end] =>
        destruct x as [ch |] eqn:Ech
    end.
    2:{ intros _. cbn [fst snd]. rewrite !ieee_logit_of_S, Hb. reflexivity. }
    match goal with
    | |- context [updateNodeValueRecurs v sv d c ?x m1] =>
        destruct (updateNodeValueRecurs v sv d c x m1)
          as [[[child changed] cn] m2]
    end.
    destruct changed.
    + match goal with
      | |- context [updateNode m2 d ?x] =>
          assert (HU : snd (fst (updateNode m2 d x)) = x
                       \/ fst (fst (updateNode m2 d x)) = true);
          [| destruct (updateNode m2 d x) as [[chg n2] m3]]
      end.
      { unfold updateNode. cbn [children set_children].
        destruct (isNodeCollapsible d _).
        - right. destruct (prune m2 d _ false) as [n2 m3]. reflexivity.
        - destruct (childFlags m2 d _) as [cf cu].
          match goal with
          | |- context [if ?b then _ else _] => destruct b
          end; [right | left]; reflexivity. }
      cbn [fst snd] in *. intros E. destruct HU as [-> | ->]; [| discriminate].
      rewrite !ieee_logit_of_S. cbn [base set_children]. rewrite Hb.
      reflexivity.
    + intros _. cbn [fst snd]. rewrite !ieee_logit_of_S.
      cbn [base set_children]. rewrite Hb. reflexivity.
  - match goal with
    | |- context [note_change (snd ?X) c] => destruct X as [n1 m1]
    | |- context [let '(n, this) := ?X in _] => destruct X as [n1 m1]
    end.
    cbn. discriminate.
Qed.

Lemma logits_in_number lo hi d (n : NodeT d) :
  logits_in lo hi d n -> is_nan (logit_of n) = false.
Proof.
  intros H. exact (between_number _ _ _ (logit_of_in _ _ _ _ H)).
Qed.

Lemma ieee_updateNodeValueRecurs_dominated lo hi v sv :
  usable v sv -> flt_le (Fin FLT_LOWEST) hi = true ->
  forall d c (n : NodeT d) m,
    automatic_pruning_enabled_ m = true -> clamps m lo hi ->
    block_matches_flag d n -> logits_in lo hi d n -> dominated d n ->
    dominated d (snd (fst (updateNodeValueRecurs v sv d c n m))).
Proof.
  intros Hv Hlow.
  induction d as [| d IH]; intros c n m Ha Hm Hn Hin Hd; [exact I |].
  pose proof (ieee_unchanged_keeps_logit v sv) as Hkeep.
  rewrite ieee_updateNodeValueRecurs_S.
  destruct (code.getDepth c <? S d)%nat.
  - pose proof (ieee_expand_shape m d n Hn) as (Hf & ch & Hch & Hall).
    pose proof (ieee_expand_dominated m d n Hn Hd
                  (between_number _ _ _ (logits_in_base _ _ _ _ Hin)))
      as [Hb Hdom].
    pose proof (ieee_expand_settings m d n) as Hset.
    pose proof (expand_logits_in lo hi m d n Hm Hin) as [Hin1 Hm1].
    destruct (expand m d n) as [[b n1] m1]. cbn [fst snd] in *.
    specialize (Hdom ch Hch). rewrite Hch.
    assert (Ha1 : automatic_pruning_enabled_ m1 = true)
      by (rewrite (ieee_settings_auto _ _ Hset); exact Ha).
    pose proof (logits_in_children _ _ _ _ _ Hin1 Hch) as Hinch.
    pose proof (IH c (oct.get (code.getChildIdx c d) ch) m1 Ha1 Hm1
                  (oct_All_get _ _ _ Hall) (oct_All_get _ _ _ Hinch)
                  (proj2 (oct_All_get _ _ (code.getChildIdx c d) Hdom)))
      as Hcn.
    specialize (Hkeep d c (oct.get (code.getChildIdx c d) ch) m1).
    pose proof (ieee_updateNodeValueRecurs_settings v sv d c
                  (oct.get (code.getChildIdx c d) ch) m1) as Hset2.
    destruct (updateNodeValueRecurs v sv d c _ m1)
      as [[[child changed] cn] m2] eqn:ER. cbn [fst snd] in *.
    destruct (updateNodeValueRecurs_logits_in lo hi v sv Hv Hlow _ _ _ _ _ _ _
                ER Hm1 (oct_All_get _ _ _ Hinch)) as [Hincn Hm2].
    destruct changed.
    + match goal with
      | |- context [updateNode m2 d ?x] =>
          pose proof (ieee_updateNode_dominated m2 d x
                        (oct.set (code.getChildIdx c d) cn ch)
                        ltac:(rewrite (ieee_settings_auto _ _ Hset2); exact Ha1)
                        eq_refl) as HU;
          destruct (updateNode m2 d x) as [[chg n2] m3]
      end.
      cbn [fst snd] in *. apply HU.
      * apply oct_All_set; [| exact Hcn].
        revert Hdom. apply oct_All_impl. intros a Ha'. apply Ha'.
      * apply oct_All_set; [| exact (logits_in_number _ _ _ _ Hincn)].
        revert Hinch. apply oct_All_impl. intros a Ha'.
        exact (logits_in_number _ _ _ _ Ha').
    + cbn [fst snd].
      apply (ieee_dominated_some d _
               (oct.set (code.getChildIdx c d) cn ch)); [reflexivity |].
      apply oct_All_set.
      * revert Hdom. apply oct_All_impl. intros a [A1 A2].
        split; [| exact A2].
        cbn [base set_children]. rewrite Hb. exact A1.
      * split; [| exact Hcn].
        rewrite (Hkeep eq_refl). cbn [base set_children]. rewrite Hb.
        apply (oct_All_get _ _ (code.getChildIdx c d) Hdom).
  - assert (Hp : forall x, dominated (S d) (fst (prune m d x false)))
      by (intros x; apply ieee_prune_dominated; exact Ha).
    destruct sv; cbv iota zeta.
    { match goal with
      | |- context [prune m d ?x false] =>
          specialize (Hp x); destruct (prune m d x false) as [n1 m1]
      end.
      exact Hp. }
    match goal with |- context [if ?b then _ else _] => destruct b end.
    { match goal with
      | |- context [prune m d ?x false] =>
          specialize (Hp x); destruct (prune m d x false) as [n1 m1]
      end.
      exact Hp. }
    match goal with |- context [if ?b then _ else _] => destruct b eqn:Eh end.
    2:{ cbn [fst snd]. apply ieee_dominated_none.
        change (children n = None).
        unfold hasChildren in Eh. apply negb_false_iff in Eh.
        change (@all_children_same (NodeT d) n = true) in Eh.
        destruct (children n) as [ch |] eqn:Ech; [| reflexivity].
        change (children n = Some ch) in Ech.
        destruct (ieee_block_matches_flag_some d n ch Hn Ech) as [Hf _].
        change (@all_children_same (NodeT d) n = false) in Hf.
        rewrite Eh in Hf. discriminate Hf. }
    match goal with
    | |- context [children ?x] => destruct (children x) as [ch |] eqn:Ech
    end; [| cbn [fst snd]; apply ieee_dominated_none; exact Ech].
    change (children n = Some ch) in Ech.
    destruct (ieee_block_matches_flag_some d n ch Hn Ech) as [Hf Hall].
    pose proof (ieee_dominated_children d n ch Hd Ech) as Hdom.
    pose proof (logits_in_children _ _ _ _ _ Hin Ech) as Hinch.
    match goal with
    | |- context [oct.mapS ?f ch m] =>
        destruct (oct.mapS f ch m) as [ch1 m1] eqn:EM;
        destruct (oct_mapS_inv
                    (fun a => block_matches_flag d a /\ dominated d a
                              /\ logits_in lo hi d a)
                    (fun a => dominated d a /\ logits_in lo hi d a)
                    (fun s => automatic_pruning_enabled_ s = true
                              /\ clamps s lo hi)
                    f ch m ch1 m1) as [Hch1 [Ha1 Hm1]];
        [| | exact (conj Ha Hm) | exact EM |]
    end.
    { intros i a s b s' Ef (Hb1 & Hb2 & Hb3) [Hs1 Hs2].
      pose proof (IH (code.getChild c i) a s Hs1 Hs2 Hb1 Hb3 Hb2) as H1.
      pose proof (ieee_updateNodeValueRecurs_settings v false d
                    (code.getChild c i) a s) as H2.
      destruct (updateNodeValueRecurs v false d (code.getChild c i) a s)
        as [[r0 cn] s0] eqn:ER. cbn [fst snd] in *.
      destruct (updateNodeValueRecurs_logits_in lo hi v false Hv Hlow
                  _ _ _ _ _ _ _ ER Hs2 Hb3) as [H3 H4].
      injection Ef as <- <-. split; [split; assumption |].
      split; [| exact H4].
      rewrite (ieee_settings_auto _ _ H2). exact Hs1. }
    { apply oct_All_get_inv. intros i _. split; [| split].
      - apply oct_All_get. exact Hall.
      - apply (oct_All_get _ _ i Hdom).
      - apply oct_All_get. exact Hinch. }
    match goal with
    | |- context [updateNode m1 d ?x] =>
        pose proof (ieee_updateNode_dominated m1 d x ch1 Ha1 eq_refl) as HU;
        destruct (updateNode m1 d x) as [[chg n2] m2]
    end.
    cbn [fst snd] in *. apply HU.
    + revert Hch1. apply oct_All_impl. intros a Ha'. apply Ha'.
    + revert Hch1. apply oct_All_impl. intros a Ha'.
      exact (logits_in_number _ _ _ _ (proj2 Ha')).
Qed.

Lemma ieee_with_root_dominated (this : OctreeBase) v sv c :
  usable v sv ->
  flt_le (Fin FLT_LOWEST) (clamping_thres_max_log_ this) = true ->
  (0 < depth_levels_ this)%nat ->
  automatic_pruning_enabled_ this = true -> tree_consistent this ->
  stored_logits_clamped this -> tree_dominated this ->
  let '(_, root, m) :=
    updateNodeValueRecurs v sv (depth_levels_ this) c
                          (root_view _ (root_ this)) this in
  tree_dominated (with_root this m root).
Proof.
  intros Hv Hlow HL Ha Hn Hin Hd.
  destruct this as [m L r]. cbn [depth_levels_ root_ members] in *.
  destruct L as [| L]; [lia |].
  pose proof (ieee_updateNodeValueRecurs_dominated
                (clamping_thres_min_log_ m) (clamping_thres_max_log_ m)
                v sv Hv Hlow (S L) c r m Ha (conj eq_refl eq_refl) Hn Hin Hd)
    as H.
  cbn [root_view].
  destruct (updateNodeValueRecurs v sv (S L) c r m) as [[r0 root] m0].
  exact H.
Qed.



(** Without the restriction to numbers the summaries break: once
    [setProbMiss] has stored NaN, a miss leaves a child that no
    comparison places below its parent. *)
Lemma nan_breaks_summaries :
  tree_dominated (setProbMiss ieee_steep_tree (4 # 10))
  /\ ~ tree_dominated
         (snd (integrateMiss (setProbMiss ieee_steep_tree (4 # 10)) code_A)).
Proof.
  split; [vm_compute; exact I |].
  vm_compute. intros H. decompose [and] H. discriminate.
Qed.

End IeeeSummaries.

(** ** The state of a logit *)

Section IeeeState.
Import ieee.

(** X25.  When the free threshold is not above the occupancy threshold,
    exactly one of [isOccupiedLog], [isFreeLog] and [isUnknownLog] holds
    of a logit that is not NaN; of NaN none of the three holds,
    whatever the thresholds. *)
Theorem node_state_trichotomy (this : Members) (l : float) :
  (isOccupiedLog this NaN = false /\ isFreeLog this NaN = false
   /\ isUnknownLog this NaN = false)
  /\ (flt_le (free_thres_log_ this) (occupancy_thres_log_ this) = true ->
      is_nan l = false ->
      (isOccupiedLog this l = true /\ isFreeLog this l = false
       /\ isUnknownLog this l = false)
      \/ (isOccupiedLog this l = false /\ isFreeLog this l = true
          /\ isUnknownLog this l = false)
      \/ (isOccupiedLog this l = false /\ isFreeLog this l = false
          /\ isUnknownLog this l = true)).
Proof.
  unfold isOccupiedLog, isFreeLog, isUnknownLog.
  destruct (free_thres_log_ this) as [| f | |];
    destruct (occupancy_thres_log_ this) as [| o | |];
    (split; [repeat split |]); intros H N; try discriminate H;
    destruct l as [| z | |]; try discriminate N;
    cbn [flt_le flt_lt andb] in *;
    try (apply Z.leb_le in H);
    repeat match goal with
           | |- context [(?a <? ?b)] => destruct (Z.ltb_spec a b)
           | |- context [(?a <=? ?b)] => destruct (Z.leb_spec a b)
           end;
    cbn [andb]; try lia; tauto.
Qed.

(** On [ieee_hit_tree]: the logit 0 is unknown. *)
Lemma node_state_trichotomy_witness :
  flt_le (free_thres_log_ ieee_hit_tree) (occupancy_thres_log_ ieee_hit_tree)
  = true
  /\ is_nan (Fin 0) = false
  /\ isOccupiedLog ieee_hit_tree (Fin 0) = false
  /\ isFreeLog ieee_hit_tree (Fin 0) = false
  /\ isUnknownLog ieee_hit_tree (Fin 0) = true.
Proof.
  assert (H1 : flt_le (free_thres_log_ ieee_hit_tree)
                      (occupancy_thres_log_ ieee_hit_tree) = true)
    by reflexivity.
  split; [exact H1 |]. split; [reflexivity |].
  destruct (proj2 (node_state_trichotomy ieee_hit_tree (Fin 0)) H1 eq_refl)
    as [(A & _) | [(_ & A & _) | A]];
    [discriminate A | discriminate A | exact A].
Defined.

End IeeeState.
